(** * go-webdav: lock manager, If-header conditions and method dispatcher

  A shallow embedding of the WebDAV server core (package [webdav] with its
  sub-packages [path], [cond] and [xml]) together with the properties of
  the design document that are checked against it.

  Conventions of the embedding:
  - a Go [string] is a [string] (a sequence of bytes); a [rune] and an
    [int] are integers in [Z]; a [time.Duration] and a [time.Time] are a
    number of nanoseconds in [Z];
  - a Go [map[string]*lock] is a [gmap string lock]; the order in which a
    [range] statement visits it is an explicit argument, since Go leaves
    it unspecified;
  - a method with side effects takes the state it works on and returns
    the new one; [time.Now()] is an argument [now], read once per
    operation of the lock manager;
  - functions of the Go standard library are either written out
    ([path.Clean], [strings.Split], [strconv.Atoi], UTF-8 conversion) or
    taken as variables of a section ([url.Parse], [strings.TrimSpace],
    the XML decoder). *)

From Stdlib Require Import ZArith String Ascii List Bool Lia DecimalString.
From stdpp Require Import base option list gmap strings.

Local Open Scope string_scope.
Local Open Scope Z_scope.

(** ** Strings of the Go standard library *)

Module GoStr.

(** [s[n:]] for [n <= len(s)]. *)
Fixpoint from (n : nat) (s : string) : string :=
  match n, s with
  | O, _ => s
  | S _, EmptyString => EmptyString
  | S n', String _ s' => from n' s'
  end.

(** [strings.HasPrefix(s, p)]. *)
Definition HasPrefix (s p : string) : bool := String.prefix p s.

(** [strings.HasSuffix(s, suffix)]. *)
Definition HasSuffix (s suffix : string) : bool :=
  (String.length suffix <=? String.length s)%nat
  && String.eqb (from (String.length s - String.length suffix) s) suffix.

(** [strings.Split(s, sep)] for a separator of one byte: the pieces
    between the separators, one more than there are separators. *)
Fixpoint Split (s : string) (sep : ascii) : list string :=
  match s with
  | EmptyString => [EmptyString]
  | String c s' =>
      if Ascii.eqb c sep then EmptyString :: Split s' sep
      else match Split s' sep with
           | [] => [String c EmptyString]
           | piece :: pieces => String c piece :: pieces
           end
  end.

(** [strings.Join(elems, sep)]. *)
Fixpoint Join (elems : list string) (sep : string) : string :=
  match elems with
  | [] => ""
  | [e] => e
  | e :: es => e +:+ sep +:+ Join es sep
  end.

End GoStr.

(** ** Package [path] of the Go standard library: [Clean] *)

Module GoPath.

(** State of the scan of [Clean]: the path elements kept so far, last
    one first, and [dotdot], the number of kept elements that a [..]
    must not remove (the leading [..] elements of a relative path). *)
Definition cleanStep (rooted : bool) (st : list string * nat) (e : string)
  : list string * nat :=
  let '(out, dotdot) := st in
  if String.eqb e "" || String.eqb e "." then (out, dotdot)
  else if String.eqb e ".." then
    if (dotdot <? List.length out)%nat then (tl out, dotdot)
    else if rooted then (out, dotdot)
    else (".." :: out, S (List.length out))
  else (e :: out, dotdot).

(** [path.Clean]: drop empty and [.] elements, resolve [..] against the
    element before it, keep a leading slash, and return [.] for an empty
    result. *)
Definition Clean (path : string) : string :=
  if String.eqb path "" then "."
  else
    let rooted := GoStr.HasPrefix path "/" in
    let out := fst (fold_left (cleanStep rooted) (GoStr.Split path "/") ([], O)) in
    let body := GoStr.Join (rev out) "/" in
    if rooted then "/" +:+ body
    else if String.eqb body "" then "." else body.

(** [path.IsAbs]. *)
Definition IsAbs (path : string) : bool := GoStr.HasPrefix path "/".

(** The first result of [path.Split]: the path up to its last slash, the
    slash included. *)
Fixpoint splitDir (path : string) : string :=
  match path with
  | EmptyString => ""
  | String c rest =>
      let d := splitDir rest in
      if Ascii.eqb c "/" then String c d
      else if String.eqb d "" then "" else String c d
  end.

(** [path.Dir]. *)
Definition Dir (path : string) : string := Clean (splitDir path).

(** A path element: a name without slash other than the empty name, [.]
    and [..]. *)
Fixpoint noSlash (x : string) : bool :=
  match x with
  | EmptyString => true
  | String c x' => negb (Ascii.eqb c "/") && noSlash x'
  end.

Definition isElement (x : string) : bool :=
  negb (String.eqb x "") && negb (String.eqb x ".")
  && negb (String.eqb x "..") && noSlash x.

(** [path.Join(a, b)]: the two names with a slash between them, cleaned;
    empty names are left out. *)
Definition Join2 (a b : string) : string :=
  if String.eqb a "" then (if String.eqb b "" then "" else Clean b)
  else Clean (a +:+ "/" +:+ b).

(** The elements that the scan of [Clean] keeps: names without slash
    other than the empty name and [.]. *)
Definition kept (e : string) : Prop :=
  noSlash e = true /\ e <> "" /\ e <> ".".

(** A path as [Clean] returns it for a rooted path: a slash, and path
    elements with slashes between them. *)
Definition canonical (q : string) : Prop :=
  exists es, q = "/" +:+ GoStr.Join es "/"
             /\ Forall (fun e => isElement e = true) es.

End GoPath.

(** ** Package [path] of the server: [InTree] and [Included] *)

Module wp.

(** [InTree] determines if a given path is within a subtree. *)
Definition InTree (path subtree : string) : bool :=
  if String.eqb path subtree then true
  else
    let subtree :=
      if negb (GoStr.HasSuffix subtree "/") then subtree +:+ "/" else subtree in
    GoStr.HasPrefix path subtree.

(** [Included] determines if a given name is included in a subtree,
    subject to the depth restriction; when it is, the name relative to
    the subtree is returned with it. *)
Definition Included (fn subtree : string) (depth : Z) : string * bool :=
  if String.eqb fn subtree then ("", true)
  else if negb (InTree fn subtree) then ("", false)
  else
    let fn := GoPath.Clean (GoStr.from (String.length subtree) fn) in
    let fd := Z.of_nat (List.length (GoStr.Split fn "/")) in
    if (0 <=? depth) && (depth <? fd) then ("", false)
    else (fn, true).

End wp.

(** ** The containment of the design

    The two relations in which the design states the scope of a lock.
    They follow the words of the design and not the code; the properties
    compare [wp.InTree] and [wp.Included] with them. *)

Module design.

(** [b] with the slash that separates it from the names below it (a
    trailing slash on [b] is optional). *)
Definition with_slash (b : string) : string :=
  if GoStr.HasSuffix b "/" then b else b +:+ "/".

(** Modelled from the spec: a path [a] is in-tree of [b] iff [a == b] or
    [a] has [b + "/"] as a prefix. *)
Definition in_tree (a b : string) : bool :=
  String.eqb a b || String.prefix (with_slash b) a.

(** Modelled from the spec: the number of path segments between [b] and a
    path [a] below it, which is the segment count of the cleaned relative
    remainder. *)
Definition segments_between (a b : string) : Z :=
  Z.of_nat
    (List.length
       (GoStr.Split
          (GoPath.Clean (GoStr.from (String.length (with_slash b)) a)) "/")).

(** Modelled from the spec: a path [a] is included in [(b, depth)] iff [a]
    is in-tree of [b] and the number of path segments between them does
    not exceed [depth]; a negative depth means unbounded, and [a == b] is
    included regardless of the depth. *)
Definition included (a b : string) (depth : Z) : bool :=
  String.eqb a b
  || (in_tree a b && ((depth <? 0) || (segments_between a b <=? depth))).

End design.

(** ** Runes: UTF-8 conversion and [unicode.IsSpace] *)

Module Utf8.

Definition rune := Z.

(** [utf8.RuneError], the replacement character. *)
Definition RuneError : rune := 65533.

Definition byte (c : ascii) : Z := Z.of_nat (nat_of_ascii c).
Definition chr (b : Z) : ascii := ascii_of_nat (Z.to_nat b).

(** A continuation byte, [10xxxxxx]. *)
Definition cont (b : Z) : bool := (128 <=? b) && (b <=? 191).

(** The bounds of the second byte of a sequence that starts with [b0]
    (the accept ranges of package [unicode/utf8]). *)
Definition accept (b0 : Z) : Z * Z :=
  if b0 =? 224 then (160, 191)
  else if b0 =? 237 then (128, 159)
  else if b0 =? 240 then (144, 191)
  else if b0 =? 244 then (128, 143)
  else (128, 191).

(** [[]rune(s)]: every well-formed sequence becomes its code point, every
    other byte becomes [RuneError] and the scan goes on at the next
    byte. *)
Fixpoint decode (s : string) : list rune :=
  match s with
  | EmptyString => []
  | String c0 t0 =>
      let b0 := byte c0 in
      if b0 <? 128 then b0 :: decode t0
      else if (b0 <? 194) || (244 <? b0) then RuneError :: decode t0
      else
        match t0 with
        | EmptyString => RuneError :: decode t0
        | String c1 t1 =>
            let b1 := byte c1 in
            let '(lo, hi) := accept b0 in
            if negb ((lo <=? b1) && (b1 <=? hi)) then RuneError :: decode t0
            else if b0 <? 224 then
              (Z.lor (Z.shiftl (Z.land b0 31) 6) (Z.land b1 63)) :: decode t1
            else
              match t1 with
              | EmptyString => RuneError :: decode t0
              | String c2 t2 =>
                  let b2 := byte c2 in
                  if negb (cont b2) then RuneError :: decode t0
                  else if b0 <? 240 then
                    (Z.lor (Z.lor (Z.shiftl (Z.land b0 15) 12)
                                  (Z.shiftl (Z.land b1 63) 6))
                           (Z.land b2 63)) :: decode t2
                  else
                    match t2 with
                    | EmptyString => RuneError :: decode t0
                    | String c3 t3 =>
                        let b3 := byte c3 in
                        if negb (cont b3) then RuneError :: decode t0
                        else
                          (Z.lor (Z.lor (Z.lor (Z.shiftl (Z.land b0 7) 18)
                                               (Z.shiftl (Z.land b1 63) 12))
                                        (Z.shiftl (Z.land b2 63) 6))
                                 (Z.land b3 63)) :: decode t3
                    end
              end
        end
  end.

Definition str (bs : list Z) : string := string_of_list_ascii (map chr bs).

(** [string(r)]: the UTF-8 encoding of a rune; a rune that is out of range
    or a surrogate half is encoded as [RuneError]. *)
Definition encode (r : rune) : string :=
  if (0 <=? r) && (r <=? 127) then str [r]
  else if (0 <=? r) && (r <=? 2047) then
    str [Z.lor 192 (Z.shiftr r 6); Z.lor 128 (Z.land r 63)]
  else if (r <? 0) || (1114111 <? r) || ((55296 <=? r) && (r <=? 57343)) then
    str [239; 191; 189]
  else if r <=? 65535 then
    str [Z.lor 224 (Z.shiftr r 12); Z.lor 128 (Z.land (Z.shiftr r 6) 63);
         Z.lor 128 (Z.land r 63)]
  else
    str [Z.lor 240 (Z.shiftr r 18); Z.lor 128 (Z.land (Z.shiftr r 12) 63);
         Z.lor 128 (Z.land (Z.shiftr r 6) 63); Z.lor 128 (Z.land r 63)].

(** [unicode.IsSpace]: the Latin-1 spaces, then the rest of the White_Space
    property. *)
Definition IsSpace (r : rune) : bool :=
  if (0 <=? r) && (r <=? 255) then
    ((9 <=? r) && (r <=? 13)) || (r =? 32) || (r =? 133) || (r =? 160)
  else
    (r =? 5760) || ((8192 <=? r) && (r <=? 8202)) || (r =? 8232)
    || (r =? 8233) || (r =? 8239) || (r =? 8287) || (r =? 12288).

End Utf8.

(** ** Errors ([errors.go]) *)

(** A Go [error] is either a plain error value ([errors.New],
    [fmt.Errorf], [io.EOF]: only the text is kept, without the formatted
    arguments) or the [Error] struct of this package.  The type switch
    [e.(Error)] of the dispatcher tells the two apart. *)
Inductive error : Type :=
| errorString (msg : string)
| DavError (e : Error)
with Error : Type :=
| mkError (code : Z) (text : string) (cause : option error).

Definition code (e : Error) : Z := let '(mkError c _ _) := e in c.
Definition text (e : Error) : string := let '(mkError _ t _) := e in t.
Definition cause (e : Error) : option error := let '(mkError _ _ c) := e in c.

Definition io_EOF : error := errorString "EOF".

(** Status codes of [net/http] that the server uses. *)
Definition StatusOK : Z := 200.
Definition StatusCreated : Z := 201.
Definition StatusNoContent : Z := 204.
Definition StatusBadRequest : Z := 400.
Definition StatusForbidden : Z := 403.
Definition StatusNotFound : Z := 404.
Definition StatusMethodNotAllowed : Z := 405.
Definition StatusConflict : Z := 409.
Definition StatusPreconditionFailed : Z := 412.
Definition StatusUnsupportedMediaType : Z := 415.
Definition StatusTeapot : Z := 418.
Definition StatusInternalServerError : Z := 500.
Definition StatusBadGateway : Z := 502.

(** Status code extensions of RFC 4918. *)
Definition StatusMulti : Z := 207.
Definition StatusUnprocessableEntity : Z := 422.
Definition StatusLocked : Z := 423.
Definition StatusFailedDependency : Z := 424.
Definition StatusInsufficientStorage : Z := 507.

Definition ErrorNotYetImplemented := mkError StatusTeapot "TODO" None.
Definition ErrorBadPath := mkError StatusBadRequest "BadPath" None.
Definition ErrorNotFound := mkError StatusNotFound "NotFound" None.
Definition ErrorConflict := mkError StatusConflict "Conflict" None.
Definition ErrorNotAllowed := mkError StatusMethodNotAllowed "NotAllowed" None.
Definition ErrorUnsupportedType :=
  mkError StatusUnsupportedMediaType "UnsupportedType" None.
Definition ErrorIsDir := mkError StatusMethodNotAllowed "IsDir" None.
Definition ErrorIsNotDir := mkError StatusMethodNotAllowed "IsNotDir" None.
Definition ErrorMissingParent := mkError StatusConflict "MissingParent" None.
Definition ErrorUnderrun := mkError StatusBadRequest "Underrun" None.
Definition ErrorBadHost := mkError StatusBadGateway "BadHost" None.
Definition ErrorBadDepth := mkError StatusBadRequest "BadDepth" None.
Definition ErrorBadDest := mkError StatusBadRequest "BadDest" None.
Definition ErrorBadPropfind := mkError StatusBadRequest "BadPropfind" None.
Definition ErrorDestExists := mkError StatusPreconditionFailed "DestExists" None.
Definition ErrorSameFile := mkError StatusForbidden "SameFile" None.
Definition ErrorBadProppatch := mkError StatusBadRequest "BadProppatch" None.
Definition ErrorLocked := mkError StatusLocked "Locked" None.
Definition ErrorBadLock := mkError StatusBadRequest "BadLock" None.

(** [WithCause] chains a cause onto a reported HTTP error code. *)
Definition WithCause (e : Error) (c : error) : Error :=
  mkError (code e) (text e) (Some c).

(** [HTTPCode] gets the HTTP error code appropriate for the error. *)
Definition HTTPCode (e : Error) : Z := code e.

(** A value or an error, for the Go functions that return [(T, error)]
    with a meaningless [T] next to a non-nil error. *)
Inductive result (A : Type) : Type :=
| Ok (a : A)
| Err (e : error).
Arguments Ok {A} a.
Arguments Err {A} e.

(** ** Package [cond]: the If header *)

Module cond.

Import Utf8.

(** Special tokens the lexer can return. *)
Definition EOF : rune := -1.
Definition Not : rune := -2.

Record lex := mkLex { input : list rune; pos : Z; last : rune }.

Definition newLex (s : string) : lex :=
  {| input := decode s; pos := -1; last := 0 |}.

Definition len (l : lex) : Z := Z.of_nat (List.length (input l)).

Definition p (l : lex) (num : Z) : rune :=
  let np := pos l + num in
  if (np <? 0) || (len l <=? np) then EOF
  else nth (Z.to_nat np) (input l) EOF.

Definition advance (l : lex) (k : Z) : lex :=
  {| input := input l; pos := pos l + k; last := last l |}.

Fixpoint skipWhitespace_loop (fuel : nat) (l : lex) : lex :=
  match fuel with
  | O => l
  | S fuel' =>
      if IsSpace (p l 1) then skipWhitespace_loop fuel' (advance l 1) else l
  end.

(** The loop ends at the latest when [pos] reaches the end of the input,
    where [p] returns [EOF]. *)
Definition skipWhitespace (l : lex) : lex :=
  skipWhitespace_loop (Z.to_nat (len l - pos l)) l.

Definition peek (l : lex) : lex * rune :=
  let l := skipWhitespace l in
  let p0 := p l 1 in
  let p0 :=
    if (p0 =? 78) && (p l 2 =? 111) && (p l 3 =? 116) then Not else p0 in
  ({| input := input l; pos := pos l; last := p0 |}, p0).

Definition consume (l : lex) : lex :=
  if last l =? Not then advance l 3
  else if negb (last l =? EOF) then advance l 1
  else l.

Definition tokenText (r : rune) : string :=
  if r =? Not then "Not" else encode r.

(** The loop of [consumeIf].  Each turn that goes on calls [consume];
    [None] stands for a loop that does not end, which is what the Go code
    does when [last] is [EOF] while input is left. *)
Fixpoint consumeIf_loop (fuel : nat) (acc : rune -> bool) (l : lex)
    (res : string) : option (lex * (string * option error)) :=
  match fuel with
  | O => None
  | S fuel' =>
      let v := p l 1 in
      if v =? EOF then Some (l, (res, Some io_EOF))
      else if negb (acc v) then Some (l, (res, None))
      else consumeIf_loop fuel' acc (consume l) (res +:+ tokenText v)
  end.

Definition consumeIf (acc : rune -> bool) (l : lex)
  : option (lex * (string * option error)) :=
  consumeIf_loop (S (Z.to_nat (len l - pos l))) acc l "".

Definition consumeUntil (stop : rune) (l : lex)
  : option (lex * (string * option error)) :=
  match consumeIf (fun r => negb (r =? stop)) l with
  | None => None
  | Some (l, (s, Some err)) => Some (l, (s, Some err))
  | Some (l, (s, None)) => Some (consume l, (s, None))  (* eat the target *)
  end.

(** [Condition] is a single condition. *)
Record Condition := mkCondition { CNot : bool; State : string; ETag : string }.

(** [tt[1 : len(tt)-1]] when the text [tt] has two bytes or more and starts with
    [<]. *)
Definition unwrap (tx : string) : string :=
  match tx with
  | String "<"%char rest =>
      if (2 <=? String.length tx)%nat
      then String.substring 1 (String.length tx - 2) tx
      else tx
  | _ => tx
  end.

(** [parseCondition] after the optional [Not]: an entity tag in brackets
    or a state token. *)
Definition parseCondition_rest (l : lex) (tok : rune) (not : bool)
  : option (lex * (Condition * option error)) :=
  if tok =? 91 then
    match consumeUntil 93 (consume l) with
    | None => None
    | Some (l, (et, err)) =>
        let res := {| CNot := not; State := ""; ETag := et |} in
        if String.eqb et "" then Some (l, (res, Some (errorString "empty etag")))
        else Some (l, (res, err))
    end
  else
    match consumeIf (fun r => negb (r =? 41) && negb (r =? 32)) l with
    | None => None
    | Some (l, (tx, err)) =>
        let tx := unwrap tx in
        let res := {| CNot := not; State := tx; ETag := "" |} in
        if String.eqb tx ""
        then Some (l, (res, Some (errorString "empty condition")))
        else Some (l, (res, err))
    end.

Definition parseCondition (l : lex)
  : option (lex * (Condition * option error)) :=
  let '(l, tok) := peek l in
  if tok =? Not then
    let '(l, tok) := peek (consume l) in parseCondition_rest l tok true
  else parseCondition_rest l tok false.

(** [ConditionList] represents a set of conditions that are AND'ed
    together. *)
Record ConditionList :=
  mkConditionList { Resource : string; Conditions : list Condition }.

(** The loop over the conditions of a list, entered with the token [tok]
    just peeked. *)
Fixpoint parseList_loop (fuel : nat) (l : lex) (tok : rune)
    (rt : string) (cs : list Condition)
  : option (lex * (rune * (ConditionList * option error))) :=
  if (tok =? 41) || (tok =? EOF) then
    Some (l, (tok, (mkConditionList rt cs, None)))
  else
    match fuel with
    | O => None
    | S fuel' =>
        match parseCondition l with
        | None => None
        | Some (l, (c, Some err)) =>
            Some (l, (tok, (mkConditionList rt (cs ++ [c]),
                            Some (errorString "could not parse condition"))))
        | Some (l, (c, None)) =>
            let '(l, tok) := peek l in
            parseList_loop fuel' l tok rt (cs ++ [c])
        end
    end.

(** [parseList] after the optional resource: the conditions between
    the parentheses. *)
Definition parseList_rest (l : lex) (tok : rune) (rt : string)
  : option (lex * (ConditionList * option error)) :=
  if negb (tok =? 40) then
    Some (l, (mkConditionList rt [], Some (errorString "expected (")))
  else
    let '(l, tok) := peek (consume l) in
    match parseList_loop (S (Z.to_nat (len l - pos l))) l tok rt [] with
    | None => None
    | Some (l, (tok, (res, Some err))) => Some (l, (res, Some err))
    | Some (l, (tok, (res, None))) =>
        if negb (tok =? 41) then
          Some (l, (res, Some (errorString "expected )")))
        else Some (consume l, (res, None))
    end.

Definition parseList (l : lex) : option (lex * (ConditionList * option error)) :=
  let '(l, tok) := peek l in
  if tok =? 60 then
    match consumeUntil 62 (consume l) with
    | None => None
    | Some (l, (rt, err)) =>
        if bool_decide (err <> None) || String.eqb rt "" then
          Some (l, (mkConditionList rt [],
                    Some (errorString "could not parse resource")))
        else let '(l, tok) := peek l in parseList_rest l tok rt
    end
  else parseList_rest l tok "".

(** [IfTag] represents a complete If header, lists are evaluated by OR'ing
    them together.  Thus the header forms a DNF condition. *)
Record IfTag := mkIfTag { Lists : list ConditionList }.

Fixpoint ParseIfTag_loop (fuel : nat) (l : lex) (ls : list ConditionList)
  : option (IfTag * option error) :=
  let '(l, tok) := peek l in
  if tok =? EOF then Some (mkIfTag ls, None)
  else
    match fuel with
    | O => None
    | S fuel' =>
        match parseList l with
        | None => None
        | Some (l, (list, Some err)) =>
            Some (mkIfTag (ls ++ [list]),
                  Some (errorString "could not parse list"))
        | Some (l, (list, None)) => ParseIfTag_loop fuel' l (ls ++ [list])
        end
    end.

(** [ParseIfTag] parses the If HTTP header. *)
Definition ParseIfTag (s : string) : option (IfTag * option error) :=
  let l := newLex s in
  ParseIfTag_loop (S (List.length (input l))) l [].

(** The state of the lexer in which its loops end: when the last token
    peeked was [EOF], the input is at its end. *)
Definition lex_ok (l : lex) : Prop := last l = EOF -> p l 1 = EOF.

(** The input that is left, plus one. *)
Definition room (l : lex) : nat := Z.to_nat (len l - pos l).

(** [l'] is [l] further on in the same input. *)
Definition lex_le (l l' : lex) : Prop :=
  input l' = input l /\ pos l <= pos l'.

Definition lex_lt (l l' : lex) : Prop :=
  input l' = input l /\ pos l < pos l'.

(** [Env] is the environment for evaluating conditions.  A lookup may
    change the state [S] behind the environment (the lock manager drops a
    lock that it finds expired), so both methods pass the state on. *)
Record Env (S : Type) := mkEnv {
  EnvETag : string -> S -> S * string;
  EnvLocked : string -> string -> S -> S * bool
}.
Arguments EnvETag {S} _ _ _.
Arguments EnvLocked {S} _ _ _ _.

(** [Eval] determines the condition's state in the given environment for
    the given resource. *)
Definition Condition_Eval {S : Type} (e : Env S) (r : string) (c : Condition)
    (s : S) : S * bool :=
  let '(s, res) :=
    if negb (String.eqb (State c) "") then EnvLocked e r (State c) s
    else let '(s, et) := EnvETag e r s in (s, String.eqb et (ETag c)) in
  (s, if CNot c then negb res else res).

Fixpoint Conditions_Eval {S : Type} (e : Env S) (rdef : string)
    (cs : list Condition) (s : S) : S * bool :=
  match cs with
  | [] => (s, true)
  | c :: cs' =>
      let '(s, ok) := Condition_Eval e rdef c s in
      if negb ok then (s, false) else Conditions_Eval e rdef cs' s
  end.

(** [Eval] determines the list's state in the given environment, also
    providing a default resource URI in case this list lacks one. *)
Definition ConditionList_Eval {S : Type} (e : Env S) (rdef : string)
    (l : ConditionList) (s : S) : S * bool :=
  let rdef := if negb (String.eqb (Resource l) "") then Resource l else rdef in
  Conditions_Eval e rdef (Conditions l) s.

Fixpoint Lists_Eval {S : Type} (e : Env S) (rdef : string)
    (ls : list ConditionList) (s : S) : S * bool :=
  match ls with
  | [] => (s, false)
  | l :: ls' =>
      let '(s, ok) := ConditionList_Eval e rdef l s in
      if ok then (s, true) else Lists_Eval e rdef ls' s
  end.

(** [Eval] determines the header's state in the given environment. *)
Definition Eval {S : Type} (e : Env S) (rdef : string) (t : IfTag) (s : S)
  : S * bool :=
  Lists_Eval e rdef (Lists t) s.

(** [GetAllTokens] gets all lock tokens from the given [IfTag]. *)
Definition GetAllTokens (t : IfTag) : list string :=
  flat_map
    (fun l =>
       flat_map
         (fun c => if negb (String.eqb (State c) "") then [State c] else [])
         (Conditions l))
    (Lists t).

(** [GetSingleState] gets the singular token state from this If header, it
    reports whether one could be extracted (the presence of more than one,
    being ambiguous, counts as failure). *)
Definition GetSingleState (t : IfTag) : string * bool :=
  match Lists t with
  | [l] =>
      match Conditions l with
      | [c] =>
          if negb (String.eqb (ETag c) "") then ("", false)
          else if CNot c then ("", false)
          else (State c, true)
      | _ => ("", false)
      end
  | _ => ("", false)
  end.

(** The fields of [url.URL] that the server reads. *)
Record URL := mkURL { Host : string; Path : string }.

Fixpoint RewriteHosts_loop (url_Parse : string -> result URL) (h : string)
    (ls : list ConditionList) : list ConditionList * option error :=
  match ls with
  | [] => ([], None)
  | l :: ls' =>
      if String.eqb (Resource l) "" then
        let '(ls', err) := RewriteHosts_loop url_Parse h ls' in (l :: ls', err)
      else
        match url_Parse (Resource l) with
        | Err err => (l :: ls', Some err)
        | Ok url =>
            if negb (String.eqb (Host url) "")
               && negb (String.eqb (Host url) h)
            then (l :: ls', Some (errorString "Bad host"))
            else
              let l := mkConditionList (Path url) (Conditions l) in
              let '(ls', err) := RewriteHosts_loop url_Parse h ls' in
              (l :: ls', err)
        end
  end.

(** [RewriteHosts] rewrites all resource URIs to be relative to the given
    host, checking that they match at the same time. *)
Definition RewriteHosts (url_Parse : string -> result URL) (h : string)
    (t : IfTag) : IfTag * option error :=
  let '(ls, err) := RewriteHosts_loop url_Parse h (Lists t) in
  (mkIfTag ls, err).

(** [c.String()]. *)
Definition Condition_String (c : Condition) : string :=
  let prefix := if CNot c then "Not " else "" in
  if negb (String.eqb (State c) "") then prefix +:+ State c
  else prefix +:+ "[" +:+ ETag c +:+ "]".

(** [l.String()]. *)
Definition ConditionList_String (l : ConditionList) : string :=
  let prefix :=
    if negb (String.eqb (Resource l) "") then "<" +:+ Resource l +:+ "> "
    else "" in
  prefix +:+ "(" +:+ GoStr.Join (map Condition_String (Conditions l)) " " +:+ ")".

(** [t.String()]. *)
Definition IfTag_String (t : IfTag) : string :=
  GoStr.Join (map ConditionList_String (Lists t)) " ".

(** The runes that the lexer has not read yet. *)
Definition remaining (l : lex) : list rune :=
  drop (Z.to_nat (pos l + 1)) (input l).

(** The lexer [l] stands before the runes [rs] of its input. *)
Definition lex_at (l : lex) (rs : list rune) : Prop :=
  -1 <= pos l /\ pos l + 1 <= len l /\ remaining l = rs.

(** Runs of white space, and texts that do not start with white space. *)
Definition spaces (ws : list rune) : Prop :=
  Forall (fun r => IsSpace r = true) ws.

Definition stops (rs : list rune) : Prop :=
  match rs with
  | [] => True
  | c :: _ => IsSpace c = false
  end.

(** The token that [peek] returns before the runes [rs]. *)
Definition first_token (rs : list rune) : rune :=
  match rs with
  | [] => EOF
  | c :: rs' =>
      if (c =? 78) && (nth 0 rs' EOF =? 111) && (nth 1 rs' EOF =? 116)
      then Not else c
  end.

(** The runes of a text of ASCII characters. *)
Definition chars (s : string) : list rune := map byte (list_ascii_of_string s).

(** The texts that [String] prints such that [ParseIfTag] reads them
    back: ASCII characters throughout; a state token is not empty, holds no
    space and no closing parenthesis, does not start with white space, with
    an opening bracket or angle bracket, nor with the letters [Not]; an
    entity tag is not empty and holds no closing bracket; a resource holds
    no closing angle bracket. *)
Definition isASCII (s : string) : bool :=
  forallb (fun c => byte c <? 128) (list_ascii_of_string s).

Definition lacks (r : rune) (s : string) : bool :=
  forallb (fun c => negb (byte c =? r)) (list_ascii_of_string s).

Definition token_ok (tok : string) : bool :=
  isASCII tok && lacks 32 tok && lacks 41 tok
  && match tok with
     | EmptyString => false
     | String c _ =>
         negb (IsSpace (byte c)) && negb (byte c =? 91) && negb (byte c =? 60)
     end
  && negb (String.prefix "Not" tok).

Definition etag_ok (et : string) : bool :=
  isASCII et && lacks 93 et && negb (String.eqb et "").

Definition resource_ok (res : string) : bool := isASCII res && lacks 62 res.

Definition Condition_ok (c : Condition) : bool :=
  (token_ok (State c) && String.eqb (ETag c) "")
  || (String.eqb (State c) "" && etag_ok (ETag c)).

Definition ConditionList_ok (l : ConditionList) : bool :=
  resource_ok (Resource l) && forallb Condition_ok (Conditions l).

Definition IfTag_ok (t : IfTag) : bool := forallb ConditionList_ok (Lists t).

End cond.

(** ** The lock manager ([lock.go]) *)

Definition Second : Z := 1000000000.
Definition Minute : Z := 60 * Second.

Definition minLockDuration : Z := 20 * Second.
Definition maxLockDuration : Z := 5 * Minute.

Record lock := mkLock {
  token : string;
  depth : Z;
  owner : string;  (* verbatim XML *)
  duration : Z;
  modified : Z;
  path : string
}.

(** [l.touch()]. *)
Definition touch (now : Z) (l : lock) : lock :=
  {| token := token l; depth := depth l; owner := owner l;
     duration := duration l; modified := now; path := path l |}.

(** [l.duration = duration]. *)
Definition set_duration (dur : Z) (l : lock) : lock :=
  {| token := token l; depth := depth l; owner := owner l;
     duration := dur; modified := modified l; path := path l |}.

(** [l.expired()]: [time.Now().After(l.modified.Add(l.duration))]. *)
Definition expired (now : Z) (l : lock) : bool :=
  modified l + duration l <? now.

(** The lock master is its map from token to lock (the mutex only makes
    the operations below atomic). *)
Abbreviation lockmaster := (gmap string lock).

Definition newLockMaster : lockmaster := ∅.

(** [order] is an order in which a [range] over [locks] may visit it: every
    key once. *)
Definition range_order (locks : lockmaster) (order : list string) : Prop :=
  NoDup order /\ forall k, k ∈ order <-> is_Some (locks !! k).

(** The loop of [getLockForPath] over the entries in the order [order];
    an entry that was deleted before the loop reaches it is not visited. *)
Fixpoint getLockForPath_loop (now : Z) (p : string) (order : list string)
    (locks : lockmaster) : lockmaster * option lock :=
  match order with
  | [] => (locks, None)
  | k :: order' =>
      match locks !! k with
      | None => getLockForPath_loop now p order' locks
      | Some l =>
          if expired now l then
            getLockForPath_loop now p order' (delete (token l) locks)
          else if negb (snd (wp.Included p (path l) (depth l))) then
            getLockForPath_loop now p order' locks
          else (locks, Some l)
      end
  end.

Definition getLockForPath (now : Z) (order : list string) (p : string)
    (locks : lockmaster) : lockmaster * option lock :=
  getLockForPath_loop now p order locks.

Definition isLocked (now : Z) (p t : string) (locks : lockmaster)
  : lockmaster * bool :=
  match locks !! t with
  | None => (delete t locks, false)
  | Some l =>
      if expired now l then (delete t locks, false)
      else (locks, snd (wp.Included p (path l) (depth l)))
  end.

Definition unlock (t : string) (locks : lockmaster) : lockmaster :=
  delete t locks.

(** The two tests on the duration at the start of [refreshLock] and
    [createLock]. *)
Definition clampDuration (dur : Z) : Z :=
  let dur := if dur <? minLockDuration then minLockDuration else dur in
  if maxLockDuration <? dur then maxLockDuration else dur.

Definition refreshLock (now : Z) (tok p : string) (dur : Z)
    (locks : lockmaster) : lockmaster * result lock :=
  let dur := clampDuration dur in
  match locks !! tok with
  | None => (locks, Err (errorString "unknown lock"))
  | Some l =>
      if expired now l then
        (delete (token l) locks, Err (errorString "expired lock"))
      else if negb (snd (wp.Included p (path l) (depth l))) then
        (locks, Err (errorString "path not within lock"))
      else
        let l := touch now (set_duration dur l) in
        (<[tok := l]> locks, Ok l)
  end.

(** The loop of [createLock]: [true] when it leaves with [ErrorLocked]. *)
Fixpoint createLock_loop (now : Z) (p : string) (dep : Z)
    (order : list string) (locks : lockmaster) : lockmaster * bool :=
  match order with
  | [] => (locks, false)
  | k :: order' =>
      match locks !! k with
      | None => createLock_loop now p dep order' locks
      | Some l =>
          if expired now l then
            createLock_loop now p dep order' (delete (token l) locks)
          else if snd (wp.Included p (path l) (depth l)) then
            (locks, true)  (* the lock covers this path already *)
          else if snd (wp.Included (path l) p dep) then
            (locks, true)  (* this crosses another lock *)
          else createLock_loop now p dep order' locks
      end
  end.

(** [createLock]; [tok] is the token that [generateToken] returns. *)
Definition createLock (now : Z) (tok : string) (order : list string)
    (own p : string) (dep dur : Z) (locks : lockmaster)
  : lockmaster * result lock :=
  let dur := clampDuration dur in
  let '(locks, locked) := createLock_loop now p dep order locks in
  if locked then (locks, Err (DavError ErrorLocked))
  else
    let l := {| token := tok; depth := dep; owner := own; duration := dur;
                modified := now; path := p |} in
    (<[token l := l]> locks, Ok l).

(** The operations of the lock manager, with what each reads from its
    surroundings: the clock, the generated token and the order of the
    [range] loop. *)
Inductive lm_op : Type :=
| OpCreateLock (now : Z) (tok : string) (order : list string)
    (own p : string) (dep dur : Z)
| OpRefreshLock (now : Z) (tok p : string) (dur : Z)
| OpUnlock (t : string)
| OpIsLocked (now : Z) (p t : string)
| OpGetLockForPath (now : Z) (order : list string) (p : string).

Definition lm_exec (op : lm_op) (locks : lockmaster) : lockmaster :=
  match op with
  | OpCreateLock now tok order own p dep dur =>
      fst (createLock now tok order own p dep dur locks)
  | OpRefreshLock now tok p dur => fst (refreshLock now tok p dur locks)
  | OpUnlock t => unlock t locks
  | OpIsLocked now p t => fst (isLocked now p t locks)
  | OpGetLockForPath now order p => fst (getLockForPath now order p locks)
  end.

(** An operation is well formed in a state when its [range] order is one
    of that state. *)
Definition lm_op_ok (locks : lockmaster) (op : lm_op) : Prop :=
  match op with
  | OpCreateLock _ _ order _ _ _ _ => range_order locks order
  | OpGetLockForPath _ order _ => range_order locks order
  | _ => True
  end.

(** The states of the lock manager that a run of the server can reach. *)
Inductive lm_reachable : lockmaster -> Prop :=
| lm_reach_new : lm_reachable newLockMaster
| lm_reach_step locks op :
    lm_reachable locks -> lm_op_ok locks op -> lm_reachable (lm_exec op locks).




(** The predicates in which the properties of the lock manager are
    stated. *)

(** [p] lies within the scope of the lock [l]: the test
    [wp.Included(p, l.path, l.depth)] of the lock manager succeeds. *)
Definition covers (l : lock) (p : string) : bool :=
  snd (wp.Included p (path l) (depth l)).

(** A lock is live while it has not expired. *)
Definition live (now : Z) (l : lock) : Prop := expired now l = false.

(** Every lock is stored under its own token. *)
Definition lm_wf (locks : lockmaster) : Prop :=
  forall k l, locks !! k = Some l -> token l = k.

(** No lock of the map has its path within the scope of another one. *)
Definition lm_disjoint (locks : lockmaster) : Prop :=
  forall k1 k2 l1 l2, k1 <> k2 ->
    locks !! k1 = Some l1 -> locks !! k2 = Some l2 ->
    covers l2 (path l1) = false.

(** [locks'] is [locks] without some of the locks that have expired at
    [now]. *)
Definition lm_swept (now : Z) (locks locks' : lockmaster) : Prop :=
  (forall k l, locks' !! k = Some l -> locks !! k = Some l)
  /\ (forall k l, locks !! k = Some l -> live now l -> locks' !! k = Some l).

(** ** Numbers as text ([strconv]) *)

Module strconv.

Definition digit (c : ascii) : option Z :=
  let n := Z.of_nat (nat_of_ascii c) in
  if (48 <=? n) && (n <=? 57) then Some (n - 48) else None.

Fixpoint digits (s : string) (acc : Z) : option Z :=
  match s with
  | EmptyString => Some acc
  | String c s' =>
      match digit c with
      | None => None
      | Some d => digits s' (10 * acc + d)
      end
  end.

(** [strconv.Atoi]: an optional sign and at least one decimal digit, with
    a value that fits the 64 bits of an [int]; [None] is the error. *)
Definition Atoi (s : string) : option Z :=
  let '(neg, ds) :=
    match s with
    | String "-"%char s' => (true, s')
    | String "+"%char s' => (false, s')
    | _ => (false, s)
    end in
  match ds with
  | EmptyString => None
  | _ =>
      match digits ds 0 with
      | None => None
      | Some n =>
          let n := if neg then - n else n in
          if (- 2 ^ 63 <=? n) && (n <? 2 ^ 63) then Some n else None
      end
  end.

(** [strconv.Itoa]. *)
Definition Itoa (n : Z) : string :=
  DecimalString.NilZero.string_of_int (Z.to_int n).

End strconv.

(** ** Requests and responses ([net/http]) *)

Module http.

(** The parts of a request that the server reads.  The header is keyed by
    canonical name and holds the first value of each field. *)
Record Request := mkRequest {
  Method : string;
  URL_Path : string;
  Host : string;
  Header : gmap string string;
  Body : string;
  ContentLength : Z
}.

(** [r.Header.Get(key)]. *)
Definition Get (r : Request) (key : string) : string :=
  default "" (Header r !! key).

(** A response writer: the header map that [w.Header()] hands out, and,
    once [WriteHeader] was called, the status with the copy of the header
    map that goes out with it.  A change of the header map after
    [WriteHeader] has no effect on the response (the contract of
    [http.ResponseWriter]).  [panicked] records a panic of the handler,
    which the server recovers. *)
Record ResponseWriter := mkResponseWriter {
  handlerHeader : gmap string string;
  wroteHeader : option (Z * gmap string string);
  written : string;
  panicked : bool
}.

Definition newResponse : ResponseWriter :=
  {| handlerHeader := ∅; wroteHeader := None; written := ""; panicked := false |}.

(** [w.Header().Set(key, value)]. *)
Definition Set_ (key value : string) (w : ResponseWriter) : ResponseWriter :=
  {| handlerHeader := <[key := value]> (handlerHeader w);
     wroteHeader := wroteHeader w; written := written w;
     panicked := panicked w |}.

(** [w.WriteHeader(code)]; a second call is ignored. *)
Definition WriteHeader (code : Z) (w : ResponseWriter) : ResponseWriter :=
  match wroteHeader w with
  | Some _ => w
  | None =>
      {| handlerHeader := handlerHeader w;
         wroteHeader := Some (code, handlerHeader w);
         written := written w; panicked := panicked w |}
  end.

(** [w.Write(b)]: writes the header with status 200 first when
    [WriteHeader] was not called. *)
Definition Write (b : string) (w : ResponseWriter) : ResponseWriter :=
  let w := WriteHeader 200 w in
  {| handlerHeader := handlerHeader w; wroteHeader := wroteHeader w;
     written := written w +:+ b; panicked := panicked w |}.

Definition panic (w : ResponseWriter) : ResponseWriter :=
  {| handlerHeader := handlerHeader w; wroteHeader := wroteHeader w;
     written := written w; panicked := true |}.

(** The status line of the response that the client receives: 200 when
    the handler returns without a call of [WriteHeader]. *)
Definition status (w : ResponseWriter) : Z :=
  match wroteHeader w with
  | Some (code, _) => code
  | None => 200
  end.

(** The header fields that the handler has put on the response. *)
Definition sentHeader (w : ResponseWriter) : gmap string string :=
  match wroteHeader w with
  | Some (_, h) => h
  | None => handlerHeader w
  end.

End http.

(** ** Package [xml]: the multistatus envelope *)

Module x.

(** [xml.Header] of [encoding/xml]. *)
Definition quote : string := String (ascii_of_nat 34) EmptyString.
Definition newline : string := String (ascii_of_nat 10) EmptyString.
Definition Header : string :=
  "<?xml version=" +:+ quote +:+ "1.0" +:+ quote +:+ " encoding=" +:+ quote
  +:+ "UTF-8" +:+ quote +:+ "?>" +:+ newline.

Record Name := mkName { Space : string; Local : string }.

(** [strings.LastIndex(s, ":")], as the pieces before and after the last
    colon. *)
Fixpoint cutLast (s : string) : option (string * string) :=
  match s with
  | EmptyString => None
  | String c s' =>
      match cutLast s' with
      | Some (a, b) => Some (String c a, b)
      | None => if Ascii.eqb c ":" then Some ("", s') else None
      end
  end.

Definition s2x (s : string) : Name :=
  match cutLast s with
  | None => {| Space := ""; Local := s |}
  | Some (a, b) => {| Space := a; Local := b |}
  end.

Definition x2s (xn : Name) : string := Space xn +:+ ":" +:+ Local xn.

Record Any := mkAny {
  XMLName : Name;
  XMLNS : string;
  Value : string;
  Inner : string
}.

Definition NewAny (n : string) : Any :=
  let xn := s2x n in
  {| XMLName := {| Space := ""; Local := Local xn |}; XMLNS := Space xn;
     Value := ""; Inner := "" |}.

Definition set_Inner (inner : string) (a : Any) : Any :=
  {| XMLName := XMLName a; XMLNS := XMLNS a; Value := Value a; Inner := inner |}.

Record prop := mkProp { prop_XMLNS : string; prop_Any : list Any }.

Record multiProp := mkMultiProp { Prop_ : prop; PropStatus : string }.

Record multiResponse := mkMultiResponse {
  Href : string;
  Status : string;
  Props : list multiProp
}.

(** [MultiStatus] is used to construct a response for multiple URIs. *)
Record MultiStatus := mkMultiStatus {
  ms_XMLNS : string;
  Response : list multiResponse
}.

Definition NewMultiStatus : MultiStatus := {| ms_XMLNS := "DAV:"; Response := [] |}.

Definition AddPropStatus (UrlEncode : string -> string) (href : string)
    (found missing : list Any) (m : MultiStatus) : MultiStatus :=
  let props : list multiProp :=
    ((match found with
     | [] => []
     | _ => [{| Prop_ := {| prop_XMLNS := ""; prop_Any := found |};
                PropStatus := "HTTP/1.1 200 OK" |}]
     end)
    ++ (match missing with
        | [] => []
        | _ => [{| Prop_ := {| prop_XMLNS := ""; prop_Any := missing |};
                   PropStatus := "HTTP/1.1 404 Not Found" |}]
        end))%list in
  {| ms_XMLNS := ms_XMLNS m;
     Response := Response m
                 ++ [{| Href := UrlEncode href; Status := ""; Props := props |}] |}.

(** [AddStatus]; [errText] is [err.Error()]. *)
Definition AddStatus (UrlEncode : string -> string) (href : string)
    (errText : string) (m : MultiStatus) : MultiStatus :=
  {| ms_XMLNS := ms_XMLNS m;
     Response := Response m
                 ++ [{| Href := UrlEncode href; Status := errText; Props := [] |}] |}.

(** [xml.EscapeText] on the characters that it replaces in an attribute
    value. *)
Fixpoint escape (s : string) : string :=
  match s with
  | EmptyString => ""
  | String c s' =>
      let n := nat_of_ascii c in
      (if Nat.eqb n 34 then "&#34;"
       else if Nat.eqb n 39 then "&#39;"
       else if Nat.eqb n 38 then "&amp;"
       else if Nat.eqb n 60 then "&lt;"
       else if Nat.eqb n 62 then "&gt;"
       else if Nat.eqb n 9 then "&#x9;"
       else if Nat.eqb n 10 then "&#xA;"
       else if Nat.eqb n 13 then "&#xD;"
       else String c "") +:+ escape s'
  end.

(** [xml.MarshalIndent(m, "", " ")] for a [MultiStatus]: the root element
    is named by the tag of [XMLName] and carries [XMLNS] as the attribute
    [xmlns]; [children] renders the responses, indented, between the start
    and the end tag.  Marshalling these structs has no failing case. *)
Definition MarshalIndent_MultiStatus
    (children : list multiResponse -> string) (m : MultiStatus) : string :=
  "<multistatus xmlns=" +:+ quote +:+ escape (ms_XMLNS m) +:+ quote +:+ ">"
  +:+ children (Response m) +:+ "</multistatus>".

(** [string(len(b))]: the conversion of an integer to a string gives the
    UTF-8 encoding of the code point of that number. *)
Definition string_of_len (b : string) : string :=
  Utf8.encode (Z.of_nat (String.length b)).

Definition Send (children : list multiResponse -> string) (m : MultiStatus)
    (w : http.ResponseWriter) : http.ResponseWriter :=
  let b := MarshalIndent_MultiStatus children m in
  let b := Header +:+ b in
  let w := http.WriteHeader StatusMulti w in
  let w := http.Set_ "Content-Length" (string_of_len b) w in
  let w := http.Set_ "Content-Type" "application/xml; charset=utf-8" w in
  http.Write b w.

Record lockinfo := mkLockinfo {
  Exclusive : bool;  (* [li.Exclusive != nil] *)
  Shared : bool;
  Write : bool;
  li_Owner : string
}.

Record LockRequest := mkLockRequest { Owner : string; Refresh : bool }.

(** What [d.Decode(&li)] returns for a request body. *)
Inductive decoded : Type :=
| DecodeEOF
| DecodeErr (e : error)
| DecodeOk (li : lockinfo).

(** [ParseLock] parses a LOCK request. *)
Definition ParseLock (Decode : string -> decoded) (body : string)
  : result LockRequest :=
  match Decode body with
  | DecodeEOF => Ok {| Owner := ""; Refresh := true |}
  | DecodeErr err => Err err
  | DecodeOk li =>
      if negb (Exclusive li) then Err (errorString "must be exclusive")
      else if Shared li then Err (errorString "must not be shared")
      else if negb (Write li) then Err (errorString "must be write")
      else Ok {| Owner := li_Owner li; Refresh := false |}
  end.

(** [SendProp]; [marshal] is [xml.MarshalIndent] on a [prop]. *)
Definition SendProp (marshal : prop -> string) (inner : Any)
    (w : http.ResponseWriter) : http.ResponseWriter :=
  let p := {| prop_XMLNS := "DAV:"; prop_Any := [inner] |} in
  let b := Header +:+ marshal p in
  let w := http.Set_ "Content-Length" (string_of_len b) w in
  let w := http.Set_ "Content-Type" "application/xml; charset=utf-8" w in
  http.Write b w.

End x.

(** ** The file system interface ([filesystem.go]) *)

(** [FileInfo] represents all metadata about a [File]. *)
Record FileInfo := mkFileInfo { Created : Z; LastModified : Z; Size : Z }.

Record CopyOptions := mkCopyOptions { Overwrite : bool; Move : bool; Depth : Z }.

(** ** The in-memory file system ([memfs]) *)

Module memfs.

Record memfile := mkMemfile {
  dir : bool;
  path : string;
  i : FileInfo;
  data : option string;  (* [nil] for a directory *)
  p : gmap string string
}.

Abbreviation files := (gmap string memfile).

Definition newMemFile (now : Z) (path : string) (dir : bool) : memfile :=
  {| dir := dir; path := path;
     i := {| Created := now; LastModified := 0; Size := 0 |};
     data := if negb dir then Some "" else None; p := ∅ |}.

Definition NewMemFS (now : Z) : files := {[ "/" := newMemFile now "/" true ]}.

Definition ForPath (p : string) (fs : files) : result string :=
  let p := GoPath.Clean p in
  if negb (GoPath.IsAbs p) then Err (DavError ErrorBadPath) else Ok p.

Definition parent (p : string) : string := GoPath.Dir p.

Definition internalLookup (p : string) (fs : files) : result memfile :=
  match fs !! p with
  | None => Err (DavError ErrorNotFound)
  | Some f => Ok f
  end.

Definition Lookup (p : string) (fs : files) : result memfile :=
  internalLookup p fs.

Definition IsDirectory (f : memfile) : bool := dir f.

Definition Stat (f : memfile) : result FileInfo :=
  Ok {| Created := Created (i f); LastModified := LastModified (i f);
        Size := Z.of_nat (String.length (default "" (data f))) |}.

Definition Open (f : memfile) : option error :=
  if dir f then Some (DavError ErrorIsDir)
  else match data f with
       | None => Some (DavError ErrorNotFound)
       | Some _ => None
       end.

Definition Mkdir (now : Z) (p : string) (fs : files) : files * result memfile :=
  match Lookup p fs with
  | Ok _ => (fs, Err (DavError ErrorConflict))
  | Err _ =>
      match internalLookup (parent p) fs with
      | Err _ => (fs, Err (DavError ErrorMissingParent))
      | Ok _ =>
          let f := newMemFile now p true in
          (<[p := f]> fs, Ok f)
      end
  end.

Definition Create (now : Z) (p : string) (fs : files) : files * result memfile :=
  match Lookup p fs with
  | Ok _ => (fs, Err (DavError ErrorConflict))
  | Err _ =>
      match internalLookup (parent p) fs with
      | Err _ => (fs, Err (DavError ErrorMissingParent))
      | Ok _ =>
          let f := newMemFile now p false in
          let fs := <[p := f]> fs in
          match Open f with
          | Some err => (fs, Err err)
          | None => (fs, Ok f)
          end
      end
  end.

Definition Remove (p : string) (fs : files) : files * option error :=
  match internalLookup p fs with
  | Err _ => (fs, Some (DavError ErrorNotFound))
  | Ok f =>
      if IsDirectory f then (fs, Some (DavError ErrorIsDir))
      else (delete (path f) fs, None)
  end.

Definition removeSubtree (subtree : string) (fs : files) : files :=
  filter (fun kv => wp.InTree (fst kv) subtree = false) fs.

Definition RecursiveRemove (p : string) (fs : files)
  : files * list (string * error) :=
  match internalLookup p fs with
  | Err _ => (fs, [(p, DavError ErrorNotFound)])
  | Ok f =>
      if negb (IsDirectory f) then (fs, [(path f, DavError ErrorIsNotDir)])
      else (removeSubtree (path f) fs, [])
  end.

(** [f.GetPath()]. *)
Definition GetPath (f : memfile) : string := path f.

(** [f.clone(np)]: a new file of the name [np] with a copy of the data
    and of the properties. *)
Definition clone (now : Z) (np : string) (f : memfile) : memfile :=
  let mf := newMemFile now np (dir f) in
  {| dir := dir mf; path := path mf; i := i mf;
     data := if negb (dir f) then Some (default "" (data f)) else data mf;
     p := map_fold (fun k v acc => <[k := v]> acc) (p mf) (p f) |}.

(** [f.PatchProp(set, remove)]; it returns no error. *)
Definition PatchProp (set remove : gmap string string) (f : memfile) : memfile :=
  let p1 := map_fold (fun k v acc => <[k := v]> acc) (p f) set in
  let p2 := map_fold (fun k (_ : string) acc => delete k acc) p1 remove in
  {| dir := dir f; path := path f; i := i f; data := data f; p := p2 |}.

(** [f.GetProp(k)]. *)
Definition GetProp (k : string) (f : memfile) : string * bool :=
  (default "" (p f !! k), bool_decide (is_Some (p f !! k))).

(** [v.path = nn]. *)
Definition set_path (nn : string) (f : memfile) : memfile :=
  {| dir := dir f; path := nn; i := i f; data := data f; p := p f |}.

(** [f.data = d] with [f.i.LastModified = time.Now()]. *)
Definition set_data (now : Z) (d : string) (f : memfile) : memfile :=
  {| dir := dir f; path := path f;
     i := {| Created := Created (i f); LastModified := now; Size := Size (i f) |};
     data := Some d; p := p f |}.

(** [LookupSubtree]: the files of the map that are included in the path
    with the depth, in the order [order] of the [range] over the map. *)
Definition LookupSubtree (order : list string) (pth : string) (depth : Z)
    (fs : files) : result (list memfile) :=
  match Lookup pth fs with
  | Err err => Err err
  | Ok _ =>
      Ok (omap (fun fn =>
                  match fs !! fn with
                  | Some f =>
                      if snd (wp.Included fn pth depth) then Some f else None
                  | None => None
                  end) order)
  end.

(** The loop of [CopyTo] over the entries in the order [order].  The loop
    inserts and deletes entries of the map that it ranges over: an entry
    is visited when the map holds it at that time, so that [order] may name
    the entries of the map at the start and entries that the loop
    inserts. *)
Fixpoint CopyTo_loop (now : Z) (src dst : string) (opt : CopyOptions)
    (order : list string) (fs : files) : files :=
  match order with
  | [] => fs
  | orig :: order' =>
      match fs !! orig with
      | None => CopyTo_loop now src dst opt order' fs
      | Some v =>
          let '(nn, ok) := wp.Included orig src (Depth opt) in
          if negb ok then CopyTo_loop now src dst opt order' fs
          else
            let nn := GoPath.Join2 dst nn in
            if Move opt then
              CopyTo_loop now src dst opt order'
                (delete orig (<[nn := set_path nn v]> fs))
            else
              CopyTo_loop now src dst opt order' (<[nn := clone now nn v]> fs)
      end
  end.

(** [CopyTo] between two paths of this file system; [order] gives the
    order of the [range] over the map that the loop starts with. *)
Definition CopyTo (now : Z) (order : files -> list string) (src dst : string)
    (opt : CopyOptions) (fs : files) : files * result bool :=
  if String.eqb src dst then (fs, Err (DavError ErrorSameFile))
  else
    match internalLookup src fs with
    | Err _ => (fs, Err (DavError ErrorNotFound))
    | Ok srcf =>
        (* Can only move complete directory trees. *)
        if IsDirectory srcf && Move opt && (0 <=? Depth opt)
        then (fs, Err (DavError ErrorIsDir))
        else
          match internalLookup (parent dst) fs with
          | Err _ => (fs, Err (DavError ErrorMissingParent))
          | Ok _ =>
              match internalLookup dst fs with
              | Ok _ =>
                  if Overwrite opt then
                    let fs := removeSubtree dst fs in
                    (CopyTo_loop now src dst opt (order fs) fs, Ok false)
                  else (fs, Err (DavError ErrorDestExists))
              | Err _ => (CopyTo_loop now src dst opt (order fs) fs, Ok true)
              end
          end
    end.

(** *** File handles *)

(** [n] zero bytes, as [make([]byte, n)] gives them. *)
Fixpoint zeros (n : nat) : string :=
  match n with
  | O => ""
  | S n' => String Ascii.zero (zeros n')
  end.

(** [s[:n]]. *)
Definition take (n : nat) (s : string) : string := String.substring 0 n s.

(** A handle: the file that it is open on, and the position in it.  The
    position is never negative. *)
Record memfileh := mkHandle { hf : memfile; hpos : Z }.

(** [f.Open()] with the handle that it returns. *)
Definition OpenHandle (f : memfile) : result memfileh :=
  match Open f with
  | Some err => Err err
  | None => Ok {| hf := f; hpos := 0 |}
  end.

(** [f.Truncate()]. *)
Definition Truncate (now : Z) (f : memfile) : result memfileh :=
  if dir f then Err (DavError ErrorIsDir)
  else Ok {| hf := set_data now "" f; hpos := 0 |}.

(** [h.Write(b)]: the data grows, filled with zero bytes, when the write
    ends behind its end. *)
Definition Write (now : Z) (b : string) (h : memfileh)
  : memfileh * (Z * option error) :=
  if (String.length b =? 0)%nat then (h, (0, None))
  else
    let old := default "" (data (hf h)) in
    let start := Z.to_nat (hpos h) in
    let end_ := (start + String.length b)%nat in
    let base :=
      if (String.length old <? end_)%nat
      then old +:+ zeros (end_ - String.length old) else old in
    let d := take start base +:+ b +:+ GoStr.from end_ base in
    ({| hf := set_data now d (hf h); hpos := Z.of_nat end_ |},
     (Z.of_nat (String.length b), None)).

(** [h.Read(p)] for a buffer of [n] bytes: the bytes that it puts into the
    buffer, their number and the error. *)
Definition Read (n : nat) (h : memfileh)
  : memfileh * (string * (Z * option error)) :=
  let d := default "" (data (hf h)) in
  let start := Z.to_nat (hpos h) in
  if (String.length d <=? start)%nat then (h, ("", (0, Some io_EOF)))
  else
    let end_ := Nat.min (start + n) (String.length d) in
    ({| hf := hf h; hpos := Z.of_nat end_ |},
     (String.substring start (end_ - start) d, (Z.of_nat (end_ - start), None))).

(** [h.Seek(offset, whence)]. *)
Definition Seek (offset whence : Z) (h : memfileh)
  : memfileh * (Z * option error) :=
  let np :=
    if whence =? 0 then offset
    else if whence =? 1 then hpos h + offset
    else if whence =? 2
    then Z.of_nat (String.length (default "" (data (hf h)))) + offset
    else hpos h in
  if np <? 0 then (h, (hpos h, Some (DavError ErrorUnderrun)))
  else ({| hf := hf h; hpos := np |}, (np, None)).

(** [h.Close()]. *)
Definition Close (h : memfileh) : option error := None.

(** [p.Create()] with the handle that it returns. *)
Definition CreateOpen (now : Z) (p : string) (fs : files)
  : files * result (memfile * memfileh) :=
  match Lookup p fs with
  | Ok _ => (fs, Err (DavError ErrorConflict))
  | Err _ =>
      match internalLookup (parent p) fs with
      | Err _ => (fs, Err (DavError ErrorMissingParent))
      | Ok _ =>
          let f := newMemFile now p false in
          let fs := <[p := f]> fs in
          match OpenHandle f with
          | Err err => (fs, Err err)
          | Ok fh => (fs, Ok (f, fh))
          end
      end
  end.

(** The operations of the file system that change the map, with what each
    reads from its surroundings. *)
Inductive fs_op : Type :=
| OpMkdir (now : Z) (p : string)
| OpCreate (now : Z) (p : string)
| OpRemove (p : string)
| OpRecursiveRemove (p : string)
| OpCopyTo (now : Z) (order : files -> list string) (src dst : string)
    (opt : CopyOptions)
| OpWrite (now : Z) (b : string) (k : string) (pos : Z)
| OpTruncate (now : Z) (k : string)
| OpPatchProp (set remove : gmap string string) (k : string).

(** A change of a file object shows in the map under the key that holds
    the object. *)
Definition update (k : string) (g : memfile -> memfile) (fs : files) : files :=
  match fs !! k with
  | Some f => <[k := g f]> fs
  | None => fs
  end.

Definition fs_exec (op : fs_op) (fs : files) : files :=
  match op with
  | OpMkdir now p => fst (Mkdir now p fs)
  | OpCreate now p => fst (Create now p fs)
  | OpRemove p => fst (Remove p fs)
  | OpRecursiveRemove p => fst (RecursiveRemove p fs)
  | OpCopyTo now order src dst opt => fst (CopyTo now order src dst opt fs)
  | OpWrite now b k pos =>
      update k (fun f => hf (fst (Write now b {| hf := f; hpos := pos |}))) fs
  | OpTruncate now k =>
      update k (fun f => match Truncate now f with
                         | Ok h => hf h
                         | Err _ => f
                         end) fs
  | OpPatchProp set remove k => update k (PatchProp set remove) fs
  end.

(** The states of the file system that a run can reach. *)
Inductive fs_reachable : files -> Prop :=
| fs_reach_new now : fs_reachable (NewMemFS now)
| fs_reach_step fs op : fs_reachable fs -> fs_reachable (fs_exec op fs).

(** Every file of the map is held under its own path. *)
Definition fs_wf (fs : files) : Prop :=
  forall k f, fs !! k = Some f -> path f = k.

End memfs.

(** ** The surroundings of a request *)

(** What a request reads from its surroundings: the clock, the token that
    [generateToken] returns, and the order in which a [range] visits a lock
    map. *)
Record Runtime := mkRuntime {
  Now : Z;
  NewToken : string;
  RangeOrder : lockmaster -> list string
}.

(** The file system behind the server: the methods of the interfaces
    [FileSystem], [Path] and [File], over the state [FSt] of the backend.
    A method that changes the file system returns its new state. *)
Record FileSystem (FSt PathT FileT : Type) := mkFileSystem {
  fs_ForPath : string -> FSt -> result PathT;
  fs_Dumpz : FSt -> FSt;
  path_String : PathT -> string;
  path_Parent : PathT -> PathT;
  path_Lookup : PathT -> FSt -> result FileT;
  path_Mkdir : PathT -> FSt -> FSt * result FileT;
  path_Create : PathT -> FSt -> FSt * result FileT;
  path_CopyTo : PathT -> PathT -> CopyOptions -> FSt -> FSt * result bool;
  path_Remove : PathT -> FSt -> FSt * option error;
  path_RecursiveRemove : PathT -> FSt -> FSt * list (string * error);
  file_IsDirectory : FileT -> bool;
  file_Stat : FileT -> result FileInfo
}.
Arguments fs_ForPath {FSt PathT FileT} _ _ _.
Arguments fs_Dumpz {FSt PathT FileT} _ _.
Arguments path_String {FSt PathT FileT} _ _.
Arguments path_Parent {FSt PathT FileT} _ _.
Arguments path_Lookup {FSt PathT FileT} _ _ _.
Arguments path_Mkdir {FSt PathT FileT} _ _ _.
Arguments path_Create {FSt PathT FileT} _ _ _.
Arguments path_CopyTo {FSt PathT FileT} _ _ _ _ _.
Arguments path_Remove {FSt PathT FileT} _ _ _.
Arguments path_RecursiveRemove {FSt PathT FileT} _ _ _.
Arguments file_IsDirectory {FSt PathT FileT} _ _.
Arguments file_Stat {FSt PathT FileT} _ _.

(** Functions of the Go standard library that are not written out:
    [url.Parse], [strings.TrimSpace], [http.StatusText], the request URI
    of a path ([url.URL.RequestURI], behind [UrlEncode] of package
    [path]), the text of a [time.Time], and the XML decoder and encoder. *)
Record GoLib := mkGoLib {
  go_url_Parse : string -> result cond.URL;
  go_TrimSpace : string -> string;
  go_StatusText : Z -> string;
  go_UrlEncode : string -> string;
  go_Time_String : Z -> string;
  go_Decode_lockinfo : string -> x.decoded;
  go_marshalResponses : list x.multiResponse -> string;
  go_marshalProp : x.prop -> string
}.

(** ** The method dispatcher ([webdav.go]) *)

Section Server.

Context {FSt PathT FileT : Type}.
Context (bk : FileSystem FSt PathT FileT) (lib : GoLib).

Local Abbreviation ForPath := (fs_ForPath bk).
Local Abbreviation Dumpz := (fs_Dumpz bk).
Local Abbreviation PString := (path_String bk).
Local Abbreviation Parent := (path_Parent bk).
Local Abbreviation Lookup := (path_Lookup bk).
Local Abbreviation Mkdir := (path_Mkdir bk).
Local Abbreviation Create := (path_Create bk).
Local Abbreviation CopyTo := (path_CopyTo bk).
Local Abbreviation Remove := (path_Remove bk).
Local Abbreviation RecursiveRemove := (path_RecursiveRemove bk).
Local Abbreviation IsDirectory := (file_IsDirectory bk).
Local Abbreviation Stat := (file_Stat bk).
Local Abbreviation url_Parse := (go_url_Parse lib).
Local Abbreviation TrimSpace := (go_TrimSpace lib).
Local Abbreviation StatusText := (go_StatusText lib).
Local Abbreviation UrlEncode := (go_UrlEncode lib).
Local Abbreviation Time_String := (go_Time_String lib).
Local Abbreviation Decode_lockinfo := (go_Decode_lockinfo lib).
Local Abbreviation marshalResponses := (go_marshalResponses lib).
Local Abbreviation marshalProp := (go_marshalProp lib).

(** The server: its file system and its lock master. *)
Record WebDAV := mkWebDAV { fs : FSt; lm : lockmaster }.

Definition set_lm (locks : lockmaster) (s : WebDAV) : WebDAV :=
  {| fs := fs s; lm := locks |}.
Definition set_fs (f : FSt) (s : WebDAV) : WebDAV :=
  {| fs := f; lm := lm s |}.

Definition NewWebDAV (f : FSt) : WebDAV := {| fs := f; lm := newLockMaster |}.

(** [e.Error()]. *)
Fixpoint error_Error (e : error) : string :=
  match e with
  | errorString msg => msg
  | DavError (mkError c t cs) =>
      let st :=
        if (c =? StatusMulti) then "Multi-Status"
        else if (c =? StatusUnprocessableEntity) then "Unprocessable Entity"
        else if (c =? StatusLocked) then "Locked"
        else if (c =? StatusFailedDependency) then "Failed Dependency"
        else if (c =? StatusInsufficientStorage) then "Insufficient Storage"
        else StatusText c in
      strconv.Itoa c +:+ " " +:+ st +:+ " : " +:+ t
      +:+ match cs with
          | None => ""
          | Some e' => " (" +:+ error_Error e' +:+ ")"
          end
  end.

Definition etag (fi : FileInfo) : string :=
  strconv.Itoa (Size fi) +:+ "-" +:+ Time_String (LastModified fi).

(** [fsEnv] implements [cond.Env]. *)
Definition fsEnv (rt : Runtime) : cond.Env WebDAV :=
  {| cond.EnvETag := fun r s =>
       match ForPath r (fs s) with
       | Err _ => (s, "")
       | Ok p =>
           match Lookup p (fs s) with
           | Err _ => (s, "")
           | Ok f =>
               match Stat f with
               | Err _ => (s, "")
               | Ok fi => (s, etag fi)
               end
           end
       end;
     cond.EnvLocked := fun r l s =>
       let '(locks, lock) := isLocked (Now rt) r l (lm s) in
       (set_lm locks s, lock) |}.

Record context := mkContext {
  ctx_p : PathT;
  ctx_depth : Z;
  ctx_timeout : Z;
  ctx_cond : option cond.IfTag;
  ctx_overwrite : bool
}.

(** [parseDepth] gets the desired depth from the given request, defaults
    to infinity if none specified. *)
Definition parseDepth (r : http.Request) : result Z :=
  let dh := http.Get r "Depth" in
  if String.eqb dh "infinity" || String.eqb dh "Infinity" || String.eqb dh ""
  then Ok (-1)
  else
    match strconv.Atoi dh with
    | None => Err (DavError (WithCause ErrorBadDepth (errorString "strconv.Atoi")))
    | Some d =>
        if d <? 0 then
          Err (DavError (WithCause ErrorBadDepth
                 (errorString "depth must be non-negative or infinity")))
        else Ok d
    end.

(** [strings.SplitN(s, ",", n)]: at most [n] pieces, the last one the
    unsplit rest. *)
Fixpoint SplitN (s : string) (n : nat) : list string :=
  match n with
  | O => []
  | S O => [s]
  | S n' =>
      match s with
      | EmptyString => [EmptyString]
      | String c s' =>
          if Ascii.eqb c "," then EmptyString :: SplitN s' n'
          else match SplitN s' n with
               | [] => [String c EmptyString]
               | piece :: pieces => String c piece :: pieces
               end
      end
  end.

(** [strings.TrimPrefix(s, prefix)]. *)
Definition TrimPrefix (s prefix : string) : string :=
  if GoStr.HasPrefix s prefix then GoStr.from (String.length prefix) s else s.

(** The 64 bits of a [time.Duration]. *)
Definition wrap64 (n : Z) : Z := (n + 2 ^ 63) mod 2 ^ 64 - 2 ^ 63.

Fixpoint parseTimeout_loop (opts : list string) : Z :=
  match opts with
  | [] => Second
  | o :: opts' =>
      let o := TrimSpace o in
      if String.eqb o "Infinite" then parseTimeout_loop opts'
      else
        let o := TrimPrefix "Second-" o in
        match strconv.Atoi o with
        | None => parseTimeout_loop opts'
        | Some d => wrap64 (d * Second)
        end
  end.

(** [parseTimeout] gets the desired timeout from the request, defaults to
    one second if none specified or if invalid. *)
Definition parseTimeout (r : http.Request) : Z :=
  parseTimeout_loop (SplitN (http.Get r "Timeout") 3).

(** [parseIfHeader]; [None] stands for a parser that does not return. *)
Definition parseIfHeader (r : http.Request)
  : option (result (option cond.IfTag)) :=
  let ih := http.Get r "If" in
  if String.eqb ih "" then Some (Ok None)
  else
    match cond.ParseIfTag ih with
    | None => None
    | Some (t, Some err) => Some (Err err)
    | Some (t, None) =>
        match cond.RewriteHosts url_Parse (http.Host r) t with
        | (_, Some err) => Some (Err err)
        | (t, None) => Some (Ok (Some t))
        end
    end.

(** [extractContext]: the context, or the error with the path that the
    context holds at that point ([None] for a nil [Path]). *)
Definition extractContext (s : WebDAV) (r : http.Request)
  : option (option PathT * result context) :=
  match ForPath (http.URL_Path r) (fs s) with
  | Err err => Some (None, Err err)
  | Ok p =>
      match parseDepth r with
      | Err err => Some (Some p, Err err)
      | Ok depth =>
          match parseIfHeader r with
          | None => None
          | Some (Err err) => Some (Some p, Err err)
          | Some (Ok c) =>
              Some (Some p,
                    Ok {| ctx_p := p; ctx_depth := depth;
                          ctx_timeout := parseTimeout r; ctx_cond := c;
                          ctx_overwrite :=
                            negb (String.eqb (http.Get r "Overwrite") "F") |})
          end
      end
  end.

Fixpoint checkTokens (now : Z) (p : string) (tokens : list string)
    (locks : lockmaster) : lockmaster * bool :=
  match tokens with
  | [] => (locks, false)
  | t :: tokens' =>
      let '(locks, ok) := isLocked now p t locks in
      if ok then (locks, true) else checkTokens now p tokens' locks
  end.

Definition checkCanWrite (rt : Runtime) (c : option cond.IfTag) (p : string)
    (locks : lockmaster) : lockmaster * bool :=
  let '(locks, l) := getLockForPath (Now rt) (RangeOrder rt locks) p locks in
  match l with
  | None => (locks, true)
  | Some _ =>
      match c with
      | None => (locks, false)
      | Some c => checkTokens (Now rt) p (cond.GetAllTokens c) locks
      end
  end.

(** [allowedHeader]; the call [p.Lookup()] on a nil path panics. *)
Definition allowedHeader (p : option PathT) (s : WebDAV)
    (w : http.ResponseWriter) : http.ResponseWriter :=
  match p with
  | None => http.panic w
  | Some p =>
      let allowed :=
        match Lookup p (fs s) with
        | Err _ => "OPTIONS, MKCOL, PUT, LOCK"
        | Ok f =>
            "OPTIONS, GET, HEAD, POST, DELETE, TRACE, PROPPATCH, COPY, MOVE, LOCK, UNLOCK"
            +:+ (if IsDirectory f then ", PUT, PROPFIND" else "")
        end in
      http.Set_ "Allow" allowed w
  end.

Definition errorHeader (p : option PathT) (e : error) (s : WebDAV)
    (w : http.ResponseWriter) : http.ResponseWriter :=
  match e with
  | DavError we =>
      let w := http.WriteHeader (HTTPCode we) w in
      if HTTPCode we =? StatusMethodNotAllowed then allowedHeader p s w else w
  | errorString _ => http.WriteHeader StatusInternalServerError w
  end.

(** A handler works on the server and on the response writer. *)
Definition handler : Type :=
  Runtime -> context -> http.Request -> WebDAV -> http.ResponseWriter ->
  WebDAV * http.ResponseWriter.

(** The handlers that rest on [http.ServeContent], [io.Copy] and the XML
    decoder of property requests are taken as given. *)
Record Handlers := mkHandlers {
  h_servePath : bool -> handler;
  h_doPut : handler;
  h_doPropfind : handler;
  h_doProppatch : handler
}.

Context (hs : Handlers).

Local Abbreviation servePath := (h_servePath hs).
Local Abbreviation doPut := (h_doPut hs).
Local Abbreviation doPropfind := (h_doPropfind hs).
Local Abbreviation doProppatch := (h_doProppatch hs).

Definition doOptions : handler := fun rt ctx r s w =>
  let w := http.Set_ "DAV" "1, 2" w in
  let w := allowedHeader (Some (ctx_p ctx)) s w in
  (s, http.Set_ "MS-Author-Via" "DAV" w).

Definition doGet : handler := servePath true.
Definition doHead : handler := servePath false.
Definition doPost : handler := doGet.

(** The multistatus of the errors of a recursive remove. *)
Definition statusOfErrors (errs : list (string * error)) : x.MultiStatus :=
  fold_left (fun ms pe => x.AddStatus UrlEncode (fst pe) (error_Error (snd pe)) ms)
            errs x.NewMultiStatus.

Definition doDelete : handler := fun rt ctx r s w =>
  let '(locks, ok) :=
    checkCanWrite rt (ctx_cond ctx) (PString (ctx_p ctx)) (lm s) in
  let s := set_lm locks s in
  if negb ok then (s, errorHeader (Some (ctx_p ctx)) (DavError ErrorLocked) s w)
  else
    match Lookup (ctx_p ctx) (fs s) with
    | Err err => (s, errorHeader (Some (ctx_p ctx)) err s w)
    | Ok f =>
        if negb (IsDirectory f) then
          let '(f', err) := Remove (ctx_p ctx) (fs s) in
          let s := set_fs f' s in
          match err with
          | Some err => (s, errorHeader (Some (ctx_p ctx)) err s w)
          | None => (s, w)
          end
        else
          let '(f', errs) := RecursiveRemove (ctx_p ctx) (fs s) in
          let s := set_fs f' s in
          match errs with
          | [] => (s, http.WriteHeader StatusNoContent w)
          | _ => (s, x.Send marshalResponses (statusOfErrors errs) w)
          end
    end.

Definition doMkcol : handler := fun rt ctx r s w =>
  let '(locks, ok) :=
    checkCanWrite rt (ctx_cond ctx) (PString (ctx_p ctx)) (lm s) in
  let s := set_lm locks s in
  if negb ok then (s, errorHeader (Some (ctx_p ctx)) (DavError ErrorLocked) s w)
  else
    match Lookup (ctx_p ctx) (fs s) with
    | Ok _ => (s, errorHeader (Some (ctx_p ctx)) (DavError ErrorNotAllowed) s w)
    | Err _ =>
        if 0 <? http.ContentLength r then
          (s, errorHeader (Some (ctx_p ctx)) (DavError ErrorUnsupportedType) s w)
        else
          let '(f', res) := Mkdir (ctx_p ctx) (fs s) in
          let s := set_fs f' s in
          match res with
          | Err err =>
              (s, errorHeader (Some (ctx_p ctx))
                    (DavError (WithCause ErrorConflict err)) s w)
          | Ok _ => (s, http.WriteHeader StatusCreated w)
          end
    end.

Definition handleCopyOrMove (move : bool) : handler := fun rt ctx r s w =>
  let src := ctx_p ctx in
  let '(locks, ok) :=
    if move then checkCanWrite rt (ctx_cond ctx) (PString src) (lm s)
    else (lm s, true) in
  let s := set_lm locks s in
  if negb ok then (s, errorHeader (Some src) (DavError ErrorLocked) s w)
  else
    let dhdr := http.Get r "Destination" in
    if String.eqb dhdr "" then
      (s, errorHeader (Some src) (DavError ErrorBadDest) s w)
    else
      match url_Parse dhdr with
      | Err err =>
          (s, errorHeader (Some src) (DavError (WithCause ErrorBadDest err)) s w)
      | Ok durl =>
          (* Destination host must match our source. *)
          if negb (String.eqb (cond.Host durl) (http.Host r)) then
            (s, errorHeader (Some src) (DavError ErrorBadHost) s w)
          else
            match ForPath (cond.Path durl) (fs s) with
            | Err err =>
                (s, errorHeader (Some src)
                      (DavError (WithCause ErrorBadDest err)) s w)
            | Ok dst =>
                let '(locks, ok) :=
                  checkCanWrite rt (ctx_cond ctx) (PString dst) (lm s) in
                let s := set_lm locks s in
                if negb ok then
                  (s, errorHeader (Some src) (DavError ErrorLocked) s w)
                else
                  let '(f', res) :=
                    CopyTo src dst
                      {| Overwrite := ctx_overwrite ctx; Move := move;
                         Depth := ctx_depth ctx |} (fs s) in
                  let s := set_fs f' s in
                  match res with
                  | Err err => (s, errorHeader (Some src) err s w)
                  | Ok newf =>
                      (s, http.WriteHeader
                            (if newf then StatusCreated else StatusNoContent) w)
                  end
            end
      end.

Definition doCopy : handler := handleCopyOrMove false.
Definition doMove : handler := handleCopyOrMove true.

(** [l.toXML()]: the active lock, with the seconds left of its duration. *)
Definition toXML (now : Z) (l : lock) : string :=
  let ds := if depth l <? 0 then "infinity" else strconv.Itoa (depth l) in
  let t := Z.quot (duration l - (now - modified l)) Second in
  x.newline +:+ "<activelock>" +:+ x.newline
  +:+ "  <locktype><write/></locktype>" +:+ x.newline
  +:+ "  <lockscope><exclusive/></lockscope>" +:+ x.newline
  +:+ "  <depth>" +:+ ds +:+ "</depth>" +:+ x.newline
  +:+ "  <owner>" +:+ owner l +:+ "</owner>" +:+ x.newline
  +:+ "  <timeout>Second-" +:+ strconv.Itoa t +:+ "</timeout>" +:+ x.newline
  +:+ "  <locktoken><href>" +:+ token l +:+ "</href></locktoken>" +:+ x.newline
  +:+ "  <lockroot><href>" +:+ UrlEncode (path l) +:+ "</href></lockroot>"
  +:+ x.newline +:+ "</activelock>".

(** The first part of [doLock], up to the test of [err]: the lock that was
    refreshed or created, or the error to report. *)
Definition acquireLock (rt : Runtime) (ctx : context) (req : x.LockRequest)
    (locks : lockmaster) : lockmaster * result lock :=
  if x.Refresh req then
    match ctx_cond ctx with
    | None => (locks, Err (DavError ErrorBadLock))
    | Some c =>
        let '(tok, ok) := cond.GetSingleState c in
        if negb ok then (locks, Err (DavError ErrorBadLock))
        else refreshLock (Now rt) tok (PString (ctx_p ctx)) (ctx_timeout ctx) locks
    end
  else
    createLock (Now rt) (NewToken rt) (RangeOrder rt locks) (x.Owner req)
      (PString (ctx_p ctx)) (ctx_depth ctx) (ctx_timeout ctx) locks.

Definition doLock : handler := fun rt ctx r s w =>
  match x.ParseLock Decode_lockinfo (http.Body r) with
  | Err err =>
      (s, errorHeader (Some (ctx_p ctx)) (DavError (WithCause ErrorBadLock err)) s w)
  | Ok req =>
      (* We don't let you lock on anything without a parent. *)
      match Lookup (Parent (ctx_p ctx)) (fs s) with
      | Err _ =>
          (s, errorHeader (Some (ctx_p ctx)) (DavError ErrorMissingParent) s w)
      | Ok _ =>
          let '(locks, res) := acquireLock rt ctx req (lm s) in
          let s := set_lm locks s in
          match res with
          | Err err => (s, errorHeader (Some (ctx_p ctx)) err s w)
          | Ok l =>
              let w :=
                if negb (x.Refresh req)
                then http.Set_ "Lock-Token" ("<" +:+ token l +:+ ">") w
                else w in
              (* Now that we have a successful lock, create the resource
                 if it didn't exist already. *)
              let created : WebDAV * result http.ResponseWriter :=
                match Lookup (ctx_p ctx) (fs s) with
                | Err _ =>
                    let '(f', res) := Create (ctx_p ctx) (fs s) in
                    let s := set_fs f' s in
                    match res with
                    | Err err =>
                        (* Unlock, as we're failing. *)
                        let s := set_lm (unlock (token l) (lm s)) s in
                        (s, Err err)
                    | Ok _ => (s, Ok (http.WriteHeader StatusCreated w))
                    end
                | Ok _ => (s, Ok (http.WriteHeader StatusOK w))
                end in
              match created with
              | (s, Err err) => (s, errorHeader (Some (ctx_p ctx)) err s w)
              | (s, Ok w) =>
                  let a := x.set_Inner (toXML (Now rt) l)
                             (x.NewAny "DAV::lockdiscovery") in
                  (s, x.SendProp marshalProp a w)
              end
          end
      end
  end.

Definition doUnlock : handler := fun rt ctx r s w =>
  let lt := http.Get r "Lock-Token" in
  let lt :=
    match lt with
    | String "<"%char _ =>
        if (2 <? String.length lt)%nat
        then String.substring 1 (String.length lt - 2) lt
        else lt
    | _ => lt
    end in
  let '(locks, ok) := isLocked (Now rt) (PString (ctx_p ctx)) lt (lm s) in
  let s := set_lm locks s in
  if negb ok then (s, errorHeader (Some (ctx_p ctx)) (DavError ErrorBadLock) s w)
  else (set_lm (unlock lt (lm s)) s, w).

(** [ServeHTTP]; [None] stands for a request whose If header the parser
    does not finish.  The debug mode only logs and serializes requests. *)
Definition ServeHTTP (rt : Runtime) (r : http.Request) (s : WebDAV)
    (w : http.ResponseWriter) : option (WebDAV * http.ResponseWriter) :=
  (* Handle dumping all files. *)
  if String.eqb (http.URL_Path r) "/dumpz" then Some (set_fs (Dumpz (fs s)) s, w)
  else
    match extractContext s r with
    | None => None
    | Some (p, Err err) => Some (s, errorHeader p err s w)
    | Some (_, Ok ctx) =>
        let '(s, pre) :=
          match ctx_cond ctx with
          | None => (s, true)
          | Some c => cond.Eval (fsEnv rt) (PString (ctx_p ctx)) c s
          end in
        if negb pre then Some (s, http.WriteHeader StatusPreconditionFailed w)
        else
          let m := http.Method r in
          Some
            (if String.eqb m "OPTIONS" then doOptions rt ctx r s w
             else if String.eqb m "GET" then doGet rt ctx r s w
             else if String.eqb m "HEAD" then doHead rt ctx r s w
             else if String.eqb m "POST" then doPost rt ctx r s w
             else if String.eqb m "DELETE" then doDelete rt ctx r s w
             else if String.eqb m "PUT" then doPut rt ctx r s w
             else if String.eqb m "MKCOL" then doMkcol rt ctx r s w
             else if String.eqb m "COPY" then doCopy rt ctx r s w
             else if String.eqb m "MOVE" then doMove rt ctx r s w
             else if String.eqb m "PROPFIND" then doPropfind rt ctx r s w
             else if String.eqb m "PROPPATCH" then doProppatch rt ctx r s w
             else if String.eqb m "LOCK" then doLock rt ctx r s w
             else if String.eqb m "UNLOCK" then doUnlock rt ctx r s w
             else (s, http.WriteHeader StatusBadRequest w))
    end.


End Server.

(** *** GET, HEAD, POST and PUT *)

(** The file handles behind the server: what [File.Open], [File.Truncate]
    and [Path.Create] return, with [FileHandle.Write].  [io_chunks] gives
    the pieces in which the body of a request is read, and
    [io_ServeContent] is [http.ServeContent] on a handle ([None] for the
    empty file of a HEAD request). *)
Record FileIO (FSt PathT FileT HandleT : Type) := mkFileIO {
  io_Open : FileT -> FSt -> result HandleT;
  io_Truncate : FileT -> FSt -> FSt * result HandleT;
  io_Create : PathT -> FSt -> FSt * result (FileT * HandleT);
  io_Write : string -> HandleT -> FSt -> (FSt * HandleT) * (Z * option error);
  io_chunks : string -> list string;
  io_ServeContent :
    http.Request -> string -> Z -> option HandleT -> FSt ->
    http.ResponseWriter -> http.ResponseWriter
}.
Arguments io_Open {FSt PathT FileT HandleT} _ _ _.
Arguments io_Truncate {FSt PathT FileT HandleT} _ _ _.
Arguments io_Create {FSt PathT FileT HandleT} _ _ _.
Arguments io_Write {FSt PathT FileT HandleT} _ _ _ _.
Arguments io_chunks {FSt PathT FileT HandleT} _ _.
Arguments io_ServeContent {FSt PathT FileT HandleT} _ _ _ _ _ _ _.

Section Handles.

Context {FSt PathT FileT HandleT : Type}.
Context (bk : FileSystem FSt PathT FileT) (lib : GoLib)
        (io : FileIO FSt PathT FileT HandleT).

(** [io.Copy(fh, r.Body)] for a body that is read in the pieces [chunks]:
    every piece that is not empty is written; the copy ends with the
    first error of a write, or with a short write. *)
Fixpoint io_Copy (chunks : list string) (fh : HandleT) (f : FSt)
  : FSt * option error :=
  match chunks with
  | [] => (f, None)
  | b :: chunks' =>
      if (String.length b =? 0)%nat then io_Copy chunks' fh f
      else
        let '((f, fh), (nw, ew)) := io_Write io b fh f in
        match ew with
        | Some err => (f, Some err)
        | None =>
            if negb (nw =? Z.of_nat (String.length b))
            then (f, Some (errorString "short write"))
            else io_Copy chunks' fh f
        end
  end.

Definition servePath (content : bool) : handler := fun rt ctx r s w =>
  match path_Lookup bk (ctx_p ctx) (fs s) with
  | Err err =>
      (s, errorHeader bk (Some (ctx_p ctx))
            (DavError (WithCause ErrorNotFound err)) s w)
  | Ok f =>
      match file_Stat bk f with
      | Err err => (s, errorHeader bk (Some (ctx_p ctx)) err s w)
      | Ok fi =>
          let fh : result (option HandleT) :=
            if content then
              match io_Open io f (fs s) with
              | Ok fh => Ok (Some fh)
              | Err err => Err err
              end
            else Ok None in
          match fh with
          | Err err => (s, errorHeader bk (Some (ctx_p ctx)) err s w)
          | Ok fh =>
              let w := http.Set_ "ETag" (etag lib fi) w in
              (s, io_ServeContent io r (path_String bk (ctx_p ctx)) (LastModified fi)
                    fh (fs s) w)
          end
      end
  end.

Definition doPut : handler := fun rt ctx r s w =>
  let '(locks, ok) :=
    checkCanWrite rt (ctx_cond ctx) (path_String bk (ctx_p ctx)) (lm s) in
  let s := set_lm locks s in
  if negb ok then (s, errorHeader bk (Some (ctx_p ctx)) (DavError ErrorLocked) s w)
  else
    let opened : option (FSt * bool * result HandleT) :=
      match path_Lookup bk (ctx_p ctx) (fs s) with
      | Ok f =>
          if file_IsDirectory bk f then None
          else
            let '(f', res) := io_Truncate io f (fs s) in Some (f', true, res)
      | Err _ =>
          let '(f', res) := io_Create io (ctx_p ctx) (fs s) in
          Some (f', false,
                match res with
                | Ok (_, fh) => Ok fh
                | Err err => Err err
                end)
      end in
    match opened with
    | None => (s, errorHeader bk (Some (ctx_p ctx)) (DavError ErrorIsDir) s w)
    | Some (f', exists_, res) =>
        let s := set_fs f' s in
        match res with
        | Err err =>
            (s, errorHeader bk (Some (ctx_p ctx))
                  (DavError (WithCause ErrorConflict err)) s w)
        | Ok fh =>
            let '(f', err) := io_Copy (io_chunks io (http.Body r)) fh (fs s) in
            let s := set_fs f' s in
            match err with
            | Some _ =>
                (s, errorHeader bk (Some (ctx_p ctx)) (DavError ErrorConflict) s w)
            | None =>
                (s, http.WriteHeader
                      (if exists_ then StatusNoContent else StatusCreated) w)
            end
        end
    end.

End Handles.

(** ** Backends and surroundings of the examples *)

Module sample.

(** A [range] that visits the keys in the order of [map_to_list]. *)
Definition keys (locks : lockmaster) : list string := (map_to_list locks).*1.

Definition runtime (now : Z) (tok : string) : Runtime :=
  {| Now := now; NewToken := tok; RangeOrder := keys |}.

(** A backend without room for new files: [Create] fails. *)
Definition fullCreate (p : string) (fs : memfs.files)
  : memfs.files * result memfs.memfile :=
  (fs, Err (DavError (mkError StatusInsufficientStorage "Full" None))).

(** A backend that does not copy. *)
Definition noCopyTo (src dst : string) (opt : CopyOptions) (fs : memfs.files)
  : memfs.files * result bool :=
  (fs, Err (DavError ErrorNotYetImplemented)).

(** [url.Parse] on a rooted path of unreserved characters: a URL with that
    path and no host. *)
Definition parsePath (s : string) : result cond.URL :=
  Ok {| cond.Host := ""; cond.Path := s |}.

(** The body of a LOCK request for an exclusive write lock, decoded. *)
Definition exclusiveWrite (body : string) : x.decoded :=
  x.DecodeOk {| x.Exclusive := true; x.Shared := false; x.Write := true;
                x.li_Owner := "" |}.

(** A handler that does nothing. *)
Definition skip {R C Q S W : Type} (rt : R) (ctx : C) (r : Q) (s : S) (w : W)
  : S * W := (s, w).

Definition request (method path : string) (header : gmap string string)
  : http.Request :=
  {| http.Method := method; http.URL_Path := path; http.Host := "example.org";
     http.Header := header; http.Body := ""; http.ContentLength := 0 |}.

End sample.

(** The in-memory file system as a backend of the server; it does not
    copy. *)
Definition memBackend : FileSystem memfs.files string memfs.memfile :=
  {| fs_ForPath := memfs.ForPath; fs_Dumpz := id; path_String := id;
     path_Parent := memfs.parent; path_Lookup := memfs.Lookup;
     path_Mkdir := memfs.Mkdir 0; path_Create := memfs.Create 0;
     path_CopyTo := sample.noCopyTo; path_Remove := memfs.Remove;
     path_RecursiveRemove := memfs.RecursiveRemove;
     file_IsDirectory := memfs.IsDirectory; file_Stat := memfs.Stat |}.

(** The same backend without room for new files. *)
Definition fullBackend : FileSystem memfs.files string memfs.memfile :=
  {| fs_ForPath := memfs.ForPath; fs_Dumpz := id; path_String := id;
     path_Parent := memfs.parent; path_Lookup := memfs.Lookup;
     path_Mkdir := memfs.Mkdir 0; path_Create := sample.fullCreate;
     path_CopyTo := sample.noCopyTo; path_Remove := memfs.Remove;
     path_RecursiveRemove := memfs.RecursiveRemove;
     file_IsDirectory := memfs.IsDirectory; file_Stat := memfs.Stat |}.

(** Stand-ins for the library: destinations are rooted paths, bodies of
    LOCK requests ask for an exclusive write lock, nothing is rendered. *)
Definition sampleLib : GoLib :=
  {| go_url_Parse := sample.parsePath; go_TrimSpace := id;
     go_StatusText := fun _ => ""; go_UrlEncode := id;
     go_Time_String := fun _ => "";
     go_Decode_lockinfo := sample.exclusiveWrite;
     go_marshalResponses := fun _ => ""; go_marshalProp := fun _ => "" |}.

Definition noHandlers : @Handlers memfs.files string :=
  {| h_servePath := fun _ => sample.skip; h_doPut := sample.skip;
     h_doPropfind := sample.skip; h_doProppatch := sample.skip |}.

(** The server on the in-memory file system. *)
Definition memServe := ServeHTTP memBackend sampleLib noHandlers.

(** The handler of LOCK on the backend without room for new files. *)
Definition fullLock := doLock fullBackend sampleLib.

(** The file system with the root and the file ["/foo"]. *)
Definition foo_fs : memfs.files :=
  <["/foo" := memfs.newMemFile 0 "/foo" false]> (memfs.NewMemFS 0).

Definition plain_context (p : string) : @context string :=
  {| ctx_p := p; ctx_depth := -1; ctx_timeout := Second; ctx_cond := None;
     ctx_overwrite := true |}.

(** Two locks created one after the other, on ["/a"] with depth 0 and on
    ["/b"] with depth infinity. *)
Definition two_locks : lockmaster :=
  let m1 := lm_exec (OpCreateLock 0 "t1" (sample.keys ∅) "" "/a" 0 0) ∅ in
  lm_exec (OpCreateLock 0 "t2" (sample.keys m1) "" "/b" (-1) 0) m1.

(** A lock of depth infinity on ["/a"], and the lock manager after one
    later question about it. *)
Definition one_lock : lockmaster :=
  fst (createLock 0 "t" [] "" "/a" (-1) 0 ∅).


(** A lock on ["/old"], taken at time 0 for the shortest duration. *)
Definition old_lock : lockmaster :=
  lm_exec (OpCreateLock 0 "t0" (sample.keys ∅) "" "/old" 0 0) ∅.

(** The file handles of the in-memory file system: a handle holds its
    file, and the map holds that file under its path, where a change of
    the file shows. *)
Definition memWrite (now : Z) (b : string) (h : memfs.memfileh) (fs : memfs.files)
  : (memfs.files * memfs.memfileh) * (Z * option error) :=
  let '(h', res) := memfs.Write now b h in
  (memfs.update (memfs.path (memfs.hf h)) (fun _ => memfs.hf h') fs, h', res).

Definition memTruncate (now : Z) (f : memfs.memfile) (fs : memfs.files)
  : memfs.files * result memfs.memfileh :=
  match memfs.Truncate now f with
  | Ok h => (memfs.update (memfs.path f) (fun _ => memfs.hf h) fs, Ok h)
  | Err err => (fs, Err err)
  end.

(** The handles of the in-memory file system for a body that arrives in
    the pieces [chunks]; [http.ServeContent] is not looked into. *)
Definition memIO (chunks : string -> list string)
  : FileIO memfs.files string memfs.memfile memfs.memfileh :=
  {| io_Open := fun f _ => memfs.OpenHandle f;
     io_Truncate := memTruncate 0;
     io_Create := memfs.CreateOpen 0;
     io_Write := memWrite 0;
     io_chunks := chunks;
     io_ServeContent := fun _ _ _ _ _ w => w |}.

(** The server on the in-memory file system with its handlers of GET,
    HEAD, POST and PUT. *)
Definition memHandlers : @Handlers memfs.files string :=
  {| h_servePath := servePath memBackend sampleLib (memIO (fun body => [body]));
     h_doPut := doPut memBackend (memIO (fun body => [body]));
     h_doPropfind := sample.skip; h_doProppatch := sample.skip |}.

Definition memServeIO := ServeHTTP memBackend sampleLib memHandlers.

(** The file system with the root, the directory ["/d"] and the file
    ["/d/x"] in it. *)
Definition dir_fs : memfs.files :=
  memfs.fs_exec (memfs.OpCreate 0 "/d/x")
    (memfs.fs_exec (memfs.OpMkdir 0 "/d") (memfs.NewMemFS 0)).

(** A [range] over the files in the order of [map_to_list]. *)
Definition file_keys (fs : memfs.files) : list string := (map_to_list fs).*1.

(** A PUT request with a body. *)
Definition put_request (path body : string) : http.Request :=
  {| http.Method := "PUT"; http.URL_Path := path; http.Host := "example.org";
     http.Header := ∅; http.Body := body;
     http.ContentLength := Z.of_nat (String.length body) |}.

(** An If header with a resource, a negated token, an entity tag, and a
    second list. *)
Definition sample_if : cond.IfTag :=
  cond.mkIfTag
    [cond.mkConditionList "/a"
       [cond.mkCondition true "urn:uuid:1" ""; cond.mkCondition false "" "W/7"];
     cond.mkConditionList "" [cond.mkCondition false "urn:uuid:2" ""]].

(** The in-memory file system as a backend that copies. *)
Definition copyBackend : FileSystem memfs.files string memfs.memfile :=
  {| fs_ForPath := memfs.ForPath; fs_Dumpz := id; path_String := id;
     path_Parent := memfs.parent; path_Lookup := memfs.Lookup;
     path_Mkdir := memfs.Mkdir 0; path_Create := memfs.Create 0;
     path_CopyTo := memfs.CopyTo 0 file_keys; path_Remove := memfs.Remove;
     path_RecursiveRemove := memfs.RecursiveRemove;
     file_IsDirectory := memfs.IsDirectory; file_Stat := memfs.Stat |}.

(** [url.Parse] on the URLs of the host ["example.org"] and on rooted
    paths: the former have that host and their path, the latter no host. *)
Definition parse_example_org (s : string) : result cond.URL :=
  if String.prefix "http://example.org/" s
  then Ok {| cond.Host := "example.org"; cond.Path := GoStr.from 18 s |}
  else Ok {| cond.Host := ""; cond.Path := s |}.

Definition urlLib : GoLib :=
  {| go_url_Parse := parse_example_org; go_TrimSpace := id;
     go_StatusText := fun _ => ""; go_UrlEncode := id;
     go_Time_String := fun _ => "";
     go_Decode_lockinfo := sample.exclusiveWrite;
     go_marshalResponses := fun _ => ""; go_marshalProp := fun _ => "" |}.



(** * Properties *)

Section Properties.

Context {FSt PathT FileT : Type}.
Context (bk : FileSystem FSt PathT FileT) (lib : GoLib)
        (hs : @Handlers FSt PathT).

Local Abbreviation ForPath := (fs_ForPath bk).
Local Abbreviation PString := (path_String bk).
Local Abbreviation Parent := (path_Parent bk).
Local Abbreviation Lookup := (path_Lookup bk).
Local Abbreviation Create := (path_Create bk).
Local Abbreviation Remove := (path_Remove bk).
Local Abbreviation IsDirectory := (file_IsDirectory bk).
Local Abbreviation url_Parse := (go_url_Parse lib).
Local Abbreviation Decode_lockinfo := (go_Decode_lockinfo lib).


(** ** Paths *)

Lemma Split_nonempty s sep : GoStr.Split s sep <> [].
Proof.
  destruct s as [|c s]; simpl; [discriminate|].
  destruct (Ascii.eqb c sep); [discriminate|].
  destruct (GoStr.Split s sep); discriminate.
Qed.

Lemma Split_length_pos s sep : (1 <= List.length (GoStr.Split s sep))%nat.
Proof.
  pose proof (Split_nonempty s sep) as H.
  destruct (GoStr.Split s sep); [congruence | simpl; lia].
Qed.

(** The tests of the package ([TestInTree], [TestIncluded]). *)
Example TestInTree :
  wp.InTree "/" "/" = true /\ wp.InTree "/foo" "/" = true
  /\ wp.InTree "/foo/bar" "/" = true /\ wp.InTree "/foo/zoo" "/foo/bar" = false
  /\ wp.InTree "/foozy" "/doozy" = false.
Proof. repeat split; reflexivity. Qed.

Example TestIncluded :
  snd (wp.Included "/" "/" 0) = true /\ snd (wp.Included "/foo" "/" 0) = false
  /\ snd (wp.Included "/foo" "/" 1) = true
  /\ snd (wp.Included "/foo/bar" "/" 1) = false.
Proof. repeat split; reflexivity. Qed.

(** A path is included in itself at every depth. *)
Lemma Included_self a d : wp.Included a a d = ("", true).
Proof. unfold wp.Included. by rewrite String.eqb_refl. Qed.

Lemma InTree_self a : wp.InTree a a = true.
Proof. unfold wp.InTree. by rewrite String.eqb_refl. Qed.

(** With a negative depth, [Included] is [InTree]. *)
Lemma Included_unbounded a b d :
  d < 0 -> snd (wp.Included a b d) = wp.InTree a b.
Proof.
  intros Hd. unfold wp.Included.
  destruct (String.eqb a b) eqn:Hab.
  - apply String.eqb_eq in Hab as ->. by rewrite InTree_self.
  - destruct (wp.InTree a b); simpl; [|done].
    replace (0 <=? d) with false by lia. done.
Qed.

(** With depth 0, only the subtree's own name is included. *)
Lemma Included_depth0 a b : snd (wp.Included a b 0) = String.eqb a b.
Proof.
  unfold wp.Included.
  destruct (String.eqb a b) eqn:Hab; [done|].
  destruct (wp.InTree a b); simpl; [|done].
  pose proof (Split_length_pos
    (GoPath.Clean (GoStr.from (String.length b) a)) "/") as Hlen.
  match goal with |- snd (if ?c then _ else _) = _ => replace c with true by lia end.
  done.
Qed.

(** ** The lock manager *)

Lemma clampDuration_range dur :
  minLockDuration <= clampDuration dur <= maxLockDuration.
Proof.
  unfold clampDuration, minLockDuration, maxLockDuration, Minute, Second.
  repeat case_match; lia.
Qed.

(** [clampDuration] is the clamp of the duration to [[20s, 300s]]. *)
Lemma clampDuration_clamp dur :
  clampDuration dur = Z.max minLockDuration (Z.min dur maxLockDuration).
Proof.
  unfold clampDuration, minLockDuration, maxLockDuration, Minute, Second.
  repeat case_match; lia.
Qed.

Lemma lm_swept_refl now locks : lm_swept now locks locks.
Proof. by split. Qed.

Lemma lm_swept_trans now l1 l2 l3 :
  lm_swept now l1 l2 -> lm_swept now l2 l3 -> lm_swept now l1 l3.
Proof. intros [A1 B1] [A2 B2]. split; eauto. Qed.

(** Deleting an expired or absent entry sweeps the map. *)
Lemma lm_swept_delete now (locks : lockmaster) k :
  (forall l, locks !! k = Some l -> expired now l = true) ->
  lm_swept now locks (delete k locks).
Proof.
  intros Hk. split; intros k' l.
  - rewrite lookup_delete. case_decide; [done|auto].
  - intros Hl Hlive. rewrite lookup_delete. case_decide as Heq; [|done].
    subst k'. apply Hk in Hl. unfold live in Hlive. congruence.
Qed.

Lemma lm_wf_sub (locks locks' : lockmaster) :
  (forall k l, locks' !! k = Some l -> locks !! k = Some l) ->
  lm_wf locks -> lm_wf locks'.
Proof. intros Hsub Hwf k l Hl. eauto. Qed.

Lemma lm_disjoint_sub (locks locks' : lockmaster) :
  (forall k l, locks' !! k = Some l -> locks !! k = Some l) ->
  lm_disjoint locks -> lm_disjoint locks'.
Proof. intros Hsub Hd k1 k2 l1 l2 Hne H1 H2. eapply Hd; eauto. Qed.

Lemma lm_wf_delete (locks : lockmaster) k : lm_wf locks -> lm_wf (delete k locks).
Proof.
  apply lm_wf_sub. intros k' l. rewrite lookup_delete. by case_decide.
Qed.

Lemma lm_disjoint_delete (locks : lockmaster) k :
  lm_disjoint locks -> lm_disjoint (delete k locks).
Proof.
  apply lm_disjoint_sub. intros k' l. rewrite lookup_delete. by case_decide.
Qed.

(** The loop of [getLockForPath] only sweeps; it returns a live lock of
    the map that covers the path, and with a full [range] it returns none
    only when there is none. *)
Lemma getLockForPath_loop_swept now p order (locks : lockmaster) :
  lm_wf locks ->
  lm_swept now locks (fst (getLockForPath_loop now p order locks)).
Proof.
  revert locks. induction order as [|k order IH]; intros locks Hwf; simpl.
  - apply lm_swept_refl.
  - destruct (locks !! k) as [l|] eqn:Hk; [|by apply IH].
    destruct (expired now l) eqn:He.
    + eapply lm_swept_trans; [|apply IH, lm_wf_delete, Hwf].
      apply lm_swept_delete. intros l' Hl'.
      rewrite (Hwf _ _ Hk) in Hl'. congruence.
    + destruct (snd (wp.Included p (path l) (depth l))); simpl;
        [apply lm_swept_refl|by apply IH].
Qed.

Lemma getLockForPath_loop_Some now p order (locks : lockmaster) l :
  snd (getLockForPath_loop now p order locks) = Some l ->
  exists k, locks !! k = Some l /\ live now l /\ covers l p = true.
Proof.
  revert locks. induction order as [|k order IH]; intros locks; simpl; [done|].
  destruct (locks !! k) as [l0|] eqn:Hk; [|by apply IH].
  destruct (expired now l0) eqn:He.
  - intros (k' & Hk' & ?)%IH. exists k'. split; [|done].
    rewrite lookup_delete in Hk'. by case_decide.
  - destruct (snd (wp.Included p (path l0) (depth l0))) eqn:Hc; simpl.
    + intros [= <-]. by exists k.
    + apply IH.
Qed.

Lemma getLockForPath_loop_None now p order (locks : lockmaster) :
  lm_wf locks ->
  snd (getLockForPath_loop now p order locks) = None ->
  forall k l, k ∈ order -> locks !! k = Some l -> live now l ->
    covers l p = false.
Proof.
  revert locks. induction order as [|k order IH]; intros locks Hwf; simpl.
  - intros _ k l Hin. by apply elem_of_nil in Hin.
  - destruct (locks !! k) as [l0|] eqn:Hk.
    + destruct (expired now l0) eqn:He.
      * intros HN k' l [->|Hin]%elem_of_cons Hl Hlive.
        -- unfold live in Hlive. congruence.
        -- destruct (decide (k' = token l0)) as [->|Hne].
           ++ rewrite (Hwf _ _ Hk) in Hl. unfold live in Hlive. congruence.
           ++ eapply (IH _ (lm_wf_delete _ _ Hwf) HN k' l); [done| |done].
              by rewrite lookup_delete_ne.
      * destruct (snd (wp.Included p (path l0) (depth l0))) eqn:Hc; simpl; [done|].
        intros HN k' l [->|Hin]%elem_of_cons Hl Hlive.
        -- unfold covers. congruence.
        -- by eapply (IH _ Hwf HN k' l).
    + intros HN k' l [->|Hin]%elem_of_cons Hl Hlive; [congruence|].
      by eapply (IH _ Hwf HN k' l).
Qed.

(** The loop of [createLock] only sweeps. *)
Lemma createLock_loop_swept now p dep order (locks : lockmaster) :
  lm_wf locks ->
  lm_swept now locks (fst (createLock_loop now p dep order locks)).
Proof.
  revert locks. induction order as [|k order IH]; intros locks Hwf; simpl.
  - apply lm_swept_refl.
  - destruct (locks !! k) as [l|] eqn:Hk; [|by apply IH].
    destruct (expired now l) eqn:He.
    + eapply lm_swept_trans; [|apply IH, lm_wf_delete, Hwf].
      apply lm_swept_delete. intros l' Hl'.
      rewrite (Hwf _ _ Hk) in Hl'. congruence.
    + destruct (snd (wp.Included p (path l) (depth l))); simpl;
        [apply lm_swept_refl|].
      destruct (snd (wp.Included (path l) p dep)); simpl;
        [apply lm_swept_refl|by apply IH].
Qed.

(** When the loop of [createLock] ends without [ErrorLocked], every lock
    that it has visited and left in the map is clear of the request, in
    both directions. *)
Lemma createLock_loop_clear now p dep order (locks locks' : lockmaster) :
  lm_wf locks ->
  createLock_loop now p dep order locks = (locks', false) ->
  forall k l, k ∈ order -> locks' !! k = Some l ->
    snd (wp.Included p (path l) (depth l)) = false
    /\ snd (wp.Included (path l) p dep) = false.
Proof.
  revert locks. induction order as [|k order IH]; intros locks Hwf; simpl.
  - intros _ k l Hin. by apply elem_of_nil in Hin.
  - pose proof (createLock_loop_swept now p dep order) as Hsw.
    destruct (locks !! k) as [l0|] eqn:Hk.
    + destruct (expired now l0) eqn:He.
      * intros Hrun k' l [->|Hin]%elem_of_cons Hl; [|].
        2:{ eapply (IH (delete (token l0) locks)); eauto using lm_wf_delete. }
        specialize (Hsw (delete (token l0) locks) (lm_wf_delete _ _ Hwf)).
        rewrite Hrun in Hsw. destruct Hsw as [Hsub _].
        apply Hsub in Hl. rewrite (Hwf _ _ Hk), lookup_delete_eq in Hl. done.
      * destruct (snd (wp.Included p (path l0) (depth l0))) eqn:Hc1; simpl; [done|].
        destruct (snd (wp.Included (path l0) p dep)) eqn:Hc2; simpl; [done|].
        intros Hrun k' l [->|Hin]%elem_of_cons Hl; [|by eapply IH; eauto].
        specialize (Hsw locks Hwf). rewrite Hrun in Hsw. destruct Hsw as [Hsub _].
        apply Hsub in Hl. rewrite Hk in Hl. injection Hl as <-. done.
    + intros Hrun k' l [->|Hin]%elem_of_cons Hl; [|by eapply IH; eauto].
      specialize (Hsw locks Hwf). rewrite Hrun in Hsw. destruct Hsw as [Hsub _].
      apply Hsub in Hl. congruence.
Qed.

(** Every operation keeps each lock under its own token. *)
Lemma lm_exec_wf op (locks : lockmaster) : lm_wf locks -> lm_wf (lm_exec op locks).
Proof.
  intros Hwf. destruct op as [now tok order own p dep dur|now tok p dur|t|now p t|now order p];
    simpl.
  - unfold createLock.
    pose proof (createLock_loop_swept now p dep order locks Hwf) as [Hsub _].
    destruct (createLock_loop now p dep order locks) as [locks1 locked]; simpl in *.
    assert (lm_wf locks1) by (eapply lm_wf_sub; eauto).
    destruct locked; simpl; [done|].
    intros k l. rewrite lookup_insert. case_decide; [by intros [= <-]|auto].
  - unfold refreshLock. destruct (locks !! tok) as [l|] eqn:Hk; simpl; [|done].
    destruct (expired now l); simpl; [by apply lm_wf_delete|].
    destruct (snd (wp.Included p (path l) (depth l))); simpl; [|done].
    intros k l'. rewrite lookup_insert. case_decide; [|auto].
    intros [= <-]. simpl. subst k. eauto.
  - by apply lm_wf_delete.
  - unfold isLocked. destruct (locks !! t) as [l|]; simpl; [|by apply lm_wf_delete].
    destruct (expired now l); simpl; [by apply lm_wf_delete|done].
  - eapply lm_wf_sub; [|done].
    apply (getLockForPath_loop_swept now p order locks Hwf).
Qed.

(** Every operation keeps the scopes of the locks apart. *)
Lemma lm_exec_disjoint op (locks : lockmaster) :
  lm_wf locks -> lm_op_ok locks op -> lm_disjoint locks ->
  lm_disjoint (lm_exec op locks).
Proof.
  intros Hwf Hok Hd.
  destruct op as [now tok order own p dep dur|now tok p dur|t|now p t|now order p];
    simpl in *.
  - unfold createLock.
    pose proof (createLock_loop_swept now p dep order locks Hwf) as [Hsub _].
    pose proof (createLock_loop_clear now p dep order locks) as Hclear.
    destruct (createLock_loop now p dep order locks) as [locks1 locked]; simpl in *.
    assert (lm_disjoint locks1) as Hd1 by (eapply lm_disjoint_sub; eauto).
    destruct locked; simpl; [done|].
    specialize (Hclear locks1 Hwf eq_refl).
    assert (forall k l, locks1 !! k = Some l ->
      snd (wp.Included p (path l) (depth l)) = false
      /\ snd (wp.Included (path l) p dep) = false) as Hall.
    { intros k l Hl. apply (Hclear k l); [|done].
      apply Hok. apply Hsub in Hl. by rewrite Hl. }
    intros k1 k2 l1 l2 Hne. rewrite !lookup_insert.
    destruct (decide (tok = k1)) as [<-|Hn1], (decide (tok = k2)) as [<-|Hn2];
      unfold covers.
    + done.
    + intros [= <-] Hl2; simpl. by apply (Hall _ _ Hl2).
    + intros Hl1 [= <-]; simpl. by apply (Hall _ _ Hl1).
    + intros Hl1 Hl2. by apply (Hd1 k1 k2).
  - unfold refreshLock. destruct (locks !! tok) as [l|] eqn:Hk; simpl; [|done].
    destruct (expired now l); simpl; [by apply lm_disjoint_delete|].
    destruct (snd (wp.Included p (path l) (depth l))); simpl; [|done].
    intros k1 k2 l1 l2 Hne. rewrite !lookup_insert.
    destruct (decide (tok = k1)) as [<-|Hn1], (decide (tok = k2)) as [<-|Hn2];
      unfold covers.
    + done.
    + intros [= <-] Hl2; simpl. by apply (Hd tok k2 l l2).
    + intros Hl1 [= <-]; simpl. by apply (Hd k1 tok l1 l).
    + intros Hl1 Hl2. by apply (Hd k1 k2).
  - by apply lm_disjoint_delete.
  - unfold isLocked. destruct (locks !! t) as [l|]; simpl; [|by apply lm_disjoint_delete].
    destruct (expired now l); simpl; [by apply lm_disjoint_delete|done].
  - eapply lm_disjoint_sub; [|done].
    apply (getLockForPath_loop_swept now p order locks Hwf).
Qed.

Lemma lm_reachable_wf locks : lm_reachable locks -> lm_wf locks.
Proof.
  induction 1 as [|locks op _ IH Hok]; [|by apply lm_exec_wf].
  intros k l. unfold newLockMaster. by rewrite lookup_empty.
Qed.

Lemma lm_reachable_disjoint locks : lm_reachable locks -> lm_disjoint locks.
Proof.
  induction 1 as [|locks op Hr IH Hok].
  - intros k1 k2 l1 l2 _. unfold newLockMaster. by rewrite lookup_empty.
  - apply lm_exec_disjoint; [by apply lm_reachable_wf|done|done].
Qed.

Lemma length_app (a b : string) :
  String.length (a +:+ b) = (String.length a + String.length b)%nat.
Proof. induction a as [|c a IH]; simpl; [done|]. by rewrite IH. Qed.

Lemma append_assoc (a b c : string) : (a +:+ b) +:+ c = a +:+ (b +:+ c).
Proof.
  induction a as [|ch a IH]; [done|].
  change (String ch ((a +:+ b) +:+ c) = String ch (a +:+ b +:+ c)).
  by rewrite IH.
Qed.

Lemma from_app (a b : string) : GoStr.from (String.length a) (a +:+ b) = b.
Proof. induction a as [|c a IH]; simpl; [by destruct b|done]. Qed.

Lemma HasPrefix_app (a b : string) : GoStr.HasPrefix (a +:+ b) a = true.
Proof.
  unfold GoStr.HasPrefix. induction a as [|c a IH]; simpl; [by destruct b|].
  by destruct (ascii_dec c c).
Qed.

Lemma eqb_app_ne (a b : string) : b <> "" -> String.eqb (a +:+ b) a = false.
Proof.
  intros Hb. apply String.eqb_neq. intros Heq.
  apply (f_equal String.length) in Heq. rewrite length_app in Heq.
  destruct b; [done|]. simpl in Heq. lia.
Qed.

Lemma Split_noSlash x : GoPath.noSlash x = true -> GoStr.Split x "/" = [x].
Proof.
  induction x as [|c x IH]; simpl; [done|].
  intros [Hc Hx]%andb_prop. apply negb_true_iff in Hc. rewrite Hc.
  by rewrite (IH Hx).
Qed.

(** [Clean] leaves a path element as it is, alone and behind a slash. *)
Lemma Clean_element x :
  GoPath.isElement x = true ->
  GoPath.Clean x = x /\ GoPath.Clean ("/" +:+ x) = "/" +:+ x.
Proof.
  unfold GoPath.isElement. intros [[[H1 H2]%andb_prop H3]%andb_prop H4]%andb_prop.
  apply negb_true_iff in H1, H2, H3.
  assert (GoPath.cleanStep false ([], O) x = ([x], O)
          /\ GoPath.cleanStep true ([], O) x = ([x], O)) as [Hf Ht].
  { unfold GoPath.cleanStep. by rewrite H1, H2, H3. }
  assert (GoStr.HasPrefix x "/" = false) as Hrel.
  { unfold GoStr.HasPrefix. destruct x as [|c x]; [done|].
    cbn [GoPath.noSlash] in H4.
    apply andb_prop in H4 as [Hc _]. apply negb_true_iff in Hc.
    cbn [String.prefix]. destruct (ascii_dec "/" c) as [<-|]; [|done].
    by rewrite Ascii.eqb_refl in Hc. }
  assert (GoStr.HasPrefix (String "/" x) "/" = true) as Habs.
  { unfold GoStr.HasPrefix. cbn [String.prefix].
    destruct (ascii_dec "/" "/"); [by destruct x|done]. }
  assert (GoStr.Split (String "/" x) "/" = [""; x]) as Hsplit.
  { cbn [GoStr.Split]. rewrite Ascii.eqb_refl. by rewrite (Split_noSlash x H4). }
  unfold GoPath.Clean. split.
  - rewrite H1, Hrel, (Split_noSlash x H4). cbn [fold_left]. rewrite Hf.
    cbn [fst rev app GoStr.Join]. by rewrite H1.
  - change ("/" +:+ x) with (String "/" x). rewrite Habs, Hsplit.
    cbn [fold_left]. change (GoPath.cleanStep true ([], O) "") with (@nil string, O).
    rewrite Ht. done.
Qed.

(** C1 (defect of the code).  For a subtree [b] other than the root, the
    rest of the name that [Included] cuts off at [len(b)] starts with the
    slash, and [strings.Split] counts an empty segment before it: a child
    [b/x] is not included at depth 1, where the claim says that it is; it
    is included from depth 2 on, and then what is returned is ["/x"], not
    the relative name.  Under the root the same child is included at
    depth 1, with the relative name, as the test of the package has it. *)
Theorem Included_child_of_subtree (b x : string) :
  GoStr.HasSuffix b "/" = false -> GoPath.isElement x = true ->
  wp.InTree (b +:+ "/" +:+ x) b = true
  /\ wp.Included (b +:+ "/" +:+ x) b 1 = ("", false)
  /\ (forall d, 2 <= d -> wp.Included (b +:+ "/" +:+ x) b d = ("/" +:+ x, true))
  /\ wp.Included ("/" +:+ x) "/" 1 = (x, true).
Proof.
  intros Hb Hx. destruct (Clean_element x Hx) as [Hc1 Hc2].
  assert (GoPath.noSlash x = true) as Hns.
  { unfold GoPath.isElement in Hx. by apply andb_prop in Hx as [_ ?]. }
  pose proof (append_assoc b "/" x) as Hassoc.
  assert (wp.InTree (b +:+ "/" +:+ x) b = true) as Hin.
  { unfold wp.InTree. rewrite eqb_app_ne by done. rewrite Hb. cbn [negb].
    rewrite <- Hassoc. apply HasPrefix_app. }
  split; [done|].
  assert (forall d, wp.Included (b +:+ "/" +:+ x) b d
    = if (0 <=? d) && (d <? 2) then ("", false) else ("/" +:+ x, true)) as Hgen.
  { intros d. unfold wp.Included. rewrite eqb_app_ne by done. rewrite Hin.
    cbn [negb]. rewrite from_app, Hc2.
    change ("/" +:+ x) with (String "/" x). cbn [GoStr.Split].
    rewrite Ascii.eqb_refl, (Split_noSlash x Hns). done. }
  split; [by rewrite Hgen|]. split.
  - intros d Hd. rewrite Hgen. by replace (d <? 2) with false by lia; rewrite andb_false_r.
  - change ("/" +:+ x) with (String "/" x). unfold wp.Included.
    assert (String.eqb (String "/" x) "/" = false) as ->.
    { apply String.eqb_neq. intros [= ->]. by vm_compute in Hx. }
    assert (wp.InTree (String "/" x) "/" = true) as ->.
    { unfold wp.InTree. destruct (String.eqb (String "/" x) "/"); [done|].
      unfold GoStr.HasPrefix. simpl. by destruct x. }
    cbn [negb String.length GoStr.from]. rewrite Hc1, (Split_noSlash x Hns). done.
Qed.

(** The failing input of C1, and the test of the package next to it. *)
Example Included_child_depth1 :
  wp.Included "/a/b" "/a" 1 = ("", false)
  /\ wp.Included "/a/b" "/a" 2 = ("/b", true)
  /\ wp.Included "/foo" "/" 1 = ("foo", true).
Proof. repeat split; reflexivity. Qed.

(** For the depths of a lock, 0 and infinity, the test of the lock manager
    is the inclusion of the design: the path of the lock itself, or with
    depth infinity every path in its tree. *)
Lemma covers_lock_depths l p :
  depth l <= 0 ->
  covers l p = String.eqb p (path l) || ((depth l <? 0) && wp.InTree p (path l)).
Proof.
  intros Hd. unfold covers.
  destruct (decide (depth l = 0)) as [->|Hne].
  - rewrite Included_depth0. simpl. by rewrite orb_false_r.
  - rewrite Included_unbounded by lia. replace (depth l <? 0) with true by lia.
    simpl. unfold wp.InTree. by destruct (String.eqb p (path l)).
Qed.

(** In every state that the lock manager reaches from the empty one by
    [createLock], [refreshLock], [unlock], [isLocked] and [getLockForPath]
    (each with its expiry sweep), two distinct live locks pass the test of
    [createLock] in neither direction: [wp.Included] does not find the path
    of one within the scope of the other.  For locks of depth 0 and
    infinity this test is the inclusion of the design
    ([Included_design] below); for other depths it is not. *)
Lemma lock_regions_disjoint locks now k1 k2 l1 l2 :
  lm_reachable locks ->
  k1 <> k2 -> locks !! k1 = Some l1 -> locks !! k2 = Some l2 ->
  live now l1 -> live now l2 ->
  snd (wp.Included (path l1) (path l2) (depth l2)) = false
  /\ snd (wp.Included (path l2) (path l1) (depth l1)) = false.
Proof.
  intros Hr Hne H1 H2 _ _.
  pose proof (lm_reachable_disjoint locks Hr) as Hd. split.
  - apply (Hd k1 k2 l1 l2 Hne H1 H2).
  - apply (Hd k2 k1 l2 l1); [congruence|done|done].
Qed.

(** A successful [createLock] stores the lock that it returns under the
    generated token. *)
Lemma createLock_Ok now tok order own p dep dur (locks locks' : lockmaster) l :
  createLock now tok order own p dep dur locks = (locks', Ok l) ->
  l = {| token := tok; depth := dep; owner := own;
         duration := clampDuration dur; modified := now; path := p |}
  /\ locks' = <[tok := l]> (fst (createLock_loop now p dep order locks)).
Proof.
  unfold createLock.
  destruct (createLock_loop now p dep order locks) as [locks1 locked].
  destruct locked; simpl; [done|]. by intros [= <- <-].
Qed.




(** The in-tree relation of the design is what [InTree] computes. *)
Lemma InTree_design a b : wp.InTree a b = design.in_tree a b.
Proof.
  unfold wp.InTree, design.in_tree, design.with_slash, GoStr.HasPrefix.
  destruct (String.eqb a b); [done|]. simpl.
  by destruct (GoStr.HasSuffix b "/").
Qed.


(** C4.  A [refreshLock] on a live lock, for a path within its scope,
    succeeds and sets the duration of the lock to the requested one clamped
    to [[20s, 300s]] and its modification time to the time of the call:
    the lock expires when the clock passes their sum.  [createLock] stores
    the clamped duration as well. *)
Theorem refresh_sets_deadline now tok q dur (locks : lockmaster) l
    now' tok' order own p dep dur' (locks0 locks1 : lockmaster) l1 :
  locks !! tok = Some l -> live now l -> covers l q = true ->
  createLock now' tok' order own p dep dur' locks0 = (locks1, Ok l1) ->
  let clamp d := Z.max (20 * Second) (Z.min d (300 * Second)) in
  (exists l',
      refreshLock now tok q dur locks = (<[tok := l']> locks, Ok l')
      /\ duration l' = clamp dur /\ modified l' = now
      /\ (forall t, expired t l' = (now + clamp dur <? t))
      /\ token l' = token l /\ path l' = path l /\ depth l' = depth l
      /\ owner l' = owner l)
  /\ (duration l1 = clamp dur' /\ modified l1 = now'
      /\ locks1 !! tok' = Some l1).
Proof.
  intros Hl Hlive Hcov Hcreate clamp.
  assert (forall d, clampDuration d = clamp d) as Hclamp.
  { intros d. rewrite clampDuration_clamp.
    unfold clamp, minLockDuration, maxLockDuration, Minute, Second. lia. }
  split.
  - unfold refreshLock. rewrite Hl, Hlive. unfold covers in Hcov. rewrite Hcov.
    simpl. eexists. split; [reflexivity|]. simpl.
    rewrite Hclamp. repeat split; try done.
  - apply createLock_Ok in Hcreate as [-> ->]. simpl.
    rewrite Hclamp. by rewrite lookup_insert_eq.
Qed.

(** ** The parser of the If header returns *)

Lemma p_in_range l : cond.p l 1 <> cond.EOF -> 0 <= cond.pos l + 1 < cond.len l.
Proof.
  unfold cond.p.
  destruct ((cond.pos l + 1 <? 0) || (cond.len l <=? cond.pos l + 1)) eqn:H;
    [done|]. intros _. apply orb_false_elim in H as [H1 H2]. lia.
Qed.

Lemma p_advance_input l l' n :
  cond.input l' = cond.input l -> cond.pos l' = cond.pos l ->
  cond.p l' n = cond.p l n.
Proof. intros Hi Hp. unfold cond.p, cond.len. by rewrite Hi, Hp. Qed.

Lemma lex_le_refl l : cond.lex_le l l.
Proof. split; [done|lia]. Qed.

Lemma lex_le_trans l1 l2 l3 :
  cond.lex_le l1 l2 -> cond.lex_le l2 l3 -> cond.lex_le l1 l3.
Proof. intros [A1 B1] [A2 B2]. split; [congruence|lia]. Qed.

Lemma lex_lt_le_trans l1 l2 l3 :
  cond.lex_lt l1 l2 -> cond.lex_le l2 l3 -> cond.lex_lt l1 l3.
Proof. intros [A1 B1] [A2 B2]. split; [congruence|lia]. Qed.

Lemma lex_le_lt_trans l1 l2 l3 :
  cond.lex_le l1 l2 -> cond.lex_lt l2 l3 -> cond.lex_lt l1 l3.
Proof. intros [A1 B1] [A2 B2]. split; [congruence|lia]. Qed.

Lemma lex_lt_le l1 l2 : cond.lex_lt l1 l2 -> cond.lex_le l1 l2.
Proof. intros [A B]. split; [done|lia]. Qed.

Lemma lex_le_room l l' : cond.lex_le l l' -> (cond.room l' <= cond.room l)%nat.
Proof. intros [A B]. unfold cond.room, cond.len. rewrite A. lia. Qed.

Lemma lex_lt_room l l' :
  cond.lex_lt l l' -> cond.pos l < cond.len l ->
  (cond.room l' < cond.room l)%nat.
Proof. intros [A B] H. unfold cond.room, cond.len in *. rewrite A. lia. Qed.

Lemma skipWhitespace_loop_ok fuel l :
  cond.lex_ok l ->
  cond.lex_ok (cond.skipWhitespace_loop fuel l)
  /\ cond.lex_le l (cond.skipWhitespace_loop fuel l)
  /\ cond.last (cond.skipWhitespace_loop fuel l) = cond.last l.
Proof.
  revert l. induction fuel as [|fuel IH]; intros l Hok; simpl.
  - split; [done|]. split; [apply lex_le_refl|done].
  - destruct (Utf8.IsSpace (cond.p l 1)) eqn:Hsp.
    + assert (cond.last l <> cond.EOF) as Hlast.
      { intros Heq. rewrite (Hok Heq) in Hsp. by vm_compute in Hsp. }
      destruct (IH (cond.advance l 1)) as (A & B & C); [by intros ?|].
      split; [done|]. split; [|done].
      eapply lex_le_trans; [|exact B]. split; simpl; [done|lia].
    + split; [done|]. split; [apply lex_le_refl|done].
Qed.

Lemma peek_ok l :
  cond.lex_ok l ->
  cond.lex_ok (fst (cond.peek l))
  /\ cond.lex_le l (fst (cond.peek l))
  /\ cond.last (fst (cond.peek l)) = snd (cond.peek l)
  /\ (snd (cond.peek l) <> cond.EOF ->
      cond.pos (fst (cond.peek l)) + 1 < cond.len (fst (cond.peek l))).
Proof.
  intros Hok. unfold cond.peek, cond.skipWhitespace.
  destruct (skipWhitespace_loop_ok (Z.to_nat (cond.len l - cond.pos l)) l Hok)
    as (A & B & C).
  set (l1 := cond.skipWhitespace_loop _ l) in *. simpl.
  destruct ((cond.p l1 1 =? 78) && (cond.p l1 2 =? 111) && (cond.p l1 3 =? 116))
    eqn:HNot.
  - apply andb_prop in HNot as [HNot _]. apply andb_prop in HNot as [H78 _].
    apply Z.eqb_eq in H78.
    split; [intros H; simpl in H; discriminate|].
    split; [exact B|]. split; [done|].
    intros _. assert (cond.p l1 1 <> cond.EOF) as Hne by (by rewrite H78).
    apply p_in_range in Hne. unfold cond.len in *. simpl. lia.
  - split.
    { intros H. simpl in H. exact H. }
    split; [exact B|]. split; [done|].
    intros Hne. apply p_in_range in Hne. unfold cond.len in *. simpl. lia.
Qed.

Lemma consume_ok l :
  cond.lex_ok l ->
  cond.lex_ok (cond.consume l) /\ cond.lex_le l (cond.consume l)
  /\ cond.last (cond.consume l) = cond.last l
  /\ (cond.last l <> cond.EOF -> cond.lex_lt l (cond.consume l)).
Proof.
  intros Hok. unfold cond.consume.
  destruct (cond.last l =? cond.Not) eqn:HN.
  - apply Z.eqb_eq in HN.
    split; [intros H; simpl in H; rewrite HN in H; discriminate|].
    split; [split; simpl; [done|lia]|]. split; [done|].
    intros _. split; simpl; [done|lia].
  - destruct (cond.last l =? cond.EOF) eqn:HE; simpl.
    + apply Z.eqb_eq in HE. split; [done|]. split; [apply lex_le_refl|].
      split; [done|]. done.
    + apply Z.eqb_neq in HE.
      split; [intros H; simpl in H; done|].
      split; [split; simpl; [done|lia]|]. split; [done|].
      intros _. split; simpl; [done|lia].
Qed.

(** [consumeIf] returns whenever the lexer is in a state that the parser
    reaches; when its result is not the empty string, it has moved on. *)
Lemma consumeIf_loop_total fuel acc l res :
  cond.lex_ok l -> (cond.room l < fuel)%nat ->
  exists l' s e,
    cond.consumeIf_loop fuel acc l res = Some (l', (s, e))
    /\ cond.lex_ok l' /\ cond.lex_le l l' /\ cond.last l' = cond.last l
    /\ (cond.lex_lt l l' \/ s = res).
Proof.
  revert l res. induction fuel as [|fuel IH]; intros l res Hok Hroom; [lia|].
  simpl. destruct (cond.p l 1 =? cond.EOF) eqn:HE.
  { eexists _, _, _. split; [done|]. split; [done|].
    split; [apply lex_le_refl|]. split; [done|by right]. }
  destruct (acc (cond.p l 1)); simpl.
  2:{ eexists _, _, _. split; [done|]. split; [done|].
      split; [apply lex_le_refl|]. split; [done|by right]. }
  apply Z.eqb_neq in HE.
  assert (cond.last l <> cond.EOF) as Hlast by (intros H; by apply Hok in H).
  destruct (consume_ok l Hok) as (A & B & C & D). specialize (D Hlast).
  pose proof (p_in_range l HE) as Hr.
  destruct (IH (cond.consume l) (res +:+ cond.tokenText (cond.p l 1)) A)
    as (l' & s & e & Hrun & Hok' & Hle & Hl & _).
  { pose proof (lex_lt_room _ _ D). lia. }
  exists l', s, e. split; [done|]. split; [done|].
  split; [by eapply lex_le_trans|]. split; [congruence|].
  left. by eapply lex_lt_le_trans.
Qed.

Lemma consumeIf_total acc l :
  cond.lex_ok l ->
  exists l' s e,
    cond.consumeIf acc l = Some (l', (s, e))
    /\ cond.lex_ok l' /\ cond.lex_le l l' /\ cond.last l' = cond.last l
    /\ (cond.lex_lt l l' \/ s = "").
Proof.
  intros Hok. apply consumeIf_loop_total; [done|]. unfold cond.room. lia.
Qed.

Lemma consumeUntil_total stop l :
  cond.lex_ok l ->
  exists l' s e,
    cond.consumeUntil stop l = Some (l', (s, e))
    /\ cond.lex_ok l' /\ cond.lex_le l l'.
Proof.
  intros Hok. unfold cond.consumeUntil.
  destruct (consumeIf_total (fun r => negb (r =? stop)) l Hok)
    as (l' & s & e & -> & Hok' & Hle & _).
  destruct e as [err|].
  - by eexists _, _, _.
  - destruct (consume_ok l' Hok') as (A & B & _).
    eexists _, _, _. split; [done|]. split; [done|]. by eapply lex_le_trans.
Qed.

Lemma parseCondition_rest_total l0 l tok not :
  cond.lex_ok l -> cond.lex_le l0 l -> cond.last l = tok ->
  exists l' c e,
    cond.parseCondition_rest l tok not = Some (l', (c, e))
    /\ cond.lex_ok l' /\ cond.lex_le l0 l' /\ (e = None -> cond.lex_lt l0 l').
Proof.
  intros A2 B2 C2. unfold cond.parseCondition_rest.
  destruct (tok =? 91) eqn:H91.
  - apply Z.eqb_eq in H91.
    destruct (consume_ok l A2) as (Ac & Bc & _ & Dc).
    assert (cond.lex_lt l (cond.consume l)) as Hlt.
    { apply Dc. rewrite C2, H91. done. }
    destruct (consumeUntil_total 93 (cond.consume l) Ac)
      as (l3 & et & e & -> & A3 & B3).
    assert (cond.lex_lt l0 l3) as Hlt3.
    { eapply lex_le_lt_trans; [exact B2|]. by eapply lex_lt_le_trans. }
    destruct (String.eqb et ""); eexists _, _, _;
      (split; [done|]); (split; [done|]); (split; [by apply lex_lt_le|done]).
  - destruct (consumeIf_total (fun r => negb (r =? 41) && negb (r =? 32)) l A2)
      as (l3 & tx & e & -> & A3 & B3 & _ & D3).
    destruct (String.eqb (cond.unwrap tx) "") eqn:Hempty.
    + eexists _, _, _. split; [done|]. split; [done|].
      split; [by eapply lex_le_trans|done].
    + eexists _, _, _. split; [done|]. split; [done|].
      split; [by eapply lex_le_trans|]. intros _.
      destruct D3 as [Hlt| ->]; [by eapply lex_le_lt_trans|].
      by vm_compute in Hempty.
Qed.

(** [parseCondition] returns, and when it returns a condition without an
    error it has consumed input. *)
Lemma parseCondition_total l :
  cond.lex_ok l ->
  exists l' c e,
    cond.parseCondition l = Some (l', (c, e))
    /\ cond.lex_ok l' /\ cond.lex_le l l' /\ (e = None -> cond.lex_lt l l').
Proof.
  intros Hok. unfold cond.parseCondition.
  destruct (peek_ok l Hok) as (A1 & B1 & C1 & _).
  destruct (cond.peek l) as [l1 tok]; simpl in * |-; cbv beta iota.
  destruct (tok =? cond.Not).
  - destruct (consume_ok l1 A1) as (Ac & Bc & _).
    destruct (peek_ok (cond.consume l1) Ac) as (Ap & Bp & Cp & _).
    destruct (cond.peek (cond.consume l1)) as [l2 tok2]; simpl in * |-; cbv beta iota.
    apply parseCondition_rest_total; [done| |done].
    exact (lex_le_trans _ _ _ B1 (lex_le_trans _ _ _ Bc Bp)).
  - by apply parseCondition_rest_total.
Qed.

Lemma parseList_loop_total fuel l tok rt cs :
  cond.lex_ok l -> (tok <> cond.EOF -> cond.pos l < cond.len l) ->
  (cond.room l < fuel)%nat ->
  exists l' tok' res e,
    cond.parseList_loop fuel l tok rt cs = Some (l', (tok', (res, e)))
    /\ cond.lex_ok l' /\ cond.lex_le l l'
    /\ (e = None -> cond.last l = tok -> cond.last l' = tok').
Proof.
  revert l tok cs. induction fuel as [|fuel IH]; intros l tok cs Hok Hpos Hroom;
    [lia|].
  cbn [cond.parseList_loop].
  destruct ((tok =? 41) || (tok =? cond.EOF)) eqn:Hend.
  { eexists _, _, _, _. split; [done|]. split; [done|].
    split; [apply lex_le_refl|done]. }
  apply orb_false_elim in Hend as [_ HE]. apply Z.eqb_neq in HE.
  destruct (parseCondition_total l Hok) as (l1 & c & e & -> & A1 & B1 & D1).
  destruct e as [err|].
  { eexists _, _, _, _. split; [done|]. split; [done|]. split; [done|done]. }
  specialize (D1 eq_refl).
  destruct (peek_ok l1 A1) as (A2 & B2 & C2 & D2).
  destruct (cond.peek l1) as [l2 tok2]; simpl in * |-; cbv beta iota.
  destruct (IH l2 tok2 (cs ++ [c])%list A2) as (l' & tok' & res & e & -> & A3 & B3 & C3).
  { intros Hne. specialize (D2 Hne). lia. }
  { pose proof (lex_lt_room _ _ D1 (Hpos HE)).
    pose proof (lex_le_room _ _ B2). lia. }
  eexists _, _, _, _. split; [done|]. split; [done|].
  split; [|by intros ? _; apply C3].
  eapply lex_le_trans; [by apply lex_lt_le|]. by eapply lex_le_trans.
Qed.

Lemma parseList_rest_total l0 l2 tok2 rt :
  cond.lex_ok l2 -> cond.lex_le l0 l2 -> cond.last l2 = tok2 ->
  exists l' cl e,
    cond.parseList_rest l2 tok2 rt = Some (l', (cl, e))
    /\ cond.lex_ok l' /\ cond.lex_le l0 l' /\ (e = None -> cond.lex_lt l0 l').
Proof.
  intros A2 B2 C2. unfold cond.parseList_rest.
  destruct (tok2 =? 40) eqn:H40; cbn [negb].
  2:{ eexists _, _, _. split; [done|]. split; [done|]. split; [done|done]. }
  apply Z.eqb_eq in H40.
  destruct (consume_ok l2 A2) as (Ac & Bc & _ & Dc).
  assert (cond.lex_lt l2 (cond.consume l2)) as Hlt.
  { apply Dc. rewrite C2, H40. done. }
  destruct (peek_ok (cond.consume l2) Ac) as (Ap & Bp & Cp & Dp).
  destruct (cond.peek (cond.consume l2)) as [l3 tok3]; simpl in * |-; cbv beta iota.
  assert (cond.lex_lt l0 l3) as Hlt0.
  { eapply lex_le_lt_trans; [exact B2|]. by eapply lex_lt_le_trans. }
  destruct (parseList_loop_total (S (Z.to_nat (cond.len l3 - cond.pos l3)))
              l3 tok3 rt [] Ap)
    as (l4 & tok4 & res & e & -> & A4 & B4 & C4).
  { intros Hne. specialize (Dp Hne). lia. }
  { unfold cond.room. lia. }
  assert (cond.lex_lt l0 l4) as Hlt4 by (by eapply lex_lt_le_trans).
  destruct e as [err|].
  { eexists _, _, _. split; [done|]. split; [done|].
    split; [by apply lex_lt_le|done]. }
  destruct (tok4 =? 41); cbn [negb].
  - destruct (consume_ok l4 A4) as (A5 & B5 & _).
    eexists _, _, _. split; [done|]. split; [done|].
    assert (cond.lex_lt l0 (cond.consume l4)) by (by eapply lex_lt_le_trans).
    split; [by apply lex_lt_le|done].
  - eexists _, _, _. split; [done|]. split; [done|].
    split; [by apply lex_lt_le|done].
Qed.

(** [parseList] returns, and a list without an error has consumed
    input. *)
Lemma parseList_total l :
  cond.lex_ok l ->
  exists l' cl e,
    cond.parseList l = Some (l', (cl, e))
    /\ cond.lex_ok l' /\ cond.lex_le l l' /\ (e = None -> cond.lex_lt l l').
Proof.
  intros Hok. unfold cond.parseList.
  destruct (peek_ok l Hok) as (A1 & B1 & C1 & D1).
  destruct (cond.peek l) as [l1 tok]; simpl in * |-; cbv beta iota.
  destruct (tok =? 60) eqn:H60.
  - destruct (consume_ok l1 A1) as (Ac & Bc & _).
    destruct (consumeUntil_total 62 (cond.consume l1) Ac)
      as (l2 & rt & err & -> & A2 & B2).
    assert (cond.lex_le l l2) as Hle2
      by exact (lex_le_trans _ _ _ B1 (lex_le_trans _ _ _ Bc B2)).
    destruct (bool_decide (err <> None) || String.eqb rt "") eqn:Hbad.
    + eexists _, _, _. split; [done|]. split; [done|]. split; [done|done].
    + destruct (peek_ok l2 A2) as (Ap & Bp & Cp & Dp).
      destruct (cond.peek l2) as [l3 tok3]; simpl in * |-; cbv beta iota.
      apply parseList_rest_total; [done|by eapply lex_le_trans|done].
  - by apply parseList_rest_total.
Qed.

Lemma ParseIfTag_loop_total fuel l ls :
  cond.lex_ok l -> (cond.room l <= fuel)%nat ->
  exists r, cond.ParseIfTag_loop fuel l ls = Some r.
Proof.
  revert l ls. induction fuel as [|fuel IH]; intros l ls Hok Hroom;
    cbn [cond.ParseIfTag_loop];
    destruct (peek_ok l Hok) as (A1 & B1 & C1 & D1);
    pose proof (lex_le_room _ _ B1) as Hr1;
    destruct (cond.peek l) as [l1 tok]; simpl in * |-; cbv beta iota;
    (destruct (tok =? cond.EOF) eqn:HE; [by eexists|]);
    apply Z.eqb_neq in HE; specialize (D1 HE).
  - unfold cond.room in *. lia.
  - destruct (parseList_total l1 A1) as (l2 & list & e & -> & A2 & B2 & D2).
    destruct e as [err|]; [by eexists|].
    apply IH; [done|].
    assert (cond.pos l1 < cond.len l1) as Hpos by lia.
    pose proof (lex_lt_room _ _ (D2 eq_refl) Hpos). lia.
Qed.

(** The parser of the If header returns on every header. *)
Theorem ParseIfTag_total (s : string) : exists r, cond.ParseIfTag s = Some r.
Proof.
  unfold cond.ParseIfTag. apply ParseIfTag_loop_total.
  - intros H. simpl in H. discriminate.
  - unfold cond.room, cond.len, cond.newLex. simpl. lia.
Qed.

(** ** The write authorization check *)

Lemma isLocked_swept now p t (locks : lockmaster) :
  lm_swept now locks (fst (isLocked now p t locks)).
Proof.
  unfold isLocked. destruct (locks !! t) as [l|] eqn:Hk; simpl.
  - destruct (expired now l) eqn:He; simpl; [|apply lm_swept_refl].
    apply lm_swept_delete. congruence.
  - apply lm_swept_delete. congruence.
Qed.

(** The answer of [isLocked] does not depend on the expired locks that
    were swept before. *)
Lemma isLocked_after_sweep now p t (locks locks' : lockmaster) :
  lm_swept now locks locks' ->
  snd (isLocked now p t locks') = snd (isLocked now p t locks).
Proof.
  intros [Hsub Hlive]. unfold isLocked.
  destruct (locks' !! t) as [l'|] eqn:Hk'.
  - rewrite (Hsub _ _ Hk'). by destruct (expired now l').
  - destruct (locks !! t) as [l|] eqn:Hk; [|done].
    destruct (expired now l) eqn:He; [done|].
    rewrite (Hlive _ _ Hk He) in Hk'. done.
Qed.

Lemma checkTokens_spec now p tokens (locks0 locks : lockmaster) :
  lm_swept now locks0 locks ->
  snd (checkTokens now p tokens locks) = true
  <-> exists t, t ∈ tokens /\ snd (isLocked now p t locks0) = true.
Proof.
  revert locks. induction tokens as [|t tokens IH]; intros locks Hsw; simpl.
  - split; [done|]. intros (t & Hin & _). by apply elem_of_nil in Hin.
  - pose proof (isLocked_swept now p t locks) as Hsw'.
    pose proof (isLocked_after_sweep now p t locks0 locks Hsw) as Heq.
    destruct (isLocked now p t locks) as [locks' ok]; simpl in *.
    destruct ok; simpl.
    + split; [|done]. intros _. exists t. split; [apply elem_of_cons; by left|done].
    + rewrite (IH locks' (lm_swept_trans _ _ _ _ Hsw Hsw')).
      split; intros (t' & Hin & Ht').
      * exists t'. split; [apply elem_of_cons; by right|done].
      * apply elem_of_cons in Hin as [->|Hin]; [congruence|by exists t'].
Qed.

(** The write authorization check on a path [p], in terms of the test
    [wp.Included] that the lock manager applies ([covers]): it grants the
    write when no live lock passes the test for [p]; when one does, it
    denies a request without If header (the handlers answer 423 Locked)
    and grants a request with an If header exactly when
    [isLocked(p, token)] holds for one of the tokens of the header. *)
Lemma checkCanWrite_spec (rt : Runtime) (c : option cond.IfTag) (p : string)
    (locks : lockmaster) :
  lm_reachable locks -> range_order locks (RangeOrder rt locks) ->
  let covered :=
    exists k l, locks !! k = Some l /\ live (Now rt) l /\ covers l p = true in
  let ok := snd (checkCanWrite rt c p locks) in
  (~ covered -> ok = true)
  /\ (covered -> c = None -> ok = false)
  /\ (covered -> forall t, c = Some t ->
        (ok = true <->
         exists tok, tok ∈ cond.GetAllTokens t
                     /\ snd (isLocked (Now rt) p tok locks) = true))
  /\ HTTPCode ErrorLocked = 423.
Proof.
  intros Hr Hord covered ok. pose proof (lm_reachable_wf _ Hr) as Hwf.
  subst ok. unfold checkCanWrite, getLockForPath.
  pose proof (getLockForPath_loop_swept (Now rt) p (RangeOrder rt locks) locks Hwf) as Hsw.
  pose proof (getLockForPath_loop_Some (Now rt) p (RangeOrder rt locks) locks) as HSome.
  pose proof (getLockForPath_loop_None (Now rt) p (RangeOrder rt locks) locks Hwf) as HNone.
  destruct (getLockForPath_loop (Now rt) p (RangeOrder rt locks) locks)
    as [locks1 [l|]]; simpl in *.
  - assert covered as Hcov.
    { destruct (HSome l eq_refl) as (k & ? & ? & ?). by exists k, l. }
    split; [intros Hn; by destruct Hn|]. split; [by intros _ ->|].
    split; [|done]. intros _ t ->. by apply checkTokens_spec.
  - assert (~ covered) as Hncov.
    { intros (k & l & Hl & Hlive & Hc).
      rewrite (HNone eq_refl k l) in Hc; [done| |done|done].
      apply Hord. by rewrite Hl. }
    split; [done|]. split; [intros Hc; by destruct Hncov|].
    split; [|done]. intros Hc. by destruct Hncov.
Qed.

(** ** The dispatcher *)

(** The status that [errorHeader] puts on a response that has none yet. *)
Lemma errorHeader_status p e s w :
  http.wroteHeader w = None ->
  http.status (errorHeader bk p e s w)
  = match e with
    | DavError we => HTTPCode we
    | errorString _ => StatusInternalServerError
    end.
Proof.
  intros Hw. unfold errorHeader, http.status. destruct e as [msg|we].
  - unfold http.WriteHeader. by rewrite Hw.
  - destruct (HTTPCode we =? StatusMethodNotAllowed).
    + unfold allowedHeader, http.WriteHeader. rewrite Hw.
      destruct p as [p|]; simpl; [|done]. by destruct (Lookup p (fs s)).
    + unfold http.WriteHeader. by rewrite Hw.
Qed.

(** The parser of the If header reports every failure as a plain error
    value, not as an [Error] of the server. *)
Lemma ParseIfTag_loop_error fuel l ls t err :
  cond.ParseIfTag_loop fuel l ls = Some (t, Some err) ->
  err = errorString "could not parse list".
Proof.
  revert l ls. induction fuel as [|fuel IH]; intros l ls;
    cbn [cond.ParseIfTag_loop].
  - destruct (cond.peek l) as [l' tok]. by destruct (tok =? cond.EOF).
  - destruct (cond.peek l) as [l' tok]. destruct (tok =? cond.EOF); [done|].
    destruct (cond.parseList l') as [[l'' [list [e|]]]|]; [|by apply IH|done].
    by intros [= _ <-].
Qed.

Lemma ParseIfTag_error h t err :
  cond.ParseIfTag h = Some (t, Some err) ->
  err = errorString "could not parse list".
Proof. apply ParseIfTag_loop_error. Qed.

(** The failure modes of the parser: a missing [(], a missing [)], an
    unterminated bracket, an empty ETag and an empty token. *)
Example ParseIfTag_failures :
  Forall (fun h => exists t err, cond.ParseIfTag h = Some (t, Some err))
    ["foobar"; "(a"; "([b"; "(<urn:a"; "<http://h/x (a)"; "([])"; "(Not)";
     "(Not a"].
Proof.
  repeat (apply Forall_cons_2; [eexists _, _; vm_compute; reflexivity|]).
  apply Forall_nil_2.
Qed.

(** The headers that the tests of the package expect to parse. *)
Example TestParse :
  Forall (fun h => exists t, cond.ParseIfTag h = Some (t, None))
    [""; "(a)"; "(a) (b)"; "(Not a Not b Not [d])"; "(Not a) (Not b)"; "([a])"].
Proof.
  repeat (apply Forall_cons_2; [eexists; vm_compute; reflexivity|]).
  apply Forall_nil_2.
Qed.

(** The dispatcher answers every request. *)
Lemma ServeHTTP_total (rt : Runtime) (r : http.Request) (s : WebDAV)
    (w : http.ResponseWriter) :
  exists out, ServeHTTP bk lib hs rt r s w = Some out.
Proof.
  unfold ServeHTTP. destruct (String.eqb (http.URL_Path r) "/dumpz"); [by eexists|].
  assert (exists res, extractContext bk lib s r = Some res) as [[p res] ->].
  { unfold extractContext, parseIfHeader.
    destruct (ForPath (http.URL_Path r) (fs s)); [|by eexists].
    destruct (parseDepth r); [|by eexists].
    destruct (String.eqb (http.Get r "If") ""); [by eexists|].
    destruct (ParseIfTag_total (http.Get r "If")) as [[t [err|]] ->];
      [by eexists|].
    destruct (cond.RewriteHosts url_Parse (http.Host r) t) as [t' [err|]];
      by eexists. }
  destruct res as [ctx|err]; [|by eexists].
  destruct (match ctx_cond ctx with
            | Some c => cond.Eval (fsEnv bk lib rt) (PString (ctx_p ctx)) c s
            | None => (s, true)
            end) as [s1 pre].
  destruct (negb pre); by eexists.
Qed.

(** C5 (defect of the code).  A request with a well-formed path and depth
    whose If header fails to parse is answered with status 500, not 400:
    [parseIfHeader] hands the error of the parser on as it is, and
    [errorHeader] answers 500 to every error that is not an [Error] of the
    server ([parseDepth] wraps its error into [ErrorBadDepth]). *)
Theorem parse_failure_status (rt : Runtime) (r : http.Request) (s : WebDAV)
    (w : http.ResponseWriter) p depth t err :
  http.URL_Path r <> "/dumpz" ->
  ForPath (http.URL_Path r) (fs s) = Ok p ->
  parseDepth r = Ok depth ->
  cond.ParseIfTag (http.Get r "If") = Some (t, Some err) ->
  http.wroteHeader w = None ->
  exists w', ServeHTTP bk lib hs rt r s w = Some (s, w')
             /\ http.status w' = StatusInternalServerError
             /\ StatusInternalServerError <> StatusBadRequest.
Proof.
  intros Hpath Hp Hdepth Hparse Hw.
  unfold ServeHTTP, extractContext, parseIfHeader.
  apply String.eqb_neq in Hpath. rewrite Hpath, Hp, Hdepth.
  destruct (String.eqb (http.Get r "If") "") eqn:Hif.
  { apply String.eqb_eq in Hif. rewrite Hif in Hparse. by vm_compute in Hparse. }
  rewrite Hparse. eexists. split; [reflexivity|].
  rewrite errorHeader_status by done.
  by rewrite (ParseIfTag_error _ _ _ Hparse).
Qed.

(** C6 (defect of the code).  A DELETE of a file that passes the write
    check and whose remove succeeds returns without a call of
    [WriteHeader]: the response goes out with status 200, where the branch
    for directories of the same handler answers 204. *)
Theorem delete_file_status (rt : Runtime) (ctx : context) (r : http.Request)
    (s : WebDAV) (w : http.ResponseWriter) f fs' :
  http.wroteHeader w = None ->
  snd (checkCanWrite rt (ctx_cond ctx) (PString (ctx_p ctx)) (lm s)) = true ->
  Lookup (ctx_p ctx) (fs s) = Ok f -> IsDirectory f = false ->
  Remove (ctx_p ctx) (fs s) = (fs', None) ->
  snd (doDelete bk lib rt ctx r s w) = w
  /\ http.status (snd (doDelete bk lib rt ctx r s w)) = 200
  /\ fs (fst (doDelete bk lib rt ctx r s w)) = fs'
  /\ StatusNoContent = 204.
Proof.
  intros Hw Hok Hf Hdir Hrm. unfold doDelete.
  destruct (checkCanWrite rt (ctx_cond ctx) (PString (ctx_p ctx)) (lm s))
    as [locks ok]; simpl in *. subst ok. simpl.
  rewrite Hf, Hdir. simpl. rewrite Hrm. simpl.
  repeat split. unfold http.status. by rewrite Hw.
Qed.

(** C8 (defect of the code).  [Send] answers with status 207 and a body
    that starts with the XML declaration and the [multistatus] root
    element, but it puts [Content-Type] into the header map only after
    [WriteHeader]: the header fields that go out with the status do not
    hold it. *)
Theorem Send_header_after_status children (m : x.MultiStatus)
    (w : http.ResponseWriter) :
  http.wroteHeader w = None ->
  http.handlerHeader w !! "Content-Type" = None ->
  x.ms_XMLNS m = "DAV:" ->
  http.status (x.Send children m w) = 207
  /\ http.sentHeader (x.Send children m w) !! "Content-Type" = None
  /\ http.handlerHeader (x.Send children m w) !! "Content-Type"
     = Some "application/xml; charset=utf-8"
  /\ http.written (x.Send children m w)
     = http.written w +:+ x.Header
       +:+ "<multistatus xmlns=" +:+ x.quote +:+ "DAV:" +:+ x.quote +:+ ">"
       +:+ children (x.Response m) +:+ "</multistatus>".
Proof.
  intros Hw Hct Hns.
  unfold x.Send, http.Write, http.WriteHeader, http.status, http.sentHeader.
  rewrite Hw. simpl. split; [done|]. split; [done|].
  split; [by rewrite lookup_insert_eq|].
  unfold x.MarshalIndent_MultiStatus. by rewrite Hns.
Qed.

(** A sweep of a map without expired locks changes nothing. *)
Lemma lm_swept_all_live now (locks locks' : lockmaster) :
  lm_swept now locks locks' ->
  (forall k l, locks !! k = Some l -> live now l) ->
  locks' = locks.
Proof.
  intros [Hsub Hlive] Hall. apply map_eq. intros k.
  destruct (locks !! k) as [l|] eqn:Hk.
  - apply Hlive; eauto.
  - destruct (locks' !! k) as [l'|] eqn:Hk'; [|done].
    apply Hsub in Hk'. congruence.
Qed.

(** C9 (amended).  When a LOCK request that is no refresh has acquired its
    lock under a fresh token and the creation of the missing target then
    fails, the lock is removed again and the error answered from that
    state: the lock manager is left with the locks that it held before the
    request, less the expired ones that [createLock] has swept, and with
    exactly those locks when none had expired. *)
Theorem doLock_create_failure (rt : Runtime) (ctx : context) (r : http.Request)
    (s : WebDAV) (w : http.ResponseWriter) req parent locks1 l e0 fs' err :
  lm_reachable (lm s) ->
  lm s !! NewToken rt = None ->
  x.ParseLock Decode_lockinfo (http.Body r) = Ok req ->
  x.Refresh req = false ->
  Lookup (Parent (ctx_p ctx)) (fs s) = Ok parent ->
  createLock (Now rt) (NewToken rt) (RangeOrder rt (lm s)) (x.Owner req)
    (PString (ctx_p ctx)) (ctx_depth ctx) (ctx_timeout ctx) (lm s)
  = (locks1, Ok l) ->
  Lookup (ctx_p ctx) (fs s) = Err e0 ->
  Create (ctx_p ctx) (fs s) = (fs', Err err) ->
  let s' := fst (doLock bk lib rt ctx r s w) in
  let w' := snd (doLock bk lib rt ctx r s w) in
  locks1 !! token l = Some l
  /\ lm s' !! token l = None
  /\ lm_swept (Now rt) (lm s) (lm s')
  /\ ((forall k l0, lm s !! k = Some l0 -> live (Now rt) l0) -> lm s' = lm s)
  /\ fs s' = fs'
  /\ w' = errorHeader bk (Some (ctx_p ctx)) err s'
            (http.Set_ "Lock-Token" ("<" +:+ token l +:+ ">") w).
Proof.
  intros Hr Hfresh Hreq Hnr Hparent Hcreate Hmiss Hfail s' w'.
  pose proof (lm_reachable_wf _ Hr) as Hwf.
  pose proof (createLock_loop_swept (Now rt) (PString (ctx_p ctx))
    (ctx_depth ctx) (RangeOrder rt (lm s)) (lm s) Hwf) as Hsw.
  assert (s' = set_fs fs' (set_lm (unlock (token l) locks1) s)
          /\ w' = errorHeader bk (Some (ctx_p ctx)) err s'
                    (http.Set_ "Lock-Token" ("<" +:+ token l +:+ ">") w))
    as [Hs' Hw'].
  { subst s' w'. unfold doLock, acquireLock.
    rewrite Hreq, Hparent, Hnr, Hcreate. simpl.
    rewrite Hmiss, Hfail. simpl. done. }
  apply createLock_Ok in Hcreate as [Hl Hlocks1].
  set (swept := fst (createLock_loop (Now rt) (PString (ctx_p ctx))
                 (ctx_depth ctx) (RangeOrder rt (lm s)) (lm s))) in *.
  assert (token l = NewToken rt) as Htok by (by rewrite Hl).
  assert (swept !! NewToken rt = None) as Hnone.
  { destruct (swept !! NewToken rt) as [l0|] eqn:Hk; [|done].
    apply Hsw in Hk. congruence. }
  assert (lm s' = swept) as Hlm.
  { rewrite Hs'. simpl. unfold unlock. rewrite Hlocks1, Htok.
    rewrite delete_insert_eq. by apply delete_id. }
  split; [by rewrite Hlocks1, Htok, lookup_insert_eq|].
  split; [by rewrite Hlm, Htok|].
  split; [by rewrite Hlm|].
  split; [intros Hall; rewrite Hlm; by apply (lm_swept_all_live (Now rt))|].
  split; [by rewrite Hs'|done].
Qed.

(** C10 (amended).  A COPY request, or a MOVE request whose source passes
    the write check, that has passed the extraction of its context and its
    If precondition and whose Destination header parses to a URL: the host
    of that URL is compared with the host of the request.  When the two
    differ the answer is 502 BadHost and nothing is copied; so it is for
    every relative destination (the host of its URL is empty) when the
    request names a host.  When the two are equal the destination is
    accepted: once its path resolves and passes the write check, [CopyTo]
    decides, and its success is answered with 201 or 204. *)
Theorem destination_host_compared (rt : Runtime) (r : http.Request)
    (s : WebDAV) (w : http.ResponseWriter) p ctx s1 durl :
  http.URL_Path r <> "/dumpz" ->
  extractContext bk lib s r = Some (p, Ok ctx) ->
  match ctx_cond ctx with
  | None => (s, true)
  | Some c => cond.Eval (fsEnv bk lib rt) (PString (ctx_p ctx)) c s
  end = (s1, true) ->
  http.Method r = "COPY"
  \/ (http.Method r = "MOVE"
      /\ snd (checkCanWrite rt (ctx_cond ctx) (PString (ctx_p ctx)) (lm s1))
         = true) ->
  http.Get r "Destination" <> "" ->
  url_Parse (http.Get r "Destination") = Ok durl ->
  http.wroteHeader w = None ->
  let move := String.eqb (http.Method r) "MOVE" in
  let locks1 :=
    if move
    then fst (checkCanWrite rt (ctx_cond ctx) (PString (ctx_p ctx)) (lm s1))
    else lm s1 in
  let bad_host :=
    exists s' w', ServeHTTP bk lib hs rt r s w = Some (s', w')
                  /\ http.status w' = 502
                  /\ HTTPCode ErrorBadHost = 502
                  /\ fs s' = fs s1 in
  (cond.Host durl <> http.Host r -> bad_host)
  /\ (cond.Host durl = "" -> http.Host r <> "" -> bad_host)
  /\ (cond.Host durl = http.Host r ->
      forall dst f' newf,
        ForPath (cond.Path durl) (fs s1) = Ok dst ->
        snd (checkCanWrite rt (ctx_cond ctx) (PString dst) locks1) = true ->
        path_CopyTo bk (ctx_p ctx) dst
          {| Overwrite := ctx_overwrite ctx; Move := move;
             Depth := ctx_depth ctx |} (fs s1) = (f', Ok newf) ->
        exists s' w', ServeHTTP bk lib hs rt r s w = Some (s', w')
                      /\ http.status w' = (if newf then 201 else 204)
                      /\ fs s' = f').
Proof.
  intros Hpath Hctx Hpre Hmethod Hdest Hurl Hw move locks1 bad_host.
  assert (cond.Host durl <> http.Host r -> bad_host) as Hbad.
  { intros Hne%String.eqb_neq. unfold bad_host, ServeHTTP.
    apply String.eqb_neq in Hpath. rewrite Hpath, Hctx, Hpre. simpl.
    apply String.eqb_neq in Hdest.
    destruct Hmethod as [Hm|[Hm Hok]]; rewrite Hm; simpl.
    - unfold doCopy, handleCopyOrMove. simpl.
      rewrite Hdest, Hurl, Hne. simpl. eexists _, _. split; [reflexivity|].
      unfold http.status, http.WriteHeader. by rewrite Hw.
    - unfold doMove, handleCopyOrMove.
      destruct (checkCanWrite rt (ctx_cond ctx) (PString (ctx_p ctx)) (lm s1))
        as [locks ok]; simpl in *. subst ok. simpl.
      rewrite Hdest, Hurl, Hne. simpl. eexists _, _. split; [reflexivity|].
      unfold http.status, http.WriteHeader. by rewrite Hw. }
  split; [done|]. split; [intros H0 Hreq; apply Hbad; congruence|].
  intros Heq%String.eqb_eq dst f' newf Hdst Hok Hcopy.
  unfold ServeHTTP. apply String.eqb_neq in Hpath. rewrite Hpath, Hctx, Hpre.
  simpl. apply String.eqb_neq in Hdest. subst move locks1.
  destruct Hmethod as [Hm|[Hm Hsrc]]; rewrite Hm in *; simpl in *.
  - unfold doCopy, handleCopyOrMove. simpl. rewrite Hdest, Hurl, Heq. simpl.
    rewrite Hdst.
    destruct (checkCanWrite rt (ctx_cond ctx) (PString dst) (lm s1))
      as [locks ok]; simpl in *. subst ok. simpl. rewrite Hcopy.
    eexists _, _. split; [reflexivity|]. split; [|done].
    unfold http.status, http.WriteHeader. rewrite Hw. by destruct newf.
  - unfold doMove, handleCopyOrMove.
    destruct (checkCanWrite rt (ctx_cond ctx) (PString (ctx_p ctx)) (lm s1))
      as [locks0 ok0]; simpl in *. subst ok0. simpl.
    rewrite Hdest, Hurl, Heq. simpl. rewrite Hdst.
    destruct (checkCanWrite rt (ctx_cond ctx) (PString dst) locks0)
      as [locks ok]; simpl in *. subst ok. simpl. rewrite Hcopy.
    eexists _, _. split; [reflexivity|]. split; [|done].
    unfold http.status, http.WriteHeader. rewrite Hw. by destruct newf.
Qed.

End Properties.

(** ** The claims at concrete inputs *)

Lemma range_order_keys (locks : lockmaster) : range_order locks (sample.keys locks).
Proof.
  split; [apply NoDup_fst_map_to_list|].
  intros k. unfold sample.keys. rewrite list_elem_of_fmap. split.
  - intros ([k' l] & -> & Hin). apply elem_of_map_to_list in Hin. by exists l.
  - intros [l Hl]. exists (k, l). split; [done|]. by apply elem_of_map_to_list.
Qed.

Lemma Included_child_of_subtree_witness :
  wp.InTree ("/a" +:+ "/" +:+ "b") "/a" = true
  /\ wp.Included ("/a" +:+ "/" +:+ "b") "/a" 1 = ("", false)
  /\ (forall d, 2 <= d ->
      wp.Included ("/a" +:+ "/" +:+ "b") "/a" d = ("/" +:+ "b", true))
  /\ wp.Included ("/" +:+ "b") "/" 1 = ("b", true).
Proof. exact (Included_child_of_subtree "/a" "b" eq_refl eq_refl). Defined.

Lemma two_locks_reachable : lm_reachable two_locks.
Proof.
  unfold two_locks. apply lm_reach_step; [apply lm_reach_step|].
  - apply lm_reach_new.
  - apply range_order_keys.
  - apply range_order_keys.
Qed.

Lemma lock_regions_disjoint_witness :
  snd (wp.Included "/a" "/b" (-1)) = false
  /\ snd (wp.Included "/b" "/a" 0) = false.
Proof.
  exact (lock_regions_disjoint two_locks 0 "t1" "t2"
           (mkLock "t1" 0 "" (20 * Second) 0 "/a")
           (mkLock "t2" (-1) "" (20 * Second) 0 "/b")
           two_locks_reachable ltac:(discriminate)
           ltac:(vm_compute; reflexivity) ltac:(vm_compute; reflexivity)
           ltac:(reflexivity) ltac:(reflexivity)).
Defined.




Lemma refresh_sets_deadline_witness :
  let l := mkLock "t" (-1) "" (20 * Second) 0 "/a" in
  let clamp d := Z.max (20 * Second) (Z.min d (300 * Second)) in
  (exists l',
      refreshLock 7 "t" "/a/b" (1000 * Second) one_lock
      = (<["t" := l']> one_lock, Ok l')
      /\ duration l' = clamp (1000 * Second) /\ modified l' = 7
      /\ (forall t, expired t l' = (7 + clamp (1000 * Second) <? t))
      /\ token l' = token l /\ path l' = path l /\ depth l' = depth l
      /\ owner l' = owner l)
  /\ (duration l = clamp 0 /\ modified l = 0 /\ one_lock !! "t" = Some l).
Proof.
  refine (refresh_sets_deadline 7 "t" "/a/b" (1000 * Second) one_lock
            (mkLock "t" (-1) "" (20 * Second) 0 "/a")
            0 "t" [] "" "/a" (-1) 0 ∅ one_lock
            (mkLock "t" (-1) "" (20 * Second) 0 "/a") _ _ _ _).
  - vm_compute. reflexivity.
  - reflexivity.
  - reflexivity.
  - vm_compute. reflexivity.
Defined.

Lemma checkCanWrite_spec_witness :
  let rt := sample.runtime 1 "t3" in
  let c := Some (cond.mkIfTag [cond.mkConditionList ""
                                 [cond.mkCondition false "t1" ""]]) in
  let covered :=
    exists k l, two_locks !! k = Some l /\ live (Now rt) l
                /\ covers l "/a" = true in
  let ok := snd (checkCanWrite rt c "/a" two_locks) in
  (~ covered -> ok = true)
  /\ (covered -> c = None -> ok = false)
  /\ (covered -> forall t, c = Some t ->
        (ok = true <->
         exists tok, tok ∈ cond.GetAllTokens t
                     /\ snd (isLocked (Now rt) "/a" tok two_locks) = true))
  /\ HTTPCode ErrorLocked = 423.
Proof.
  exact (checkCanWrite_spec (sample.runtime 1 "t3")
           (Some (cond.mkIfTag [cond.mkConditionList ""
                                  [cond.mkCondition false "t1" ""]]))
           "/a" two_locks two_locks_reachable (range_order_keys two_locks)).
Defined.

Lemma parse_failure_status_witness :
  let r := sample.request "PUT" "/foo" {[ "If" := "(a" ]} in
  let s := NewWebDAV (memfs.NewMemFS 0) in
  exists w', memServe (sample.runtime 1 "t") r s http.newResponse = Some (s, w')
             /\ http.status w' = StatusInternalServerError
             /\ StatusInternalServerError <> StatusBadRequest.
Proof.
  refine (parse_failure_status memBackend sampleLib noHandlers
            (sample.runtime 1 "t")
            (sample.request "PUT" "/foo" {[ "If" := "(a" ]})
            (NewWebDAV (memfs.NewMemFS 0)) http.newResponse "/foo" (-1)
            (cond.mkIfTag [cond.mkConditionList ""
                             [cond.mkCondition false "a" ""]])
            (errorString "could not parse list") _ _ _ _ _).
  - discriminate.
  - vm_compute. reflexivity.
  - vm_compute. reflexivity.
  - vm_compute. reflexivity.
  - reflexivity.
Defined.

(** The failing input of C5 through the whole dispatcher: status 500. *)
Example If_parse_failure_500 :
  (http.status ∘ snd)
    <$> memServe (sample.runtime 1 "t")
          (sample.request "PUT" "/foo" {[ "If" := "(a" ]})
          (NewWebDAV (memfs.NewMemFS 0)) http.newResponse
  = Some 500.
Proof. vm_compute. reflexivity. Qed.

Lemma delete_file_status_witness :
  let del :=
    doDelete memBackend sampleLib (sample.runtime 1 "t")
      (plain_context "/foo")
      (sample.request "DELETE" "/foo" ∅)
      {| fs := foo_fs; lm := ∅ |} http.newResponse in
  snd del = http.newResponse
  /\ http.status (snd del) = 200
  /\ fs (fst del) = fst (memfs.Remove "/foo" foo_fs)
  /\ StatusNoContent = 204.
Proof.
  refine (delete_file_status memBackend sampleLib
            (sample.runtime 1 "t") (plain_context "/foo")
            (sample.request "DELETE" "/foo" ∅)
            {| fs := foo_fs; lm := ∅ |} http.newResponse
            (memfs.newMemFile 0 "/foo" false)
            (fst (memfs.Remove "/foo" foo_fs)) _ _ _ _ _).
  - reflexivity.
  - vm_compute. reflexivity.
  - vm_compute. reflexivity.
  - reflexivity.
  - vm_compute. reflexivity.
Defined.

(** The failing input of C6 through the whole dispatcher: the DELETE of
    an existing file is answered with status 200, and the file is gone. *)
Example delete_file_200 :
  (fun sw => (http.status (snd sw), fs (fst sw) !! "/foo"))
    <$> memServe (sample.runtime 1 "t") (sample.request "DELETE" "/foo" ∅)
          {| fs := foo_fs; lm := ∅ |} http.newResponse
  = Some (200, None).
Proof. vm_compute. reflexivity. Qed.

Lemma Send_header_after_status_witness :
  let w := x.Send (fun _ => "") x.NewMultiStatus http.newResponse in
  http.status w = 207
  /\ http.sentHeader w !! "Content-Type" = None
  /\ http.handlerHeader w !! "Content-Type"
     = Some "application/xml; charset=utf-8"
  /\ http.written w
     = http.written http.newResponse +:+ x.Header
       +:+ "<multistatus xmlns=" +:+ x.quote +:+ "DAV:" +:+ x.quote +:+ ">"
       +:+ "" +:+ "</multistatus>".
Proof.
  exact (Send_header_after_status (fun _ => "") x.NewMultiStatus
           http.newResponse eq_refl eq_refl eq_refl).
Defined.

Lemma doLock_create_failure_witness :
  let rt := sample.runtime 1 "t" in
  let ctx := plain_context "/new" in
  let s := NewWebDAV (memfs.NewMemFS 0) in
  let l := mkLock "t" (-1) "" (20 * Second) 1 "/new" in
  let err := DavError (mkError StatusInsufficientStorage "Full" None) in
  let s' := fst (fullLock rt ctx (sample.request "LOCK" "/new" ∅) s http.newResponse) in
  let w' := snd (fullLock rt ctx (sample.request "LOCK" "/new" ∅) s http.newResponse) in
  ({[ "t" := l ]} : lockmaster) !! token l = Some l
  /\ lm s' !! token l = None
  /\ lm_swept (Now rt) (lm s) (lm s')
  /\ ((forall k l0, lm s !! k = Some l0 -> live (Now rt) l0) -> lm s' = lm s)
  /\ fs s' = memfs.NewMemFS 0
  /\ w' = errorHeader fullBackend (Some "/new") err s'
            (http.Set_ "Lock-Token" ("<" +:+ token l +:+ ">") http.newResponse).
Proof.
  refine (doLock_create_failure fullBackend sampleLib
            (sample.runtime 1 "t") (plain_context "/new")
            (sample.request "LOCK" "/new" ∅) (NewWebDAV (memfs.NewMemFS 0))
            http.newResponse (x.mkLockRequest "" false)
            (memfs.newMemFile 0 "/" true) {[ "t" := _ ]}
            (mkLock "t" (-1) "" (20 * Second) 1 "/new")
            (DavError ErrorNotFound) (memfs.NewMemFS 0)
            (DavError (mkError StatusInsufficientStorage "Full" None))
            _ _ _ _ _ _ _ _).
  - apply lm_reach_new.
  - reflexivity.
  - reflexivity.
  - reflexivity.
  - vm_compute. reflexivity.
  - vm_compute. reflexivity.
  - vm_compute. reflexivity.
  - reflexivity.
Defined.

Lemma old_lock_reachable : lm_reachable old_lock.
Proof.
  apply lm_reach_step; [apply lm_reach_new|apply range_order_keys].
Qed.

(** C9, as stated, fails: a LOCK on ["/new"] long after the lock on
    ["/old"] has expired acquires its lock, fails to create the file and
    unlocks again, and the lock manager is left empty, not as it was: the
    sweep of [createLock] has dropped the expired lock. *)
Lemma doLock_create_failure_sweeps :
  let rt := sample.runtime (1000 * Second) "t1" in
  let ctx := plain_context "/new" in
  let r := sample.request "LOCK" "/new" ∅ in
  let s := {| fs := memfs.NewMemFS 0; lm := old_lock |} in
  let out := fullLock rt ctx r s http.newResponse in
  lm_reachable (lm s)
  /\ x.ParseLock sample.exclusiveWrite (http.Body r)
     = Ok (x.mkLockRequest "" false)
  /\ snd (createLock (Now rt) (NewToken rt) (RangeOrder rt (lm s)) ""
            "/new" (ctx_depth ctx) (ctx_timeout ctx) (lm s))
     = Ok (mkLock "t1" (-1) "" (20 * Second) (1000 * Second) "/new")
  /\ memfs.Lookup "/new" (fs s) = Err (DavError ErrorNotFound)
  /\ snd (sample.fullCreate "/new" (fs s))
     = Err (DavError (mkError StatusInsufficientStorage "Full" None))
  /\ http.status (snd out) = 507
  /\ lm s !! "t0" = Some (mkLock "t0" 0 "" (20 * Second) 0 "/old")
  /\ lm (fst out) !! "t0" = None
  /\ lm (fst out) <> lm s.
Proof.
  split; [apply old_lock_reachable|].
  repeat (split; [vm_compute; reflexivity|]).
  intros H.
  assert (lm (fst (fullLock (sample.runtime (1000 * Second) "t1")
                     (plain_context "/new") (sample.request "LOCK" "/new" ∅)
                     {| fs := memfs.NewMemFS 0; lm := old_lock |}
                     http.newResponse)) !! "t0"
          = old_lock !! "t0") as Heq by (by rewrite H).
  vm_compute in Heq. discriminate.
Qed.

Lemma destination_host_compared_witness :
  (let r := sample.request "COPY" "/foo" {[ "Destination" := "/bar" ]} in
   let s := {| fs := foo_fs; lm := ∅ |} in
   exists s' w',
     ServeHTTP copyBackend urlLib noHandlers (sample.runtime 1 "t") r s
       http.newResponse = Some (s', w')
     /\ http.status w' = 502
     /\ HTTPCode ErrorBadHost = 502
     /\ fs s' = fs s)
  /\ (let r := sample.request "COPY" "/foo"
                 {[ "Destination" := "http://example.org/bar" ]} in
      let s := {| fs := foo_fs; lm := ∅ |} in
      exists s' w',
        ServeHTTP copyBackend urlLib noHandlers (sample.runtime 1 "t") r s
          http.newResponse = Some (s', w')
        /\ http.status w' = 201
        /\ fs s' = <["/bar" := memfs.clone 0 "/bar"
                                  (memfs.newMemFile 0 "/foo" false)]> foo_fs).
Proof.
  split.
  - refine (proj1 (destination_host_compared copyBackend urlLib noHandlers
                     (sample.runtime 1 "t")
                     (sample.request "COPY" "/foo" {[ "Destination" := "/bar" ]})
                     {| fs := foo_fs; lm := ∅ |} http.newResponse (Some "/foo")
                     (plain_context "/foo") {| fs := foo_fs; lm := ∅ |}
                     (cond.mkURL "" "/bar") _ _ _ _ _ _ _) _).
    + discriminate.
    + vm_compute. reflexivity.
    + reflexivity.
    + left. reflexivity.
    + discriminate.
    + reflexivity.
    + reflexivity.
    + discriminate.
  - refine (proj2 (proj2 (destination_host_compared copyBackend urlLib noHandlers
                     (sample.runtime 1 "t")
                     (sample.request "COPY" "/foo"
                        {[ "Destination" := "http://example.org/bar" ]})
                     {| fs := foo_fs; lm := ∅ |} http.newResponse (Some "/foo")
                     (plain_context "/foo") {| fs := foo_fs; lm := ∅ |}
                     (cond.mkURL "example.org" "/bar") _ _ _ _ _ _ _))
              _ "/bar" _ true _ _ _).
    + discriminate.
    + vm_compute. reflexivity.
    + reflexivity.
    + left. reflexivity.
    + discriminate.
    + vm_compute. reflexivity.
    + reflexivity.
    + reflexivity.
    + vm_compute. reflexivity.
    + vm_compute. reflexivity.
    + vm_compute. reflexivity.
Defined.

(** C10, as stated, fails: a MOVE of ["/a/b"], which lies under the lock
    on ["/a"], with the relative destination ["/dst"] and no If header is
    answered with 423 Locked by the write check on the source, before the
    destination is looked at. *)
Lemma move_locked_source_423 :
  let r := sample.request "MOVE" "/a/b" {[ "Destination" := "/dst" ]} in
  let s := {| fs := memfs.NewMemFS 0; lm := one_lock |} in
  sample.parsePath (http.Get r "Destination") = Ok (cond.mkURL "" "/dst")
  /\ http.Host r <> ""
  /\ (http.status ∘ snd) <$> memServe (sample.runtime 1 "t2") r s http.newResponse
     = Some 423
  /\ 423 <> 502.
Proof.
  split; [reflexivity|]. split; [discriminate|].
  split; [vm_compute; reflexivity|lia].
Qed.

(** * Further properties of the code *)

(** ** Paths: [InTree] and [Included] *)

Lemma append_nil_r (s : string) : s +:+ "" = s.
Proof.
  induction s as [|c s IH]; [done|].
  change (String c (s +:+ "") = String c s). by rewrite IH.
Qed.

Lemma HasPrefix_inv (s p : string) :
  GoStr.HasPrefix s p = true -> exists r, s = p +:+ r.
Proof.
  unfold GoStr.HasPrefix. revert s.
  induction p as [|c p IH]; intros s H.
  - by exists s.
  - destruct s as [|c' s]; [done|]. cbn [String.prefix] in H.
    destruct (ascii_dec c c') as [->|]; [|done].
    destruct (IH s H) as [r ->]. by exists r.
Qed.

(** The subtree name with its slash, as [InTree] compares it. *)
Lemma InTree_inv (a b : string) :
  wp.InTree a b = true ->
  a = b \/ exists t r, (t = "" \/ t = "/") /\ a = (b +:+ t) +:+ r
                       /\ GoStr.HasSuffix (b +:+ t) "/" = true.
Proof.
  unfold wp.InTree. destruct (String.eqb a b) eqn:Hab.
  - apply String.eqb_eq in Hab. by left.
  - intros H. right. destruct (GoStr.HasSuffix b "/") eqn:Hs; simpl in H.
    + apply HasPrefix_inv in H as [r ->]. exists "", r.
      rewrite append_nil_r. by auto.
    + apply HasPrefix_inv in H as [r ->]. exists "/", r.
      split; [by right|]. split; [done|].
      unfold GoStr.HasSuffix. rewrite length_app.
      change (String.length "/") with 1%nat.
      rewrite Nat.add_sub, from_app, Nat.add_1_r. done.
Qed.

Lemma InTree_intro (b t r : string) :
  (t = "" \/ t = "/") -> GoStr.HasSuffix (b +:+ t) "/" = true ->
  wp.InTree ((b +:+ t) +:+ r) b = true.
Proof.
  intros Ht Hs. unfold wp.InTree.
  destruct (String.eqb _ b); [done|].
  destruct Ht as [->| ->].
  - rewrite append_nil_r in *. rewrite Hs. simpl. apply HasPrefix_app.
  - destruct (GoStr.HasSuffix b "/"); simpl.
    + rewrite append_assoc. apply HasPrefix_app.
    + apply HasPrefix_app.
Qed.

(** [InTree] is transitive. *)
Lemma InTree_trans (a b c : string) :
  wp.InTree a b = true -> wp.InTree b c = true -> wp.InTree a c = true.
Proof.
  intros [->|(t1 & r1 & Ht1 & -> & Hs1)]%InTree_inv; [done|].
  intros [->|(t2 & r2 & Ht2 & -> & Hs2)]%InTree_inv.
  - by apply InTree_intro.
  - rewrite !append_assoc. rewrite <- append_assoc. by apply InTree_intro.
Qed.

(** What [Included] accepts lies in the tree, and it accepts at every
    larger depth, and without a depth bound, what it accepts at a depth,
    with the same relative name. *)
Lemma Included_depth_monotone (fn subtree r : string) (d d' : Z) :
  wp.Included fn subtree d = (r, true) -> d' < 0 \/ 0 <= d <= d' ->
  wp.InTree fn subtree = true /\ wp.Included fn subtree d' = (r, true).
Proof.
  unfold wp.Included. destruct (String.eqb fn subtree) eqn:Heq.
  - apply String.eqb_eq in Heq as ->. intros [= <-] _.
    by rewrite InTree_self.
  - destruct (wp.InTree fn subtree); simpl; [|done].
    set (fd := Z.of_nat _).
    destruct ((0 <=? d) && (d <? fd)) eqn:Hd; [done|].
    intros [= <-] Hdd. split; [done|].
    replace ((0 <=? d') && (d' <? fd)) with false; [done|].
    symmetry. apply andb_false_iff. apply andb_false_iff in Hd. lia.
Qed.

(** Two names that start the same text: one starts the other. *)
Lemma app_eq_prefix (x y r1 r2 : string) :
  x +:+ r1 = y +:+ r2 -> (exists z, y = x +:+ z) \/ (exists z, x = y +:+ z).
Proof.
  revert y. induction x as [|c x IH]; intros y H.
  - left. by exists y.
  - destruct y as [|c' y].
    + right. by exists (String c x).
    + injection H as -> H. destruct (IH y H) as [[z ->]|[z ->]].
      * left. by exists z.
      * right. by exists z.
Qed.

Lemma app_inv_tail (x y t : string) : x +:+ t = y +:+ t -> x = y.
Proof.
  revert y. induction x as [|c x IH]; intros y H.
  - destruct y as [|c' y]; [done|]. exfalso.
    apply (f_equal String.length) in H. rewrite !length_app in H.
    simpl in H. lia.
  - destruct y as [|c' y].
    + exfalso. apply (f_equal String.length) in H. rewrite !length_app in H.
      simpl in H. lia.
    + injection H as -> H. by rewrite (IH y H).
Qed.

(** A name that ends in a slash and starts with [y]: the slash is in the
    rest. *)
Lemma app_slash_split (x y z : string) :
  x +:+ "/" = y +:+ z -> z <> "" -> exists z', z = z' +:+ "/" /\ x = y +:+ z'.
Proof.
  revert y. induction x as [|c x IH]; intros y H Hz.
  - destruct y as [|c' y].
    + exists "". change ("/" = z) in H. by subst.
    + exfalso. apply (f_equal String.length) in H. rewrite !length_app in H.
      destruct z; [done|]. simpl in H. lia.
  - destruct y as [|c' y].
    + exists (String c x). change (String c x +:+ "/" = z) in H. by subst.
    + injection H as -> H. destruct (IH y H Hz) as (z' & -> & ->).
      by exists z'.
Qed.

(** Two subtrees that hold the same name: one holds the other. *)
Lemma InTree_chain (p a b : string) :
  wp.InTree p a = true -> wp.InTree p b = true ->
  wp.InTree a b = true \/ wp.InTree b a = true.
Proof.
  intros [->|(t1 & r1 & Ht1 & -> & Hs1)]%InTree_inv; [by left|].
  intros [Hp|(t2 & r2 & Ht2 & Hp & Hs2)]%InTree_inv.
  { right. rewrite <- Hp. by apply InTree_intro. }
  assert (forall a b t1 t2 z,
             (t1 = "" \/ t1 = "/") -> (t2 = "" \/ t2 = "/") ->
             GoStr.HasSuffix (a +:+ t1) "/" = true ->
             GoStr.HasSuffix (b +:+ t2) "/" = true ->
             b +:+ t2 = (a +:+ t1) +:+ z ->
             wp.InTree a b = true \/ wp.InTree b a = true) as Hone.
  { clear. intros a b t1 t2 z Ht1 [->| ->] Hs1 Hs2 Heq.
    - rewrite append_nil_r in Heq. right. rewrite Heq. by apply InTree_intro.
    - destruct (decide (z = "")) as [->|Hz].
      + rewrite append_nil_r in Heq. destruct Ht1 as [->| ->].
        * rewrite append_nil_r in Heq, Hs1. left. rewrite <- Heq.
          pose proof (InTree_intro b "/" "" (or_intror eq_refl)) as Hi.
          rewrite append_nil_r in Hi. apply Hi. by rewrite Heq.
        * apply app_inv_tail in Heq as ->. left. apply InTree_self.
      + apply app_slash_split in Heq as (z' & -> & ->); [|done].
        right. by apply InTree_intro. }
  destruct (app_eq_prefix _ _ _ _ Hp) as [[z Hz]|[z Hz]].
  - destruct (Hone a b t1 t2 z) as [H|H]; by auto.
  - destruct (Hone b a t2 t1 z) as [H|H]; by auto.
Qed.

(** ** The lock manager *)

(** X4: in a state that the lock manager can reach, at most one lock of
    depth 0 or infinity covers a name. *)
Theorem covering_lock_unique (locks : lockmaster) k1 k2 l1 l2 p :
  lm_reachable locks ->
  locks !! k1 = Some l1 -> locks !! k2 = Some l2 ->
  depth l1 <= 0 -> depth l2 <= 0 ->
  covers l1 p = true -> covers l2 p = true -> k1 = k2.
Proof.
  intros Hr H1 H2 Hd1 Hd2 Hc1 Hc2.
  destruct (decide (k1 = k2)) as [|Hne]; [done|exfalso].
  pose proof (lm_reachable_disjoint _ Hr) as Hdis.
  pose proof (Hdis k1 k2 l1 l2 Hne H1 H2) as H12.
  pose proof (Hdis k2 k1 l2 l1 (not_eq_sym Hne) H2 H1) as H21.
  destruct (String.eqb p (path l1)) eqn:E1.
  { apply String.eqb_eq in E1 as ->. congruence. }
  destruct (String.eqb p (path l2)) eqn:E2.
  { apply String.eqb_eq in E2 as ->. congruence. }
  rewrite covers_lock_depths in Hc1, Hc2, H12 by done.
  rewrite E1 in Hc1. rewrite E2 in Hc2. simpl in Hc1, Hc2.
  apply andb_prop in Hc1 as [Hn1 Hi1]. apply andb_prop in Hc2 as [Hn2 Hi2].
  destruct (InTree_chain _ _ _ Hi1 Hi2) as [Hi|Hi].
  - rewrite Hn2, Hi, orb_true_r in H12. done.
  - rewrite covers_lock_depths in H21 by done.
    rewrite Hn1, Hi, orb_true_r in H21. done.
Qed.

(** When the loop of [createLock] leaves with [ErrorLocked], a live lock
    of the map is in the way. *)
Lemma createLock_loop_locked now p dep order (locks locks' : lockmaster) :
  createLock_loop now p dep order locks = (locks', true) ->
  exists k l, locks !! k = Some l /\ live now l
              /\ (covers l p = true \/ snd (wp.Included (path l) p dep) = true).
Proof.
  revert locks. induction order as [|k order IH]; intros locks; simpl; [done|].
  destruct (locks !! k) as [l0|] eqn:Hk; [|by apply IH].
  destruct (expired now l0) eqn:He.
  - intros (k' & l & Hl & ?)%IH. exists k', l. split; [|done].
    rewrite lookup_delete in Hl. by case_decide.
  - destruct (snd (wp.Included p (path l0) (depth l0))) eqn:Hc1; simpl.
    { intros _. exists k, l0. unfold covers. auto. }
    destruct (snd (wp.Included (path l0) p dep)) eqn:Hc2; simpl.
    { intros _. exists k, l0. auto. }
    apply IH.
Qed.

(** When it leaves without, no live lock of the map is in the way. *)
Lemma createLock_loop_free now p dep order (locks locks' : lockmaster) :
  lm_wf locks -> range_order locks order ->
  createLock_loop now p dep order locks = (locks', false) ->
  forall k l, locks !! k = Some l -> live now l ->
    covers l p = false /\ snd (wp.Included (path l) p dep) = false.
Proof.
  intros Hwf [_ Hord] Hrun k l Hl Hlive.
  pose proof (createLock_loop_swept now p dep order locks Hwf) as Hsw.
  rewrite Hrun in Hsw. destruct Hsw as [_ Hkeep].
  eapply (createLock_loop_clear _ _ _ _ _ _ Hwf Hrun k l); [|by apply Hkeep].
  apply Hord. by exists l.
Qed.

(** [createLock] answers [ErrorLocked] exactly when a live lock covers
    the name or lies within the requested scope; it then only sweeps.
    Otherwise it stores the new lock under the generated token and keeps
    every other live lock.  A lock covers a name, and a name is
    included, when the test [wp.Included] of the code says so. *)
Lemma createLock_conflict_iff now tok order own p dep dur (locks : lockmaster) :
  lm_reachable locks -> range_order locks order ->
  let conflict :=
    exists k l, locks !! k = Some l /\ live now l
                /\ (covers l p = true
                    \/ snd (wp.Included (path l) p dep) = true) in
  let out := createLock now tok order own p dep dur locks in
  (conflict <-> snd out = Err (DavError ErrorLocked))
  /\ (conflict -> lm_swept now locks (fst out))
  /\ (~ conflict ->
      exists l, snd out = Ok l /\ fst out !! tok = Some l
                /\ token l = tok /\ path l = p /\ depth l = dep /\ owner l = own
                /\ forall k l0, k <> tok -> locks !! k = Some l0 ->
                     live now l0 -> fst out !! k = Some l0).
Proof.
  intros Hr Hord conflict out.
  pose proof (lm_reachable_wf _ Hr) as Hwf.
  pose proof (createLock_loop_swept now p dep order locks Hwf) as Hsw.
  subst out. unfold createLock.
  destruct (createLock_loop now p dep order locks) as [locks' b] eqn:Hrun.
  simpl in Hsw. destruct b; simpl.
  - assert conflict as Hc by (by eapply createLock_loop_locked).
    split; [done|]. split; [done|]. by intros [].
  - assert (~ conflict) as Hn.
    { intros (k & l & Hl & Hlive & Hin).
      destruct (createLock_loop_free _ _ _ _ _ _ Hwf Hord Hrun k l Hl Hlive)
        as [H1 H2].
      destruct Hin; congruence. }
    split; [split; [done|discriminate]|]. split; [done|]. intros _.
    eexists. split; [done|]. rewrite lookup_insert_eq.
    repeat (split; [done|]). intros k l0 Hne Hl0 Hlive.
    rewrite lookup_insert_ne by done. by apply Hsw.
Qed.

(** After [unlock], the scope of the lock that was released can be
    locked again at once.  A lock covers a name, and a name is
    included, when the test [wp.Included] of the code says so. *)
Lemma relock_after_unlock now tok order own dur (locks : lockmaster) t l :
  lm_reachable locks -> locks !! t = Some l ->
  range_order (unlock t locks) order ->
  exists l',
    snd (createLock now tok order own (path l) (depth l) dur (unlock t locks))
    = Ok l'
    /\ token l' = tok /\ path l' = path l /\ depth l' = depth l.
Proof.
  intros Hr Hl Hord.
  pose proof (lm_reachable_disjoint _ Hr) as Hdis.
  unfold createLock.
  destruct (createLock_loop now (path l) (depth l) order (unlock t locks))
    as [locks' b] eqn:Hrun.
  destruct b; [exfalso|by eexists].
  apply createLock_loop_locked in Hrun as (k & l0 & Hl0 & _ & Hin).
  unfold unlock in Hl0. rewrite lookup_delete in Hl0. case_decide; [done|].
  destruct Hin as [Hin|Hin].
  - by rewrite (Hdis t k l l0) in Hin.
  - change (covers l (path l0) = true) in Hin.
    by rewrite (Hdis k t l0 l) in Hin.
Qed.

(** X5: every lock of a reachable lock manager is stored under its own
    token with a duration between 20 seconds and 5 minutes; a lock that
    was last touched more than 5 minutes ago locks nothing, and the
    question removes it. *)
Theorem lock_duration_bounds (locks : lockmaster) k l :
  lm_reachable locks -> locks !! k = Some l ->
  token l = k
  /\ 20 * Second <= duration l <= 300 * Second
  /\ forall now p, modified l + 300 * Second < now ->
       isLocked now p k locks = (delete k locks, false).
Proof.
  intros Hr Hl. split; [by apply (lm_reachable_wf _ Hr)|].
  assert (minLockDuration <= duration l <= maxLockDuration) as Hd.
  { revert k l Hl. induction Hr as [|locks op Hr IH Hok]; intros k l Hl.
    { unfold newLockMaster in Hl. by rewrite lookup_empty in Hl. }
    pose proof (lm_reachable_wf _ Hr) as Hwf.
    destruct op as [now tok order own p dep dur|now tok p dur|t|now p t
                   |now order p]; simpl in Hl.
    - pose proof (createLock_loop_swept now p dep order locks Hwf) as Hsw.
      unfold createLock in Hl.
      destruct (createLock_loop now p dep order locks) as [locks' b].
      destruct b; simpl in Hl, Hsw.
      + apply Hsw in Hl. by eapply IH.
      + destruct (decide (k = tok)) as [->|Hne].
        * rewrite lookup_insert_eq in Hl. injection Hl as <-. simpl.
          apply clampDuration_range.
        * rewrite lookup_insert_ne in Hl by done. apply Hsw in Hl.
          by eapply IH.
    - unfold refreshLock in Hl.
      destruct (locks !! tok) as [l0|] eqn:Htok; simpl in Hl; [|by eapply IH].
      destruct (expired now l0).
      { simpl in Hl. rewrite lookup_delete in Hl.
        case_decide; [done|]. by eapply IH. }
      destruct (snd (wp.Included p (path l0) (depth l0))); simpl in Hl;
        [|by eapply IH].
      destruct (decide (k = tok)) as [->|Hne].
      + rewrite lookup_insert_eq in Hl. injection Hl as <-. simpl.
        apply clampDuration_range.
      + rewrite lookup_insert_ne in Hl by done. by eapply IH.
    - unfold unlock in Hl. rewrite lookup_delete in Hl.
      case_decide; [done|]. by eapply IH.
    - pose proof (isLocked_swept now p t locks) as [Hsub _].
      apply Hsub in Hl. by eapply IH.
    - pose proof (getLockForPath_loop_swept now p order locks Hwf) as [Hsub _].
      apply Hsub in Hl. by eapply IH. }
  split; [exact Hd|]. intros now p Hnow. unfold isLocked. rewrite Hl.
  replace (expired now l) with true; [done|].
  symmetry. unfold expired. apply Z.ltb_lt.
  unfold maxLockDuration, Minute in Hd. lia.
Qed.

(** Without a lock in its way, the loop of [getLockForPath] leaves no
    expired lock behind. *)
Lemma getLockForPath_loop_None_live now p order (locks : lockmaster) :
  lm_wf locks ->
  snd (getLockForPath_loop now p order locks) = None ->
  forall k l, k ∈ order ->
    fst (getLockForPath_loop now p order locks) !! k = Some l -> live now l.
Proof.
  revert locks. induction order as [|k order IH]; intros locks Hwf; simpl.
  - intros _ k l Hin. by apply elem_of_nil in Hin.
  - pose proof (getLockForPath_loop_swept now p order) as Hsw.
    destruct (locks !! k) as [l0|] eqn:Hk.
    + destruct (expired now l0) eqn:He.
      * intros HN k' l [->|Hin]%elem_of_cons Hl;
          [|by eapply (IH _ (lm_wf_delete _ _ Hwf) HN k' l)].
        destruct (Hsw _ (lm_wf_delete _ (token l0) Hwf)) as [Hsub _].
        apply Hsub in Hl. rewrite (Hwf _ _ Hk), lookup_delete_eq in Hl. done.
      * destruct (snd (wp.Included p (path l0) (depth l0))) eqn:Hc; simpl; [done|].
        intros HN k' l [->|Hin]%elem_of_cons Hl; [|by eapply (IH _ Hwf HN k' l)].
        destruct (Hsw _ Hwf) as [Hsub _]. apply Hsub in Hl.
        rewrite Hk in Hl. injection Hl as <-. done.
    + intros HN k' l [->|Hin]%elem_of_cons Hl; [|by eapply (IH _ Hwf HN k' l)].
      destruct (Hsw _ Hwf) as [Hsub _]. apply Hsub in Hl. congruence.
Qed.

(** The lock that the loop returns is left in the map. *)
Lemma getLockForPath_loop_stays now p order (locks : lockmaster) l :
  lm_wf locks ->
  snd (getLockForPath_loop now p order locks) = Some l ->
  fst (getLockForPath_loop now p order locks) !! token l = Some l.
Proof.
  revert locks. induction order as [|k order IH]; intros locks Hwf; simpl; [done|].
  destruct (locks !! k) as [l0|] eqn:Hk; [|by apply IH].
  destruct (expired now l0) eqn:He; [by apply IH, lm_wf_delete|].
  destruct (snd (wp.Included p (path l0) (depth l0))) eqn:Hc; simpl;
    [|by apply IH].
  intros [= <-]. by rewrite (Hwf _ _ Hk).
Qed.

(** [getLockForPath] returns a live lock of the map that covers the
    name, and leaves it in the map; it returns none only when no live lock
    covers the name, and then no expired lock is left.  It removes nothing
    but expired locks.  A lock covers a name, and a name is
    included, when the test [wp.Included] of the code says so. *)
Lemma getLockForPath_spec now order p (locks : lockmaster) :
  lm_reachable locks -> range_order locks order ->
  let out := getLockForPath now order p locks in
  lm_swept now locks (fst out)
  /\ match snd out with
     | Some l =>
         locks !! token l = Some l /\ live now l /\ covers l p = true
         /\ fst out !! token l = Some l
     | None =>
         (forall k l, locks !! k = Some l -> live now l -> covers l p = false)
         /\ (forall k l, fst out !! k = Some l -> live now l)
     end.
Proof.
  intros Hr [Hnd Hord] out. subst out. unfold getLockForPath.
  pose proof (lm_reachable_wf _ Hr) as Hwf.
  pose proof (getLockForPath_loop_swept now p order locks Hwf) as Hsw.
  split; [done|].
  destruct (snd (getLockForPath_loop now p order locks)) as [l|] eqn:Hres.
  - destruct (getLockForPath_loop_Some _ _ _ _ _ Hres) as (k & Hk & Hlive & Hc).
    rewrite (Hwf _ _ Hk). repeat (split; [done|]).
    rewrite <- (Hwf _ _ Hk). by apply getLockForPath_loop_stays.
  - split.
    + intros k l Hl Hlive.
      eapply (getLockForPath_loop_None _ _ _ _ Hwf Hres k l); [|done..].
      apply Hord. by exists l.
    + intros k l Hl.
      eapply (getLockForPath_loop_None_live _ _ _ _ Hwf Hres k l); [|done].
      apply Hord. destruct Hsw as [Hsub _]. apply Hsub in Hl. by exists l.
Qed.

(** [refreshLock] fails exactly when the token names no live lock that
    covers the name; a failed refresh only sweeps, and a lock that has
    expired is gone after it.  A lock covers a name, and a name is
    included, when the test [wp.Included] of the code says so. *)
Lemma refreshLock_fails_iff now tok p dur (locks : lockmaster) :
  lm_reachable locks ->
  let out := refreshLock now tok p dur locks in
  ((exists e, snd out = Err e)
   <-> ~ exists l, locks !! tok = Some l /\ live now l /\ covers l p = true)
  /\ ((exists e, snd out = Err e) -> lm_swept now locks (fst out))
  /\ (forall l, locks !! tok = Some l -> expired now l = true ->
        fst out !! tok = None).
Proof.
  intros Hr out. subst out. pose proof (lm_reachable_wf _ Hr) as Hwf.
  unfold refreshLock, live, covers.
  destruct (locks !! tok) as [l|] eqn:Hl; simpl.
  - destruct (expired now l) eqn:He; simpl.
    + rewrite (Hwf _ _ Hl). split; [|split].
      * split; [|by eauto]. intros _ (l' & [= <-] & ? & _). congruence.
      * intros _. apply lm_swept_delete. intros l' Hl'. congruence.
      * intros l' _ _. apply lookup_delete_eq.
    + destruct (snd (wp.Included p (path l) (depth l))) eqn:Hc; simpl.
      * split; [|split].
        -- split; [by intros [e ?]|]. intros Hn. exfalso. apply Hn. by exists l.
        -- by intros [e ?].
        -- intros l' [= <-]. congruence.
      * split; [|split].
        -- split; [|by eauto]. intros _ (l' & [= <-] & _ & ?). congruence.
        -- intros _. apply lm_swept_refl.
        -- intros l' [= <-]. congruence.
  - split; [|split].
    + split; [|by eauto]. by intros _ (l' & ? & _).
    + intros _. apply lm_swept_refl.
    + done.
Qed.

(** ** The If header *)

(** A condition as the parser makes it: a state token or an entity tag,
    not both and not neither. *)
Lemma parseCondition_rest_wf l tok not l' c :
  cond.parseCondition_rest l tok not = Some (l', (c, None)) ->
  cond.CNot c = not
  /\ ((cond.State c <> "" /\ cond.ETag c = "")
      \/ (cond.State c = "" /\ cond.ETag c <> "")).
Proof.
  unfold cond.parseCondition_rest. destruct (tok =? 91).
  - destruct (cond.consumeUntil 93 (cond.consume l)) as [[l1 [et err]]|]; [|done].
    destruct (String.eqb et "") eqn:He; [done|]. intros [= <- <- ->]. simpl.
    apply String.eqb_neq in He. auto.
  - destruct (cond.consumeIf _ l) as [[l1 [tx err]]|]; [|done].
    destruct (String.eqb (cond.unwrap tx) "") eqn:He; [done|].
    intros [= <- <- ->]. simpl. apply String.eqb_neq in He. auto.
Qed.

Lemma parseCondition_wf l l' c :
  cond.parseCondition l = Some (l', (c, None)) ->
  (cond.State c <> "" /\ cond.ETag c = "")
  \/ (cond.State c = "" /\ cond.ETag c <> "").
Proof.
  unfold cond.parseCondition. destruct (cond.peek l) as [l1 tok].
  destruct (tok =? cond.Not).
  - destruct (cond.peek (cond.consume l1)) as [l2 tok2].
    by intros [_ ?]%parseCondition_rest_wf.
  - by intros [_ ?]%parseCondition_rest_wf.
Qed.

Lemma parseList_loop_wf (P : cond.Condition -> Prop) fuel l tok rt cs l' tok' res :
  (forall l l' c, cond.parseCondition l = Some (l', (c, None)) -> P c) ->
  cond.parseList_loop fuel l tok rt cs = Some (l', (tok', (res, None))) ->
  Forall P cs -> Forall P (cond.Conditions res).
Proof.
  intros HP. revert l tok cs.
  induction fuel as [|fuel IH]; intros l tok cs; simpl.
  - destruct ((tok =? 41) || (tok =? cond.EOF)); [|done].
    by intros [= <- <- <-].
  - destruct ((tok =? 41) || (tok =? cond.EOF)); [by intros [= <- <- <-]|].
    destruct (cond.parseCondition l) as [[l1 [c [err|]]]|] eqn:Hc; [done| |done].
    destruct (cond.peek l1) as [l2 tok2]. intros Hrun Hcs.
    apply (IH _ _ _ Hrun). apply Forall_app. split; [done|].
    apply Forall_cons_2; [by eapply HP|apply Forall_nil_2].
Qed.

Lemma parseList_rest_wf (P : cond.Condition -> Prop) l tok rt l' cl :
  (forall l l' c, cond.parseCondition l = Some (l', (c, None)) -> P c) ->
  cond.parseList_rest l tok rt = Some (l', (cl, None)) ->
  Forall P (cond.Conditions cl).
Proof.
  intros HP. unfold cond.parseList_rest. destruct (negb (tok =? 40)); [done|].
  destruct (cond.peek (cond.consume l)) as [l1 tok1].
  destruct (cond.parseList_loop _ l1 tok1 rt [])
    as [[l2 [tok2 [res [err|]]]]|] eqn:Hloop; [done| |done].
  destruct (negb (tok2 =? 41)); [done|]. intros [= <- <-].
  eapply parseList_loop_wf; [exact HP|exact Hloop|apply Forall_nil_2].
Qed.

Lemma parseList_wf (P : cond.Condition -> Prop) l l' cl :
  (forall l l' c, cond.parseCondition l = Some (l', (c, None)) -> P c) ->
  cond.parseList l = Some (l', (cl, None)) ->
  Forall P (cond.Conditions cl).
Proof.
  intros HP. unfold cond.parseList. destruct (cond.peek l) as [l1 tok].
  destruct (tok =? 60); [|by apply parseList_rest_wf].
  destruct (cond.consumeUntil 62 (cond.consume l1)) as [[l2 [rt err]]|]; [|done].
  destruct (bool_decide (err <> None) || String.eqb rt ""); [done|].
  destruct (cond.peek l2) as [l3 tok3]. by apply parseList_rest_wf.
Qed.

Lemma ParseIfTag_loop_wf (P : cond.Condition -> Prop) fuel l ls t :
  (forall l l' c, cond.parseCondition l = Some (l', (c, None)) -> P c) ->
  cond.ParseIfTag_loop fuel l ls = Some (t, None) ->
  Forall (fun cl => Forall P (cond.Conditions cl)) ls ->
  Forall (fun cl => Forall P (cond.Conditions cl)) (cond.Lists t).
Proof.
  intros HP. revert l ls. induction fuel as [|fuel IH]; intros l ls;
    cbn [cond.ParseIfTag_loop]; destruct (cond.peek l) as [l1 tok];
    destruct (tok =? cond.EOF); try done; try by intros [= <-].
  destruct (cond.parseList l1) as [[l2 [cl [err|]]]|] eqn:Hl; [done| |done].
  intros Hrun Hls. apply (IH _ _ Hrun). apply Forall_app. split; [done|].
  apply Forall_cons_2; [by eapply parseList_wf|apply Forall_nil_2].
Qed.

(** In an If header that parses, every condition holds a state token
    or an entity tag, not both and not neither. *)
Lemma ParseIfTag_conditions (h : string) (t : cond.IfTag) :
  cond.ParseIfTag h = Some (t, None) ->
  Forall (fun cl =>
            Forall (fun c => (cond.State c <> "" /\ cond.ETag c = "")
                             \/ (cond.State c = "" /\ cond.ETag c <> ""))
                   (cond.Conditions cl))
         (cond.Lists t).
Proof.
  unfold cond.ParseIfTag. intros Hrun.
  eapply (ParseIfTag_loop_wf _ _ _ _ _ parseCondition_wf Hrun). apply Forall_nil_2.
Qed.

(** [RewriteHosts] leaves the conditions of every list as they are. *)
Lemma RewriteHosts_loop_Conditions parse h ls :
  snd (cond.RewriteHosts_loop parse h ls) = None ->
  map cond.Conditions (fst (cond.RewriteHosts_loop parse h ls))
  = map cond.Conditions ls.
Proof.
  induction ls as [|l ls IH]; simpl; [done|].
  destruct (String.eqb (cond.Resource l) "").
  - destruct (cond.RewriteHosts_loop parse h ls) as [ls' err]. simpl in *.
    intros ->. by rewrite IH.
  - destruct (parse (cond.Resource l)) as [u|e]; [|done].
    destruct (negb (String.eqb (cond.Host u) "")
              && negb (String.eqb (cond.Host u) h)); [done|].
    destruct (cond.RewriteHosts_loop parse h ls) as [ls' err]. simpl in *.
    intros ->. by rewrite IH.
Qed.

Lemma GetAllTokens_Conditions (t t' : cond.IfTag) :
  map cond.Conditions (cond.Lists t') = map cond.Conditions (cond.Lists t) ->
  cond.GetAllTokens t' = cond.GetAllTokens t.
Proof.
  unfold cond.GetAllTokens.
  generalize (cond.Lists t) as ls, (cond.Lists t') as ls'.
  induction ls as [|l ls IH]; intros [|l' ls']; simpl; try done.
  intros [= Hl Hls]. by rewrite Hl, (IH _ Hls).
Qed.

(** X6: [RewriteHosts] succeeds exactly when every resource that a list
    names parses as a URL without host or with the given host; it then puts
    the path of that URL in the place of the resource and keeps every
    condition, so that the tokens of the header are the same. *)
Theorem RewriteHosts_spec (parse : string -> result cond.URL) (h : string)
    (t : cond.IfTag) :
  let out := cond.RewriteHosts parse h t in
  (snd out = None
   <-> Forall (fun l => cond.Resource l = ""
                        \/ exists u, parse (cond.Resource l) = Ok u
                                     /\ (cond.Host u = "" \/ cond.Host u = h))
              (cond.Lists t))
  /\ (snd out = None ->
      Forall2 (fun l l' =>
                 cond.Conditions l' = cond.Conditions l
                 /\ ((cond.Resource l = "" /\ cond.Resource l' = "")
                     \/ exists u, parse (cond.Resource l) = Ok u
                                  /\ cond.Resource l' = cond.Path u))
              (cond.Lists t) (cond.Lists (fst out))
      /\ cond.GetAllTokens (fst out) = cond.GetAllTokens t).
Proof.
  intros out. subst out. unfold cond.RewriteHosts.
  pose proof (RewriteHosts_loop_Conditions parse h (cond.Lists t)) as Hc.
  assert (let out := cond.RewriteHosts_loop parse h (cond.Lists t) in
          (snd out = None
           <-> Forall (fun l => cond.Resource l = ""
                        \/ exists u, parse (cond.Resource l) = Ok u
                                     /\ (cond.Host u = "" \/ cond.Host u = h))
                      (cond.Lists t))
          /\ (snd out = None ->
              Forall2 (fun l l' =>
                 cond.Conditions l' = cond.Conditions l
                 /\ ((cond.Resource l = "" /\ cond.Resource l' = "")
                     \/ exists u, parse (cond.Resource l) = Ok u
                                  /\ cond.Resource l' = cond.Path u))
                (cond.Lists t) (fst out))) as Hloop.
  { clear Hc. generalize (cond.Lists t) as ls.
    induction ls as [|l ls [IH1 IH2]]; simpl.
    { split; [split; [intros _; apply Forall_nil_2|done]|].
      intros _. apply Forall2_nil_2. }
    destruct (String.eqb (cond.Resource l) "") eqn:Hr.
    - apply String.eqb_eq in Hr.
      destruct (cond.RewriteHosts_loop parse h ls) as [ls' err]. simpl in *.
      split.
      + rewrite IH1. split.
        * intros H. apply Forall_cons_2; [by left|done].
        * by intros [_ ?]%Forall_cons_1.
      + intros He. apply Forall2_cons_2; [by auto|by apply IH2].
    - apply String.eqb_neq in Hr.
      destruct (parse (cond.Resource l)) as [u|e] eqn:Hp; simpl.
      2:{ split; [split; [done|]|done].
          intros [[?|(u & ? & _)] _]%Forall_cons_1; congruence. }
      destruct (String.eqb (cond.Host u) "") eqn:H1; simpl.
      + apply String.eqb_eq in H1.
        destruct (cond.RewriteHosts_loop parse h ls) as [ls' err]. simpl in *.
        split.
        * rewrite IH1. split.
          -- intros H. apply Forall_cons_2; [right; by eauto|done].
          -- by intros [_ ?]%Forall_cons_1.
        * intros He. apply Forall2_cons_2; [|by apply IH2].
          split; [done|]. right. by eauto.
      + apply String.eqb_neq in H1.
        destruct (String.eqb (cond.Host u) h) eqn:H2; simpl.
        * apply String.eqb_eq in H2.
          destruct (cond.RewriteHosts_loop parse h ls) as [ls' err]. simpl in *.
          split.
          -- rewrite IH1. split.
             ++ intros H. apply Forall_cons_2; [right; by eauto|done].
             ++ by intros [_ ?]%Forall_cons_1.
          -- intros He. apply Forall2_cons_2; [|by apply IH2].
             split; [done|]. right. by eauto.
        * apply String.eqb_neq in H2. split; [split; [done|]|done].
          intros [[?|(u' & Hu' & [?|?])] _]%Forall_cons_1; congruence. }
  destruct (cond.RewriteHosts_loop parse h (cond.Lists t)) as [ls' err].
  simpl in *. destruct Hloop as [H1 H2]. split; [done|].
  intros He. split; [by apply H2|].
  by apply GetAllTokens_Conditions, Hc.
Qed.

(** ** The dispatcher *)


(** [strings.TrimPrefix("Second-", o)] leaves an end of the text
    ["Second-"], which is no number. *)
Lemma Atoi_TrimPrefix_Second (o : string) :
  strconv.Atoi (TrimPrefix "Second-" o) = None.
Proof.
  unfold TrimPrefix. destruct (GoStr.HasPrefix "Second-" o); [|done].
  generalize (String.length o) as n. intros n.
  do 8 (destruct n as [|n]; [done|]). done.
Qed.

Section Dispatcher.

Context {FSt PathT FileT : Type}.
Context (bk : FileSystem FSt PathT FileT) (lib : GoLib)
        (hs : @Handlers FSt PathT).

(** The Timeout header has no effect: [parseTimeout] returns one
    second for every request, since it trims the option off the text
    ["Second-"] and not the other way round. *)
Lemma parseTimeout_constant (r : http.Request) : parseTimeout lib r = Second.
Proof.
  unfold parseTimeout. generalize (SplitN (http.Get r "Timeout") 3) as opts.
  induction opts as [|o opts IH]; simpl; [done|].
  destruct (String.eqb (go_TrimSpace lib o) "Infinite"); [done|].
  by rewrite Atoi_TrimPrefix_Second.
Qed.

(** X9: every lock that a LOCK request creates or refreshes is valid for
    20 seconds, whatever the request asks for: the context holds a timeout
    of one second, which the lock manager raises to its minimum. *)
Theorem lock_request_duration (rt : Runtime) (r : http.Request) (s : WebDAV)
    p ctx req (locks locks' : lockmaster) l :
  extractContext bk lib s r = Some (p, Ok ctx) ->
  acquireLock bk rt ctx req locks = (locks', Ok l) ->
  ctx_timeout ctx = Second
  /\ duration l = 20 * Second
  /\ forall t, expired t l = (Now rt + 20 * Second <? t).
Proof.
  intros Hctx Hacq.
  assert (ctx_timeout ctx = Second) as Ht.
  { unfold extractContext in Hctx.
    destruct (fs_ForPath bk _ _); [|done]. destruct (parseDepth r); [|done].
    destruct (parseIfHeader lib r) as [[c|]|]; [|done..].
    injection Hctx as _ <-. apply parseTimeout_constant. }
  split; [done|].
  assert (duration l = 20 * Second /\ modified l = Now rt) as [Hd Hm].
  { unfold acquireLock in Hacq. rewrite Ht in Hacq.
    destruct (x.Refresh req).
    - destruct (ctx_cond ctx) as [c|]; [|done].
      destruct (cond.GetSingleState c) as [tok ok]. destruct ok; [|done].
      simpl in Hacq. unfold refreshLock in Hacq.
      destruct (locks !! tok) as [l0|]; [|done].
      destruct (expired (Now rt) l0); [done|].
      destruct (snd (wp.Included _ (path l0) (depth l0))); [|done].
      simpl in Hacq. by injection Hacq as _ <-.
    - apply createLock_Ok in Hacq as [-> _]. done. }
  split; [done|]. intros t. unfold expired. by rewrite Hd, Hm.
Qed.

Lemma parseDepth_error (r : http.Request) (e : error) :
  parseDepth r = Err e -> exists c, e = DavError (WithCause ErrorBadDepth c).
Proof.
  unfold parseDepth.
  destruct (_ || _); [done|].
  destruct (strconv.Atoi (http.Get r "Depth")) as [d|].
  - destruct (d <? 0); [|done]. intros [= <-]. by eexists.
  - intros [= <-]. by eexists.
Qed.


(** A request whose Depth header is no depth is answered with status
    400, and the server is left as it was. *)
Lemma bad_depth_status (rt : Runtime) (r : http.Request) (s : WebDAV)
    (w : http.ResponseWriter) p e :
  http.URL_Path r <> "/dumpz" ->
  fs_ForPath bk (http.URL_Path r) (fs s) = Ok p ->
  parseDepth r = Err e ->
  http.wroteHeader w = None ->
  exists w', ServeHTTP bk lib hs rt r s w = Some (s, w')
             /\ http.status w' = 400.
Proof.
  intros Hd Hp He Hw. unfold ServeHTTP, extractContext.
  apply String.eqb_neq in Hd. rewrite Hd, Hp, He. eexists. split; [done|].
  rewrite errorHeader_status by done.
  by apply parseDepth_error in He as [c ->].
Qed.


Lemma Condition_Eval_fsEnv (rt : Runtime) (r : string) (c : cond.Condition)
    (s s' : WebDAV) :
  fs s' = fs s -> lm_swept (Now rt) (lm s) (lm s') ->
  let out := cond.Condition_Eval (fsEnv bk lib rt) r c s' in
  fs (fst out) = fs s /\ lm_swept (Now rt) (lm s) (lm (fst out))
  /\ snd out = snd (cond.Condition_Eval (fsEnv bk lib rt) r c s).
Proof.
  intros Hfs Hsw. unfold cond.Condition_Eval. simpl.
  destruct (negb (String.eqb (cond.State c) "")).
  - pose proof (isLocked_swept (Now rt) r (cond.State c) (lm s')) as Hs'.
    pose proof (isLocked_after_sweep (Now rt) r (cond.State c) _ _ Hsw) as Hb.
    destruct (isLocked (Now rt) r (cond.State c) (lm s')) as [locks' b'].
    destruct (isLocked (Now rt) r (cond.State c) (lm s)) as [locks0 b0].
    simpl in *. subst b'. split; [done|]. split; [|done].
    by eapply lm_swept_trans.
  - rewrite Hfs. destruct (fs_ForPath bk r (fs s)) as [p|]; [|done].
    destruct (path_Lookup bk p (fs s)) as [f|]; [|done].
    by destruct (file_Stat bk f).
Qed.

Lemma Conditions_Eval_fsEnv (rt : Runtime) (r : string)
    (cs : list cond.Condition) (s s' : WebDAV) :
  fs s' = fs s -> lm_swept (Now rt) (lm s) (lm s') ->
  let out := cond.Conditions_Eval (fsEnv bk lib rt) r cs s' in
  fs (fst out) = fs s /\ lm_swept (Now rt) (lm s) (lm (fst out))
  /\ snd out
     = forallb (fun c => snd (cond.Condition_Eval (fsEnv bk lib rt) r c s)) cs.
Proof.
  revert s'. induction cs as [|c cs IH]; intros s' Hfs Hsw; simpl; [done|].
  destruct (Condition_Eval_fsEnv rt r c s s' Hfs Hsw) as (H1 & H2 & H3).
  destruct (cond.Condition_Eval (fsEnv bk lib rt) r c s') as [s1 ok].
  simpl in *. rewrite <- H3. destruct ok; simpl; [by apply IH|done].
Qed.

Lemma Lists_Eval_fsEnv (rt : Runtime) (r : string)
    (ls : list cond.ConditionList) (s s' : WebDAV) :
  fs s' = fs s -> lm_swept (Now rt) (lm s) (lm s') ->
  let out := cond.Lists_Eval (fsEnv bk lib rt) r ls s' in
  fs (fst out) = fs s /\ lm_swept (Now rt) (lm s) (lm (fst out))
  /\ snd out
     = existsb
         (fun l =>
            forallb
              (fun c =>
                 snd (cond.Condition_Eval (fsEnv bk lib rt)
                        (if negb (String.eqb (cond.Resource l) "")
                         then cond.Resource l else r) c s))
              (cond.Conditions l)) ls.
Proof.
  revert s'. induction ls as [|l ls IH]; intros s' Hfs Hsw; simpl; [done|].
  unfold cond.ConditionList_Eval.
  destruct (Conditions_Eval_fsEnv rt
              (if negb (String.eqb (cond.Resource l) "")
               then cond.Resource l else r) (cond.Conditions l) s s' Hfs Hsw)
    as (H1 & H2 & H3).
  destruct (cond.Conditions_Eval (fsEnv bk lib rt) _ (cond.Conditions l) s')
    as [s1 ok].
  simpl in *. rewrite <- H3. destruct ok; simpl; [done|by apply IH].
Qed.

(** The evaluation of an If header against the server leaves the file
    system as it is and removes nothing but expired locks from the lock
    manager; its result is the disjunction over the lists of the
    conjunction over their conditions, each condition taken in the state
    before the evaluation. *)
Lemma Eval_fsEnv_spec (rt : Runtime) (r : string) (t : cond.IfTag)
    (s : WebDAV) :
  let out := cond.Eval (fsEnv bk lib rt) r t s in
  fs (fst out) = fs s
  /\ lm_swept (Now rt) (lm s) (lm (fst out))
  /\ snd out
     = existsb
         (fun l =>
            forallb
              (fun c =>
                 snd (cond.Condition_Eval (fsEnv bk lib rt)
                        (if negb (String.eqb (cond.Resource l) "")
                         then cond.Resource l else r) c s))
              (cond.Conditions l)) (cond.Lists t).
Proof.
  unfold cond.Eval. apply Lists_Eval_fsEnv; [done|apply lm_swept_refl].
Qed.

(** X10: a request whose If header does not hold is answered with status
    412 before any method is looked at: the file system is as it was, and
    the lock manager has lost nothing but expired locks. *)
Theorem precondition_failed_status (rt : Runtime) (r : http.Request)
    (s : WebDAV) (w : http.ResponseWriter) p ctx c :
  http.URL_Path r <> "/dumpz" ->
  extractContext bk lib s r = Some (p, Ok ctx) ->
  ctx_cond ctx = Some c ->
  snd (cond.Eval (fsEnv bk lib rt) (path_String bk (ctx_p ctx)) c s) = false ->
  http.wroteHeader w = None ->
  exists s' w', ServeHTTP bk lib hs rt r s w = Some (s', w')
                /\ http.status w' = 412
                /\ fs s' = fs s /\ lm_swept (Now rt) (lm s) (lm s').
Proof.
  intros Hd Hctx Hc He Hw. unfold ServeHTTP.
  apply String.eqb_neq in Hd. rewrite Hd, Hctx, Hc.
  destruct (Lists_Eval_fsEnv rt (path_String bk (ctx_p ctx)) (cond.Lists c) s s
              eq_refl (lm_swept_refl _ _)) as (H1 & H2 & _).
  unfold cond.Eval in *.
  destruct (cond.Lists_Eval (fsEnv bk lib rt) _ (cond.Lists c) s) as [s1 pre].
  simpl in *. subst pre. simpl. eexists _, _. split; [done|].
  split; [|done]. unfold http.status, http.WriteHeader. by rewrite Hw.
Qed.

(** A method that the server does not know is answered with status
    400, after the If header was evaluated. *)
Lemma unknown_method_status (rt : Runtime) (r : http.Request)
    (s : WebDAV) (w : http.ResponseWriter) p ctx :
  http.URL_Path r <> "/dumpz" ->
  extractContext bk lib s r = Some (p, Ok ctx) ->
  (forall c, ctx_cond ctx = Some c ->
     snd (cond.Eval (fsEnv bk lib rt) (path_String bk (ctx_p ctx)) c s) = true) ->
  http.Method r ∉ ["OPTIONS"; "GET"; "HEAD"; "POST"; "DELETE"; "PUT"; "MKCOL";
                   "COPY"; "MOVE"; "PROPFIND"; "PROPPATCH"; "LOCK"; "UNLOCK"] ->
  http.wroteHeader w = None ->
  exists s' w', ServeHTTP bk lib hs rt r s w = Some (s', w')
                /\ http.status w' = 400
                /\ fs s' = fs s /\ lm_swept (Now rt) (lm s) (lm s').
Proof.
  intros Hd Hctx He Hm Hw. unfold ServeHTTP.
  apply String.eqb_neq in Hd. rewrite Hd, Hctx.
  assert (exists s1,
             match ctx_cond ctx with
             | Some c => cond.Eval (fsEnv bk lib rt) (path_String bk (ctx_p ctx)) c s
             | None => (s, true)
             end = (s1, true)
             /\ fs s1 = fs s /\ lm_swept (Now rt) (lm s) (lm s1))
    as (s1 & -> & Hfs & Hsw).
  { destruct (ctx_cond ctx) as [c|].
    - specialize (He c eq_refl).
      destruct (Lists_Eval_fsEnv rt (path_String bk (ctx_p ctx)) (cond.Lists c)
                  s s eq_refl (lm_swept_refl _ _)) as (H1 & H2 & _).
      unfold cond.Eval in *.
      destruct (cond.Lists_Eval (fsEnv bk lib rt) _ (cond.Lists c) s)
        as [s1 pre].
      simpl in *. subst pre. by exists s1.
    - exists s. split; [done|]. split; [done|apply lm_swept_refl]. }
  simpl.
  repeat match goal with
         | |- context [String.eqb (http.Method r) ?m] =>
             destruct (String.eqb (http.Method r) m) eqn:?Hm';
             [apply String.eqb_eq in Hm'; exfalso; apply Hm; rewrite Hm';
              set_solver|clear Hm']
         end.
  eexists _, _. split; [done|]. split; [|done].
  unfold http.status, http.WriteHeader. by rewrite Hw.
Qed.


Lemma Forall_Conditions_map (P : list cond.Condition -> Prop)
    (ls ls' : list cond.ConditionList) :
  map cond.Conditions ls' = map cond.Conditions ls ->
  Forall (fun l => P (cond.Conditions l)) ls ->
  Forall (fun l => P (cond.Conditions l)) ls'.
Proof.
  revert ls'. induction ls as [|l ls IH]; intros [|l' ls'] Hm H;
    simpl in Hm; try discriminate.
  - apply Forall_nil_2.
  - injection Hm as Hl Hls. apply Forall_cons_1 in H as [H1 H2].
    apply Forall_cons_2; [by rewrite Hl|by apply IH].
Qed.

(** When [GetSingleState] finds the one state token of an If header
    that the server has accepted, the token is not empty and it is the only
    token of the header. *)
Lemma single_state_token (r : http.Request) (t : cond.IfTag) (tok : string) :
  parseIfHeader lib r = Some (Ok (Some t)) ->
  cond.GetSingleState t = (tok, true) ->
  tok <> "" /\ cond.GetAllTokens t = [tok].
Proof.
  unfold parseIfHeader. destruct (String.eqb (http.Get r "If") ""); [done|].
  destruct (cond.ParseIfTag (http.Get r "If")) as [[t0 [err|]]|] eqn:Hp;
    [done| |done].
  pose proof (RewriteHosts_loop_Conditions (go_url_Parse lib) (http.Host r)
                (cond.Lists t0)) as Hc.
  unfold cond.RewriteHosts.
  destruct (cond.RewriteHosts_loop (go_url_Parse lib) (http.Host r)
              (cond.Lists t0)) as [ls [err|]]; [done|].
  intros [= <-]. simpl in Hc. specialize (Hc eq_refl).
  assert (Forall (fun l => Forall (fun c =>
                     (cond.State c <> "" /\ cond.ETag c = "")
                     \/ (cond.State c = "" /\ cond.ETag c <> ""))
                   (cond.Conditions l)) ls) as Hwf.
  { eapply (Forall_Conditions_map _ _ _ Hc).
    eapply (ParseIfTag_loop_wf _ _ _ _ _ parseCondition_wf Hp).
    apply Forall_nil_2. }
  unfold cond.GetSingleState, cond.GetAllTokens. simpl.
  destruct ls as [|l [|l2 ls]]; [done| |done].
  apply Forall_cons_1 in Hwf as [Hl _]. destruct l as [res cs0]. simpl in *.
  destruct cs0 as [|c [|c2 cs]]; [done| |done].
  apply Forall_cons_1 in Hl as [Hcok _].
  destruct (String.eqb (cond.ETag c) "") eqn:He; simpl; [|done].
  destruct (cond.CNot c); [done|]. intros [= <-].
  apply String.eqb_eq in He.
  destruct Hcok as [[Hs _]|[_ ?]]; [|done]. split; [done|].
  apply String.eqb_neq in Hs. by rewrite Hs.
Qed.

(** What [errorHeader] puts into the header map is not sent. *)
Lemma errorHeader_sent (p : option PathT) (e : error) (s : WebDAV)
    (w : http.ResponseWriter) :
  http.wroteHeader w = None ->
  http.sentHeader (errorHeader bk p e s w) = http.handlerHeader w.
Proof.
  intros Hw. unfold errorHeader, allowedHeader.
  unfold http.sentHeader, http.WriteHeader, http.Set_, http.panic.
  rewrite Hw. destruct e as [msg|we]; [done|].
  destruct (HTTPCode we =? StatusMethodNotAllowed); [|done].
  by destruct p.
Qed.

(** X11: the Allow header of a 405 answer is never sent: [errorHeader]
    writes the status first and puts the header in the map afterwards. *)
Theorem errorHeader_allow_not_sent (p : PathT) (we : Error) (s : WebDAV)
    (w : http.ResponseWriter) :
  http.wroteHeader w = None -> http.handlerHeader w !! "Allow" = None ->
  let w' := errorHeader bk (Some p) (DavError we) s w in
  http.status w' = HTTPCode we
  /\ http.sentHeader w' !! "Allow" = None
  /\ (HTTPCode we = 405 -> is_Some (http.handlerHeader w' !! "Allow")).
Proof.
  intros Hw Ha w'. subst w'. rewrite errorHeader_status, errorHeader_sent by done.
  split; [done|]. split; [done|]. intros H405.
  unfold errorHeader, allowedHeader. rewrite H405. cbn.
  rewrite lookup_insert_eq. by eexists.
Qed.

Lemma substring_app (a b : string) :
  String.substring 0 (String.length a) (a +:+ b) = a.
Proof.
  induction a as [|c a IH]; simpl; [by destruct b|]. by rewrite IH.
Qed.

(** The token between the angle brackets of a Lock-Token header. *)
Lemma unwrap_token (T : string) :
  T <> "" ->
  match "<" +:+ T +:+ ">" with
  | String "<"%char _ =>
      if (2 <? String.length ("<" +:+ T +:+ ">"))%nat
      then String.substring 1 (String.length ("<" +:+ T +:+ ">") - 2)
             ("<" +:+ T +:+ ">")
      else "<" +:+ T +:+ ">"
  | _ => "<" +:+ T +:+ ">"
  end = T.
Proof.
  intros HT. change ("<" +:+ T +:+ ">") with (String "<" (T +:+ ">")).
  cbn [String.length]. rewrite length_app. cbn [String.length].
  replace (2 <? S (String.length T + 1))%nat with true.
  2:{ symmetry. apply Nat.ltb_lt. destruct T; [done|]. simpl. lia. }
  replace (S (String.length T + 1) - 2)%nat with (String.length T) by lia.
  cbn [String.substring]. apply substring_app.
Qed.

(** An UNLOCK request that names, between angle brackets, the token
    of a live lock that covers the request's path removes that lock and
    nothing else, and writes no status (so the answer is 200); with any
    other token it is answered with status 400 and removes at most the
    expired lock of that token.  A lock covers a name, and a name is
    included, when the test [wp.Included] of the code says so. *)
Lemma doUnlock_spec (rt : Runtime) (ctx : context) (r : http.Request)
    (s : WebDAV) (w : http.ResponseWriter) (T : string) :
  T <> "" -> http.Get r "Lock-Token" = "<" +:+ T +:+ ">" ->
  http.wroteHeader w = None ->
  let out := doUnlock bk rt ctx r s w in
  fs (fst out) = fs s
  /\ ((exists l, lm s !! T = Some l /\ live (Now rt) l
                  /\ covers l (path_String bk (ctx_p ctx)) = true) ->
      lm (fst out) = delete T (lm s) /\ snd out = w
      /\ http.status (snd out) = 200)
  /\ ((~ exists l, lm s !! T = Some l /\ live (Now rt) l
                    /\ covers l (path_String bk (ctx_p ctx)) = true) ->
      http.status (snd out) = 400
      /\ lm_swept (Now rt) (lm s) (lm (fst out))).
Proof.
  intros HT Hh Hw out. subst out. unfold doUnlock. rewrite Hh. cbv zeta.
  rewrite (unwrap_token T HT).
  pose proof (isLocked_swept (Now rt) (path_String bk (ctx_p ctx)) T (lm s))
    as Hsw.
  unfold isLocked in *. unfold live, covers.
  destruct (lm s !! T) as [l|] eqn:Hl.
  - destruct (expired (Now rt) l) eqn:He;
      cbn -[errorHeader http.status].
    + split; [done|]. split.
      * intros (l' & [= <-] & ? & _). congruence.
      * intros _. split; [|done]. by rewrite errorHeader_status.
    + destruct (snd (wp.Included _ (path l) (depth l))) eqn:Hc;
      cbn -[errorHeader http.status].
      * split; [done|]. split.
        -- intros _. split; [done|]. split; [done|].
           unfold http.status. by rewrite Hw.
        -- intros Hn. exfalso. apply Hn. by exists l.
      * split; [done|]. split.
        -- intros (l' & [= <-] & _ & ?). congruence.
        -- intros _. split; [|done]. by rewrite errorHeader_status.
  - cbn -[errorHeader http.status]. split; [done|]. split.
    + by intros (l' & ? & _).
    + intros _. split; [|done]. by rewrite errorHeader_status.
Qed.

(** A live lock that covers the name refuses a write without If header. *)
Lemma checkCanWrite_locked (rt : Runtime) (p : string) (locks : lockmaster) k l :
  lm_reachable locks -> range_order locks (RangeOrder rt locks) ->
  locks !! k = Some l -> live (Now rt) l -> covers l p = true ->
  snd (checkCanWrite rt None p locks) = false
  /\ lm_swept (Now rt) locks (fst (checkCanWrite rt None p locks)).
Proof.
  intros Hr [_ Hord] Hl Hlive Hc. pose proof (lm_reachable_wf _ Hr) as Hwf.
  unfold checkCanWrite, getLockForPath.
  pose proof (getLockForPath_loop_swept (Now rt) p (RangeOrder rt locks) locks Hwf)
    as Hsw.
  pose proof (getLockForPath_loop_None (Now rt) p (RangeOrder rt locks) locks Hwf)
    as Hnone.
  destruct (getLockForPath_loop (Now rt) p (RangeOrder rt locks) locks)
    as [locks' [l'|]]; simpl in *; [done|].
  rewrite (Hnone eq_refl k l) in Hc; [done| |done..].
  apply Hord. by exists l.
Qed.

(** While a live lock covers the path of a request that comes without
    If header, DELETE, MKCOL and MOVE are answered with status 423; the file
    system is left as it is and the lock manager loses nothing but expired
    locks.  A lock covers a name, and a name is
    included, when the test [wp.Included] of the code says so. *)
Lemma locked_write_refused (rt : Runtime) (ctx : context) (r : http.Request)
    (s : WebDAV) (w : http.ResponseWriter) k l :
  lm_reachable (lm s) -> range_order (lm s) (RangeOrder rt (lm s)) ->
  lm s !! k = Some l -> live (Now rt) l ->
  covers l (path_String bk (ctx_p ctx)) = true ->
  ctx_cond ctx = None -> http.wroteHeader w = None ->
  Forall (fun h : handler =>
            http.status (snd (h rt ctx r s w)) = 423
            /\ fs (fst (h rt ctx r s w)) = fs s
            /\ lm_swept (Now rt) (lm s) (lm (fst (h rt ctx r s w))))
         [doDelete bk lib; doMkcol bk; doMove bk lib].
Proof.
  intros Hr Hord Hl Hlive Hc Hcond Hw.
  destruct (checkCanWrite_locked rt _ _ k l Hr Hord Hl Hlive Hc) as [Hno Hsw].
  repeat apply Forall_cons_2; [| | |apply Forall_nil_2].
  - unfold doDelete. rewrite Hcond.
    destruct (checkCanWrite rt None _ (lm s)) as [locks' ok]. simpl in Hno, Hsw.
    subst ok. cbn -[errorHeader http.status]. by rewrite errorHeader_status.
  - unfold doMkcol. rewrite Hcond.
    destruct (checkCanWrite rt None _ (lm s)) as [locks' ok]. simpl in Hno, Hsw.
    subst ok. cbn -[errorHeader http.status]. by rewrite errorHeader_status.
  - unfold doMove, handleCopyOrMove. rewrite Hcond.
    destruct (checkCanWrite rt None _ (lm s)) as [locks' ok]. simpl in Hno, Hsw.
    subst ok. cbn -[errorHeader http.status]. by rewrite errorHeader_status.
Qed.


(** X14: a LOCK request that creates a lock answers with the token between
    angle brackets in the Lock-Token header, with status 200 for a resource
    that exists and 201 for one that it creates; an UNLOCK request for the
    same path that sends this header back within the 20 seconds of the
    lock's life removes the lock again. *)
Theorem lock_then_unlock (rt : Runtime) (ctx : context) (r : http.Request)
    (s : WebDAV) (w : http.ResponseWriter) req parent locks1 l fs1 code :
  x.ParseLock (go_Decode_lockinfo lib) (http.Body r) = Ok req ->
  x.Refresh req = false ->
  path_Lookup bk (path_Parent bk (ctx_p ctx)) (fs s) = Ok parent ->
  createLock (Now rt) (NewToken rt) (RangeOrder rt (lm s)) (x.Owner req)
    (path_String bk (ctx_p ctx)) (ctx_depth ctx) (ctx_timeout ctx) (lm s)
  = (locks1, Ok l) ->
  match path_Lookup bk (ctx_p ctx) (fs s) with
  | Ok _ => fs1 = fs s /\ code = 200
  | Err _ => (exists f, path_Create bk (ctx_p ctx) (fs s) = (fs1, Ok f))
             /\ code = 201
  end ->
  NewToken rt <> "" -> http.wroteHeader w = None ->
  let s1 := fst (doLock bk lib rt ctx r s w) in
  let w1 := snd (doLock bk lib rt ctx r s w) in
  s1 = {| fs := fs1; lm := locks1 |}
  /\ locks1 !! NewToken rt = Some l
  /\ http.status w1 = code
  /\ http.sentHeader w1 !! "Lock-Token" = Some ("<" +:+ NewToken rt +:+ ">")
  /\ forall (rt2 : Runtime) (r2 : http.Request) (w2 : http.ResponseWriter),
       http.Get r2 "Lock-Token" = "<" +:+ NewToken rt +:+ ">" ->
       Now rt2 <= Now rt + 20 * Second ->
       doUnlock bk rt2 ctx r2 s1 w2
       = ({| fs := fs1; lm := delete (NewToken rt) locks1 |}, w2).
Proof.
  intros Hreq Hnr Hpar Hcl Hres Htok Hw s1 w1.
  destruct (createLock_Ok _ _ _ _ _ _ _ _ _ _ Hcl) as [Hl Hlocks1].
  assert (locks1 !! NewToken rt = Some l) as Hstored.
  { rewrite Hlocks1. apply lookup_insert_eq. }
  assert (doLock bk lib rt ctx r s w
          = ({| fs := fs1; lm := locks1 |},
             x.SendProp (go_marshalProp lib)
               (x.set_Inner (toXML lib (Now rt) l) (x.NewAny "DAV::lockdiscovery"))
               (http.WriteHeader code
                  (http.Set_ "Lock-Token" ("<" +:+ token l +:+ ">") w))))
    as Hrun.
  { unfold doLock. rewrite Hreq, Hpar. unfold acquireLock. rewrite Hnr, Hcl.
    cbn [negb set_lm fs lm].
    destruct (path_Lookup bk (ctx_p ctx) (fs s)) as [f|e].
    - by destruct Hres as [-> ->].
    - destruct Hres as [[f ->] ->]. done. }
  subst s1 w1. rewrite Hrun. cbn [fst snd].
  assert (token l = NewToken rt) as Htl by (by rewrite Hl).
  rewrite Htl. split; [done|]. split; [done|].
  split; [|split].
  - unfold x.SendProp, http.status, http.Write, http.WriteHeader, http.Set_.
    cbn. by rewrite Hw.
  - unfold x.SendProp, http.sentHeader, http.Write, http.WriteHeader, http.Set_.
    cbn. rewrite Hw. cbn. apply lookup_insert_eq.
  - intros rt2 r2 w2 Hh Hnow. unfold doUnlock. rewrite Hh. cbv zeta.
    rewrite (unwrap_token _ Htok). unfold isLocked. cbn [lm fs set_lm].
    rewrite Hstored.
    assert (expired (Now rt2) l = false) as ->.
    { unfold expired. rewrite Hl. cbn [modified duration].
      pose proof (clampDuration_range (ctx_timeout ctx)) as Hc.
      unfold minLockDuration in Hc. apply Z.ltb_ge. lia. }
    assert (snd (wp.Included (path_String bk (ctx_p ctx)) (path l) (depth l))
            = true) as ->.
    { rewrite Hl. cbn [path depth]. by rewrite Included_self. }
    done.
Qed.

(** X15: a LOCK request whose lock cannot be acquired leaves the file
    system as it is and removes nothing but expired locks.  A new lock that
    a live lock is in the way of is answered with status 423; a refresh
    without the one state token in the If header with status 400; a refresh
    of a lock that is unknown, has expired or does not cover the path with
    status 500, because the lock manager reports these as plain errors. *)
Theorem doLock_acquire_failure (rt : Runtime) (ctx : context)
    (r : http.Request) (s : WebDAV) (w : http.ResponseWriter) req parent
    locks' e :
  lm_reachable (lm s) ->
  x.ParseLock (go_Decode_lockinfo lib) (http.Body r) = Ok req ->
  path_Lookup bk (path_Parent bk (ctx_p ctx)) (fs s) = Ok parent ->
  acquireLock bk rt ctx req (lm s) = (locks', Err e) ->
  http.wroteHeader w = None ->
  let out := doLock bk lib rt ctx r s w in
  fst out = {| fs := fs s; lm := locks' |}
  /\ lm_swept (Now rt) (lm s) locks'
  /\ (x.Refresh req = false ->
      e = DavError ErrorLocked /\ http.status (snd out) = 423)
  /\ (x.Refresh req = true ->
      (e = DavError ErrorBadLock /\ http.status (snd out) = 400
       /\ (ctx_cond ctx = None
           \/ exists c, ctx_cond ctx = Some c
                        /\ snd (cond.GetSingleState c) = false))
      \/ (exists c msg, ctx_cond ctx = Some c
                        /\ snd (cond.GetSingleState c) = true
                        /\ e = errorString msg
                        /\ http.status (snd out) = 500)).
Proof.
  intros Hr Hreq Hpar Hacq Hw out. subst out.
  pose proof (lm_reachable_wf _ Hr) as Hwf.
  assert (doLock bk lib rt ctx r s w
          = ({| fs := fs s; lm := locks' |},
             errorHeader bk (Some (ctx_p ctx)) e {| fs := fs s; lm := locks' |} w))
    as ->.
  { unfold doLock. by rewrite Hreq, Hpar, Hacq. }
  cbn [fst snd]. rewrite errorHeader_status by done.
  split; [done|]. unfold acquireLock in Hacq.
  destruct (x.Refresh req).
  - destruct (ctx_cond ctx) as [c|].
    2:{ injection Hacq as <- <-. split; [apply lm_swept_refl|].
        split; [done|]. intros _. left. auto. }
    destruct (cond.GetSingleState c) as [tok ok] eqn:Hs. destruct ok.
    2:{ injection Hacq as <- <-. split; [apply lm_swept_refl|].
        split; [done|]. intros _. left. split; [done|]. split; [done|].
        right. exists c. by rewrite Hs. }
    simpl in Hacq. unfold refreshLock in Hacq.
    destruct (lm s !! tok) as [l0|] eqn:Hl0.
    + destruct (expired (Now rt) l0) eqn:He.
      * injection Hacq as <- <-. split.
        { apply lm_swept_delete. intros l1 Hl1.
          rewrite (Hwf _ _ Hl0) in Hl1. congruence. }
        split; [done|]. intros _. right. exists c, "expired lock".
        by rewrite Hs.
      * destruct (snd (wp.Included _ (path l0) (depth l0))); [done|].
        injection Hacq as <- <-. split; [apply lm_swept_refl|].
        split; [done|]. intros _. right. exists c, "path not within lock".
        by rewrite Hs.
    + injection Hacq as <- <-. split; [apply lm_swept_refl|].
      split; [done|]. intros _. right. exists c, "unknown lock".
      by rewrite Hs.
  - pose proof (createLock_loop_swept (Now rt) (path_String bk (ctx_p ctx))
                  (ctx_depth ctx) (RangeOrder rt (lm s)) (lm s) Hwf) as Hsw.
    unfold createLock in Hacq.
    destruct (createLock_loop _ _ _ _ (lm s)) as [locks1 b].
    destruct b; [|done]. injection Hacq as <- <-.
    split; [done|]. split; [done|]. done.
Qed.

(** A COPY to a destination that a live lock covers, sent without If
    header, is answered with status 423 and copies nothing.  A lock covers a name, and a name is
    included, when the test [wp.Included] of the code says so. *)
Lemma copy_locked_destination (rt : Runtime) (ctx : context)
    (r : http.Request) (s : WebDAV) (w : http.ResponseWriter) durl dst k l :
  lm_reachable (lm s) -> range_order (lm s) (RangeOrder rt (lm s)) ->
  http.Get r "Destination" <> "" ->
  go_url_Parse lib (http.Get r "Destination") = Ok durl ->
  cond.Host durl = http.Host r ->
  fs_ForPath bk (cond.Path durl) (fs s) = Ok dst ->
  lm s !! k = Some l -> live (Now rt) l ->
  covers l (path_String bk dst) = true ->
  ctx_cond ctx = None -> http.wroteHeader w = None ->
  let out := doCopy bk lib rt ctx r s w in
  http.status (snd out) = 423
  /\ fs (fst out) = fs s
  /\ lm_swept (Now rt) (lm s) (lm (fst out)).
Proof.
  intros Hr Hord Hd Hparse Hhost Hdst Hl Hlive Hc Hcond Hw out. subst out.
  destruct (checkCanWrite_locked rt _ _ k l Hr Hord Hl Hlive Hc) as [Hno Hsw].
  unfold doCopy, handleCopyOrMove. cbn [negb set_lm fs lm].
  apply String.eqb_neq in Hd. rewrite Hd, Hparse, Hhost, String.eqb_refl.
  cbn [negb fs lm]. rewrite Hdst, Hcond.
  destruct (checkCanWrite rt None _ (lm s)) as [locks' ok]. simpl in Hno, Hsw.
  subst ok. cbn -[errorHeader http.status]. by rewrite errorHeader_status.
Qed.

End Dispatcher.

(** ** The in-memory file system *)

Lemma length_from (n : nat) (s : string) :
  String.length (GoStr.from n s) = (String.length s - n)%nat.
Proof.
  revert s. induction n as [|n IH]; intros s; simpl; [lia|].
  destruct s as [|c s]; simpl; [done|]. apply IH.
Qed.

Lemma length_take (n : nat) (s : string) :
  (n <= String.length s)%nat -> String.length (memfs.take n s) = n.
Proof.
  unfold memfs.take. revert s. induction n as [|n IH]; intros s Hn.
  - by destruct s.
  - destruct s as [|c s]; simpl in *; [lia|]. rewrite IH; [done|lia].
Qed.

Lemma length_zeros (n : nat) : String.length (memfs.zeros n) = n.
Proof. induction n as [|n IH]; simpl; [done|]. by rewrite IH. Qed.

Lemma substring_skip (a s : string) (k n : nat) :
  String.substring (String.length a + k) n (a +:+ s) = String.substring k n s.
Proof. induction a as [|c a IH]; simpl; [done|]. apply IH. Qed.

Lemma take_from (n : nat) (s : string) :
  memfs.take n s +:+ GoStr.from n s = s.
Proof.
  unfold memfs.take. revert s. induction n as [|n IH]; intros s.
  - by destruct s.
  - destruct s as [|c s]; simpl; [done|].
    change (String c (String.substring 0 n s +:+ GoStr.from n s) = String c s).
    by rewrite IH.
Qed.

Lemma take_app (a b : string) : memfs.take (String.length a) (a +:+ b) = a.
Proof. apply substring_app. Qed.

Lemma take_take (n m : nat) (s : string) :
  (n <= m)%nat -> memfs.take n (memfs.take m s) = memfs.take n s.
Proof.
  unfold memfs.take. revert m s. induction n as [|n IH]; intros m s Hn.
  - by destruct (String.substring 0 m s), s.
  - destruct m as [|m]; [lia|]. destruct s as [|c s]; simpl; [done|].
    rewrite IH; [done|lia].
Qed.

Lemma get_ge (i : nat) (s : string) :
  (String.length s <= i)%nat -> String.get i s = None.
Proof.
  revert i. induction s as [|c s IH]; intros i Hi; [by destruct i|].
  destruct i as [|i]; simpl in *; [lia|]. apply IH. lia.
Qed.

Lemma get_app_l (a b : string) (i : nat) :
  (i < String.length a)%nat -> String.get i (a +:+ b) = String.get i a.
Proof.
  revert i. induction a as [|c a IH]; intros i Hi; simpl in *; [lia|].
  destruct i as [|i]; [done|]. apply IH. lia.
Qed.

Lemma get_app_r (a b : string) (i : nat) :
  (String.length a <= i)%nat ->
  String.get i (a +:+ b) = String.get (i - String.length a) b.
Proof.
  revert i. induction a as [|c a IH]; intros i Hi; simpl in *.
  - by rewrite Nat.sub_0_r.
  - destruct i as [|i]; [lia|]. simpl. apply IH. lia.
Qed.

Lemma get_take (n i : nat) (s : string) :
  (i < n)%nat -> String.get i (memfs.take n s) = String.get i s.
Proof.
  unfold memfs.take. revert i s. induction n as [|n IH]; intros i s Hi; [lia|].
  destruct s as [|c s]; simpl; [done|].
  destruct i as [|i]; [done|]. apply IH. lia.
Qed.

Lemma get_from (n i : nat) (s : string) :
  String.get i (GoStr.from n s) = String.get (n + i) s.
Proof.
  revert s. induction n as [|n IH]; intros s; simpl; [done|].
  destruct s as [|c s]; simpl; [by destruct i|]. apply IH.
Qed.

Lemma get_zeros (n i : nat) :
  (i < n)%nat -> String.get i (memfs.zeros n) = Some Ascii.zero.
Proof.
  revert i. induction n as [|n IH]; intros i Hi; [lia|].
  destruct i as [|i]; simpl; [done|]. apply IH. lia.
Qed.

(** The data that a write leaves. *)
Lemma Write_data now b h :
  b <> "" -> 0 <= memfs.hpos h ->
  let old := default "" (memfs.data (memfs.hf h)) in
  let start := Z.to_nat (memfs.hpos h) in
  let end_ := (start + String.length b)%nat in
  exists d,
    memfs.Write now b h
    = ({| memfs.hf := memfs.set_data now d (memfs.hf h);
          memfs.hpos := memfs.hpos h + Z.of_nat (String.length b) |},
       (Z.of_nat (String.length b), None))
    /\ String.length d = Nat.max (String.length old) end_
    /\ String.substring start (String.length b) d = b
    /\ forall i,
         String.get i d
         = if (i <? start)%nat
           then (if (i <? String.length old)%nat then String.get i old
                 else Some Ascii.zero)
           else if (i <? end_)%nat then String.get (i - start) b
                else String.get i old.
Proof.
  intros Hb Hpos old start end_. unfold memfs.Write.
  destruct (String.length b =? 0)%nat eqn:Hlen.
  { apply Nat.eqb_eq in Hlen. by destruct b. }
  fold old start end_.
  set (base := if (String.length old <? end_)%nat
               then old +:+ memfs.zeros (end_ - String.length old) else old).
  assert (String.length base = Nat.max (String.length old) end_) as Hlb.
  { subst base. destruct (String.length old <? end_)%nat eqn:Hlt.
    - rewrite length_app, length_zeros. apply Nat.ltb_lt in Hlt. lia.
    - apply Nat.ltb_ge in Hlt. lia. }
  assert (String.length (memfs.take start base) = start) as Hlt.
  { apply length_take. lia. }
  assert (forall i, String.get i base
                    = if (i <? String.length old)%nat then String.get i old
                      else if (i <? end_)%nat then Some Ascii.zero else None)
    as Hgb.
  { intros i. subst base. destruct (String.length old <? end_)%nat eqn:Hc.
    - apply Nat.ltb_lt in Hc. destruct (i <? String.length old)%nat eqn:Hi.
      + apply Nat.ltb_lt in Hi. by apply get_app_l.
      + apply Nat.ltb_ge in Hi. rewrite get_app_r by done.
        destruct (i <? end_)%nat eqn:Hi2.
        * apply Nat.ltb_lt in Hi2. apply get_zeros. lia.
        * apply Nat.ltb_ge in Hi2. apply get_ge. rewrite length_zeros. lia.
    - apply Nat.ltb_ge in Hc. destruct (i <? String.length old)%nat eqn:Hi; [done|].
      apply Nat.ltb_ge in Hi. replace (i <? end_)%nat with false.
      + by apply get_ge.
      + symmetry. apply Nat.ltb_ge. lia. }
  eexists. split; [|split; [|split]].
  - f_equal. f_equal. subst end_ start. lia.
  - rewrite !length_app, Hlt, length_from. lia.
  - rewrite <- Hlt at 1. rewrite <- (Nat.add_0_r (String.length _)).
    rewrite substring_skip. apply substring_app.
  - intros i. destruct (i <? start)%nat eqn:H1.
    + apply Nat.ltb_lt in H1. rewrite get_app_l by lia.
      rewrite get_take by done. rewrite Hgb.
      destruct (i <? String.length old)%nat; [done|].
      replace (i <? end_)%nat with true; [done|].
      symmetry. apply Nat.ltb_lt. lia.
    + apply Nat.ltb_ge in H1. rewrite get_app_r by lia. rewrite Hlt.
      destruct (i <? end_)%nat eqn:H2.
      * apply Nat.ltb_lt in H2. apply get_app_l. lia.
      * apply Nat.ltb_ge in H2. rewrite get_app_r by lia.
        rewrite get_from, Hgb.
        replace (end_ + (i - start - String.length b))%nat with i by lia.
        destruct (i <? String.length old)%nat eqn:H3; [done|].
        apply Nat.ltb_ge in H3.
        replace (i <? end_)%nat with false by (symmetry; apply Nat.ltb_ge; lia).
        symmetry. by apply get_ge.
Qed.

Lemma Seek_set (offset : Z) (h : memfs.memfileh) :
  0 <= offset ->
  memfs.Seek offset 0 h
  = ({| memfs.hf := memfs.hf h; memfs.hpos := offset |}, (offset, None)).
Proof.
  intros Ho. unfold memfs.Seek. change (0 =? 0) with true. cbv iota.
  by replace (offset <? 0) with false by lia.
Qed.

(** X16: a write through a handle returns the number of bytes of the
    buffer and moves the position behind them; the file then ends at the
    larger of its old end and the end of the write; the bytes before and
    behind the write are as they were, with zero bytes in a gap between the
    old end and the write; and a read of as many bytes from the position of
    the write gives the buffer back. *)
Theorem Write_then_Read now b h :
  b <> "" -> 0 <= memfs.hpos h ->
  let old := default "" (memfs.data (memfs.hf h)) in
  let start := Z.to_nat (memfs.hpos h) in
  let h1 := fst (memfs.Write now b h) in
  let d := default "" (memfs.data (memfs.hf h1)) in
  snd (memfs.Write now b h) = (Z.of_nat (String.length b), None)
  /\ memfs.hpos h1 = memfs.hpos h + Z.of_nat (String.length b)
  /\ memfs.Stat (memfs.hf h1)
     = Ok {| Created := Created (memfs.i (memfs.hf h)); LastModified := now;
             Size := Z.max (Z.of_nat (String.length old))
                           (memfs.hpos h + Z.of_nat (String.length b)) |}
  /\ (forall i,
        String.get i d
        = if (i <? start)%nat
          then (if (i <? String.length old)%nat then String.get i old
                else Some Ascii.zero)
          else if (i <? start + String.length b)%nat
               then String.get (i - start) b
               else String.get i old)
  /\ snd (memfs.Read (String.length b)
            (fst (memfs.Seek (memfs.hpos h) 0 h1)))
     = (b, (Z.of_nat (String.length b), None)).
Proof.
  intros Hb Hpos old start h1 d.
  destruct (Write_data now b h Hb Hpos) as (d' & Hw & Hlen & Hsub & Hget).
  subst h1 d. rewrite Hw. cbn [fst snd memfs.hf memfs.hpos].
  fold old start in Hlen, Hsub, Hget.
  split; [done|]. split; [done|]. split; [|split].
  - unfold memfs.Stat, memfs.set_data. cbn. rewrite Hlen. f_equal. f_equal.
    subst start. lia.
  - exact Hget.
  - rewrite Seek_set by done.
    unfold memfs.Read. cbn [fst memfs.hf memfs.hpos memfs.set_data memfs.data].
    cbn [from_option id]. fold start. rewrite Hlen.
    assert (0 < String.length b)%nat as Hb' by (destruct b; [done|simpl; lia]).
    replace (Nat.max (String.length old) (start + String.length b) <=? start)%nat
      with false by (symmetry; apply Nat.leb_gt; lia).
    cbn [snd].
    replace (Nat.min (start + String.length b)
               (Nat.max (String.length old) (start + String.length b)))
      with (start + String.length b)%nat by lia.
    replace (start + String.length b - start)%nat with (String.length b) by lia.
    by rewrite Hsub.
Qed.

(** A handle's position is never negative: [Seek] to a negative
    position returns [ErrorUnderrun] and leaves the handle where it was,
    and [Write], [Read] and [Seek] keep a position that is not negative. *)
Lemma handle_position (now : Z) (b : string) (n : nat) (offset whence : Z)
    (h : memfs.memfileh) :
  0 <= memfs.hpos h ->
  0 <= memfs.hpos (fst (memfs.Write now b h))
  /\ 0 <= memfs.hpos (fst (memfs.Read n h))
  /\ 0 <= memfs.hpos (fst (memfs.Seek offset whence h))
  /\ (whence = 0 -> offset < 0 ->
      memfs.Seek offset whence h
      = (h, (memfs.hpos h, Some (DavError ErrorUnderrun))))
  /\ (whence = 0 -> 0 <= offset ->
      memfs.Seek offset whence h
      = ({| memfs.hf := memfs.hf h; memfs.hpos := offset |}, (offset, None))).
Proof.
  intros Hpos. split; [|split; [|split; [|split]]].
  - unfold memfs.Write. destruct (String.length b =? 0)%nat; simpl; lia.
  - unfold memfs.Read. destruct (_ <=? _)%nat; simpl; lia.
  - unfold memfs.Seek.
    match goal with |- context [if ?np <? 0 then _ else _] =>
      destruct (np <? 0) eqn:Hnp end; simpl; lia.
  - intros -> Ho. unfold memfs.Seek. change (0 =? 0) with true. cbv iota.
    by replace (offset <? 0) with true by lia.
  - intros -> Ho. by apply Seek_set.
Qed.

(** X17: a read at or behind the end of the file returns [io.EOF] and no
    byte; a read before the end returns the bytes up to the end of the
    buffer or of the file, and moves the position behind them, so that a
    read of the whole file from its start is followed by [io.EOF]. *)
Theorem Read_spec (n : nat) (h : memfs.memfileh) :
  0 <= memfs.hpos h ->
  let d := default "" (memfs.data (memfs.hf h)) in
  let start := Z.to_nat (memfs.hpos h) in
  (Z.of_nat (String.length d) <= memfs.hpos h ->
   memfs.Read n h = (h, ("", (0, Some io_EOF))))
  /\ (memfs.hpos h < Z.of_nat (String.length d) ->
      let k := Nat.min n (String.length d - start) in
      memfs.Read n h
      = ({| memfs.hf := memfs.hf h; memfs.hpos := memfs.hpos h + Z.of_nat k |},
         (String.substring start k d, (Z.of_nat k, None)))
      /\ ((String.length d - start <= n)%nat ->
          forall m,
            snd (memfs.Read m (fst (memfs.Read n h))) = ("", (0, Some io_EOF)))).
Proof.
  intros Hpos d start. split.
  - intros Hend. unfold memfs.Read. fold d start.
    by replace (String.length d <=? start)%nat with true
      by (symmetry; apply Nat.leb_le; lia).
  - intros Hin k.
    assert (memfs.Read n h
            = ({| memfs.hf := memfs.hf h;
                  memfs.hpos := memfs.hpos h + Z.of_nat k |},
               (String.substring start k d, (Z.of_nat k, None)))) as Hr.
    { unfold memfs.Read. fold d start.
      replace (String.length d <=? start)%nat with false
        by (symmetry; apply Nat.leb_gt; lia).
      replace (Nat.min (start + n) (String.length d) - start)%nat with k by lia.
      f_equal. f_equal. subst k start. lia. }
    split; [done|]. intros Hall m. rewrite Hr. cbn [fst].
    unfold memfs.Read. cbn [memfs.hf memfs.hpos]. fold d.
    by replace (String.length d <=? Z.to_nat (memfs.hpos h + Z.of_nat k))%nat
      with true by (symmetry; apply Nat.leb_le; lia).
Qed.

(** *** The map of files *)

Lemma update_lookup k g (fs : memfs.files) q :
  memfs.update k g fs !! q
  = if decide (q = k) then g <$> fs !! k else fs !! q.
Proof.
  unfold memfs.update. destruct (fs !! k) as [f|] eqn:Hk.
  - destruct (decide (q = k)) as [->|Hne].
    + by rewrite lookup_insert_eq.
    + by rewrite lookup_insert_ne.
  - destruct (decide (q = k)) as [->|Hne]; [by rewrite Hk|done].
Qed.

Lemma fs_wf_update k g (fs : memfs.files) :
  (forall f, memfs.path (g f) = memfs.path f) ->
  memfs.fs_wf fs -> memfs.fs_wf (memfs.update k g fs).
Proof.
  intros Hg Hwf q f. rewrite update_lookup. case_decide as Hq.
  - subst q. destruct (fs !! k) as [f0|] eqn:Hk; [|done].
    intros [= <-]. rewrite Hg. by apply Hwf.
  - apply Hwf.
Qed.

Lemma fs_wf_insert k f (fs : memfs.files) :
  memfs.path f = k -> memfs.fs_wf fs -> memfs.fs_wf (<[k := f]> fs).
Proof.
  intros Hf Hwf q f'. destruct (decide (q = k)) as [->|Hne].
  - rewrite lookup_insert_eq. by intros [= <-].
  - rewrite lookup_insert_ne by done. apply Hwf.
Qed.

Lemma fs_wf_delete k (fs : memfs.files) :
  memfs.fs_wf fs -> memfs.fs_wf (delete k fs).
Proof.
  intros Hwf q f. rewrite lookup_delete. case_decide; [done|]. apply Hwf.
Qed.

Lemma fs_wf_removeSubtree p (fs : memfs.files) :
  memfs.fs_wf fs -> memfs.fs_wf (memfs.removeSubtree p fs).
Proof.
  intros Hwf q f. unfold memfs.removeSubtree.
  intros [Hq _]%map_lookup_filter_Some. by apply Hwf.
Qed.

Lemma fs_wf_CopyTo_loop now src dst opt order (fs : memfs.files) :
  memfs.fs_wf fs -> memfs.fs_wf (memfs.CopyTo_loop now src dst opt order fs).
Proof.
  revert fs. induction order as [|orig order IH]; intros fs Hwf; simpl; [done|].
  destruct (fs !! orig) as [v|]; [|by apply IH].
  destruct (wp.Included orig src (Depth opt)) as [nn ok].
  destruct ok; simpl; [|by apply IH].
  destruct (Move opt); apply IH.
  - by apply fs_wf_delete, fs_wf_insert.
  - by apply fs_wf_insert.
Qed.

Lemma fs_reachable_wf (fs : memfs.files) :
  memfs.fs_reachable fs -> memfs.fs_wf fs.
Proof.
  intros Hr. induction Hr as [now|fs op Hr IH].
  - intros k f. unfold memfs.NewMemFS.
    intros [<- <-]%lookup_singleton_Some. done.
  - destruct op as [now p|now p|p|p|now order src dst opt|now b k pos|now k
                   |set remove k]; simpl.
    + unfold memfs.Mkdir. destruct (memfs.Lookup p fs); [done|].
      destruct (memfs.internalLookup (memfs.parent p) fs); [|done].
      by apply fs_wf_insert.
    + unfold memfs.Create. destruct (memfs.Lookup p fs); [done|].
      destruct (memfs.internalLookup (memfs.parent p) fs); [|done].
      simpl. by apply fs_wf_insert.
    + unfold memfs.Remove. destruct (memfs.internalLookup p fs) as [f|]; [|done].
      destruct (memfs.IsDirectory f); [done|]. by apply fs_wf_delete.
    + unfold memfs.RecursiveRemove.
      destruct (memfs.internalLookup p fs) as [f|]; [|done].
      destruct (negb (memfs.IsDirectory f)); [done|].
      by apply fs_wf_removeSubtree.
    + unfold memfs.CopyTo. destruct (String.eqb src dst); [done|].
      destruct (memfs.internalLookup src fs) as [srcf|]; [|done].
      destruct (_ && _); [done|].
      destruct (memfs.internalLookup (memfs.parent dst) fs); [|done].
      destruct (memfs.internalLookup dst fs).
      * destruct (Overwrite opt); [|done]. simpl.
        by apply fs_wf_CopyTo_loop, fs_wf_removeSubtree.
      * simpl. by apply fs_wf_CopyTo_loop.
    + apply fs_wf_update; [|done]. intros f. unfold memfs.Write.
      by destruct (String.length b =? 0)%nat.
    + apply fs_wf_update; [|done]. intros f. unfold memfs.Truncate.
      by destruct (memfs.dir f).
    + by apply fs_wf_update.
Qed.


(** X18: in every state that the file system can reach by [Mkdir],
    [Create], [Remove], [RecursiveRemove], [CopyTo], and by writes,
    truncations and property patches of its files, the map holds every
    file under the path that the file itself records. *)
Theorem memfs_key_is_path (fs : memfs.files) k f :
  memfs.fs_reachable fs -> fs !! k = Some f -> memfs.path f = k.
Proof. intros Hr. by apply fs_reachable_wf. Qed.

(** X19: [Create] under a directory that exists makes an empty file that
    [Lookup] finds; a second [Create] is a conflict; [Remove] takes the
    file away again and leaves the file system as it was before. *)
Theorem Create_Remove_roundtrip (now : Z) (p : string) (fs : memfs.files) d :
  fs !! p = None -> fs !! memfs.parent p = Some d ->
  let f := memfs.newMemFile now p false in
  memfs.Create now p fs = (<[p := f]> fs, Ok f)
  /\ memfs.IsDirectory f = false /\ memfs.data f = Some ""
  /\ memfs.Lookup p (<[p := f]> fs) = Ok f
  /\ snd (memfs.Create now p (<[p := f]> fs)) = Err (DavError ErrorConflict)
  /\ memfs.Remove p (<[p := f]> fs) = (fs, None)
  /\ memfs.Lookup p fs = Err (DavError ErrorNotFound).
Proof.
  intros Hp Hd f.
  unfold memfs.Create, memfs.Remove, memfs.Lookup, memfs.internalLookup.
  rewrite Hp, Hd, lookup_insert_eq. simpl.
  repeat (split; [done|]). split; [|done].
  f_equal. rewrite delete_insert_eq. by apply delete_id.
Qed.

(** What [RecursiveRemove] leaves of a directory's tree: nothing. *)
Lemma RecursiveRemove_dir (p : string) (fs : memfs.files) f :
  memfs.fs_wf fs -> fs !! p = Some f -> memfs.dir f = true ->
  snd (memfs.RecursiveRemove p fs) = []
  /\ forall q, fst (memfs.RecursiveRemove p fs) !! q
               = if wp.InTree q p then None else fs !! q.
Proof.
  intros Hwf Hp Hd. unfold memfs.RecursiveRemove, memfs.internalLookup.
  rewrite Hp. unfold memfs.IsDirectory. rewrite Hd. simpl.
  split; [done|]. intros q. rewrite (Hwf _ _ Hp). unfold memfs.removeSubtree.
  destruct (wp.InTree q p) eqn:Hin.
  - apply map_lookup_filter_None. right. intros f' _. simpl. by rewrite Hin.
  - destruct (fs !! q) as [f'|] eqn:Hq.
    + by apply map_lookup_filter_Some.
    + apply map_lookup_filter_None. by left.
Qed.

(** X20: [RecursiveRemove] takes a directory away with every file of its
    tree and nothing else, and reports no error; for a path that is
    missing, and for a file that is no directory, it reports one error and
    removes nothing. *)
Theorem RecursiveRemove_spec (p : string) (fs : memfs.files) :
  memfs.fs_reachable fs ->
  match fs !! p with
  | None => memfs.RecursiveRemove p fs = (fs, [(p, DavError ErrorNotFound)])
  | Some f =>
      if memfs.dir f then
        snd (memfs.RecursiveRemove p fs) = []
        /\ forall q, fst (memfs.RecursiveRemove p fs) !! q
                     = if wp.InTree q p then None else fs !! q
      else memfs.RecursiveRemove p fs = (fs, [(p, DavError ErrorIsNotDir)])
  end.
Proof.
  intros Hr.
  pose proof (fs_reachable_wf _ Hr) as Hwf.
  destruct (fs !! p) as [f|] eqn:Hp.
  - destruct (memfs.dir f) eqn:Hd; [by apply (RecursiveRemove_dir p fs f)|].
    unfold memfs.RecursiveRemove, memfs.internalLookup, memfs.IsDirectory.
    rewrite Hp, Hd. simpl. by rewrite (Hwf _ _ Hp).
  - unfold memfs.RecursiveRemove, memfs.internalLookup. by rewrite Hp.
Qed.

(** ** Clean paths *)

Lemma Split_app_sep (a b : string) :
  GoStr.Split (a +:+ "/" +:+ b) "/" = (GoStr.Split a "/" ++ GoStr.Split b "/")%list.
Proof.
  induction a as [|c a IH].
  - change ("" +:+ "/" +:+ b) with (String "/" b). cbn [GoStr.Split].
    by rewrite Ascii.eqb_refl.
  - change (String c a +:+ "/" +:+ b) with (String c (a +:+ "/" +:+ b)).
    cbn [GoStr.Split]. rewrite IH. destruct (Ascii.eqb c "/"); [done|].
    pose proof (Split_nonempty a "/") as Hne.
    destruct (GoStr.Split a "/") as [|x xs]; [done|]. done.
Qed.

Lemma Split_Forall_noSlash (s : string) :
  Forall (fun e => GoPath.noSlash e = true) (GoStr.Split s "/").
Proof.
  induction s as [|c s IH]; cbn [GoStr.Split].
  - apply Forall_cons_2; [done|apply Forall_nil_2].
  - destruct (Ascii.eqb c "/") eqn:Hc.
    + apply Forall_cons_2; [done|exact IH].
    + destruct (GoStr.Split s "/") as [|x xs].
      * apply Forall_cons_2; [|apply Forall_nil_2]. simpl. by rewrite Hc.
      * apply Forall_cons_1 in IH as [Hx Hxs]. apply Forall_cons_2; [|done].
        simpl. by rewrite Hc.
Qed.

Lemma Join_cons (e : string) (es : list string) :
  es <> [] -> GoStr.Join (e :: es) "/" = e +:+ "/" +:+ GoStr.Join es "/".
Proof. by destruct es. Qed.

Lemma Split_Join (es : list string) :
  es <> [] -> Forall (fun e => GoPath.noSlash e = true) es ->
  GoStr.Split (GoStr.Join es "/") "/" = es.
Proof.
  induction es as [|e es IH]; [done|]. intros _ [He Hes]%Forall_cons_1.
  destruct es as [|e' es].
  - simpl. by apply Split_noSlash.
  - rewrite Join_cons by done. rewrite Split_app_sep, (Split_noSlash e He).
    by rewrite IH.
Qed.

Lemma cleanStep_kept rooted out dd e :
  GoPath.noSlash e = true -> Forall GoPath.kept out ->
  Forall GoPath.kept (fst (GoPath.cleanStep rooted (out, dd) e)).
Proof.
  intros He Hout. unfold GoPath.cleanStep.
  destruct (String.eqb e "") eqn:H1; [done|].
  destruct (String.eqb e ".") eqn:H2; [done|]. simpl.
  apply String.eqb_neq in H1, H2.
  destruct (String.eqb e "..") eqn:H3.
  - destruct (dd <? List.length out)%nat.
    + destruct out; [done|]. simpl. by apply Forall_cons_1 in Hout as [_ ?].
    + destruct rooted; [done|]. simpl. apply Forall_cons_2; [|done].
      by split.
  - simpl. apply Forall_cons_2; [|done]. by split.
Qed.

Lemma fold_cleanStep_kept rooted es out dd :
  Forall (fun e => GoPath.noSlash e = true) es -> Forall GoPath.kept out ->
  Forall GoPath.kept (fst (fold_left (GoPath.cleanStep rooted) es (out, dd))).
Proof.
  revert out dd. induction es as [|e es IH]; intros out dd Hes Hout; [done|].
  apply Forall_cons_1 in Hes as [He Hes]. cbn [fold_left].
  pose proof (cleanStep_kept rooted out dd e He Hout) as Hk.
  destruct (GoPath.cleanStep rooted (out, dd) e) as [out' dd'].
  by apply IH.
Qed.

(** With a rooted path, the scan keeps no [..]. *)
Lemma cleanStep_rooted out e :
  Forall (fun x => x <> "..") out ->
  exists out', GoPath.cleanStep true (out, O) e = (out', O)
               /\ Forall (fun x => x <> "..") out'.
Proof.
  intros Hout. unfold GoPath.cleanStep.
  destruct (String.eqb e "" || String.eqb e "."); [by eexists|].
  destruct (String.eqb e "..") eqn:H3.
  - destruct (0 <? List.length out)%nat; [|by eexists].
    eexists. split; [done|]. destruct out; [done|].
    by apply Forall_cons_1 in Hout as [_ ?].
  - apply String.eqb_neq in H3. eexists. split; [done|].
    by apply Forall_cons_2.
Qed.

Lemma fold_cleanStep_rooted es out :
  Forall (fun x => x <> "..") out ->
  exists out', fold_left (GoPath.cleanStep true) es (out, O) = (out', O)
               /\ Forall (fun x => x <> "..") out'.
Proof.
  revert out. induction es as [|e es IH]; intros out Hout; [by eexists|].
  cbn [fold_left]. destruct (cleanStep_rooted out e Hout) as (out1 & -> & H1).
  by apply IH.
Qed.

Lemma isElement_iff e :
  GoPath.isElement e = true <-> GoPath.kept e /\ e <> "..".
Proof.
  unfold GoPath.isElement, GoPath.kept. rewrite !andb_true_iff, !negb_true_iff.
  rewrite !String.eqb_neq. tauto.
Qed.

Lemma HasPrefix_slash (s : string) : GoStr.HasPrefix (String "/" s) "/" = true.
Proof.
  unfold GoStr.HasPrefix. cbn [String.prefix].
  destruct (ascii_dec "/" "/"); [by destruct s|done].
Qed.

Lemma Clean_rooted_canonical (p : string) :
  GoStr.HasPrefix p "/" = true -> GoPath.canonical (GoPath.Clean p).
Proof.
  intros Hr. unfold GoPath.Clean. destruct (String.eqb p "") eqn:Hp.
  { apply String.eqb_eq in Hp. by subst. }
  rewrite Hr.
  pose proof (fold_cleanStep_kept true (GoStr.Split p "/") [] O
                (Split_Forall_noSlash p) (Forall_nil_2 _)) as Hk.
  destruct (fold_cleanStep_rooted (GoStr.Split p "/") [] (Forall_nil_2 _))
    as (out & Hout & Hdd).
  rewrite Hout in *. simpl in Hk. simpl fst.
  exists (rev out). split; [done|].
  apply Forall_rev. rewrite Forall_forall in *. intros e He.
  apply isElement_iff. by split; [apply Hk|apply Hdd].
Qed.

Lemma fold_cleanStep_elements rooted es out dd :
  Forall (fun e => GoPath.isElement e = true) es ->
  fold_left (GoPath.cleanStep rooted) es (out, dd) = ((rev es ++ out)%list, dd).
Proof.
  revert out. induction es as [|e es IH]; intros out Hes; [done|].
  apply Forall_cons_1 in Hes as [He Hes]. cbn [fold_left].
  assert (GoPath.cleanStep rooted (out, dd) e = (e :: out, dd)) as ->.
  { unfold GoPath.isElement in He.
    apply andb_prop in He as [[[H1 H2]%andb_prop H3]%andb_prop _].
    apply negb_true_iff in H1, H2, H3.
    unfold GoPath.cleanStep. by rewrite H1, H2, H3. }
  rewrite IH by done. simpl. by rewrite <- app_assoc.
Qed.

Lemma isElement_noSlash es :
  Forall (fun e => GoPath.isElement e = true) es ->
  Forall (fun e => GoPath.noSlash e = true) es.
Proof.
  intros H. eapply Forall_impl; [exact H|]. intros e He.
  unfold GoPath.isElement in He. by apply andb_prop in He as [_ ?].
Qed.

(** [Clean] of slashes, path elements and more slashes. *)
Lemma Clean_elements (es : list string) (pre post : list string) :
  Forall (fun e => GoPath.isElement e = true) es ->
  Forall (fun e => e = "") pre -> Forall (fun e => e = "") post ->
  fst (fold_left (GoPath.cleanStep true) (pre ++ es ++ post)%list ([], O))
  = rev es.
Proof.
  intros Hes Hpre Hpost.
  assert (forall l out, Forall (fun e => e = "") l ->
            fold_left (GoPath.cleanStep true) l (out, O) = (out, O)) as Hskip.
  { induction l as [|e l IH]; intros out Hl; [done|].
    apply Forall_cons_1 in Hl as [-> Hl]. cbn [fold_left].
    change (GoPath.cleanStep true (out, O) "") with (out, O). by apply IH. }
  rewrite !fold_left_app, (Hskip pre) by done.
  rewrite fold_cleanStep_elements by done. rewrite (Hskip post) by done.
  simpl. by rewrite app_nil_r.
Qed.

Lemma Clean_canonical_form (es : list string) (tail : string) :
  Forall (fun e => GoPath.isElement e = true) es ->
  (tail = "" \/ tail = "/") ->
  GoPath.Clean (("/" +:+ GoStr.Join es "/") +:+ tail) = "/" +:+ GoStr.Join es "/".
Proof.
  intros Hes Htail.
  change (("/" +:+ GoStr.Join es "/") +:+ tail)
    with (String "/" (GoStr.Join es "/" +:+ tail)).
  unfold GoPath.Clean.
  change (String.eqb (String "/" (GoStr.Join es "/" +:+ tail)) "") with false.
  cbv iota. rewrite HasPrefix_slash.
  assert (exists pre post,
             GoStr.Split (String "/" (GoStr.Join es "/" +:+ tail)) "/"
             = (pre ++ es ++ post)%list
             /\ Forall (fun e => e = "") pre /\ Forall (fun e => e = "") post)
    as (pre & post & -> & Hpre & Hpost).
  { cbn [GoStr.Split]. rewrite Ascii.eqb_refl.
    destruct es as [|e es'] eqn:Hes'.
    - destruct Htail as [-> | ->].
      + exists [""; ""], []. simpl. repeat constructor.
      + exists [""; ""; ""], []. simpl. repeat constructor.
    - rewrite <- Hes' in *.
      assert (es <> []) as Hne by (by subst).
      destruct Htail as [-> | ->].
      + rewrite append_nil_r, Split_Join by (done || by apply isElement_noSlash).
        exists [""], []. rewrite app_nil_r. repeat constructor.
      + rewrite <- (append_nil_r (GoStr.Join es "/" +:+ "/")).
        rewrite append_assoc, Split_app_sep.
        rewrite Split_Join by (done || by apply isElement_noSlash).
        exists [""], [""]. simpl. repeat constructor. }
  rewrite Clean_elements by done. by rewrite rev_involutive.
Qed.

Lemma Join_kept_not_abs (es : list string) :
  Forall GoPath.kept es -> GoStr.HasPrefix (GoStr.Join es "/") "/" = false.
Proof.
  destruct es as [|e es]; [done|]. intros [(Hs & Hne & _) _]%Forall_cons_1.
  assert (exists rest, GoStr.Join (e :: es) "/" = e +:+ rest) as [rest ->].
  { destruct es; [exists ""; by rewrite append_nil_r|by eexists]. }
  destruct e as [|c e]; [done|]. cbn [GoPath.noSlash] in Hs.
  apply andb_prop in Hs as [Hc _]. apply negb_true_iff in Hc.
  change (String c e +:+ rest) with (String c (e +:+ rest)).
  unfold GoStr.HasPrefix. cbn [String.prefix].
  destruct (ascii_dec "/" c) as [<-|]; [|done].
  by rewrite Ascii.eqb_refl in Hc.
Qed.

Lemma Clean_abs_rooted (raw : string) :
  GoPath.IsAbs (GoPath.Clean raw) = true -> GoStr.HasPrefix raw "/" = true.
Proof.
  destruct (GoStr.HasPrefix raw "/") eqn:Hr; [done|].
  unfold GoPath.IsAbs, GoPath.Clean. destruct (String.eqb raw ""); [done|].
  rewrite Hr.
  pose proof (fold_cleanStep_kept false (GoStr.Split raw "/") [] O
                (Split_Forall_noSlash raw) (Forall_nil_2 _)) as Hk.
  apply Forall_rev in Hk. apply Join_kept_not_abs in Hk.
  destruct (String.eqb (GoStr.Join _ "/") ""); [done|]. by rewrite Hk.
Qed.

(** X21: [ForPath] of the in-memory file system is idempotent and keeps
    only rooted paths: a path that it returns starts with a slash, it
    returns that path for itself, also with a slash behind it. *)
Theorem ForPath_idempotent (raw q : string) (fs fs' : memfs.files) :
  memfs.ForPath raw fs = Ok q ->
  GoPath.IsAbs q = true
  /\ memfs.ForPath q fs' = Ok q
  /\ memfs.ForPath (q +:+ "/") fs' = Ok q.
Proof.
  unfold memfs.ForPath.
  destruct (GoPath.IsAbs (GoPath.Clean raw)) eqn:Habs; [|done].
  intros [= <-]. split; [done|].
  assert (GoPath.canonical (GoPath.Clean raw)) as (es & Hq & Hes).
  { by apply Clean_rooted_canonical, Clean_abs_rooted. }
  rewrite Hq.
  pose proof (Clean_canonical_form es "" Hes (or_introl eq_refl)) as H1.
  rewrite append_nil_r in H1. rewrite H1.
  rewrite (Clean_canonical_form es "/" Hes (or_intror eq_refl)).
  rewrite <- Hq, Habs. done.
Qed.

Lemma splitDir_noSlash (x : string) :
  GoPath.noSlash x = true -> GoPath.splitDir x = "".
Proof.
  induction x as [|c x IH]; [done|]. cbn [GoPath.noSlash GoPath.splitDir].
  intros [Hc Hx]%andb_prop. apply negb_true_iff in Hc.
  by rewrite Hc, (IH Hx).
Qed.

Lemma splitDir_app (a x : string) :
  GoPath.noSlash x = true -> GoPath.splitDir (a +:+ "/" +:+ x) = a +:+ "/".
Proof.
  intros Hx. induction a as [|c a IH].
  - change ("" +:+ "/" +:+ x) with (String "/" x). cbn [GoPath.splitDir].
    rewrite Ascii.eqb_refl. by rewrite splitDir_noSlash.
  - change (String c a +:+ "/" +:+ x) with (String c (a +:+ "/" +:+ x)).
    cbn [GoPath.splitDir]. rewrite IH.
    change (String c a +:+ "/") with (String c (a +:+ "/")).
    destruct (Ascii.eqb c "/"); [done|].
    destruct (a +:+ "/") eqn:Ha; [|done].
    apply (f_equal String.length) in Ha. rewrite length_app in Ha.
    simpl in Ha. lia.
Qed.

Lemma Join_snoc (es : list string) (x : string) :
  es <> [] -> GoStr.Join (es ++ [x]) "/" = GoStr.Join es "/" +:+ "/" +:+ x.
Proof.
  induction es as [|e es IH]; [congruence|]. intros _.
  destruct es as [|e' es]; [reflexivity|].
  change ((e :: e' :: es) ++ [x])%list with (e :: ((e' :: es) ++ [x]))%list.
  rewrite Join_cons by (simpl; discriminate). rewrite IH by done.
  rewrite (Join_cons e (e' :: es)) by done. by rewrite !append_assoc.
Qed.

Lemma HasSuffix_app_slash (b : string) : GoStr.HasSuffix (b +:+ "/") "/" = true.
Proof.
  unfold GoStr.HasSuffix. rewrite length_app.
  change (String.length "/") with 1%nat.
  rewrite Nat.add_sub, from_app, Nat.add_1_r. done.
Qed.

(** The child [x] of a canonical path. *)
Lemma canonical_child (es : list string) (x : string) :
  Forall (fun e => GoPath.isElement e = true) es ->
  GoPath.isElement x = true ->
  let q := "/" +:+ GoStr.Join es "/" in
  let child := "/" +:+ GoStr.Join (es ++ [x]) "/" in
  GoPath.Clean (q +:+ "/" +:+ x) = child
  /\ GoPath.Dir child = q
  /\ wp.InTree child q = true
  /\ child <> q.
Proof.
  intros Hes Hx q child.
  assert (Forall (fun e => GoPath.isElement e = true) (es ++ [x])) as Hesx.
  { apply Forall_app. split; [done|]. by apply Forall_cons_2. }
  assert (GoPath.noSlash x = true) as Hns.
  { unfold GoPath.isElement in Hx. by apply andb_prop in Hx as [_ ?]. }
  assert (x <> "") as Hxne.
  { unfold GoPath.isElement in Hx.
    apply andb_prop in Hx as [[[H1 _]%andb_prop _]%andb_prop _].
    apply negb_true_iff in H1. by apply String.eqb_neq in H1. }
  destruct (decide (es = [])) as [->|Hne].
  - subst q child. change (GoStr.Join [] "/") with "".
    change (GoStr.Join ([] ++ [x]) "/") with x.
    change ("/" +:+ "") with "/".
    change ("/" +:+ "/" +:+ x) with (String "/" (String "/" x)).
    change ("/" +:+ x) with (String "/" x).
    split; [|split; [|split]].
    + unfold GoPath.Clean.
      change (String.eqb (String "/" (String "/" x)) "") with false. cbv iota.
      rewrite HasPrefix_slash. cbn [GoStr.Split]. rewrite Ascii.eqb_refl.
      rewrite (Split_noSlash x Hns).
      change [""; ""; x] with ([""; ""] ++ [x] ++ [])%list.
      rewrite (Clean_elements [x] [""; ""] []); [done|by apply Forall_cons_2|..];
        repeat constructor.
    + unfold GoPath.Dir. change (String "/" x) with ("" +:+ "/" +:+ x).
      by rewrite splitDir_app.
    + change (String "/" x) with (("/" +:+ "") +:+ x).
      by apply InTree_intro; auto.
    + intros Heq. destruct x; [done|]. discriminate.
  - assert (child = q +:+ "/" +:+ x) as Hchild.
    { subst q child. rewrite Join_snoc by done. by rewrite !append_assoc. }
    split; [|split; [|split]].
    + rewrite <- Hchild. subst child.
      pose proof (Clean_canonical_form (es ++ [x]) "" Hesx (or_introl eq_refl))
        as H. by rewrite append_nil_r in H.
    + unfold GoPath.Dir. rewrite Hchild, splitDir_app by done.
      by apply Clean_canonical_form; auto.
    + rewrite Hchild, <- append_assoc. apply InTree_intro; [by right|].
      apply HasSuffix_app_slash.
    + rewrite Hchild. intros Heq. apply (f_equal String.length) in Heq.
      rewrite !length_app in Heq. simpl in Heq. lia.
Qed.

(** X22: below a path that [ForPath] returns, the name [x] gives the path
    of a child: [ForPath] returns it for the path, a slash and the name; its
    parent is the path, it lies in the tree of the path, and it is another
    path.  The parent of the root is the root. *)
Theorem ForPath_child (raw q x : string) (fs : memfs.files) :
  memfs.ForPath raw fs = Ok q -> GoPath.isElement x = true ->
  exists child,
    memfs.ForPath (q +:+ "/" +:+ x) fs = Ok child
    /\ memfs.parent child = q
    /\ wp.InTree child q = true
    /\ child <> q
    /\ memfs.parent "/" = "/".
Proof.
  unfold memfs.ForPath.
  destruct (GoPath.IsAbs (GoPath.Clean raw)) eqn:Habs; [|done].
  intros [= <-] Hx.
  destruct (Clean_rooted_canonical raw (Clean_abs_rooted raw Habs))
    as (es & Hq & Hes).
  destruct (canonical_child es x Hes Hx) as (H1 & H2 & H3 & H4).
  rewrite Hq. eexists. rewrite H1.
  change (GoPath.IsAbs ("/" +:+ GoStr.Join (es ++ [x]) "/"))
    with (GoStr.HasPrefix (String "/" (GoStr.Join (es ++ [x]) "/")) "/").
  rewrite HasPrefix_slash. simpl negb. cbv iota.
  split; [done|]. split; [exact H2|]. split; [exact H3|]. split; [exact H4|].
  done.
Qed.

(** *** Copies *)

Lemma Included_InTree (a b : string) (d : Z) :
  snd (wp.Included a b d) = true -> wp.InTree a b = true.
Proof.
  unfold wp.Included. destruct (String.eqb a b) eqn:Hab.
  - apply String.eqb_eq in Hab as ->. by rewrite InTree_self.
  - by destruct (wp.InTree a b).
Qed.

Lemma Join2_canonical (dst : string) :
  GoPath.canonical dst -> GoPath.Join2 dst "" = dst.
Proof.
  intros (es & -> & Hes). unfold GoPath.Join2.
  change (String.eqb ("/" +:+ GoStr.Join es "/") "") with false. cbv iota.
  change ("/" +:+ "") with "/". by apply Clean_canonical_form; auto.
Qed.

Lemma clone_fields (now : Z) (np : string) (f : memfs.memfile) :
  memfs.path (memfs.clone now np f) = np
  /\ memfs.dir (memfs.clone now np f) = memfs.dir f
  /\ memfs.p (memfs.clone now np f) = memfs.p f
  /\ (memfs.dir f = false ->
      memfs.data (memfs.clone now np f) = Some (default "" (memfs.data f))).
Proof.
  unfold memfs.clone. cbn. split; [done|]. split; [done|]. split.
  - apply (map_fold_weak_ind (fun r (m : gmap string string) => r = m)); [done|].
    intros k v m r _ ->. done.
  - by intros ->.
Qed.

Section CopySingle.

Context (now : Z) (src dst : string) (opt : CopyOptions) (fs : memfs.files)
        (f : memfs.memfile).
Hypothesis Hsrc : fs !! src = Some f.
Hypothesis Hleaf :
  forall k, is_Some (fs !! k) -> wp.InTree k src = true -> k = src.
Hypothesis Hne : src <> dst.
Hypothesis Hout : wp.InTree dst src = false.
Hypothesis Hcan : GoPath.canonical dst.

Local Abbreviation R :=
  (if Move opt then delete src (<[dst := memfs.set_path dst f]> fs)
   else <[dst := memfs.clone now dst f]> fs).

Lemma CopyTo_loop_skip (cur : memfs.files) (k : string) :
  k <> src -> (k = dst \/ is_Some (fs !! k)) ->
  snd (wp.Included k src (Depth opt)) = false.
Proof.
  intros Hk Hin. destruct (snd (wp.Included k src (Depth opt))) eqn:Hi; [|done].
  apply Included_InTree in Hi. destruct Hin as [->|Hin]; [congruence|].
  by specialize (Hleaf k Hin Hi).
Qed.

Lemma CopyTo_loop_done (order : list string) :
  memfs.CopyTo_loop now src dst opt order R = R.
Proof.
  induction order as [|orig order IH]; [done|]. cbn [memfs.CopyTo_loop].
  destruct (R !! orig) as [v|] eqn:Hv; [|done].
  destruct (decide (orig = src)) as [->|Hk].
  - destruct (Move opt).
    + by rewrite lookup_delete_eq in Hv.
    + rewrite lookup_insert_ne in Hv by done. rewrite Hsrc in Hv.
      injection Hv as <-. rewrite Included_self. cbn [negb].
      rewrite Join2_canonical by done. rewrite insert_insert_eq. exact IH.
  - assert (orig = dst \/ is_Some (fs !! orig)) as Hin.
    { destruct (decide (orig = dst)) as [|Hd]; [by left|right].
      destruct (Move opt).
      - rewrite lookup_delete_ne, lookup_insert_ne in Hv by done. by eexists.
      - rewrite lookup_insert_ne in Hv by done. by eexists. }
    pose proof (CopyTo_loop_skip R orig Hk Hin) as Hskip.
    destruct (wp.Included orig src (Depth opt)) as [nn ok]. simpl in Hskip.
    subst ok. exact IH.
Qed.

Lemma CopyTo_loop_single (order : list string) :
  src ∈ order -> memfs.CopyTo_loop now src dst opt order fs = R.
Proof.
  induction order as [|orig order IH]; intros Hin.
  { by apply elem_of_nil in Hin. }
  cbn [memfs.CopyTo_loop]. destruct (decide (orig = src)) as [->|Hk].
  - rewrite Hsrc, Included_self. cbn [negb].
    rewrite Join2_canonical by done.
    pose proof CopyTo_loop_done as Hdone.
    destruct (Move opt); apply Hdone.
  - apply elem_of_cons in Hin as [Heq|Hin]; [congruence|].
    destruct (fs !! orig) as [v|] eqn:Hv; [|by apply IH].
    pose proof (CopyTo_loop_skip fs orig Hk (or_intror (mk_is_Some _ _ Hv)))
      as Hskip.
    destruct (wp.Included orig src (Depth opt)) as [nn ok]. simpl in Hskip.
    subst ok. by apply IH.
Qed.

End CopySingle.

(** X23: [CopyTo] of a file without anything below it to a path that
    [ForPath] returns, that is free and whose parent exists: a copy puts a
    file with the same data and properties under the destination and
    leaves the source, a move puts the file itself there, with its path
    changed, and takes the source away; nothing else changes, and the
    answer is that a new resource was made. *)
Theorem CopyTo_single (now : Z) (order : memfs.files -> list string)
    (src dst raw : string) (opt : CopyOptions) (fs : memfs.files)
    (f d : memfs.memfile) :
  fs !! src = Some f ->
  (forall k, is_Some (fs !! k) -> wp.InTree k src = true -> k = src) ->
  src <> dst -> wp.InTree dst src = false ->
  memfs.ForPath raw fs = Ok dst ->
  fs !! dst = None -> fs !! memfs.parent dst = Some d ->
  src ∈ order fs ->
  memfs.dir f && Move opt && (0 <=? Depth opt) = false ->
  memfs.CopyTo now order src dst opt fs
  = (if Move opt then delete src (<[dst := memfs.set_path dst f]> fs)
     else <[dst := memfs.clone now dst f]> fs, Ok true)
  /\ memfs.p (memfs.clone now dst f) = memfs.p f
  /\ (memfs.dir f = false ->
      memfs.data (memfs.clone now dst f) = Some (default "" (memfs.data f))).
Proof.
  intros Hsrc Hleaf Hne Hout Hfor Hdst Hpar Hord Hdir.
  assert (GoPath.canonical dst) as Hcan.
  { unfold memfs.ForPath in Hfor.
    destruct (GoPath.IsAbs (GoPath.Clean raw)) eqn:Habs; [|done].
    injection Hfor as <-. by apply Clean_rooted_canonical, Clean_abs_rooted. }
  split; [|by destruct (clone_fields now dst f) as (_ & _ & ? & ?)].
  unfold memfs.CopyTo, memfs.internalLookup, memfs.IsDirectory.
  apply String.eqb_neq in Hne as Hne'. rewrite Hne', Hsrc, Hdir, Hpar, Hdst.
  f_equal. by apply CopyTo_loop_single.
Qed.

(** X24: a [CopyTo] that fails changes nothing.  It fails with status 403
    for a copy onto itself, 404 for a missing source, 405 for the move of a
    directory with a depth, 409 for a destination without parent and 412
    for a destination that exists and must not be overwritten, in that
    order. *)
Theorem CopyTo_failure (now : Z) (order : memfs.files -> list string)
    (src dst : string) (opt : CopyOptions) (fs : memfs.files) (e : error) :
  snd (memfs.CopyTo now order src dst opt fs) = Err e ->
  fst (memfs.CopyTo now order src dst opt fs) = fs
  /\ e = DavError
           (if String.eqb src dst then ErrorSameFile
            else match fs !! src with
                 | None => ErrorNotFound
                 | Some srcf =>
                     if memfs.dir srcf && Move opt && (0 <=? Depth opt)
                     then ErrorIsDir
                     else match fs !! memfs.parent dst with
                          | None => ErrorMissingParent
                          | Some _ => ErrorDestExists
                          end
                 end)
  /\ exists we, e = DavError we /\ HTTPCode we ∈ [403; 404; 405; 409; 412].
Proof.
  unfold memfs.CopyTo, memfs.internalLookup, memfs.IsDirectory.
  destruct (String.eqb src dst).
  { intros [= <-]. split; [done|]. split; [done|]. eexists. split; [done|].
    set_solver. }
  destruct (fs !! src) as [srcf|].
  2:{ intros [= <-]. split; [done|]. split; [done|]. eexists. split; [done|].
      set_solver. }
  destruct (memfs.dir srcf && Move opt && (0 <=? Depth opt)).
  { intros [= <-]. split; [done|]. split; [done|]. eexists. split; [done|].
    set_solver. }
  destruct (fs !! memfs.parent dst).
  2:{ intros [= <-]. split; [done|]. split; [done|]. eexists. split; [done|].
      set_solver. }
  destruct (fs !! dst); [|done]. destruct (Overwrite opt); [done|].
  intros [= <-]. split; [done|]. split; [done|]. eexists. split; [done|].
  set_solver.
Qed.

(** *** Subtrees and properties *)

Lemma NoDup_singleton_elems {A : Type} (l : list A) (a : A) :
  NoDup l -> (forall x, x ∈ l <-> x = a) -> l = [a].
Proof.
  intros Hnd Hl. destruct l as [|x l].
  - exfalso. eapply (not_elem_of_nil a). by apply Hl.
  - assert (x = a) as -> by (apply Hl; left).
    destruct l as [|y l]; [done|]. exfalso.
    assert (y = a) as -> by (apply Hl; right; left).
    apply NoDup_cons in Hnd as [Hnot _]. apply Hnot. left.
Qed.

(** [LookupSubtree] fails for a path that is missing; otherwise it
    returns, each once, the files of the map whose path is included in the
    path with the depth: with depth 0 that is the file of the path alone.  A lock covers a name, and a name is
    included, when the test [wp.Included] of the code says so. *)
Lemma LookupSubtree_spec (order : list string) (p : string) (depth : Z)
    (fs : memfs.files) :
  memfs.fs_reachable fs ->
  NoDup order -> (forall k, k ∈ order <-> is_Some (fs !! k)) ->
  match fs !! p with
  | None => memfs.LookupSubtree order p depth fs = Err (DavError ErrorNotFound)
  | Some f0 =>
      exists files,
        memfs.LookupSubtree order p depth fs = Ok files
        /\ NoDup files
        /\ (forall f, f ∈ files
                      <-> fs !! memfs.path f = Some f
                          /\ snd (wp.Included (memfs.path f) p depth) = true)
        /\ (depth = 0 -> files = [f0])
  end.
Proof.
  intros Hr Hnd Hord. pose proof (fs_reachable_wf _ Hr) as Hwf.
  unfold memfs.LookupSubtree, memfs.Lookup, memfs.internalLookup.
  destruct (fs !! p) as [f0|] eqn:Hp; [|done].
  set (pick := fun fn : string =>
                 match fs !! fn with
                 | Some f => if snd (wp.Included fn p depth) then Some f else None
                 | None => None
                 end).
  assert (forall f, f ∈ omap pick order
                    <-> fs !! memfs.path f = Some f
                        /\ snd (wp.Included (memfs.path f) p depth) = true)
    as Hmem.
  { intros f. rewrite list_elem_of_omap. split.
    - intros (k & Hk & Hpick). unfold pick in Hpick.
      destruct (fs !! k) as [f'|] eqn:Hf'; [|done].
      destruct (snd (wp.Included k p depth)) eqn:Hi; [|done].
      injection Hpick as ->. rewrite (Hwf _ _ Hf'). done.
    - intros [Hf Hi]. exists (memfs.path f). split.
      + apply Hord. by eexists.
      + unfold pick. by rewrite Hf, Hi. }
  assert (NoDup (omap pick order)) as Hnd'.
  { clear Hord Hmem. induction order as [|k order IH]; simpl; [constructor|].
    apply NoDup_cons in Hnd as [Hk Hnd]. specialize (IH Hnd).
    destruct (pick k) as [f|] eqn:Hpick; [|done].
    apply NoDup_cons. split; [|done]. rewrite list_elem_of_omap.
    intros (k' & Hk' & Hpick'). unfold pick in Hpick, Hpick'.
    destruct (fs !! k) as [g|] eqn:Hg; [|done].
    destruct (snd (wp.Included k p depth)); [|done]. injection Hpick as <-.
    destruct (fs !! k') as [g'|] eqn:Hg'; [|done].
    destruct (snd (wp.Included k' p depth)); [|done]. injection Hpick' as ->.
    assert (k' = k) as ->.
    { by rewrite <- (Hwf _ _ Hg), <- (Hwf _ _ Hg'). }
    done. }
  eexists. split; [done|]. split; [done|]. split; [done|].
  intros ->. apply NoDup_singleton_elems; [done|]. intros f. rewrite Hmem.
  rewrite Included_depth0. split.
  - intros [Hf Heq]. apply String.eqb_eq in Heq. rewrite Heq in Hf. congruence.
  - intros ->. rewrite (Hwf _ _ Hp). split; [done|]. apply String.eqb_refl.
Qed.

Lemma map_fold_insert_lookup (b m : gmap string string) (k : string) :
  map_fold (fun k v acc => <[k := v]> acc) b m !! k
  = match m !! k with Some v => Some v | None => b !! k end.
Proof.
  apply (map_fold_weak_ind
           (fun r (m : gmap string string) =>
              r !! k = match m !! k with Some v => Some v | None => b !! k end)).
  - by rewrite lookup_empty.
  - intros i x m' r Hi IH. destruct (decide (k = i)) as [->|Hne].
    + by rewrite !lookup_insert_eq.
    + by rewrite !lookup_insert_ne.
Qed.

Lemma map_fold_delete_lookup (b m : gmap string string) (k : string) :
  map_fold (fun k (_ : string) acc => delete k acc) b m !! k
  = match m !! k with Some _ => None | None => b !! k end.
Proof.
  apply (map_fold_weak_ind
           (fun r (m : gmap string string) =>
              r !! k = match m !! k with Some _ => None | None => b !! k end)).
  - by rewrite lookup_empty.
  - intros i x m' r Hi IH. destruct (decide (k = i)) as [->|Hne].
    + by rewrite lookup_delete_eq, lookup_insert_eq.
    + by rewrite lookup_delete_ne, lookup_insert_ne.
Qed.

(** X26: after [PatchProp], [GetProp] finds no property that the patch
    removes, also when the patch sets it; it finds the new value of a
    property that the patch sets and does not remove; and it finds every
    other property as before.  The file is otherwise the same. *)
Theorem PatchProp_GetProp (set remove : gmap string string)
    (f : memfs.memfile) (k : string) :
  memfs.GetProp k (memfs.PatchProp set remove f)
  = match remove !! k, set !! k with
    | Some _, _ => ("", false)
    | None, Some v => (v, true)
    | None, None => memfs.GetProp k f
    end
  /\ memfs.path (memfs.PatchProp set remove f) = memfs.path f
  /\ memfs.data (memfs.PatchProp set remove f) = memfs.data f
  /\ memfs.dir (memfs.PatchProp set remove f) = memfs.dir f.
Proof.
  split; [|done]. unfold memfs.GetProp, memfs.PatchProp. cbn [memfs.p].
  rewrite map_fold_delete_lookup, map_fold_insert_lookup.
  destruct (remove !! k); [done|]. destruct (set !! k); [|done].
  simpl. by f_equal.
Qed.

(** ** The dispatcher on the in-memory file system *)

(** X27: a DELETE of a directory of the in-memory file system that the
    lock manager lets pass removes the directory with every file of its
    tree, leaves every other file, and answers with status 204. *)
Theorem delete_collection (rt : Runtime) (ctx : context) (r : http.Request)
    (s : WebDAV) (w : http.ResponseWriter) (f : memfs.memfile) :
  memfs.fs_reachable (fs s) ->
  snd (checkCanWrite rt (ctx_cond ctx) (ctx_p ctx) (lm s)) = true ->
  fs s !! ctx_p ctx = Some f -> memfs.dir f = true ->
  http.wroteHeader w = None ->
  let out := doDelete memBackend sampleLib rt ctx r s w in
  http.status (snd out) = 204
  /\ forall q, fs (fst out) !! q
               = if wp.InTree q (ctx_p ctx) then None else fs s !! q.
Proof.
  intros Hr Hok Hp Hd Hw out. subst out.
  destruct (RecursiveRemove_dir (ctx_p ctx) (fs s) f (fs_reachable_wf _ Hr) Hp Hd)
    as [Herrs Hleft].
  unfold doDelete. cbn [path_String path_Lookup path_RecursiveRemove
                        file_IsDirectory memBackend id].
  destruct (checkCanWrite rt (ctx_cond ctx) (ctx_p ctx) (lm s)) as [locks ok].
  simpl in Hok. subst ok. cbn [negb set_lm fs lm].
  unfold memfs.Lookup, memfs.internalLookup. rewrite Hp.
  unfold memfs.IsDirectory. rewrite Hd. cbn [negb].
  destruct (memfs.RecursiveRemove (ctx_p ctx) (fs s)) as [fs' errs].
  simpl in Herrs, Hleft. subst errs. cbn [fst snd set_fs fs].
  split; [|done]. unfold http.status, http.WriteHeader. by rewrite Hw.
Qed.

Lemma from_length (s : string) : GoStr.from (String.length s) s = "".
Proof. rewrite <- (append_nil_r s) at 2. apply from_app. Qed.

(** A write at the end of the data appends. *)
Lemma Write_append (now : Z) (b d0 : string) (h : memfs.memfileh) :
  b <> "" -> memfs.data (memfs.hf h) = Some d0 ->
  memfs.hpos h = Z.of_nat (String.length d0) ->
  memfs.Write now b h
  = ({| memfs.hf := memfs.set_data now (d0 +:+ b) (memfs.hf h);
        memfs.hpos := Z.of_nat (String.length (d0 +:+ b)) |},
     (Z.of_nat (String.length b), None)).
Proof.
  intros Hb Hd Hpos. unfold memfs.Write.
  destruct (String.length b =? 0)%nat eqn:Hlen.
  { apply Nat.eqb_eq in Hlen. by destruct b. }
  apply Nat.eqb_neq in Hlen.
  rewrite Hd, Hpos, Nat2Z.id. cbn [from_option id].
  replace (String.length d0 <? String.length d0 + String.length b)%nat
    with true by (symmetry; apply Nat.ltb_lt; lia).
  replace (String.length d0 + String.length b - String.length d0)%nat
    with (String.length b) by lia.
  rewrite take_app.
  replace (String.length d0 + String.length b)%nat
    with (String.length (d0 +:+ memfs.zeros (String.length b)))
    by (by rewrite length_app, length_zeros).
  rewrite from_length, append_nil_r.
  by rewrite !length_app, length_zeros.
Qed.

Lemma concat_cons (b : string) (cs : list string) :
  String.concat "" (b :: cs) = b +:+ String.concat "" cs.
Proof. destruct cs; simpl; [by rewrite append_nil_r|done]. Qed.

(** The copy of a body into a file of the map, from the end of its data
    on. *)
Lemma io_Copy_mem (ck : string -> list string) (chunks : list string)
    (h : memfs.memfileh) (fs : memfs.files) (d0 : string) :
  fs !! memfs.path (memfs.hf h) = Some (memfs.hf h) ->
  memfs.data (memfs.hf h) = Some d0 ->
  memfs.hpos h = Z.of_nat (String.length d0) ->
  exists f',
    io_Copy (memIO ck) chunks h fs = (<[memfs.path (memfs.hf h) := f']> fs, None)
    /\ memfs.data f' = Some (d0 +:+ String.concat "" chunks)
    /\ memfs.path f' = memfs.path (memfs.hf h)
    /\ memfs.dir f' = memfs.dir (memfs.hf h)
    /\ memfs.p f' = memfs.p (memfs.hf h).
Proof.
  revert h fs d0. induction chunks as [|b chunks IH]; intros h fs d0 Hin Hd Hpos.
  - exists (memfs.hf h). simpl. rewrite insert_id by done.
    by rewrite append_nil_r.
  - rewrite concat_cons. cbn [io_Copy].
    destruct (String.length b =? 0)%nat eqn:Hlen.
    { apply Nat.eqb_eq in Hlen. destruct b; [|done]. by apply IH. }
    assert (b <> "") as Hb by (by intros ->).
    cbn [io_Write memIO]. unfold memWrite.
    rewrite (Write_append 0 b d0 h Hb Hd Hpos).
    unfold memfs.update. rewrite Hin. rewrite Z.eqb_refl. cbn [negb].
    set (h' := {| memfs.hf := memfs.set_data 0 (d0 +:+ b) (memfs.hf h);
                  memfs.hpos := Z.of_nat (String.length (d0 +:+ b)) |}).
    destruct (IH h' (<[memfs.path (memfs.hf h) := memfs.hf h']> fs) (d0 +:+ b))
      as (f' & Hrun & Hdata & Hpath & Hdir & Hp); [|done|done|].
    { apply lookup_insert_eq. }
    exists f'. rewrite Hrun. unfold h'. cbn [memfs.hf memfs.set_data memfs.path].
    rewrite insert_insert_eq. split; [done|].
    rewrite Hdata, append_assoc. done.
Qed.

(** X28: a PUT on the in-memory file system that the lock manager lets
    pass stores the body of the request, in whatever pieces it arrives: for
    a path that is free and whose parent exists it makes a file with the
    body as data and answers 201; for a file it replaces the data, keeps
    the properties, and answers 204; for a directory it answers 405 and
    for a path without parent 409, and changes nothing. *)
Theorem put_stores_body (chunks : string -> list string) (rt : Runtime)
    (ctx : context) (r : http.Request) (s : WebDAV) (w : http.ResponseWriter) :
  memfs.fs_reachable (fs s) ->
  snd (checkCanWrite rt (ctx_cond ctx) (ctx_p ctx) (lm s)) = true ->
  String.concat "" (chunks (http.Body r)) = http.Body r ->
  http.wroteHeader w = None ->
  let out := doPut memBackend (memIO chunks) rt ctx r s w in
  let stored (f' : memfs.memfile) :=
    fs (fst out) = <[ctx_p ctx := f']> (fs s)
    /\ memfs.data f' = Some (http.Body r)
    /\ memfs.dir f' = false /\ memfs.path f' = ctx_p ctx in
  match fs s !! ctx_p ctx with
  | Some f =>
      if memfs.dir f
      then http.status (snd out) = 405 /\ fs (fst out) = fs s
      else http.status (snd out) = 204
           /\ exists f', stored f' /\ memfs.p f' = memfs.p f
  | None =>
      match fs s !! memfs.parent (ctx_p ctx) with
      | Some _ => http.status (snd out) = 201 /\ exists f', stored f'
      | None => http.status (snd out) = 409 /\ fs (fst out) = fs s
      end
  end.
Proof.
  intros Hr Hok Hbody Hw out stored. subst out stored.
  pose proof (fs_reachable_wf _ Hr) as Hwf.
  unfold doPut. cbn [path_String path_Lookup file_IsDirectory memBackend id].
  destruct (checkCanWrite rt (ctx_cond ctx) (ctx_p ctx) (lm s)) as [locks ok].
  simpl in Hok. subst ok. cbn [negb set_lm fs lm].
  unfold memfs.Lookup, memfs.internalLookup.
  destruct (fs s !! ctx_p ctx) as [f|] eqn:Hp.
  - unfold memfs.IsDirectory. destruct (memfs.dir f) eqn:Hd.
    { cbn [fst snd]. split; [|done]. by rewrite errorHeader_status. }
    cbn [io_Truncate memIO]. unfold memTruncate, memfs.Truncate. rewrite Hd.
    rewrite (Hwf _ _ Hp). unfold memfs.update. rewrite Hp.
    cbn [memfs.hf set_fs fs lm].
    set (h := {| memfs.hf := memfs.set_data 0 "" f; memfs.hpos := 0 |}).
    destruct (io_Copy_mem chunks (chunks (http.Body r)) h
                (<[ctx_p ctx := memfs.set_data 0 "" f]> (fs s)) "")
      as (f' & Hrun & Hdata & Hpath & Hdir & Hprops); [|done|done|].
    { unfold h. cbn [memfs.hf memfs.set_data memfs.path].
      rewrite (Hwf _ _ Hp). apply lookup_insert_eq. }
    unfold h in Hrun, Hpath, Hdir, Hprops.
    cbn [memfs.hf memfs.set_data memfs.path memfs.dir memfs.p] in *.
    rewrite (Hwf _ _ Hp) in Hrun, Hpath. cbn [io_chunks memIO].
    fold h. unfold h. rewrite Hrun. cbn [set_fs fs lm fst snd].
    split; [unfold http.status, http.WriteHeader; by rewrite Hw|].
    exists f'. rewrite insert_insert_eq. rewrite Hdata.
    change ("" +:+ String.concat "" (chunks (http.Body r)))
      with (String.concat "" (chunks (http.Body r))).
    rewrite Hbody, Hdir, Hd. done.
  - cbn [io_Create memIO]. unfold memfs.CreateOpen, memfs.Lookup,
      memfs.internalLookup. rewrite Hp.
    destruct (fs s !! memfs.parent (ctx_p ctx)) as [d|] eqn:Hpar.
    2:{ cbn [set_fs fs lm fst snd]. split; [|done].
        by rewrite errorHeader_status. }
    unfold memfs.OpenHandle, memfs.Open, memfs.newMemFile.
    cbn [memfs.dir memfs.data negb set_fs fs lm].
    set (f0 := {| memfs.dir := false; memfs.path := ctx_p ctx;
                  memfs.i := {| Created := 0; LastModified := 0; Size := 0 |};
                  memfs.data := Some ""; memfs.p := ∅ |}).
    set (h := {| memfs.hf := f0; memfs.hpos := 0 |}).
    destruct (io_Copy_mem chunks (chunks (http.Body r)) h
                (<[ctx_p ctx := f0]> (fs s)) "")
      as (f' & Hrun & Hdata & Hpath & Hdir & Hprops); [|done|done|].
    { apply lookup_insert_eq. }
    cbn [io_chunks memIO]. cbn [memfs.hf memfs.path h f0] in Hrun, Hpath, Hdir.
    rewrite Hrun. cbn [set_fs fs lm fst snd].
    split; [unfold http.status, http.WriteHeader; by rewrite Hw|].
    exists f'. rewrite insert_insert_eq. rewrite Hdata.
    change ("" +:+ String.concat "" (chunks (http.Body r)))
      with (String.concat "" (chunks (http.Body r))).
    rewrite Hbody. done.
Qed.


(** ** Names of XML elements *)

Lemma cutLast_Some (s a b : string) :
  x.cutLast s = Some (a, b) -> s = a +:+ ":" +:+ b /\ x.cutLast b = None.
Proof.
  revert a b. induction s as [|c s IH]; intros a b; [done|].
  cbn [x.cutLast]. destruct (x.cutLast s) as [[a' b']|] eqn:Hs.
  - intros [= <- <-]. destruct (IH a' b' eq_refl) as [-> Hb]. done.
  - destruct (Ascii.eqb c ":") eqn:Hc; [|done]. intros [= <- <-].
    apply Ascii.eqb_eq in Hc as ->. done.
Qed.

Lemma cutLast_app (a b : string) :
  x.cutLast b = None -> x.cutLast (a +:+ ":" +:+ b) = Some (a, b).
Proof.
  intros Hb. induction a as [|c a IH].
  - change ("" +:+ ":" +:+ b) with (String ":" b). cbn [x.cutLast].
    by rewrite Hb.
  - change (String c a +:+ ":" +:+ b) with (String c (a +:+ ":" +:+ b)).
    cbn [x.cutLast]. by rewrite IH.
Qed.

(** X30: [s2x] cuts a name at its last colon, and [x2s] puts the two parts
    together again: [x2s (s2x s)] is [s] for a name with a colon, and [s]
    behind a colon for a name without; [s2x (x2s n)] is [n] when the local
    part of [n] has no colon. *)
Theorem s2x_x2s (s : string) (n : x.Name) :
  x.x2s (x.s2x s)
  = match x.cutLast s with Some _ => s | None => ":" +:+ s end
  /\ x.cutLast (x.Local (x.s2x s)) = None
  /\ (x.cutLast (x.Local n) = None -> x.s2x (x.x2s n) = n).
Proof.
  unfold x.s2x, x.x2s. split; [|split].
  - destruct (x.cutLast s) as [[a b]|] eqn:Hs; [|done].
    by apply cutLast_Some in Hs as [-> _].
  - destruct (x.cutLast s) as [[a b]|] eqn:Hs; [|done].
    by apply cutLast_Some in Hs as [_ ?].
  - intros Hn. rewrite cutLast_app by done. by destruct n.
Qed.

(** ** Printing and parsing an If header *)

Lemma byte_range (c : ascii) : 0 <= Utf8.byte c < 256.
Proof.
  unfold Utf8.byte. pose proof (nat_ascii_bounded c). lia.
Qed.

Lemma chr_byte (c : ascii) : Utf8.chr (Utf8.byte c) = c.
Proof.
  unfold Utf8.chr, Utf8.byte. rewrite Nat2Z.id. apply ascii_nat_embedding.
Qed.

Lemma byte_inj (a b : ascii) : Utf8.byte a = Utf8.byte b -> a = b.
Proof. intros H. by rewrite <- (chr_byte a), <- (chr_byte b), H. Qed.

Lemma list_ascii_app (a b : string) :
  list_ascii_of_string (a +:+ b)
  = (list_ascii_of_string a ++ list_ascii_of_string b)%list.
Proof.
  induction a as [|c a IH]; [done|].
  change (String c a +:+ b) with (String c (a +:+ b)). simpl. by rewrite IH.
Qed.

Lemma chars_app (a b : string) :
  cond.chars (a +:+ b) = (cond.chars a ++ cond.chars b)%list.
Proof. unfold cond.chars. by rewrite list_ascii_app, map_app. Qed.

Lemma isASCII_app (a b : string) :
  cond.isASCII (a +:+ b) = cond.isASCII a && cond.isASCII b.
Proof. unfold cond.isASCII. by rewrite list_ascii_app, forallb_app. Qed.

Lemma decode_ascii (s : string) :
  cond.isASCII s = true -> Utf8.decode s = cond.chars s.
Proof.
  unfold cond.isASCII, cond.chars.
  induction s as [|c s IH]; [done|]. cbn [list_ascii_of_string forallb map].
  intros [Hc Hs]%andb_prop. cbn [Utf8.decode]. cbv zeta. rewrite Hc.
  by rewrite IH.
Qed.

Lemma tokenText_byte (c : ascii) :
  Utf8.byte c < 128 -> cond.tokenText (Utf8.byte c) = String c "".
Proof.
  intros Hc. pose proof (byte_range c) as Hr. unfold cond.tokenText, cond.Not.
  replace (Utf8.byte c =? -2) with false by lia.
  unfold Utf8.encode.
  replace ((0 <=? Utf8.byte c) && (Utf8.byte c <=? 127)) with true.
  - unfold Utf8.str. simpl. by rewrite chr_byte.
  - symmetry. apply andb_true_iff. lia.
Qed.

(** *** The lexer on the runes that it has not read *)

Lemma nth_drop {A : Type} (n k : nat) (l : list A) (d : A) :
  nth k (drop n l) d = nth (n + k) l d.
Proof.
  revert l. induction n as [|n IH]; intros l; [done|].
  destruct l as [|a l]; simpl; [by destruct k|]. apply IH.
Qed.

Lemma lex_at_length (l : cond.lex) (rs : list Utf8.rune) :
  cond.lex_at l rs -> Z.of_nat (List.length rs) = cond.len l - cond.pos l - 1.
Proof.
  intros (H1 & H2 & <-). unfold cond.remaining. rewrite length_drop.
  unfold cond.len in *. lia.
Qed.

Lemma p_at (l : cond.lex) (rs : list Utf8.rune) (k : nat) :
  cond.lex_at l rs -> cond.p l (Z.of_nat (S k)) = nth k rs cond.EOF.
Proof.
  intros Hat. pose proof (lex_at_length l rs Hat) as Hlen.
  destruct Hat as (H1 & H2 & <-). unfold cond.p.
  destruct ((cond.pos l + Z.of_nat (S k) <? 0)
            || (cond.len l <=? cond.pos l + Z.of_nat (S k))) eqn:Hc.
  - apply orb_true_iff in Hc as [Hc%Z.ltb_lt|Hc%Z.leb_le]; [exfalso; lia|].
    symmetry. apply nth_overflow. lia.
  - apply orb_false_iff in Hc as [_ Hc%Z.leb_gt]. unfold cond.remaining.
    rewrite nth_drop. f_equal. lia.
Qed.

Lemma advance_at (l : cond.lex) (rs : list Utf8.rune) (k : nat) :
  cond.lex_at l rs -> (k <= List.length rs)%nat ->
  cond.lex_at (cond.advance l (Z.of_nat k)) (drop k rs)
  /\ cond.last (cond.advance l (Z.of_nat k)) = cond.last l.
Proof.
  intros Hat Hk. pose proof (lex_at_length l rs Hat) as Hlen.
  destruct Hat as (H1 & H2 & <-). split; [|done].
  unfold cond.lex_at, cond.remaining, cond.advance, cond.len in *. simpl.
  split; [lia|]. split; [lia|]. rewrite drop_drop. f_equal. lia.
Qed.

Lemma skipWhitespace_loop_at (fuel : nat) (l : cond.lex)
    (ws rs : list Utf8.rune) :
  cond.lex_at l (ws ++ rs) -> cond.spaces ws -> cond.stops rs ->
  (List.length ws <= fuel)%nat ->
  cond.lex_at (cond.skipWhitespace_loop fuel l) rs
  /\ cond.last (cond.skipWhitespace_loop fuel l) = cond.last l.
Proof.
  revert l ws. induction fuel as [|fuel IH]; intros l ws Hat Hws Hrs Hfuel.
  - destruct ws; [done|simpl in Hfuel; lia].
  - cbn [cond.skipWhitespace_loop].
    change 1 with (Z.of_nat 1). rewrite (p_at l _ O Hat).
    destruct ws as [|w ws].
    + simpl. destruct rs as [|c rs]; simpl in *; [done|]. by rewrite Hrs.
    + apply Forall_cons_1 in Hws as [Hw Hws]. simpl. rewrite Hw.
      destruct (advance_at l _ 1 Hat) as [Hat' Hlast]; [simpl; lia|].
      simpl in Hat'. rewrite drop_0 in Hat'. simpl in Hfuel.
      destruct (IH _ ws Hat' Hws Hrs) as [H1 H2]; [lia|].
      split; [done|]. by rewrite H2.
Qed.

Lemma skipWhitespace_at (l : cond.lex) (ws rs : list Utf8.rune) :
  cond.lex_at l (ws ++ rs) -> cond.spaces ws -> cond.stops rs ->
  cond.lex_at (cond.skipWhitespace l) rs
  /\ cond.last (cond.skipWhitespace l) = cond.last l.
Proof.
  intros Hat Hws Hrs. unfold cond.skipWhitespace.
  apply (skipWhitespace_loop_at _ l ws rs Hat Hws Hrs).
  pose proof (lex_at_length _ _ Hat) as Hlen. rewrite List.length_app in Hlen. lia.
Qed.

Lemma peek_at (l : cond.lex) (ws rs : list Utf8.rune) :
  cond.lex_at l (ws ++ rs) -> cond.spaces ws -> cond.stops rs ->
  exists l', cond.peek l = (l', cond.first_token rs)
             /\ cond.lex_at l' rs /\ cond.last l' = cond.first_token rs.
Proof.
  intros Hat Hws Hrs. destruct (skipWhitespace_at l ws rs Hat Hws Hrs) as [H1 _].
  unfold cond.peek.
  change 1 with (Z.of_nat 1). change 2 with (Z.of_nat 2).
  change 3 with (Z.of_nat 3). rewrite !(p_at _ rs _ H1).
  assert ((if (nth 0 rs cond.EOF =? 78) && (nth 1 rs cond.EOF =? 111)
              && (nth 2 rs cond.EOF =? 116)
           then cond.Not else nth 0 rs cond.EOF) = cond.first_token rs) as ->.
  { destruct rs as [|c rs']; [done|]. done. }
  eexists. split; [done|]. split; [|done].
  destruct H1 as (Ha & Hb & Hc). done.
Qed.

Lemma consume_at (l : cond.lex) (rs : list Utf8.rune) :
  cond.lex_at l rs -> cond.last l <> cond.Not -> cond.last l <> cond.EOF ->
  rs <> [] ->
  cond.lex_at (cond.consume l) (drop 1 rs)
  /\ cond.last (cond.consume l) = cond.last l.
Proof.
  intros Hat Hn He Hrs. unfold cond.consume.
  replace (cond.last l =? cond.Not) with false by lia.
  replace (cond.last l =? cond.EOF) with false by lia. simpl.
  apply (advance_at l rs 1 Hat). destruct rs; [done|simpl; lia].
Qed.

Lemma consume_Not_at (l : cond.lex) (rs : list Utf8.rune) :
  cond.lex_at l rs -> cond.last l = cond.Not -> (3 <= List.length rs)%nat ->
  cond.lex_at (cond.consume l) (drop 3 rs)
  /\ cond.last (cond.consume l) = cond.Not.
Proof.
  intros Hat Hn Hrs. unfold cond.consume. rewrite Hn. simpl.
  destruct (advance_at l rs 3 Hat Hrs) as [H1 H2]. split; [done|].
  by rewrite <- Hn.
Qed.

Lemma consumeIf_loop_at (acc : Utf8.rune -> bool) (tok : list ascii) :
  forall (fuel : nat) (l : cond.lex) (res : string) (d : Utf8.rune)
         (more : list Utf8.rune),
  cond.lex_at l (map Utf8.byte tok ++ d :: more) ->
  cond.last l <> cond.Not -> cond.last l <> cond.EOF ->
  Forall (fun a => Utf8.byte a < 128 /\ acc (Utf8.byte a) = true) tok ->
  acc d = false -> d <> cond.EOF ->
  (List.length tok < fuel)%nat ->
  exists l',
    cond.consumeIf_loop fuel acc l res
    = Some (l', (res +:+ string_of_list_ascii tok, None))
    /\ cond.lex_at l' (d :: more) /\ cond.last l' = cond.last l.
Proof.
  induction tok as [|a tok IH]; intros fuel l res d more Hat Hn He Hok Hd HdE Hf;
    (destruct fuel as [|fuel]; [simpl in Hf; lia|]);
    cbn [cond.consumeIf_loop]; cbv zeta;
    change 1 with (Z.of_nat 1); rewrite (p_at l _ O Hat); simpl nth.
  - replace (d =? cond.EOF) with false by (symmetry; apply Z.eqb_neq; done).
    rewrite Hd. simpl. rewrite append_nil_r. by exists l.
  - apply Forall_cons_1 in Hok as [[Ha Hacc] Hok].
    pose proof (byte_range a) as Hr.
    replace (Utf8.byte a =? cond.EOF) with false
      by (symmetry; apply Z.eqb_neq; unfold cond.EOF; lia).
    rewrite Hacc. cbn [negb]. rewrite (tokenText_byte a Ha).
    destruct (consume_at l _ Hat Hn He) as [Hat' Hlast]; [done|].
    simpl in Hat'. rewrite drop_0 in Hat'.
    destruct (IH fuel (cond.consume l) (res +:+ String a "") d more Hat')
      as (l' & Heq & Hat'' & Hlast'); try done.
    { by rewrite Hlast. } { by rewrite Hlast. } { simpl in Hf. lia. }
    exists l'. rewrite Heq. split; [|split; [done|by rewrite Hlast', Hlast]].
    by rewrite append_assoc.
Qed.

Lemma consumeIf_at (acc : Utf8.rune -> bool) (s : string) (l : cond.lex)
    (d : Utf8.rune) (more : list Utf8.rune) :
  cond.lex_at l (cond.chars s ++ d :: more) ->
  cond.last l <> cond.Not -> cond.last l <> cond.EOF ->
  cond.isASCII s = true ->
  forallb (fun a => acc (Utf8.byte a)) (list_ascii_of_string s) = true ->
  acc d = false -> d <> cond.EOF ->
  exists l',
    cond.consumeIf acc l = Some (l', (s, None))
    /\ cond.lex_at l' (d :: more) /\ cond.last l' = cond.last l.
Proof.
  intros Hat Hn He Hs Hacc Hd HdE. unfold cond.consumeIf.
  destruct (consumeIf_loop_at acc (list_ascii_of_string s)
              (S (Z.to_nat (cond.len l - cond.pos l))) l "" d more Hat Hn He)
    as (l' & Heq & Hat' & Hlast); [|done|done| |].
  - apply Forall_forall. intros a Ha.
    unfold cond.isASCII in Hs. rewrite forallb_forall in Hs, Hacc.
    apply list_elem_of_In in Ha. split; [|by apply Hacc].
    apply Z.ltb_lt. by apply Hs.
  - pose proof (lex_at_length _ _ Hat) as Hlen.
    rewrite List.length_app in Hlen. unfold cond.chars in Hlen.
    rewrite length_map in Hlen. simpl in Hlen. lia.
  - exists l'. rewrite Heq. change ("" +:+ ?x) with x.
    by rewrite string_of_list_ascii_of_string.
Qed.

Lemma lacks_forallb (r : Utf8.rune) (s : string) :
  cond.lacks r s = true ->
  forallb (fun a => negb (Utf8.byte a =? r)) (list_ascii_of_string s) = true.
Proof. done. Qed.

Lemma consumeUntil_at (stop : Utf8.rune) (s : string) (l : cond.lex)
    (more : list Utf8.rune) :
  cond.lex_at l (cond.chars s ++ stop :: more) ->
  cond.last l <> cond.Not -> cond.last l <> cond.EOF -> stop <> cond.EOF ->
  cond.isASCII s = true -> cond.lacks stop s = true ->
  exists l',
    cond.consumeUntil stop l = Some (l', (s, None))
    /\ cond.lex_at l' more /\ cond.last l' = cond.last l.
Proof.
  intros Hat Hn He Hstop Hs Hl. unfold cond.consumeUntil.
  destruct (consumeIf_at (fun r => negb (r =? stop)) s l stop more Hat Hn He Hs)
    as (l' & -> & Hat' & Hlast); [done| |done|].
  { by rewrite Z.eqb_refl. }
  destruct (consume_at l' _ Hat') as [Hat'' Hlast']; [congruence..|done|].
  exists (cond.consume l'). split; [done|]. split; [done|congruence].
Qed.

(** *** Conditions *)

Lemma forallb_both {A : Type} (f g : A -> bool) (l : list A) :
  forallb f l = true -> forallb g l = true ->
  forallb (fun a => f a && g a) l = true.
Proof.
  induction l as [|a l IH]; [done|]. simpl.
  intros [-> Hf]%andb_prop [-> Hg]%andb_prop. by rewrite IH.
Qed.

Lemma unwrap_other (c : ascii) (s : string) :
  Utf8.byte c <> 60 -> cond.unwrap (String c s) = String c s.
Proof.
  intros Hc. by destruct c as [[] [] [] [] [] [] [] []].
Qed.

Lemma token_first (c0 : ascii) (tok : string) (d : Utf8.rune)
    (more : list Utf8.rune) :
  negb (String.prefix "Not" (String c0 tok)) = true -> d = 32 \/ d = 41 ->
  cond.first_token (cond.chars (String c0 tok) ++ d :: more) = Utf8.byte c0.
Proof.
  intros Hp Hd. unfold cond.chars. cbn [list_ascii_of_string map app cond.first_token].
  match goal with
  | |- (if ?b then _ else _) = _ => destruct b eqn:Hc; [exfalso|done]
  end.
  apply andb_prop in Hc as [[H0%Z.eqb_eq H1%Z.eqb_eq]%andb_prop H2%Z.eqb_eq].
  assert (c0 = "N"%char) as -> by (apply byte_inj; rewrite H0; reflexivity).
  destruct tok as [|c1 tok]; simpl in H1, H2; [destruct Hd; congruence|].
  assert (c1 = "o"%char) as -> by (apply byte_inj; rewrite H1; reflexivity).
  destruct tok as [|c2 tok]; simpl in H2; [destruct Hd; congruence|].
  assert (c2 = "t"%char) as -> by (apply byte_inj; rewrite H2; reflexivity).
  simpl in Hp. by destruct tok.
Qed.

Lemma parseCondition_rest_print (st et : string) (not : bool) (l : cond.lex)
    (d : Utf8.rune) (more : list Utf8.rune) :
  cond.Condition_ok (cond.mkCondition false st et) = true ->
  d = 32 \/ d = 41 ->
  cond.lex_at l
    (cond.chars (cond.Condition_String (cond.mkCondition false st et))
     ++ d :: more) ->
  cond.last l
  = cond.first_token
      (cond.chars (cond.Condition_String (cond.mkCondition false st et))
       ++ d :: more) ->
  exists l',
    cond.parseCondition_rest l
      (cond.first_token
         (cond.chars (cond.Condition_String (cond.mkCondition false st et))
          ++ d :: more)) not
    = Some (l', (cond.mkCondition not st et, None))
    /\ cond.lex_at l' (d :: more).
Proof.
  intros Hok Hd. unfold cond.Condition_ok in Hok. cbn [cond.State cond.ETag] in Hok.
  unfold cond.Condition_String. cbn [cond.State cond.ETag cond.CNot].
  apply orb_true_iff in Hok
    as [[Htok ->%String.eqb_eq]%andb_prop|[->%String.eqb_eq Het]%andb_prop].
  - unfold cond.token_ok in Htok.
    apply andb_prop in Htok as [Htok Hnot].
    apply andb_prop in Htok as [Htok Hfirst].
    apply andb_prop in Htok as [Htok H41].
    apply andb_prop in Htok as [Hascii H32].
    destruct st as [|c0 tok]; [done|].
    apply andb_prop in Hfirst as [Hfirst H60].
    apply andb_prop in Hfirst as [Hsp H91].
    cbn [String.eqb negb]. change ("" +:+ ?x) with x.
    rewrite (token_first c0 tok d more Hnot Hd). intros Hat Hlast.
    pose proof (byte_range c0) as Hr. unfold cond.parseCondition_rest.
    apply negb_true_iff in H91, H60. rewrite H91.
    destruct (consumeIf_at (fun r => negb (r =? 41) && negb (r =? 32))
                (String c0 tok) l d more Hat) as (l' & -> & Hat' & _).
    + rewrite Hlast. unfold cond.Not. lia.
    + rewrite Hlast. unfold cond.EOF. lia.
    + done.
    + by apply forallb_both; apply lacks_forallb.
    + by destruct Hd as [-> | ->].
    + unfold cond.EOF. destruct Hd; lia.
    + cbv zeta. rewrite unwrap_other by (by apply Z.eqb_neq).
      cbn [String.eqb]. by exists l'.
  - unfold cond.etag_ok in Het.
    apply andb_prop in Het as [[Hascii H93]%andb_prop Hne].
    cbn [String.eqb negb]. change ("" +:+ ?x) with x.
    rewrite !chars_app, <- !app_assoc.
    change (cond.chars "[") with [91]. change (cond.chars "]") with [93].
    cbn [app cond.first_token]. change (91 =? 78) with false. cbn [andb].
    intros Hat Hlast. unfold cond.parseCondition_rest.
    change (91 =? 91) with true. cbv iota.
    destruct (consume_at l _ Hat) as [Hat1 Hlast1];
      [rewrite Hlast; done..|done|].
    simpl in Hat1. rewrite drop_0 in Hat1.
    destruct (consumeUntil_at 93 et (cond.consume l) (d :: more) Hat1)
      as (l' & -> & Hat' & _); try done.
    + by rewrite Hlast1, Hlast.
    + by rewrite Hlast1, Hlast.
    + cbv zeta. apply negb_true_iff in Hne. rewrite Hne. by exists l'.
Qed.

Lemma Condition_String_not (not : bool) (st et : string) :
  cond.Condition_String (cond.mkCondition not st et)
  = (if not then "Not " else "")
    +:+ cond.Condition_String (cond.mkCondition false st et).
Proof.
  unfold cond.Condition_String. cbn [cond.CNot cond.State cond.ETag].
  by destruct (negb (String.eqb st "")).
Qed.

(** The text of a condition that is not negated starts with a token that
    is neither white space, [Not], a closing parenthesis nor the end. *)
Lemma Condition_plain_starts (st et : string) (d : Utf8.rune)
    (more : list Utf8.rune) :
  cond.Condition_ok (cond.mkCondition false st et) = true ->
  d = 32 \/ d = 41 ->
  cond.stops (cond.chars (cond.Condition_String (cond.mkCondition false st et))
         ++ d :: more)
  /\ 0 <= cond.first_token
            (cond.chars (cond.Condition_String (cond.mkCondition false st et))
             ++ d :: more)
  /\ cond.first_token
       (cond.chars (cond.Condition_String (cond.mkCondition false st et))
        ++ d :: more) <> 41.
Proof.
  intros Hok Hd. unfold cond.Condition_ok in Hok. cbn [cond.State cond.ETag] in Hok.
  unfold cond.Condition_String. cbn [cond.State cond.ETag cond.CNot].
  apply orb_true_iff in Hok
    as [[Htok ->%String.eqb_eq]%andb_prop|[->%String.eqb_eq Het]%andb_prop].
  - unfold cond.token_ok in Htok.
    apply andb_prop in Htok as [Htok Hnot].
    apply andb_prop in Htok as [Htok Hfirst].
    apply andb_prop in Htok as [Htok H41].
    destruct st as [|c0 tok]; [done|].
    apply andb_prop in Hfirst as [[Hsp _]%andb_prop _].
    cbn [String.eqb negb]. change ("" +:+ ?x) with x.
    rewrite (token_first c0 tok d more Hnot Hd).
    pose proof (byte_range c0) as Hr. split; [|split; [lia|]].
    + unfold cond.chars. simpl. by apply negb_true_iff.
    + apply lacks_forallb in H41. simpl in H41.
      apply andb_prop in H41 as [H41 _]. apply negb_true_iff in H41.
      by apply Z.eqb_neq.
  - cbn [String.eqb negb]. change ("" +:+ ?x) with x.
    rewrite !chars_app, <- !app_assoc. change (cond.chars "[") with [91].
    done.
Qed.

Lemma parseCondition_print (c : cond.Condition) (l : cond.lex)
    (d : Utf8.rune) (more : list Utf8.rune) :
  cond.Condition_ok c = true -> d = 32 \/ d = 41 ->
  cond.lex_at l (cond.chars (cond.Condition_String c) ++ d :: more) ->
  exists l',
    cond.parseCondition l = Some (l', (c, None))
    /\ cond.lex_at l' (d :: more).
Proof.
  destruct c as [not st et]. intros Hok Hd.
  change (cond.Condition_ok (cond.mkCondition false st et) = true) in Hok.
  destruct (Condition_plain_starts st et d more Hok Hd) as (Hstops & Hpos & H41).
  rewrite Condition_String_not, chars_app, <- app_assoc.
  unfold cond.parseCondition. destruct not.
  - change (cond.chars "Not ") with [78; 111; 116; 32]. intros Hat.
    destruct (peek_at l [] _ Hat) as (l1 & -> & Hat1 & Hlast1); [by constructor|done|].
    change (cond.first_token _) with cond.Not in Hlast1 |- * at 1.
    change (cond.Not =? cond.Not) with true. cbv iota.
    destruct (consume_Not_at l1 _ Hat1 Hlast1) as [Hat2 _]; [simpl; lia|].
    change (drop 3 _)
      with ([32] ++ cond.chars
                      (cond.Condition_String (cond.mkCondition false st et))
                    ++ d :: more)%list in Hat2.
    destruct (peek_at (cond.consume l1) [32] _ Hat2)
      as (l2 & -> & Hat3 & Hlast3); [by repeat constructor|done|].
    by apply parseCondition_rest_print.
  - change (cond.chars "") with (@nil Utf8.rune). cbn [app]. intros Hat.
    destruct (peek_at l [] _ Hat) as (l1 & -> & Hat1 & Hlast1); [by constructor|done|].
    replace (cond.first_token _ =? cond.Not) with false
      by (symmetry; apply Z.eqb_neq; unfold cond.Not; lia).
    by apply parseCondition_rest_print.
Qed.

(** The text of a condition starts with a token that is neither white
    space, a closing parenthesis nor the end. *)
Lemma Condition_starts (c : cond.Condition) (d : Utf8.rune)
    (more : list Utf8.rune) :
  cond.Condition_ok c = true -> d = 32 \/ d = 41 ->
  cond.stops (cond.chars (cond.Condition_String c) ++ d :: more)
  /\ cond.first_token (cond.chars (cond.Condition_String c) ++ d :: more)
     <> cond.EOF
  /\ cond.first_token (cond.chars (cond.Condition_String c) ++ d :: more) <> 41.
Proof.
  destruct c as [not st et]. intros Hok Hd.
  change (cond.Condition_ok (cond.mkCondition false st et) = true) in Hok.
  destruct (Condition_plain_starts st et d more Hok Hd) as (Hstops & Hpos & H41).
  rewrite Condition_String_not, chars_app, <- app_assoc. destruct not.
  - change (cond.chars "Not ") with [78; 111; 116; 32]. done.
  - change (cond.chars "") with (@nil Utf8.rune). cbn [app].
    split; [done|]. split; [unfold cond.EOF; lia|done].
Qed.

(** *** Lists of conditions *)

Lemma Join_space (x : string) (xs : list string) :
  GoStr.Join (x :: xs) " "
  = x +:+ (if decide (xs = []) then "" else " " +:+ GoStr.Join xs " ").
Proof.
  destruct xs as [|y ys]; [|done]. simpl. by rewrite append_nil_r.
Qed.

Lemma length_append (a b : string) :
  String.length (a +:+ b) = (String.length a + String.length b)%nat.
Proof. induction a as [|c a IH]; [done|]. simpl. by rewrite IH. Qed.

Lemma length_chars (s : string) : List.length (cond.chars s) = String.length s.
Proof.
  unfold cond.chars. rewrite length_map.
  induction s as [|c s IH]; [done|]. simpl. by rewrite IH.
Qed.

Lemma Join_length (xs : list string) (sep : string) :
  Forall (fun s => (1 <= String.length s)%nat) xs ->
  (List.length xs <= String.length (GoStr.Join xs sep))%nat.
Proof.
  induction xs as [|x xs IH]; [simpl; lia|].
  intros [Hx Hxs]%Forall_cons_1. specialize (IH Hxs).
  destruct xs as [|y ys]; [simpl in *; lia|].
  change (GoStr.Join (x :: y :: ys) sep)
    with (x +:+ sep +:+ GoStr.Join (y :: ys) sep).
  rewrite !length_append. simpl in *. lia.
Qed.

Lemma Condition_String_length (c : cond.Condition) :
  (1 <= String.length (cond.Condition_String c))%nat.
Proof.
  destruct c as [not st et]. unfold cond.Condition_String.
  cbn [cond.CNot cond.State cond.ETag].
  destruct st as [|c0 st]; cbn [String.eqb negb]; rewrite !length_append;
    simpl; lia.
Qed.

Lemma ConditionList_String_length (cl : cond.ConditionList) :
  (1 <= String.length (cond.ConditionList_String cl))%nat.
Proof.
  unfold cond.ConditionList_String. cbv zeta. rewrite !length_append.
  simpl. lia.
Qed.

Lemma parseList_loop_print (rt : string) (cs : list cond.Condition) :
  forall (l0 : cond.lex) (ws more : list Utf8.rune),
  Forall (fun c => cond.Condition_ok c = true) cs ->
  cond.lex_at l0
    (ws ++ cond.chars (GoStr.Join (map cond.Condition_String cs) " ")
        ++ 41 :: more) ->
  cond.spaces ws ->
  exists l1 tok1,
    cond.peek l0 = (l1, tok1)
    /\ cond.lex_at l1
         (cond.chars (GoStr.Join (map cond.Condition_String cs) " ")
          ++ 41 :: more)
    /\ forall (fuel : nat) (cs0 : list cond.Condition),
         (List.length cs <= fuel)%nat ->
         exists l',
           cond.parseList_loop fuel l1 tok1 rt cs0
           = Some (l', (41, (cond.mkConditionList rt (cs0 ++ cs), None)))
           /\ cond.lex_at l' (41 :: more) /\ cond.last l' = 41.
Proof.
  induction cs as [|c cs IH]; intros l0 ws more Hok Hat Hws.
  - change (cond.chars (GoStr.Join (map cond.Condition_String []) " "))
      with (@nil Utf8.rune) in *. cbn [app] in *.
    destruct (peek_at l0 ws _ Hat Hws) as (l1 & Hpeek & Hat1 & Hlast1); [done|].
    change (cond.first_token (41 :: more)) with 41 in Hpeek, Hlast1.
    exists l1, 41. split; [done|]. split; [done|].
    intros fuel cs0 _. exists l1. rewrite app_nil_r.
    split; [by destruct fuel|done].
  - apply Forall_cons_1 in Hok as [Hc Hcs].
    cbn [map] in *. rewrite Join_space, chars_app, <- app_assoc in Hat |- *.
    set (tail := (cond.chars
                    (if decide (map cond.Condition_String cs = [])
                     then "" else " " +:+ GoStr.Join (map cond.Condition_String cs) " ")
                  ++ 41 :: more)%list) in *.
    assert (exists d ws',
              (d = 32 \/ d = 41) /\ cond.spaces ws'
              /\ exists rest, tail = d :: rest
              /\ d :: rest
                 = (ws' ++ cond.chars (GoStr.Join (map cond.Condition_String cs) " ")
                        ++ 41 :: more)%list)
      as (d & ws' & Hd & Hws' & rest & Htail & Hrest).
    { subst tail. case_decide as Hnil.
      - exists 41, []. split; [by right|]. split; [constructor|].
        exists more. apply map_eq_nil in Hnil as ->. done.
      - exists 32, [32]. split; [by left|]. split; [by repeat constructor|].
        eexists. rewrite chars_app, <- app_assoc. done. }
    rewrite Htail in Hat |- *.
    destruct (Condition_starts c d rest Hc Hd) as (Hstops & HnE & Hn41).
    destruct (peek_at l0 ws _ Hat Hws Hstops) as (l1 & Hpeek & Hat1 & Hlast1).
    eexists l1, _. split; [exact Hpeek|]. split; [done|].
    intros fuel cs0 Hfuel. destruct fuel as [|fuel]; [simpl in Hfuel; lia|].
    cbn [cond.parseList_loop].
    replace (cond.first_token _ =? 41) with false
      by (symmetry; by apply Z.eqb_neq).
    replace (cond.first_token _ =? cond.EOF) with false
      by (symmetry; by apply Z.eqb_neq).
    cbn [orb].
    destruct (parseCondition_print c l1 d rest Hc Hd Hat1) as (l2 & -> & Hat2).
    assert (cond.lex_at l2
              (ws' ++ cond.chars (GoStr.Join (map cond.Condition_String cs) " ")
                   ++ 41 :: more)) as Hat2'
      by (rewrite <- Hrest; exact Hat2).
    destruct (IH l2 ws' more Hcs Hat2' Hws') as (l3 & tok3 & -> & Hat3 & Hloop).
    destruct (Hloop fuel (cs0 ++ [c])%list) as (l' & -> & Hat' & Hlast');
      [simpl in Hfuel; lia|].
    exists l'. by rewrite <- app_assoc.
Qed.

Lemma parseList_rest_print (rt : string) (cs : list cond.Condition)
    (l : cond.lex) (more : list Utf8.rune) :
  Forall (fun c => cond.Condition_ok c = true) cs ->
  cond.lex_at l
    (40 :: cond.chars (GoStr.Join (map cond.Condition_String cs) " ")
        ++ 41 :: more) ->
  cond.last l = 40 ->
  exists l',
    cond.parseList_rest l 40 rt = Some (l', (cond.mkConditionList rt cs, None))
    /\ cond.lex_at l' more.
Proof.
  intros Hok Hat Hlast. unfold cond.parseList_rest.
  change (negb (40 =? 40)) with false. cbv iota.
  destruct (consume_at l _ Hat) as [Hat1 _]; [rewrite Hlast; done..|done|].
  simpl in Hat1. rewrite drop_0 in Hat1.
  destruct (parseList_loop_print rt cs (cond.consume l) [] more Hok Hat1)
    as (l1 & tok1 & -> & Hat2 & Hloop); [constructor|].
  destruct (Hloop (S (Z.to_nat (cond.len l1 - cond.pos l1))) [])
    as (l' & -> & Hat' & Hlast').
  { pose proof (lex_at_length _ _ Hat2) as Hlen.
    rewrite List.length_app, length_chars in Hlen.
    pose proof (Join_length (map cond.Condition_String cs) " ") as Hj.
    rewrite length_map in Hj. simpl in Hlen.
    assert (List.length cs
            <= String.length (GoStr.Join (map cond.Condition_String cs) " "))%nat.
    { apply Hj. apply Forall_forall. intros s (c & -> & _)%list_elem_of_fmap.
      apply Condition_String_length. }
    lia. }
  change (negb (41 =? 41)) with false. cbv iota.
  destruct (consume_at l' _ Hat') as [Hat'' _]; [rewrite Hlast'; done..|done|].
  exists (cond.consume l'). split; [done|]. simpl in Hat''.
  by rewrite drop_0 in Hat''.
Qed.

Lemma ConditionList_ok_inv (rt : string) (cs : list cond.Condition) :
  cond.ConditionList_ok (cond.mkConditionList rt cs) = true ->
  cond.isASCII rt = true /\ cond.lacks 62 rt = true
  /\ Forall (fun c => cond.Condition_ok c = true) cs.
Proof.
  unfold cond.ConditionList_ok, cond.resource_ok.
  cbn [cond.Resource cond.Conditions].
  intros [[H1 H2]%andb_prop H3]%andb_prop. split; [done|]. split; [done|].
  apply Forall_forall. intros c Hc. rewrite forallb_forall in H3.
  apply H3. by apply list_elem_of_In.
Qed.

(** The runes of a printed list: the resource between angle brackets when
    there is one, then the conditions between parentheses. *)
Lemma ConditionList_String_chars (rt : string) (cs : list cond.Condition)
    (more : list Utf8.rune) :
  (cond.chars (cond.ConditionList_String (cond.mkConditionList rt cs)) ++ more
   = (if String.eqb rt "" then []
      else 60 :: cond.chars rt ++ [62; 32])
     ++ 40 :: cond.chars (GoStr.Join (map cond.Condition_String cs) " ")
     ++ 41 :: more)%list.
Proof.
  unfold cond.ConditionList_String. cbn [cond.Resource cond.Conditions].
  cbv zeta. destruct (String.eqb rt ""); cbn [negb];
    rewrite !chars_app, <- !app_assoc; [done|].
  change (cond.chars "<") with [60]. change (cond.chars "> ") with [62; 32].
  cbn [app]. by rewrite <- app_assoc.
Qed.

Lemma parseList_print (cl : cond.ConditionList) (l0 : cond.lex)
    (ws more : list Utf8.rune) :
  cond.ConditionList_ok cl = true ->
  cond.lex_at l0 (ws ++ cond.chars (cond.ConditionList_String cl) ++ more) ->
  cond.spaces ws ->
  exists l',
    cond.parseList l0 = Some (l', (cl, None)) /\ cond.lex_at l' more.
Proof.
  destruct cl as [rt cs]. intros (Hascii & H62 & Hcs)%ConditionList_ok_inv.
  rewrite ConditionList_String_chars. intros Hat Hws. unfold cond.parseList.
  destruct (String.eqb rt "") eqn:Hrt.
  - apply String.eqb_eq in Hrt as ->. cbn [app] in Hat.
    destruct (peek_at l0 ws _ Hat Hws) as (l1 & -> & Hat1 & Hlast1); [done|].
    change (cond.first_token (40 :: _)) with 40 in Hlast1 |- *.
    change (40 =? 60) with false. cbv iota.
    by apply parseList_rest_print.
  - rewrite <- app_comm_cons, <- app_assoc in Hat. cbn [app] in Hat.
    destruct (peek_at l0 ws _ Hat Hws) as (l1 & -> & Hat1 & Hlast1); [done|].
    change (cond.first_token (60 :: _)) with 60 in Hlast1 |- *.
    change (60 =? 60) with true. cbv iota.
    destruct (consume_at l1 _ Hat1) as [Hat2 Hlast2];
      [rewrite Hlast1; done..|done|].
    simpl in Hat2. rewrite drop_0 in Hat2.
    destruct (consumeUntil_at 62 rt (cond.consume l1) _ Hat2)
      as (l2 & -> & Hat3 & _); try done.
    { by rewrite Hlast2, Hlast1. } { by rewrite Hlast2, Hlast1. }
    rewrite Hrt. rewrite bool_decide_eq_false_2 by (intros H; by apply H).
    cbn [orb].
    destruct (peek_at l2 [32] _ Hat3) as (l3 & -> & Hat4 & Hlast4);
      [by repeat constructor|done|].
    change (cond.first_token (40 :: _)) with 40 in Hlast4 |- *.
    by apply parseList_rest_print.
Qed.

(** *** The header *)

Lemma ParseIfTag_loop_print (ls : list cond.ConditionList) :
  forall (fuel : nat) (l0 : cond.lex) (ws : list Utf8.rune)
         (ls0 : list cond.ConditionList),
  Forall (fun cl => cond.ConditionList_ok cl = true) ls ->
  cond.lex_at l0
    (ws ++ cond.chars (GoStr.Join (map cond.ConditionList_String ls) " ")) ->
  cond.spaces ws -> (List.length ls <= fuel)%nat ->
  cond.ParseIfTag_loop fuel l0 ls0 = Some (cond.mkIfTag (ls0 ++ ls), None).
Proof.
  induction ls as [|cl ls IH]; intros fuel l0 ws ls0 Hok Hat Hws Hfuel.
  - change (cond.chars (GoStr.Join (map cond.ConditionList_String []) " "))
      with (@nil Utf8.rune) in Hat.
    destruct (peek_at l0 ws [] Hat Hws) as (l1 & Hpeek & _); [done|].
    rewrite app_nil_r. destruct fuel; cbn [cond.ParseIfTag_loop];
      by rewrite Hpeek.
  - apply Forall_cons_1 in Hok as [Hcl Hls].
    destruct fuel as [|fuel]; [simpl in Hfuel; lia|].
    cbn [map] in Hat. rewrite Join_space, chars_app in Hat.
    set (tail := cond.chars
                   (if decide (map cond.ConditionList_String ls = [])
                    then ""
                    else " " +:+ GoStr.Join (map cond.ConditionList_String ls) " "))
      in *.
    assert (exists ws',
              cond.spaces ws'
              /\ tail
                 = (ws' ++ cond.chars
                             (GoStr.Join (map cond.ConditionList_String ls) " "))%list)
      as (ws' & Hws' & Htail).
    { subst tail. case_decide as Hnil.
      - exists []. split; [constructor|]. by rewrite Hnil.
      - exists [32]. split; [by repeat constructor|]. by rewrite chars_app. }
    assert (exists c rest,
              (cond.chars (cond.ConditionList_String cl) ++ tail)%list = c :: rest
              /\ (c = 40 \/ c = 60)) as (c & rest & Hhead & Hc).
    { destruct cl as [rt cs]. rewrite ConditionList_String_chars.
      destruct (String.eqb rt ""); eexists _, _; (split; [done|]); auto. }
    cbn [cond.ParseIfTag_loop].
    destruct (peek_at l0 ws _ Hat Hws) as (l1 & -> & Hat1 & Hlast1).
    { rewrite Hhead. by destruct Hc as [-> | ->]. }
    replace (cond.first_token _ =? cond.EOF) with false.
    2:{ symmetry. apply Z.eqb_neq. rewrite Hhead.
        by destruct Hc as [-> | ->]. }
    destruct (parseList_print cl l1 [] tail Hcl Hat1) as (l2 & -> & Hat2);
      [constructor|].
    rewrite Htail in Hat2. rewrite (IH fuel l2 ws' (ls0 ++ [cl])%list Hls Hat2 Hws').
    + by rewrite <- app_assoc.
    + simpl in Hfuel. lia.
Qed.

Lemma isASCII_Join (xs : list string) :
  Forall (fun s => cond.isASCII s = true) xs ->
  cond.isASCII (GoStr.Join xs " ") = true.
Proof.
  induction xs as [|x xs IH]; [done|]. intros [Hx Hxs]%Forall_cons_1.
  rewrite Join_space, isASCII_app, Hx. case_decide; [done|].
  rewrite isASCII_app. by rewrite IH.
Qed.

Lemma Condition_String_ascii (c : cond.Condition) :
  cond.Condition_ok c = true -> cond.isASCII (cond.Condition_String c) = true.
Proof.
  destruct c as [not st et]. intros Hok. rewrite Condition_String_not.
  rewrite isASCII_app.
  assert (cond.isASCII (if not then "Not " else "") = true) as ->
    by (by destruct not).
  unfold cond.Condition_ok in Hok. cbn [cond.State cond.ETag] in Hok.
  unfold cond.Condition_String. cbn [cond.State cond.ETag cond.CNot].
  apply orb_true_iff in Hok
    as [[Htok ->%String.eqb_eq]%andb_prop|[->%String.eqb_eq Het]%andb_prop].
  - unfold cond.token_ok in Htok.
    apply andb_prop in Htok as [Htok _]. apply andb_prop in Htok as [Htok _].
    apply andb_prop in Htok as [Htok _]. apply andb_prop in Htok as [Hascii _].
    destruct (negb (String.eqb st "")); [done|].
    by rewrite !isASCII_app.
  - unfold cond.etag_ok in Het.
    apply andb_prop in Het as [[Hascii _]%andb_prop _].
    cbn [String.eqb negb]. rewrite !isASCII_app, Hascii. done.
Qed.

Lemma ConditionList_String_ascii (cl : cond.ConditionList) :
  cond.ConditionList_ok cl = true ->
  cond.isASCII (cond.ConditionList_String cl) = true.
Proof.
  destruct cl as [rt cs]. intros (Hascii & _ & Hcs)%ConditionList_ok_inv.
  unfold cond.ConditionList_String. cbn [cond.Resource cond.Conditions].
  cbv zeta. rewrite !isASCII_app.
  assert (cond.isASCII (GoStr.Join (map cond.Condition_String cs) " ") = true)
    as ->.
  { apply isASCII_Join. apply Forall_forall.
    intros s (c & -> & Hc)%list_elem_of_fmap. apply Condition_String_ascii.
    rewrite Forall_forall in Hcs. by apply Hcs. }
  destruct (negb (String.eqb rt "")); [|done].
  by rewrite !isASCII_app, Hascii.
Qed.

(** X7: a header printed by [String] parses back to the same conditions:
    for an [IfTag] of ASCII texts whose state tokens, entity tags and
    resources do not hold the characters that end them, [ParseIfTag] of
    the printed header returns the [IfTag] and no error. *)
Theorem ParseIfTag_String (t : cond.IfTag) :
  cond.IfTag_ok t = true ->
  cond.ParseIfTag (cond.IfTag_String t) = Some (t, None).
Proof.
  destruct t as [ls]. unfold cond.IfTag_ok, cond.IfTag_String.
  cbn [cond.Lists]. intros Hok.
  assert (Forall (fun cl => cond.ConditionList_ok cl = true) ls) as Hls.
  { apply Forall_forall. intros cl Hcl. rewrite forallb_forall in Hok.
    apply Hok. by apply list_elem_of_In. }
  assert (cond.isASCII (GoStr.Join (map cond.ConditionList_String ls) " ")
          = true) as Hascii.
  { apply isASCII_Join. apply Forall_forall.
    intros s (cl & -> & Hcl)%list_elem_of_fmap.
    apply ConditionList_String_ascii. rewrite Forall_forall in Hls.
    by apply Hls. }
  unfold cond.ParseIfTag. cbv zeta.
  rewrite (ParseIfTag_loop_print ls _ _ [] [] Hls); [done| |constructor|].
  - unfold cond.lex_at, cond.remaining, cond.newLex, cond.len. simpl.
    rewrite decode_ascii by done. split; [lia|]. split; [lia|done].
  - unfold cond.newLex. simpl. rewrite decode_ascii, length_chars by done.
    pose proof (Join_length (map cond.ConditionList_String ls) " ") as Hj.
    rewrite length_map in Hj.
    assert (List.length ls
            <= String.length
                 (GoStr.Join (map cond.ConditionList_String ls) " "))%nat.
    { apply Hj. apply Forall_forall. intros s (cl & -> & _)%list_elem_of_fmap.
      apply ConditionList_String_length. }
    lia.
Qed.

(** ** The inclusion of the design and the test of the code *)

(** For the depths 0 and infinity, [Included] decides the inclusion of
    the design. *)
Lemma Included_design (a b : string) (d : Z) :
  d <= 0 -> snd (wp.Included a b d) = design.included a b d.
Proof.
  intros Hd. unfold design.included.
  destruct (decide (d = 0)) as [->|Hne].
  - rewrite Included_depth0. change (0 <? 0) with false. cbn [orb].
    unfold design.segments_between.
    pose proof (Split_length_pos
                  (GoPath.Clean
                     (GoStr.from (String.length (design.with_slash b)) a)) "/").
    replace (Z.of_nat _ <=? 0) with false by lia.
    by rewrite andb_false_r, orb_false_r.
  - rewrite Included_unbounded by lia. replace (d <? 0) with true by lia.
    cbn [orb]. rewrite andb_true_r, InTree_design.
    unfold design.in_tree. by destruct (String.eqb a b).
Qed.

Lemma covers_design (l : lock) (p : string) :
  depth l <= 0 -> covers l p = design.included p (path l) (depth l).
Proof. apply Included_design. Qed.

(** A child [b/x] of a subtree [b] other than the root: the design
    includes it from depth 1 on, [Included] from depth 2 on. *)
Lemma included_child (b x : string) (d : Z) :
  GoStr.HasSuffix b "/" = false -> GoPath.isElement x = true ->
  design.included (b +:+ "/" +:+ x) b d = (d <? 0) || (1 <=? d).
Proof.
  intros Hb Hx. destruct (Clean_element x Hx) as [Hc _].
  assert (GoPath.noSlash x = true) as Hns.
  { unfold GoPath.isElement in Hx. by apply andb_prop in Hx as [_ ?]. }
  unfold design.included, design.in_tree, design.segments_between,
    design.with_slash.
  rewrite Hb. rewrite eqb_app_ne by done. cbn [orb].
  rewrite <- append_assoc.
  pose proof (HasPrefix_app (b +:+ "/") x) as Hp.
  unfold GoStr.HasPrefix in Hp. rewrite Hp. cbn [andb].
  rewrite from_app, Hc, (Split_noSlash x Hns). done.
Qed.

Lemma Included_child (b x : string) (d : Z) :
  GoStr.HasSuffix b "/" = false -> GoPath.isElement x = true ->
  wp.Included (b +:+ "/" +:+ x) b d
  = if (0 <=? d) && (d <? 2) then ("", false) else ("/" +:+ x, true).
Proof.
  intros Hb Hx. destruct (Clean_element x Hx) as [_ Hc2].
  assert (GoPath.noSlash x = true) as Hns.
  { unfold GoPath.isElement in Hx. by apply andb_prop in Hx as [_ ?]. }
  assert (wp.InTree (b +:+ "/" +:+ x) b = true) as Hin.
  { unfold wp.InTree. rewrite eqb_app_ne by done. rewrite Hb. cbn [negb].
    rewrite <- append_assoc. apply HasPrefix_app. }
  unfold wp.Included. rewrite eqb_app_ne by done. rewrite Hin.
  cbn [negb]. rewrite from_app, Hc2.
  change ("/" +:+ x) with (String "/" x). cbn [GoStr.Split].
  rewrite Ascii.eqb_refl, (Split_noSlash x Hns). done.
Qed.

(** *** Locks of depth 0 and infinity *)

(** While every lock has depth 0 or infinity, the regions of two distinct
    locks are disjoint in the sense of the design. *)
Lemma lock_regions_disjoint_depths (locks : lockmaster) now k1 k2 l1 l2 :
  lm_reachable locks ->
  (forall k l, locks !! k = Some l -> depth l <= 0) ->
  k1 <> k2 -> locks !! k1 = Some l1 -> locks !! k2 = Some l2 ->
  live now l1 -> live now l2 ->
  design.included (path l1) (path l2) (depth l2) = false
  /\ design.included (path l2) (path l1) (depth l1) = false.
Proof.
  intros Hr Hdep Hne H1 H2 Hl1 Hl2.
  destruct (lock_regions_disjoint locks now k1 k2 l1 l2 Hr Hne H1 H2 Hl1 Hl2)
    as [A B].
  rewrite <- !Included_design by eauto. done.
Qed.

Lemma covered_design (now : Z) (p : string) (locks : lockmaster) :
  (forall k l, locks !! k = Some l -> depth l <= 0) ->
  (exists k l, locks !! k = Some l /\ live now l /\ covers l p = true)
  <-> (exists k l, locks !! k = Some l /\ live now l
                   /\ design.included p (path l) (depth l) = true).
Proof.
  intros Hdep. split; intros (k & l & Hl & Hlive & Hc); exists k, l;
    (split; [done|]); (split; [done|]).
  - by rewrite <- covers_design by eauto.
  - by rewrite covers_design by eauto.
Qed.

(** While every lock has depth 0 or infinity, the write authorization
    check is the one of the design: it grants the write when no live lock
    includes the path; when one does, it denies a request without If
    header and grants a request with an If header exactly when
    [isLocked(p, token)] holds for one of the tokens of the header. *)
Lemma checkCanWrite_design (rt : Runtime) (c : option cond.IfTag) (p : string)
    (locks : lockmaster) :
  lm_reachable locks -> range_order locks (RangeOrder rt locks) ->
  (forall k l, locks !! k = Some l -> depth l <= 0) ->
  let covered :=
    exists k l, locks !! k = Some l /\ live (Now rt) l
                /\ design.included p (path l) (depth l) = true in
  let ok := snd (checkCanWrite rt c p locks) in
  (~ covered -> ok = true)
  /\ (covered -> c = None -> ok = false)
  /\ (covered -> forall t, c = Some t ->
        (ok = true <->
         exists tok, tok ∈ cond.GetAllTokens t
                     /\ snd (isLocked (Now rt) p tok locks) = true)).
Proof.
  intros Hr Hord Hdep covered ok.
  destruct (checkCanWrite_spec rt c p locks Hr Hord) as (A & B & C & _).
  pose proof (covered_design (Now rt) p locks Hdep) as Hcov.
  split; [intros Hn; apply A; by rewrite Hcov|].
  split; [intros Hc; apply B; by rewrite Hcov|].
  intros Hc. apply C. by rewrite Hcov.
Qed.

(** *** A lock of depth 1 *)

Lemma createLock_empty now tok own p dep dur :
  createLock now tok [] own p dep dur ∅
  = ({[ tok := mkLock tok dep own (clampDuration dur) now p ]},
     Ok (mkLock tok dep own (clampDuration dur) now p)).
Proof. unfold createLock. simpl. by rewrite insert_empty. Qed.

(** A lock is live for 20 seconds from its creation at least. *)
Lemma created_live now now' tok dep own dur p :
  now' <= now + 20 * Second ->
  live now' (mkLock tok dep own (clampDuration dur) now p).
Proof.
  intros Hn. unfold live, expired. simpl.
  pose proof (clampDuration_range dur) as H.
  unfold minLockDuration, Second in *. lia.
Qed.

(** A loop of [getLockForPath] over locks that are live and do not hold
    the path finds none and removes none. *)
Lemma getLockForPath_loop_quiet now p order (locks : lockmaster) :
  (forall k l, locks !! k = Some l -> live now l /\ covers l p = false) ->
  getLockForPath_loop now p order locks = (locks, None).
Proof.
  intros H. induction order as [|k order IH]; simpl; [done|].
  destruct (locks !! k) as [l|] eqn:Hk; [|done].
  destruct (H k l Hk) as [Hlive Hc]. unfold live in Hlive. unfold covers in Hc.
  by rewrite Hlive, Hc.
Qed.

(** C2 (defect of the code).  The regions of two live locks can overlap:
    within the life of a lock of depth 1 on a name [b], [createLock] puts
    a lock of depth 0 on a child [b/x] of it, because its test
    [Included(b/x, b, 1)] fails (C1).  The state is one that the lock
    manager reaches, both locks are live, and the path of the second is
    included in the scope of the first by the inclusion of the design. *)
Theorem lock_regions_overlap (now1 now2 : Z) (t1 t2 own1 own2 b x : string)
    (dur1 dur2 : Z) :
  GoStr.HasSuffix b "/" = false -> GoPath.isElement x = true -> t1 <> t2 ->
  now1 <= now2 <= now1 + 20 * Second ->
  let op1 := OpCreateLock now1 t1 [] own1 b 1 dur1 in
  let op2 := OpCreateLock now2 t2 [t1] own2 (b +:+ "/" +:+ x) 0 dur2 in
  let locks := lm_exec op2 (lm_exec op1 ∅) in
  lm_reachable locks
  /\ exists l1 l2,
       snd (createLock now1 t1 [] own1 b 1 dur1 ∅) = Ok l1
       /\ snd (createLock now2 t2 [t1] own2 (b +:+ "/" +:+ x) 0 dur2
                 (lm_exec op1 ∅)) = Ok l2
       /\ locks !! t1 = Some l1 /\ locks !! t2 = Some l2
       /\ live now2 l1 /\ live now2 l2
       /\ path l1 = b /\ depth l1 = 1
       /\ path l2 = b +:+ "/" +:+ x /\ depth l2 = 0
       /\ design.included (path l2) (path l1) (depth l1) = true.
Proof.
  intros Hb Hx Hne Hnow op1 op2 locks.
  set (l1 := mkLock t1 1 own1 (clampDuration dur1) now1 b).
  set (l2 := mkLock t2 0 own2 (clampDuration dur2) now2 (b +:+ "/" +:+ x)).
  assert (lm_exec op1 ∅ = {[ t1 := l1 ]}) as H1.
  { unfold op1. cbn [lm_exec]. by rewrite createLock_empty. }
  assert (createLock now2 t2 [t1] own2 (b +:+ "/" +:+ x) 0 dur2 {[ t1 := l1 ]}
          = (<[t2 := l2]> {[ t1 := l1 ]}, Ok l2)) as H2.
  { unfold createLock. cbn [createLock_loop]. rewrite lookup_singleton_eq.
    pose proof (created_live now1 now2 t1 1 own1 dur1 b (proj2 Hnow)) as Hlive.
    unfold live in Hlive. fold l1 in Hlive. rewrite Hlive.
    cbn [path depth l1]. rewrite (Included_child b x 1 Hb Hx).
    change ((0 <=? 1) && (1 <? 2)) with true. cbn [snd].
    rewrite Included_depth0.
    assert (String.eqb b (b +:+ "/" +:+ x) = false) as ->.
    { rewrite String.eqb_sym. by apply eqb_app_ne. }
    done. }
  assert (locks = <[t2 := l2]> {[ t1 := l1 ]}) as Hlocks.
  { unfold locks, op2. cbn [lm_exec]. by rewrite H1, H2. }
  split.
  - unfold locks. apply lm_reach_step; [apply lm_reach_step|].
    + apply lm_reach_new.
    + split; [constructor|]. intros k. split.
      * intros Hk. by apply elem_of_nil in Hk.
      * intros [l Hl]. by rewrite lookup_empty in Hl.
    + rewrite H1. split; [apply NoDup_singleton|]. intros k. split.
      * intros ->%list_elem_of_singleton. exists l1. apply lookup_singleton_eq.
      * intros [l [<- _]%lookup_singleton_Some]. by apply list_elem_of_singleton.
  - exists l1, l2. rewrite createLock_empty, H1, H2, Hlocks.
    split; [done|]. split; [done|].
    split; [rewrite lookup_insert_ne by done; apply lookup_singleton_eq|].
    split; [apply lookup_insert_eq|].
    split; [apply created_live; lia|].
    split; [apply created_live; unfold Second; lia|].
    repeat (split; [done|]). cbn [path depth l1 l2].
    by rewrite (included_child b x 1 Hb Hx).
Qed.

(** C7 (defect of the code).  Below a live lock of depth 1 the write
    authorization check grants a write without If header: for a child
    [b/x] of the locked name [b], which the scope of the lock includes by
    the design, [getLockForPath] finds no lock, since the test
    [Included(b/x, b, 1)] fails (C1).  On [b] itself the same check denies
    the write. *)
Theorem write_below_depth1_lock (rt : Runtime) (now0 : Z) (t own b x : string)
    (dur : Z) :
  GoStr.HasSuffix b "/" = false -> GoPath.isElement x = true ->
  now0 <= Now rt <= now0 + 20 * Second ->
  let locks := fst (createLock now0 t [] own b 1 dur ∅) in
  range_order locks (RangeOrder rt locks) ->
  lm_reachable locks
  /\ exists l,
       locks !! t = Some l /\ live (Now rt) l /\ path l = b /\ depth l = 1
       /\ design.included (b +:+ "/" +:+ x) (path l) (depth l) = true
       /\ checkCanWrite rt None (b +:+ "/" +:+ x) locks = (locks, true)
       /\ snd (checkCanWrite rt None b locks) = false.
Proof.
  intros Hb Hx Hnow locks Hord.
  set (l := mkLock t 1 own (clampDuration dur) now0 b).
  assert (locks = {[ t := l ]}) as Hlocks.
  { unfold locks. by rewrite createLock_empty. }
  assert (lm_reachable locks) as Hr.
  { unfold locks.
    apply (lm_reach_step ∅ (OpCreateLock now0 t [] own b 1 dur));
      [apply lm_reach_new|].
    split; [constructor|]. intros k. split.
    - intros Hk. by apply elem_of_nil in Hk.
    - intros [l0 Hl]. by rewrite lookup_empty in Hl. }
  split; [done|]. exists l.
  assert (locks !! t = Some l) as Hl by (rewrite Hlocks; apply lookup_singleton_eq).
  pose proof (created_live now0 (Now rt) t 1 own dur b (proj2 Hnow)) as Hlive.
  fold l in Hlive.
  split; [done|]. split; [done|]. split; [done|]. split; [done|].
  split; [cbn [path depth l]; by rewrite (included_child b x 1 Hb Hx)|].
  split.
  - unfold checkCanWrite, getLockForPath.
    rewrite getLockForPath_loop_quiet; [done|].
    intros k l0 Hk. rewrite Hlocks in Hk.
    apply lookup_singleton_Some in Hk as [_ <-]. split; [done|].
    unfold covers. cbn [path depth l]. by rewrite (Included_child b x 1 Hb Hx).
  - apply (checkCanWrite_locked rt b locks t l Hr Hord Hl Hlive).
    unfold covers. cbn [path depth l]. by rewrite Included_self.
Qed.

(** *** The lock manager in the terms of the design *)

(** X1: while every lock has depth 0 or infinity and such a depth is asked
    for, [createLock] answers [ErrorLocked] exactly when the name is
    included in the scope of a live lock or the path of a live lock is
    included in the requested scope, inclusion being the one of the
    design; it then only sweeps.  Otherwise it stores the new lock under
    the generated token and keeps every other live lock. *)
Theorem createLock_conflict_depths now tok order own p dep dur
    (locks : lockmaster) :
  lm_reachable locks -> range_order locks order ->
  (forall k l, locks !! k = Some l -> depth l <= 0) -> dep <= 0 ->
  let conflict :=
    exists k l, locks !! k = Some l /\ live now l
                /\ (design.included p (path l) (depth l) = true
                    \/ design.included (path l) p dep = true) in
  let out := createLock now tok order own p dep dur locks in
  (conflict <-> snd out = Err (DavError ErrorLocked))
  /\ (conflict -> lm_swept now locks (fst out))
  /\ (~ conflict ->
      exists l, snd out = Ok l /\ fst out !! tok = Some l
                /\ token l = tok /\ path l = p /\ depth l = dep /\ owner l = own
                /\ forall k l0, k <> tok -> locks !! k = Some l0 ->
                     live now l0 -> fst out !! k = Some l0).
Proof.
  intros Hr Hord Hdep Hd conflict out.
  destruct (createLock_conflict_iff now tok order own p dep dur locks Hr Hord)
    as (A & B & C).
  assert (conflict
          <-> exists k l, locks !! k = Some l /\ live now l
                          /\ (covers l p = true
                              \/ snd (wp.Included (path l) p dep) = true))
    as Hc.
  { unfold conflict.
    split; intros (k & l & Hl & Hlive & H); exists k, l;
      (split; [done|]); (split; [done|]).
    - rewrite covers_design, Included_design by eauto. done.
    - rewrite covers_design, Included_design in H by eauto. done. }
  split; [by rewrite Hc|]. split; [intros H; apply B; by rewrite <- Hc|].
  intros H. apply C. by rewrite <- Hc.
Qed.

(** X2: while every lock has depth 0 or infinity, [getLockForPath] returns
    a live lock of the map whose scope includes the name, inclusion being
    the one of the design, and leaves it in the map; it returns none only
    when the scope of no live lock includes the name, and then no expired
    lock is left.  It removes nothing but expired locks. *)
Theorem getLockForPath_depths now order p (locks : lockmaster) :
  lm_reachable locks -> range_order locks order ->
  (forall k l, locks !! k = Some l -> depth l <= 0) ->
  let out := getLockForPath now order p locks in
  lm_swept now locks (fst out)
  /\ match snd out with
     | Some l =>
         locks !! token l = Some l /\ live now l
         /\ design.included p (path l) (depth l) = true
         /\ fst out !! token l = Some l
     | None =>
         (forall k l, locks !! k = Some l -> live now l ->
            design.included p (path l) (depth l) = false)
         /\ (forall k l, fst out !! k = Some l -> live now l)
     end.
Proof.
  intros Hr Hord Hdep out.
  destruct (getLockForPath_spec now order p locks Hr Hord) as [A B].
  split; [done|]. fold out in B. destruct (snd out) as [l|].
  - destruct B as (B1 & B2 & B3 & B4). repeat split; try done.
    by rewrite <- covers_design by eauto.
  - destruct B as [B1 B2]. split; [|done]. intros k l Hl Hlive.
    rewrite <- covers_design by eauto. by eapply B1.
Qed.

(** X3: for a token whose lock has depth 0 or infinity, [refreshLock] fails
    exactly when the token names no live lock whose scope includes the
    name, inclusion being the one of the design; a failed refresh only
    sweeps, and a lock that has expired is gone after it. *)
Theorem refreshLock_depths now tok p dur (locks : lockmaster) :
  lm_reachable locks ->
  (forall l, locks !! tok = Some l -> depth l <= 0) ->
  let out := refreshLock now tok p dur locks in
  ((exists e, snd out = Err e)
   <-> ~ exists l, locks !! tok = Some l /\ live now l
                   /\ design.included p (path l) (depth l) = true)
  /\ ((exists e, snd out = Err e) -> lm_swept now locks (fst out))
  /\ (forall l, locks !! tok = Some l -> expired now l = true ->
        fst out !! tok = None).
Proof.
  intros Hr Hdep out.
  destruct (refreshLock_fails_iff now tok p dur locks Hr) as (A & B & C).
  split; [|done]. fold out in A. rewrite A.
  split; intros Hn (l & Hl & Hlive & Hc); apply Hn; exists l;
    (split; [done|]); (split; [done|]).
  - by rewrite covers_design by eauto.
  - by rewrite <- covers_design by eauto.
Qed.

Section DispatcherDepths.

Context {FSt PathT FileT : Type}.
Context (bk : FileSystem FSt PathT FileT) (lib : GoLib).

(** X12: an UNLOCK request that names, between angle brackets, the token
    of a lock of depth 0 or infinity: when the lock is live and its scope
    includes the request's path, inclusion being the one of the design,
    the request removes that lock and nothing else, and writes no status
    (so the answer is 200); otherwise it is answered with status 400 and
    removes at most the expired lock of that token. *)
Theorem doUnlock_depths (rt : Runtime) (ctx : context) (r : http.Request)
    (s : WebDAV) (w : http.ResponseWriter) (T : string) :
  T <> "" -> http.Get r "Lock-Token" = "<" +:+ T +:+ ">" ->
  http.wroteHeader w = None ->
  (forall l, lm s !! T = Some l -> depth l <= 0) ->
  let out := doUnlock bk rt ctx r s w in
  let locked :=
    exists l, lm s !! T = Some l /\ live (Now rt) l
              /\ design.included (path_String bk (ctx_p ctx)) (path l) (depth l)
                 = true in
  fs (fst out) = fs s
  /\ (locked ->
      lm (fst out) = delete T (lm s) /\ snd out = w
      /\ http.status (snd out) = 200)
  /\ (~ locked ->
      http.status (snd out) = 400
      /\ lm_swept (Now rt) (lm s) (lm (fst out))).
Proof.
  intros HT Hh Hw Hdep out locked.
  destruct (doUnlock_spec bk rt ctx r s w T HT Hh Hw) as (A & B & C).
  assert (locked
          <-> exists l, lm s !! T = Some l /\ live (Now rt) l
                        /\ covers l (path_String bk (ctx_p ctx)) = true) as Hl.
  { unfold locked.
    split; intros (l & Hl & Hlive & Hc); exists l;
      (split; [done|]); (split; [done|]).
    - by rewrite covers_design by eauto.
    - by rewrite <- covers_design by eauto. }
  split; [done|]. split; [intros H; apply B; by rewrite <- Hl|].
  intros H. apply C. by rewrite <- Hl.
Qed.

(** X13: while a live lock of depth 0 or infinity includes in its scope,
    by the inclusion of the design, the path of a request that comes
    without If header, DELETE, MKCOL and MOVE are answered with status 423;
    the file system is left as it is and the lock manager loses nothing
    but expired locks. *)
Theorem locked_write_refused_depths (rt : Runtime) (ctx : context)
    (r : http.Request) (s : WebDAV) (w : http.ResponseWriter) k l :
  lm_reachable (lm s) -> range_order (lm s) (RangeOrder rt (lm s)) ->
  lm s !! k = Some l -> live (Now rt) l -> depth l <= 0 ->
  design.included (path_String bk (ctx_p ctx)) (path l) (depth l) = true ->
  ctx_cond ctx = None -> http.wroteHeader w = None ->
  Forall (fun h : handler =>
            http.status (snd (h rt ctx r s w)) = 423
            /\ fs (fst (h rt ctx r s w)) = fs s
            /\ lm_swept (Now rt) (lm s) (lm (fst (h rt ctx r s w))))
         [doDelete bk lib; doMkcol bk; doMove bk lib].
Proof.
  intros Hr Hord Hl Hlive Hd Hc Hcond Hw.
  apply (locked_write_refused bk lib rt ctx r s w k l); try done.
  by rewrite covers_design.
Qed.

End DispatcherDepths.

(** X25: [LookupSubtree] with depth 0 or infinity fails for a path that is
    missing; otherwise it returns, each once, the files of the map whose
    path is included in the path with the depth, inclusion being the one
    of the design: with depth 0 that is the file of the path alone, with
    depth infinity every file in the tree of the path. *)
Theorem LookupSubtree_depths (order : list string) (p : string) (depth : Z)
    (fs : memfs.files) :
  memfs.fs_reachable fs ->
  NoDup order -> (forall k, k ∈ order <-> is_Some (fs !! k)) ->
  depth <= 0 ->
  match fs !! p with
  | None => memfs.LookupSubtree order p depth fs = Err (DavError ErrorNotFound)
  | Some f0 =>
      exists files,
        memfs.LookupSubtree order p depth fs = Ok files
        /\ NoDup files
        /\ (forall f, f ∈ files
                      <-> fs !! memfs.path f = Some f
                          /\ design.included (memfs.path f) p depth = true)
        /\ (depth = 0 -> files = [f0])
        /\ (depth < 0 ->
            forall f, f ∈ files
                      <-> fs !! memfs.path f = Some f
                          /\ design.in_tree (memfs.path f) p = true)
  end.
Proof.
  intros Hr Hnd Hord Hd.
  pose proof (LookupSubtree_spec order p depth fs Hr Hnd Hord) as H.
  destruct (fs !! p) as [f0|]; [|done].
  destruct H as (files & Heq & Hnd' & Hin & H0). exists files.
  split; [done|]. split; [done|].
  split; [intros f; by rewrite Hin, Included_design|].
  split; [done|]. intros Hneg f.
  by rewrite Hin, Included_unbounded, InTree_design.
Qed.

(** ** The further properties at concrete inputs *)

Lemma two_locks_depths (k : string) (l : lock) :
  two_locks !! k = Some l -> depth l <= 0.
Proof.
  assert (two_locks
          = <["t2" := mkLock "t2" (-1) "" (20 * Second) 0 "/b"]>
              {[ "t1" := mkLock "t1" 0 "" (20 * Second) 0 "/a" ]}) as ->
    by (vm_compute; reflexivity).
  intros [[_ <-]|[_ [_ <-]%lookup_singleton_Some]]%lookup_insert_Some;
    simpl; lia.
Qed.

Lemma lock_regions_overlap_witness :
  let op1 := OpCreateLock 0 "t1" [] "" "/a" 1 0 in
  let op2 := OpCreateLock 5 "t2" ["t1"] "" ("/a" +:+ "/" +:+ "b") 0 0 in
  let locks := lm_exec op2 (lm_exec op1 ∅) in
  lm_reachable locks
  /\ exists l1 l2,
       snd (createLock 0 "t1" [] "" "/a" 1 0 ∅) = Ok l1
       /\ snd (createLock 5 "t2" ["t1"] "" ("/a" +:+ "/" +:+ "b") 0 0
                 (lm_exec op1 ∅)) = Ok l2
       /\ locks !! "t1" = Some l1 /\ locks !! "t2" = Some l2
       /\ live 5 l1 /\ live 5 l2
       /\ path l1 = "/a" /\ depth l1 = 1
       /\ path l2 = "/a" +:+ "/" +:+ "b" /\ depth l2 = 0
       /\ design.included (path l2) (path l1) (depth l1) = true.
Proof.
  refine (lock_regions_overlap 0 5 "t1" "t2" "" "" "/a" "b" 0 0 _ _ _ _).
  - reflexivity.
  - reflexivity.
  - discriminate.
  - unfold Second. lia.
Defined.

Lemma write_below_depth1_lock_witness :
  let rt := sample.runtime 5 "t9" in
  let locks := fst (createLock 0 "t" [] "" "/a" 1 0 ∅) in
  lm_reachable locks
  /\ exists l,
       locks !! "t" = Some l /\ live (Now rt) l /\ path l = "/a" /\ depth l = 1
       /\ design.included ("/a" +:+ "/" +:+ "b") (path l) (depth l) = true
       /\ checkCanWrite rt None ("/a" +:+ "/" +:+ "b") locks = (locks, true)
       /\ snd (checkCanWrite rt None "/a" locks) = false.
Proof.
  refine (write_below_depth1_lock (sample.runtime 5 "t9") 0 "t" "" "/a" "b" 0
            _ _ _ (range_order_keys _)).
  - reflexivity.
  - reflexivity.
  - simpl. unfold Second. lia.
Defined.

Lemma createLock_conflict_depths_witness :
  let conflict :=
    exists k l, two_locks !! k = Some l /\ live 1 l
                /\ (design.included "/b/c" (path l) (depth l) = true
                    \/ design.included (path l) "/b/c" 0 = true) in
  let out := createLock 1 "t3" (sample.keys two_locks) "" "/b/c" 0 0 two_locks in
  (conflict <-> snd out = Err (DavError ErrorLocked))
  /\ (conflict -> lm_swept 1 two_locks (fst out))
  /\ (~ conflict ->
      exists l, snd out = Ok l /\ fst out !! "t3" = Some l
                /\ token l = "t3" /\ path l = "/b/c" /\ depth l = 0
                /\ owner l = ""
                /\ forall k l0, k <> "t3" -> two_locks !! k = Some l0 ->
                     live 1 l0 -> fst out !! k = Some l0).
Proof.
  refine (createLock_conflict_depths 1 "t3" (sample.keys two_locks) "" "/b/c"
            0 0 two_locks two_locks_reachable (range_order_keys two_locks)
            two_locks_depths _).
  lia.
Defined.

Lemma getLockForPath_depths_witness :
  let out := getLockForPath 1 (sample.keys two_locks) "/b/c" two_locks in
  lm_swept 1 two_locks (fst out)
  /\ match snd out with
     | Some l =>
         two_locks !! token l = Some l /\ live 1 l
         /\ design.included "/b/c" (path l) (depth l) = true
         /\ fst out !! token l = Some l
     | None =>
         (forall k l, two_locks !! k = Some l -> live 1 l ->
            design.included "/b/c" (path l) (depth l) = false)
         /\ (forall k l, fst out !! k = Some l -> live 1 l)
     end.
Proof.
  exact (getLockForPath_depths 1 (sample.keys two_locks) "/b/c" two_locks
           two_locks_reachable (range_order_keys two_locks) two_locks_depths).
Defined.

Lemma refreshLock_depths_witness :
  let out := refreshLock 1 "t2" "/b/c" (60 * Second) two_locks in
  ((exists e, snd out = Err e)
   <-> ~ exists l, two_locks !! "t2" = Some l /\ live 1 l
                   /\ design.included "/b/c" (path l) (depth l) = true)
  /\ ((exists e, snd out = Err e) -> lm_swept 1 two_locks (fst out))
  /\ (forall l, two_locks !! "t2" = Some l -> expired 1 l = true ->
        fst out !! "t2" = None).
Proof.
  exact (refreshLock_depths 1 "t2" "/b/c" (60 * Second) two_locks
           two_locks_reachable (two_locks_depths "t2")).
Defined.

Lemma covering_lock_unique_witness : "t2" = "t2".
Proof.
  refine (covering_lock_unique two_locks "t2" "t2"
            (mkLock "t2" (-1) "" (20 * Second) 0 "/b")
            (mkLock "t2" (-1) "" (20 * Second) 0 "/b") "/b/c"
            two_locks_reachable _ _ _ _ _ _).
  - vm_compute. reflexivity.
  - vm_compute. reflexivity.
  - simpl. lia.
  - simpl. lia.
  - vm_compute. reflexivity.
  - vm_compute. reflexivity.
Defined.

Lemma lock_duration_bounds_witness :
  let l := mkLock "t1" 0 "" (20 * Second) 0 "/a" in
  token l = "t1"
  /\ 20 * Second <= duration l <= 300 * Second
  /\ forall now p, modified l + 300 * Second < now ->
       isLocked now p "t1" two_locks = (delete "t1" two_locks, false).
Proof.
  refine (lock_duration_bounds two_locks "t1"
            (mkLock "t1" 0 "" (20 * Second) 0 "/a") two_locks_reachable _).
  vm_compute. reflexivity.
Defined.

Lemma ParseIfTag_String_witness :
  cond.IfTag_String sample_if
  = "</a> (Not urn:uuid:1 [W/7]) (urn:uuid:2)"
  /\ cond.ParseIfTag (cond.IfTag_String sample_if) = Some (sample_if, None).
Proof.
  split; [reflexivity|]. apply (ParseIfTag_String sample_if).
  vm_compute. reflexivity.
Defined.

Lemma lock_request_duration_witness :
  let rt := sample.runtime 1 "t" in
  let ctx := plain_context "/new" in
  let l := mkLock "t" (-1) "" (20 * Second) 1 "/new" in
  extractContext memBackend sampleLib (NewWebDAV (memfs.NewMemFS 0))
    (sample.request "LOCK" "/new" {[ "Timeout" := "Second-3600" ]})
  = Some (Some "/new", Ok ctx)
  /\ ctx_timeout ctx = Second
  /\ duration l = 20 * Second
  /\ forall t, expired t l = (Now rt + 20 * Second <? t).
Proof.
  split; [vm_compute; reflexivity|].
  refine (lock_request_duration memBackend sampleLib (sample.runtime 1 "t")
            (sample.request "LOCK" "/new" {[ "Timeout" := "Second-3600" ]})
            (NewWebDAV (memfs.NewMemFS 0)) (Some "/new") (plain_context "/new")
            (x.mkLockRequest "" false) ∅
            {[ "t" := mkLock "t" (-1) "" (20 * Second) 1 "/new" ]}
            (mkLock "t" (-1) "" (20 * Second) 1 "/new") _ _).
  - vm_compute. reflexivity.
  - vm_compute. reflexivity.
Defined.

Lemma precondition_failed_status_witness :
  let rt := sample.runtime 1 "t" in
  let r := sample.request "PUT" "/foo" {[ "If" := "(t9)" ]} in
  let s := NewWebDAV (memfs.NewMemFS 0) in
  exists s' w', memServe rt r s http.newResponse = Some (s', w')
                /\ http.status w' = 412
                /\ fs s' = fs s /\ lm_swept (Now rt) (lm s) (lm s').
Proof.
  refine (precondition_failed_status memBackend sampleLib noHandlers
            (sample.runtime 1 "t")
            (sample.request "PUT" "/foo" {[ "If" := "(t9)" ]})
            (NewWebDAV (memfs.NewMemFS 0)) http.newResponse (Some "/foo")
            {| ctx_p := "/foo"; ctx_depth := -1; ctx_timeout := Second;
               ctx_cond := Some (cond.mkIfTag
                                   [cond.mkConditionList ""
                                      [cond.mkCondition false "t9" ""]]);
               ctx_overwrite := true |}
            (cond.mkIfTag [cond.mkConditionList ""
                             [cond.mkCondition false "t9" ""]])
            _ _ _ _ _).
  - discriminate.
  - vm_compute. reflexivity.
  - reflexivity.
  - vm_compute. reflexivity.
  - reflexivity.
Defined.

Lemma errorHeader_allow_not_sent_witness :
  let s := {| fs := foo_fs; lm := ∅ |} in
  let w' := errorHeader memBackend (Some "/foo") (DavError ErrorIsDir) s
              http.newResponse in
  http.status w' = HTTPCode ErrorIsDir
  /\ http.sentHeader w' !! "Allow" = None
  /\ (HTTPCode ErrorIsDir = 405 -> is_Some (http.handlerHeader w' !! "Allow")).
Proof.
  exact (errorHeader_allow_not_sent memBackend "/foo" ErrorIsDir
           {| fs := foo_fs; lm := ∅ |} http.newResponse eq_refl eq_refl).
Defined.

Lemma doUnlock_depths_witness :
  let rt := sample.runtime 1 "t3" in
  let ctx := plain_context "/b/c" in
  let s := {| fs := memfs.NewMemFS 0; lm := two_locks |} in
  let out :=
    doUnlock memBackend rt ctx
      (sample.request "UNLOCK" "/b/c" {[ "Lock-Token" := "<t2>" ]}) s
      http.newResponse in
  let locked :=
    exists l, lm s !! "t2" = Some l /\ live (Now rt) l
              /\ design.included (ctx_p ctx) (path l) (depth l) = true in
  fs (fst out) = fs s
  /\ (locked ->
      lm (fst out) = delete "t2" (lm s) /\ snd out = http.newResponse
      /\ http.status (snd out) = 200)
  /\ (~ locked ->
      http.status (snd out) = 400
      /\ lm_swept (Now rt) (lm s) (lm (fst out))).
Proof.
  refine (doUnlock_depths memBackend (sample.runtime 1 "t3")
            (plain_context "/b/c")
            (sample.request "UNLOCK" "/b/c" {[ "Lock-Token" := "<t2>" ]})
            {| fs := memfs.NewMemFS 0; lm := two_locks |} http.newResponse
            "t2" _ _ _ (two_locks_depths "t2")).
  - discriminate.
  - vm_compute. reflexivity.
  - reflexivity.
Defined.

Lemma locked_write_refused_depths_witness :
  let rt := sample.runtime 1 "t3" in
  let ctx := plain_context "/b/c" in
  let r := sample.request "DELETE" "/b/c" ∅ in
  let s := {| fs := foo_fs; lm := two_locks |} in
  Forall (fun h : handler =>
            http.status (snd (h rt ctx r s http.newResponse)) = 423
            /\ fs (fst (h rt ctx r s http.newResponse)) = fs s
            /\ lm_swept (Now rt) (lm s)
                 (lm (fst (h rt ctx r s http.newResponse))))
         [doDelete memBackend sampleLib; doMkcol memBackend;
          doMove memBackend sampleLib].
Proof.
  refine (locked_write_refused_depths memBackend sampleLib
            (sample.runtime 1 "t3") (plain_context "/b/c")
            (sample.request "DELETE" "/b/c" ∅)
            {| fs := foo_fs; lm := two_locks |} http.newResponse "t2"
            (mkLock "t2" (-1) "" (20 * Second) 0 "/b")
            two_locks_reachable (range_order_keys two_locks) _ _ _ _ _ _).
  - vm_compute. reflexivity.
  - vm_compute. reflexivity.
  - simpl. lia.
  - vm_compute. reflexivity.
  - reflexivity.
  - reflexivity.
Defined.

Lemma lock_then_unlock_witness :
  let rt := sample.runtime 1 "t" in
  let ctx := plain_context "/foo" in
  let r := sample.request "LOCK" "/foo" ∅ in
  let s := {| fs := foo_fs; lm := ∅ |} in
  let l := mkLock "t" (-1) "" (20 * Second) 1 "/foo" in
  let locks1 : lockmaster := {[ "t" := l ]} in
  let s1 := fst (doLock memBackend sampleLib rt ctx r s http.newResponse) in
  let w1 := snd (doLock memBackend sampleLib rt ctx r s http.newResponse) in
  s1 = {| fs := foo_fs; lm := locks1 |}
  /\ locks1 !! NewToken rt = Some l
  /\ http.status w1 = 200
  /\ http.sentHeader w1 !! "Lock-Token" = Some ("<" +:+ NewToken rt +:+ ">")
  /\ forall (rt2 : Runtime) (r2 : http.Request) (w2 : http.ResponseWriter),
       http.Get r2 "Lock-Token" = "<" +:+ NewToken rt +:+ ">" ->
       Now rt2 <= Now rt + 20 * Second ->
       doUnlock memBackend rt2 ctx r2 s1 w2
       = ({| fs := foo_fs; lm := delete (NewToken rt) locks1 |}, w2).
Proof.
  refine (lock_then_unlock memBackend sampleLib (sample.runtime 1 "t")
            (plain_context "/foo") (sample.request "LOCK" "/foo" ∅)
            {| fs := foo_fs; lm := ∅ |} http.newResponse
            (x.mkLockRequest "" false) (memfs.newMemFile 0 "/" true)
            {[ "t" := mkLock "t" (-1) "" (20 * Second) 1 "/foo" ]}
            (mkLock "t" (-1) "" (20 * Second) 1 "/foo") foo_fs 200
            _ _ _ _ _ _ _).
  - reflexivity.
  - reflexivity.
  - vm_compute. reflexivity.
  - vm_compute. reflexivity.
  - split; reflexivity.
  - discriminate.
  - reflexivity.
Defined.

Lemma doLock_acquire_failure_witness :
  let rt := sample.runtime 1 "t3" in
  let ctx := plain_context "/a" in
  let s := {| fs := memfs.NewMemFS 0; lm := two_locks |} in
  let req := x.mkLockRequest "" false in
  let e := DavError ErrorLocked in
  let out :=
    doLock memBackend sampleLib rt ctx (sample.request "LOCK" "/a" ∅) s
      http.newResponse in
  fst out = {| fs := fs s; lm := two_locks |}
  /\ lm_swept (Now rt) (lm s) two_locks
  /\ (x.Refresh req = false ->
      e = DavError ErrorLocked /\ http.status (snd out) = 423)
  /\ (x.Refresh req = true ->
      (e = DavError ErrorBadLock /\ http.status (snd out) = 400
       /\ (ctx_cond ctx = None
           \/ exists c, ctx_cond ctx = Some c
                        /\ snd (cond.GetSingleState c) = false))
      \/ (exists c msg, ctx_cond ctx = Some c
                        /\ snd (cond.GetSingleState c) = true
                        /\ e = errorString msg
                        /\ http.status (snd out) = 500)).
Proof.
  refine (doLock_acquire_failure memBackend sampleLib (sample.runtime 1 "t3")
            (plain_context "/a") (sample.request "LOCK" "/a" ∅)
            {| fs := memfs.NewMemFS 0; lm := two_locks |} http.newResponse
            (x.mkLockRequest "" false) (memfs.newMemFile 0 "/" true)
            two_locks (DavError ErrorLocked) two_locks_reachable _ _ _ _).
  - reflexivity.
  - vm_compute. reflexivity.
  - vm_compute. reflexivity.
  - reflexivity.
Defined.

Lemma foo_fs_reachable : memfs.fs_reachable foo_fs.
Proof.
  apply (memfs.fs_reach_step (memfs.NewMemFS 0) (memfs.OpCreate 0 "/foo")).
  apply memfs.fs_reach_new.
Qed.

Lemma dir_fs_reachable : memfs.fs_reachable dir_fs.
Proof. repeat apply memfs.fs_reach_step. apply memfs.fs_reach_new. Qed.

Lemma file_keys_order (fs : memfs.files) :
  NoDup (file_keys fs) /\ forall k, k ∈ file_keys fs <-> is_Some (fs !! k).
Proof.
  split; [apply NoDup_fst_map_to_list|].
  intros k. unfold file_keys. rewrite list_elem_of_fmap. split.
  - intros ([k' f] & -> & Hin). apply elem_of_map_to_list in Hin. by exists f.
  - intros [f Hf]. exists (k, f). split; [done|]. by apply elem_of_map_to_list.
Qed.

Lemma Write_then_Read_witness :
  let h := memfs.mkHandle (memfs.newMemFile 0 "/foo" false) 2 in
  let old := default "" (memfs.data (memfs.hf h)) in
  let start := Z.to_nat (memfs.hpos h) in
  let h1 := fst (memfs.Write 5 "ab" h) in
  let d := default "" (memfs.data (memfs.hf h1)) in
  snd (memfs.Write 5 "ab" h) = (Z.of_nat (String.length "ab"), None)
  /\ memfs.hpos h1 = memfs.hpos h + Z.of_nat (String.length "ab")
  /\ memfs.Stat (memfs.hf h1)
     = Ok {| Created := Created (memfs.i (memfs.hf h)); LastModified := 5;
             Size := Z.max (Z.of_nat (String.length old))
                           (memfs.hpos h + Z.of_nat (String.length "ab")) |}
  /\ (forall i,
        String.get i d
        = if (i <? start)%nat
          then (if (i <? String.length old)%nat then String.get i old
                else Some Ascii.zero)
          else if (i <? start + String.length "ab")%nat
               then String.get (i - start) "ab"
               else String.get i old)
  /\ snd (memfs.Read (String.length "ab")
            (fst (memfs.Seek (memfs.hpos h) 0 h1)))
     = ("ab", (Z.of_nat (String.length "ab"), None)).
Proof.
  refine (Write_then_Read 5 "ab"
            (memfs.mkHandle (memfs.newMemFile 0 "/foo" false) 2) _ _).
  - discriminate.
  - simpl. lia.
Defined.

Lemma Read_spec_witness :
  let h := fst (memfs.Seek 1 0
                  (fst (memfs.Write 5 "hello"
                          (memfs.mkHandle (memfs.newMemFile 0 "/foo" false) 0)))) in
  let d := default "" (memfs.data (memfs.hf h)) in
  let start := Z.to_nat (memfs.hpos h) in
  (Z.of_nat (String.length d) <= memfs.hpos h ->
   memfs.Read 3 h = (h, ("", (0, Some io_EOF))))
  /\ (memfs.hpos h < Z.of_nat (String.length d) ->
      let k := Nat.min 3 (String.length d - start) in
      memfs.Read 3 h
      = ({| memfs.hf := memfs.hf h; memfs.hpos := memfs.hpos h + Z.of_nat k |},
         (String.substring start k d, (Z.of_nat k, None)))
      /\ ((String.length d - start <= 3)%nat ->
          forall m,
            snd (memfs.Read m (fst (memfs.Read 3 h))) = ("", (0, Some io_EOF)))).
Proof.
  refine (Read_spec 3
            (fst (memfs.Seek 1 0
                    (fst (memfs.Write 5 "hello"
                            (memfs.mkHandle (memfs.newMemFile 0 "/foo" false) 0)))))
            _).
  vm_compute. discriminate.
Defined.

Lemma memfs_key_is_path_witness :
  memfs.path (memfs.newMemFile 0 "/d/x" false) = "/d/x".
Proof.
  refine (memfs_key_is_path dir_fs "/d/x" (memfs.newMemFile 0 "/d/x" false)
            dir_fs_reachable _).
  vm_compute. reflexivity.
Defined.

Lemma Create_Remove_roundtrip_witness :
  let fs := memfs.NewMemFS 0 in
  let f := memfs.newMemFile 3 "/foo" false in
  memfs.Create 3 "/foo" fs = (<["/foo" := f]> fs, Ok f)
  /\ memfs.IsDirectory f = false /\ memfs.data f = Some ""
  /\ memfs.Lookup "/foo" (<["/foo" := f]> fs) = Ok f
  /\ snd (memfs.Create 3 "/foo" (<["/foo" := f]> fs))
     = Err (DavError ErrorConflict)
  /\ memfs.Remove "/foo" (<["/foo" := f]> fs) = (fs, None)
  /\ memfs.Lookup "/foo" fs = Err (DavError ErrorNotFound).
Proof.
  refine (Create_Remove_roundtrip 3 "/foo" (memfs.NewMemFS 0)
            (memfs.newMemFile 0 "/" true) _ _).
  - reflexivity.
  - vm_compute. reflexivity.
Defined.

Lemma RecursiveRemove_spec_witness :
  match dir_fs !! "/d" with
  | None =>
      memfs.RecursiveRemove "/d" dir_fs
      = (dir_fs, [("/d", DavError ErrorNotFound)])
  | Some f =>
      if memfs.dir f then
        snd (memfs.RecursiveRemove "/d" dir_fs) = []
        /\ forall q, fst (memfs.RecursiveRemove "/d" dir_fs) !! q
                     = if wp.InTree q "/d" then None else dir_fs !! q
      else memfs.RecursiveRemove "/d" dir_fs
           = (dir_fs, [("/d", DavError ErrorIsNotDir)])
  end.
Proof. exact (RecursiveRemove_spec "/d" dir_fs dir_fs_reachable). Defined.

Lemma ForPath_idempotent_witness :
  GoPath.IsAbs "/b" = true
  /\ memfs.ForPath "/b" foo_fs = Ok "/b"
  /\ memfs.ForPath ("/b" +:+ "/") foo_fs = Ok "/b".
Proof.
  refine (ForPath_idempotent "/a/../b/" "/b" dir_fs foo_fs _).
  vm_compute. reflexivity.
Defined.

Lemma ForPath_child_witness :
  exists child,
    memfs.ForPath ("/b" +:+ "/" +:+ "c.txt") dir_fs = Ok child
    /\ memfs.parent child = "/b"
    /\ wp.InTree child "/b" = true
    /\ child <> "/b"
    /\ memfs.parent "/" = "/".
Proof.
  refine (ForPath_child "/a/../b/" "/b" "c.txt" dir_fs _ _).
  - vm_compute. reflexivity.
  - vm_compute. reflexivity.
Defined.

Lemma foo_fs_leaf (k : string) :
  is_Some (foo_fs !! k) -> wp.InTree k "/foo" = true -> k = "/foo".
Proof.
  intros [v Hv] Hin. unfold foo_fs in Hv.
  apply lookup_insert_Some in Hv as [[<- _]|[_ Hv]]; [done|].
  unfold memfs.NewMemFS in Hv. apply lookup_singleton_Some in Hv as [<- _].
  vm_compute in Hin. discriminate.
Qed.

Lemma CopyTo_single_witness :
  let f := memfs.newMemFile 0 "/foo" false in
  let opt := mkCopyOptions false false (-1) in
  memfs.CopyTo 9 file_keys "/foo" "/bar" opt foo_fs
  = (if Move opt then delete "/foo" (<["/bar" := memfs.set_path "/bar" f]> foo_fs)
     else <["/bar" := memfs.clone 9 "/bar" f]> foo_fs, Ok true)
  /\ memfs.p (memfs.clone 9 "/bar" f) = memfs.p f
  /\ (memfs.dir f = false ->
      memfs.data (memfs.clone 9 "/bar" f) = Some (default "" (memfs.data f))).
Proof.
  refine (CopyTo_single 9 file_keys "/foo" "/bar" "/bar/"
            (mkCopyOptions false false (-1)) foo_fs
            (memfs.newMemFile 0 "/foo" false) (memfs.newMemFile 0 "/" true)
            _ foo_fs_leaf _ _ _ _ _ _ _).
  - vm_compute. reflexivity.
  - discriminate.
  - vm_compute. reflexivity.
  - vm_compute. reflexivity.
  - vm_compute. reflexivity.
  - vm_compute. reflexivity.
  - apply (proj2 (file_keys_order foo_fs)).
    exists (memfs.newMemFile 0 "/foo" false). vm_compute. reflexivity.
  - reflexivity.
Defined.

Lemma CopyTo_failure_witness :
  let opt := mkCopyOptions false true 0 in
  let e := DavError ErrorIsDir in
  fst (memfs.CopyTo 9 file_keys "/d" "/e" opt dir_fs) = dir_fs
  /\ e = DavError
           (if String.eqb "/d" "/e" then ErrorSameFile
            else match dir_fs !! "/d" with
                 | None => ErrorNotFound
                 | Some srcf =>
                     if memfs.dir srcf && Move opt && (0 <=? Depth opt)
                     then ErrorIsDir
                     else match dir_fs !! memfs.parent "/e" with
                          | None => ErrorMissingParent
                          | Some _ => ErrorDestExists
                          end
                 end)
  /\ exists we, e = DavError we /\ HTTPCode we ∈ [403; 404; 405; 409; 412].
Proof.
  refine (CopyTo_failure 9 file_keys "/d" "/e" (mkCopyOptions false true 0)
            dir_fs (DavError ErrorIsDir) _).
  vm_compute. reflexivity.
Defined.

Lemma LookupSubtree_depths_witness :
  match dir_fs !! "/d" with
  | None =>
      memfs.LookupSubtree (file_keys dir_fs) "/d" (-1) dir_fs
      = Err (DavError ErrorNotFound)
  | Some f0 =>
      exists files,
        memfs.LookupSubtree (file_keys dir_fs) "/d" (-1) dir_fs = Ok files
        /\ NoDup files
        /\ (forall f, f ∈ files
                      <-> dir_fs !! memfs.path f = Some f
                          /\ design.included (memfs.path f) "/d" (-1) = true)
        /\ (-1 = 0 -> files = [f0])
        /\ (-1 < 0 ->
            forall f, f ∈ files
                      <-> dir_fs !! memfs.path f = Some f
                          /\ design.in_tree (memfs.path f) "/d" = true)
  end.
Proof.
  refine (LookupSubtree_depths (file_keys dir_fs) "/d" (-1) dir_fs
            dir_fs_reachable (proj1 (file_keys_order dir_fs))
            (proj2 (file_keys_order dir_fs)) _).
  lia.
Defined.

Lemma delete_collection_witness :
  let rt := sample.runtime 1 "t" in
  let ctx := plain_context "/d" in
  let s := {| fs := dir_fs; lm := ∅ |} in
  let out :=
    doDelete memBackend sampleLib rt ctx (sample.request "DELETE" "/d" ∅) s
      http.newResponse in
  http.status (snd out) = 204
  /\ forall q, fs (fst out) !! q
               = if wp.InTree q (ctx_p ctx) then None else fs s !! q.
Proof.
  refine (delete_collection (sample.runtime 1 "t") (plain_context "/d")
            (sample.request "DELETE" "/d" ∅) {| fs := dir_fs; lm := ∅ |}
            http.newResponse (memfs.newMemFile 0 "/d" true)
            dir_fs_reachable _ _ _ _).
  - vm_compute. reflexivity.
  - vm_compute. reflexivity.
  - reflexivity.
  - reflexivity.
Defined.

Lemma put_stores_body_witness :
  let chunks := fun _ : string => ["he"; ""; "llo"] in
  let rt := sample.runtime 1 "t" in
  let ctx := plain_context "/foo" in
  let r := put_request "/foo" "hello" in
  let s := {| fs := foo_fs; lm := ∅ |} in
  let out := doPut memBackend (memIO chunks) rt ctx r s http.newResponse in
  let stored (f' : memfs.memfile) :=
    fs (fst out) = <[ctx_p ctx := f']> (fs s)
    /\ memfs.data f' = Some (http.Body r)
    /\ memfs.dir f' = false /\ memfs.path f' = ctx_p ctx in
  match fs s !! ctx_p ctx with
  | Some f =>
      if memfs.dir f
      then http.status (snd out) = 405 /\ fs (fst out) = fs s
      else http.status (snd out) = 204
           /\ exists f', stored f' /\ memfs.p f' = memfs.p f
  | None =>
      match fs s !! memfs.parent (ctx_p ctx) with
      | Some _ => http.status (snd out) = 201 /\ exists f', stored f'
      | None => http.status (snd out) = 409 /\ fs (fst out) = fs s
      end
  end.
Proof.
  refine (put_stores_body (fun _ : string => ["he"; ""; "llo"])
            (sample.runtime 1 "t") (plain_context "/foo")
            (put_request "/foo" "hello") {| fs := foo_fs; lm := ∅ |}
            http.newResponse foo_fs_reachable _ _ _).
  - vm_compute. reflexivity.
  - reflexivity.
  - reflexivity.
Defined.


(** The listing of a directory other than the root with depth 1 holds the
    directory alone: the test [Included] does not find its children
    (C1). *)
Example LookupSubtree_depth1 :
  dir_fs !! "/d/x" = Some (memfs.newMemFile 0 "/d/x" false)
  /\ design.included "/d/x" "/d" 1 = true
  /\ memfs.path <$> default [] (match memfs.LookupSubtree (file_keys dir_fs)
                                        "/d" 1 dir_fs with
                                | Ok files => Some files
                                | Err _ => None
                                end) = ["/d"].
Proof. repeat split; vm_compute; reflexivity. Qed.
